(** * ttsim: board model, gear connectivity, fence layout, animator and
    physics router, embedded from the TypeScript sources.

    Conventions of the embedding.
    - A JavaScript object is a record in a store and is named by its
      identity (a [nat]); fields that hold objects hold identities.
    - A JavaScript [number] that is only ever an array index, a label or a
      counter is a [Z] (or a [nat] where the source rules out negatives
      before use); every other [number] is an exact rational [Q], so that
      rounding error and the non-finite values are outside the model.
    - A JavaScript [Map] or [Set] is an insertion-ordered list without
      repeated keys, as its iteration order is observable.
    - A [throw] is the [Throw] outcome, which keeps the state reached
      when it was raised; a loop the source writes as [while (true)] runs
      on fuel and reports [Diverge] when the fuel is gone. *)

From Stdlib Require Import ZArith QArith Qminmax Qabs Qround Lia Bool.
From stdpp Require Import gmap list strings relations.

Set Default Proof Using "Type".
Local Open Scope Z_scope.

(** ** Insertion-ordered maps and sets (JavaScript [Map] and [Set]) *)

Module JsMap.
Section JsMap.
Context {K V : Type} `{EqDecision K}.

Fixpoint get (k : K) (m : list (K * V)) : option V :=
  match m with
  | [] => None
  | (k', v) :: m' => if decide (k' = k) then Some v else get k m'
  end.

Definition has (k : K) (m : list (K * V)) : bool :=
  match get k m with Some _ => true | None => false end.

(** [Map.prototype.set]: an existing key keeps its place in the
    iteration order, a new key goes last. *)
Fixpoint set (k : K) (v : V) (m : list (K * V)) : list (K * V) :=
  match m with
  | [] => [(k, v)]
  | (k', v') :: m' =>
      if decide (k' = k) then (k, v) :: m' else (k', v') :: set k v m'
  end.

(** The representation never repeats a key, so at most one entry goes. *)
Fixpoint delete (k : K) (m : list (K * V)) : list (K * V) :=
  match m with
  | [] => []
  | (k', v') :: m' =>
      if decide (k' = k) then delete k m' else (k', v') :: delete k m'
  end.

Definition keys (m : list (K * V)) : list K := m.*1.

Lemma jm_get_set_eq k v m : get k (set k v m) = Some v.
Proof.
  induction m as [|[k' v'] m IH]; simpl.
  - by rewrite decide_True.
  - destruct (decide (k' = k)) as [->|Hne]; simpl.
    + by rewrite decide_True.
    + by rewrite decide_False.
Qed.

Lemma jm_get_set_ne k k' v m : k ≠ k' → get k' (set k v m) = get k' m.
Proof.
  intros Hne. induction m as [|[k0 v0] m IH]; simpl.
  - by rewrite decide_False.
  - destruct (decide (k0 = k)) as [->|Hne0]; simpl.
    + by rewrite !decide_False.
    + destruct (decide (k0 = k')); auto.
Qed.

Lemma jm_get_delete_ne k k' m : k ≠ k' → get k' (delete k m) = get k' m.
Proof.
  intros Hne. induction m as [|[k0 v0] m IH]; simpl; [done|].
  destruct (decide (k0 = k)) as [->|Hne0]; simpl.
  - by rewrite decide_False.
  - destruct (decide (k0 = k')); auto.
Qed.

Lemma jm_get_delete_eq k m : get k (delete k m) = None.
Proof.
  induction m as [|[k0 v0] m IH]; simpl; [done|].
  destruct (decide (k0 = k)) as [->|Hne]; simpl; [done|].
  by rewrite decide_False.
Qed.

Lemma jm_delete_absent k m : get k m = None → delete k m = m.
Proof.
  induction m as [|[k0 v0] m IH]; simpl; [done|].
  destruct (decide (k0 = k)); [done|]. intros Hg. by rewrite IH.
Qed.

Lemma jm_get_nil_of_length (m : list (K * V)) k : length m = 0%nat → get k m = None.
Proof. by destruct m. Qed.
End JsMap.
End JsMap.

Module JsSet.
Section JsSet.
Context {K : Type} `{EqDecision K}.

Definition has (k : K) (s : list K) : bool := bool_decide (k ∈ s).

Definition add (k : K) (s : list K) : list K :=
  if has k s then s else s ++ [k].

Fixpoint delete (k : K) (s : list K) : list K :=
  match s with
  | [] => []
  | k' :: s' => if decide (k' = k) then delete k s' else k' :: delete k s'
  end.

Lemma js_elem_of_add k k' s : k' ∈ add k s ↔ k' = k ∨ k' ∈ s.
Proof.
  unfold add, has. case_bool_decide.
  - split; [auto|]. intros [->|]; auto.
  - rewrite elem_of_app, list_elem_of_singleton. tauto.
Qed.

Lemma js_NoDup_add k s : NoDup s → NoDup (add k s).
Proof.
  intros Hnd. unfold add, has. case_bool_decide; [done|].
  apply NoDup_app. split_and!; [done| |apply NoDup_singleton].
  intros x Hx. rewrite list_elem_of_singleton. by intros ->.
Qed.

Lemma js_delete_absent k s : k ∉ s → delete k s = s.
Proof.
  induction s as [|k0 s IH]; simpl; [done|].
  rewrite not_elem_of_cons. intros [Hne Hni].
  rewrite decide_False; [|done]. by rewrite IH.
Qed.

Lemma js_elem_of_delete k k' s : k' ∈ delete k s ↔ k' ≠ k ∧ k' ∈ s.
Proof.
  induction s as [|k0 s IH]; simpl.
  - rewrite elem_of_nil. tauto.
  - destruct (decide (k0 = k)) as [->|Hne]; rewrite ?elem_of_cons, IH.
    + intuition congruence.
    + intuition congruence.
Qed.

Lemma js_NoDup_delete k s : NoDup s → NoDup (delete k s).
Proof.
  induction s as [|k0 s IH]; simpl; [done|].
  rewrite NoDup_cons. intros [Hni Hnd].
  destruct (decide (k0 = k)); [auto|].
  apply NoDup_cons. split; [|auto].
  rewrite js_elem_of_delete. tauto.
Qed.
End JsSet.
End JsSet.

(** ** Outcomes of an imperative call *)

(** [Ok a]: the call came back with [a]; [Throw msg s]: it raised [msg] and
    left the state [s] behind; [Diverge]: it ran out of fuel. *)
Inductive outcome (S A : Type) : Type :=
  | Ok (a : A)
  | Throw (msg : string) (s : S)
  | Diverge.
Arguments Ok {S A} a.
Arguments Throw {S A} msg s.
Arguments Diverge {S A}.

(** The state a command leaves, when it came back at all. *)
Definition final {S : Type} (o : outcome S S) : option S :=
  match o with Ok s | Throw _ s => Some s | Diverge => None end.

(** ** Numbers *)

Definition Qltb (x y : Q) : bool := negb (Qle_bool y x).

Lemma Qltb_lt x y : Qltb x y = true ↔ (x < y)%Q.
Proof.
  unfold Qltb. rewrite negb_true_iff, <- not_true_iff_false, Qle_bool_iff.
  split; [apply Qnot_le_lt | apply Qlt_not_le].
Qed.

Lemma Qltb_ge x y : Qltb x y = false ↔ (y <= x)%Q.
Proof. unfold Qltb. by rewrite negb_false_iff, Qle_bool_iff. Qed.

(** [Math.min(Math.max(lo, v), hi)] *)
Definition clamp (lo hi v : Q) : Q := Qmin (Qmax lo v) hi.

Lemma clamp_bounds lo hi v : (lo <= hi)%Q → (lo <= clamp lo hi v ∧ clamp lo hi v <= hi)%Q.
Proof.
  intros Hle. unfold clamp. split.
  - apply Q.min_glb; [apply Q.le_max_l | done].
  - apply Q.le_min_r.
Qed.

(** ** ui/animator: the property animator *)

Module Animator.

(** The identity of the animated object. *)
Definition Subject : Type := nat.

Record Animation : Type := mkAnimation {
  subject : Subject;
  property : string;
  start : Q;
  end_ : Q;
  time : Q;
  delta : Q
}.

(** [Animator._subjects]: a Map from subject to a Map from property name
    to the animation record. *)
Definition Subjects : Type := list (Subject * list (string * Animation)).

(** [stopAnimating] deletes the record from the subject's inner Map (an
    object, mutated in place) and drops the subject once that Map is empty. *)
Definition stopAnimating (subject : Subject) (property : string)
    (subjects : Subjects) : Subjects :=
  match JsMap.get subject subjects with
  | None => subjects
  | Some properties =>
      let properties' := JsMap.delete property properties in
      if decide (length properties' = 0%nat)
      then JsMap.delete subject subjects
      else JsMap.set subject properties' subjects
  end.

Definition getEndValue (current : Q) (subject : Subject) (property : string)
    (subjects : Subjects) : Q :=
  match JsMap.get subject subjects with
  | None => current
  | Some properties =>
      match JsMap.get property properties with
      | None => current
      | Some animation => end_ animation
      end
  end.

Section Animator.
(** The store the subjects live in, and how [subject[property]] is read and
    written there; a property setter may call back into the animator. *)
Context {Obj : Type}.
Variable getProperty : Subject → string → Obj → Q.
Variable setProperty : Subject → string → Q → Subjects * Obj → Subjects * Obj.

(** An existing record is updated in place and keeps its [subject] and
    [property], so both branches of the source leave the same record. *)
Definition animate (subject : Subject) (property : string) (start end_ time : Q)
    (st : Subjects * Obj) : Subjects * Obj :=
  if negb (Qltb 0 time) then
    setProperty subject property end_ (stopAnimating subject property st.1, st.2)
  else
    let subjects :=
      if JsMap.has subject st.1 then st.1 else JsMap.set subject [] st.1 in
    let properties := default [] (JsMap.get subject subjects) in
    let delta := ((end_ - start) / (time * 60))%Q in
    let animation := mkAnimation subject property start end_ time delta in
    (JsMap.set subject (JsMap.set property animation properties) subjects, st.2).

(** The body of the inner loop of [update] for one record. The sum
    [current + delta * |correction|] is the exact one: the source rounds
    the product and the sum to floating-point numbers, so that the tick on
    which a ramp arrives can differ from the one computed here; a record
    whose [delta] is zero involves no arithmetic. *)
Definition advance (correction : Q) (subject : Subject) (property : string)
    (animation : Animation) (st : Subjects * Obj) : Subjects * Obj :=
  let current := getProperty subject property st.2 in
  let current := (current + delta animation * Qabs correction)%Q in
  if Qltb 0 (delta animation) then
    if Qle_bool (end_ animation) current
    then setProperty subject property (end_ animation)
           (stopAnimating subject property st.1, st.2)
    else setProperty subject property current st
  else if Qltb (delta animation) 0 then
    if Qle_bool current (end_ animation)
    then setProperty subject property (end_ animation)
           (stopAnimating subject property st.1, st.2)
    else setProperty subject property current st
  else setProperty subject property (end_ animation) st.

(** Iterating a Map visits the entries that are still in it when their
    turn comes: an entry deleted by an earlier step is skipped. Nothing
    is added while [update] runs. *)
Fixpoint update_properties (correction : Q) (subject : Subject)
    (entries : list (string * Animation)) (st : Subjects * Obj) : Subjects * Obj :=
  match entries with
  | [] => st
  | (property, _) :: rest =>
      let live := JsMap.get subject st.1 ≫= JsMap.get property in
      let st' :=
        match live with
        | Some animation => advance correction subject property animation st
        | None => st
        end in
      update_properties correction subject rest st'
  end.

Fixpoint update_subjects (correction : Q)
    (entries : list (Subject * list (string * Animation)))
    (st : Subjects * Obj) : Subjects * Obj :=
  match entries with
  | [] => st
  | (subject, _) :: rest =>
      let st' :=
        match JsMap.get subject st.1 with
        | Some properties => update_properties correction subject properties st
        | None => st
        end in
      update_subjects correction rest st'
  end.

Definition update (correction : Q) (st : Subjects * Obj) : Subjects * Obj :=
  update_subjects correction st.1 st.

End Animator.

(** Subjects whose properties are plain data fields. *)
Definition Plain : Type := Subject → string → Q.

Definition getPlain (subject : Subject) (property : string) (o : Plain) : Q :=
  o subject property.

Definition setPlain (subject : Subject) (property : string) (v : Q)
    (st : Subjects * Plain) : Subjects * Plain :=
  (st.1, λ s p, if decide (s = subject ∧ p = property) then v else st.2 s p).

Definition registered (subject : Subject) (property : string)
    (subjects : Subjects) : bool :=
  match JsMap.get subject subjects ≫= JsMap.get property with
  | Some _ => true
  | None => false
  end.

Lemma registered_stopAnimating subject property subject' property' subjects :
  registered subject' property' (stopAnimating subject property subjects)
  = if decide (subject' = subject ∧ property' = property) then false
    else registered subject' property' subjects.
Proof.
  unfold registered, stopAnimating.
  destruct (JsMap.get subject subjects) as [properties|] eqn:Hget.
  - destruct (decide (subject' = subject)) as [->|Hs].
    + destruct (decide (length _ = 0%nat)) as [Hlen|Hlen].
      * rewrite JsMap.jm_get_delete_eq. simpl.
        destruct (decide (_ ∧ _)) as [Hd|Hd]; [done|]. rewrite Hget. simpl.
        assert (property ≠ property') as Hp by (intros ->; apply Hd; done).
        erewrite <- (JsMap.jm_get_delete_ne property property') by done.
        by rewrite JsMap.jm_get_nil_of_length.
      * rewrite JsMap.jm_get_set_eq. simpl.
        destruct (decide (_ ∧ _)) as [Hd|Hd].
        -- destruct Hd as [_ ->]. by rewrite JsMap.jm_get_delete_eq.
        -- rewrite Hget. simpl. rewrite JsMap.jm_get_delete_ne; [done|].
           intros ->. by apply Hd.
    + rewrite (decide_False (P := subject' = subject ∧ _)) by (intros [? _]; done).
      destruct (decide (length _ = 0%nat)).
      * by rewrite JsMap.jm_get_delete_ne.
      * by rewrite JsMap.jm_get_set_ne.
  - destruct (decide (_ ∧ _)) as [Hd|Hd]; [|done]. destruct Hd as [-> ->]. by rewrite Hget.
Qed.

(** One tick of an upward ramp that has not arrived yet adds
    [delta * |correction|] to the value and keeps the record. *)
Lemma advance_plain_rising correction subject property animation subjects o :
  (0 < delta animation)%Q →
  (o subject property + delta animation * Qabs correction < end_ animation)%Q →
  let st' := advance getPlain setPlain correction subject property animation (subjects, o) in
  st'.1 = subjects ∧
  st'.2 subject property = (o subject property + delta animation * Qabs correction)%Q.
Proof.
  intros Hd Hlt. unfold advance, getPlain, setPlain. simpl.
  apply Qltb_lt in Hd. rewrite Hd.
  destruct (Qle_bool _ _) eqn:Hle.
  - apply Qle_bool_iff in Hle. exfalso. eapply Qlt_not_le; eauto.
  - simpl. split; [done|]. by rewrite decide_True.
Qed.

(** A tick that reaches or passes the target of an upward ramp writes
    [end] and deregisters the record. *)
Lemma advance_plain_arrived correction subject property animation subjects o :
  (0 < delta animation)%Q →
  (end_ animation <= o subject property + delta animation * Qabs correction)%Q →
  let st' := advance getPlain setPlain correction subject property animation (subjects, o) in
  st'.1 = stopAnimating subject property subjects ∧
  st'.2 subject property = end_ animation.
Proof.
  intros Hd Hle. unfold advance, getPlain, setPlain. simpl.
  apply Qltb_lt in Hd. rewrite Hd.
  apply Qle_bool_iff in Hle. rewrite Hle. simpl.
  split; [done|]. by rewrite decide_True.
Qed.

(** A ramp whose delta is zero takes the last branch of [update]: the value
    is written, the record stays. *)
Lemma advance_plain_level correction subject property animation subjects o :
  (delta animation == 0)%Q →
  let st' := advance getPlain setPlain correction subject property animation (subjects, o) in
  st'.1 = subjects ∧ st'.2 subject property = end_ animation.
Proof.
  intros Hd. unfold advance, getPlain, setPlain. simpl.
  assert (Qltb 0 (delta animation) = false) as ->.
  { apply Qltb_ge. rewrite Hd. apply Qle_refl. }
  assert (Qltb (delta animation) 0 = false) as ->.
  { apply Qltb_ge. rewrite Hd. apply Qle_refl. }
  simpl. split; [done|]. by rewrite decide_True.
Qed.

Lemma animate_level_subjects subject property v time (o : Plain) :
  (0 < time)%Q →
  ∃ animation,
    (delta animation == 0)%Q ∧ end_ animation = v ∧
    (animate setPlain subject property v v time ([], o)).1
      = [(subject, [(property, animation)])].
Proof.
  intros Ht. unfold animate. apply Qltb_lt in Ht. rewrite Ht. simpl.
  exists (mkAnimation subject property v v time ((v - v) / (time * 60))%Q).
  split; [|split; [done|]].
  - simpl. unfold Qdiv. assert (v - v == 0)%Q as -> by ring. ring.
  - by rewrite !decide_True.
Qed.

Lemma update_level_subjects correction subject property animation (o : Plain) :
  (delta animation == 0)%Q →
  let st' := update getPlain setPlain correction
               ([(subject, [(property, animation)])], o) in
  st'.1 = [(subject, [(property, animation)])] ∧
  st'.2 subject property = end_ animation.
Proof.
  intros Hd. unfold update. simpl.
  repeat (rewrite decide_True by done; simpl).
  by apply advance_plain_level.
Qed.

(** C6 (the code departs from the claim): a ramp registered with a positive
    duration and [start = end] has delta zero; [update] then writes [end] into
    the property on every tick but never calls [stopAnimating], so the record
    is still registered after any number of updates although the property
    has reached [end]. *)
Theorem update_level_ramp_stays_registered subject property v time correction
    (o : Plain) (n : nat) :
  (0 < time)%Q →
  let st := Nat.iter (S n) (update getPlain setPlain correction)
              (animate setPlain subject property v v time ([], o)) in
  st.2 subject property = v ∧ registered subject property st.1 = true.
Proof.
  intros Ht.
  destruct (animate_level_subjects subject property v time o Ht)
    as (animation & Hd & He & Hs).
  destruct (animate _ _ _ _ _ _ _) as [subjects o0]. simpl in Hs. subst subjects.
  assert (∀ m o1, let st := Nat.iter (S m) (update getPlain setPlain correction)
                     ([(subject, [(property, animation)])], o1) in
            st.1 = [(subject, [(property, animation)])] ∧
            st.2 subject property = end_ animation) as Hiter.
  { induction m as [|m IH]; intros o1.
    - simpl. by apply update_level_subjects.
    - specialize (IH o1). cbn zeta in IH. destruct IH as [IH1 IH2].
      change (Nat.iter (S (S m)) ?f ?x) with (f (Nat.iter (S m) f x)).
      destruct (Nat.iter (S m) _ _) as [s1 o2]. simpl in IH1. subst s1.
      by apply update_level_subjects. }
  destruct (Hiter n o0) as [H1 H2]. cbn zeta. split.
  - exact (eq_trans H2 He).
  - unfold registered. etrans; [apply (f_equal (λ s, match JsMap.get subject s ≫= JsMap.get property with Some _ => true | None => false end) H1)|].
    simpl. by repeat (rewrite decide_True by done; simpl).
Qed.

Lemma update_level_ramp_stays_registered_witness :
  let st := Nat.iter 3 (update getPlain setPlain 1)
              (animate setPlain 0%nat "rotation" (1 # 2) (1 # 2) 1 ([], λ _ _, 0%Q)) in
  st.2 0%nat "rotation" = (1 # 2)%Q ∧ registered 0%nat "rotation" st.1 = true.
Proof.
  apply (update_level_ramp_stays_registered 0%nat "rotation" (1 # 2) 1 1 (λ _ _, 0%Q) 2).
  reflexivity.
Defined.

End Animator.

(** ** Loops over outcomes *)

(** A [for (const x of l)] loop whose body may throw or diverge. *)
Fixpoint for_each {A S : Type} (body : A → S → outcome S S) (l : list A) (s : S) : outcome S S :=
  match l with
  | [] => Ok s
  | x :: l' =>
      match body x s with
      | Ok s' => for_each body l' s'
      | o => o
      end
  end.

(** ** parts/part, parts/gearbit, parts/fence, parts/ball: the part catalog *)

Module Parts.

Inductive PartType : Type :=
  | BLANK | PARTLOC | GEARLOC | RAMP | CROSSOVER | INTERCEPTOR
  | BIT | GEARBIT | GEAR | BALL | DROP | FENCE.

#[export] Instance PartType_eq_dec : EqDecision PartType.
Proof. solve_decision. Defined.

(** The numeric value of the [PartType] enum. *)
Definition type_code (ty : PartType) : nat :=
  match ty with
  | BLANK => 0 | PARTLOC => 1 | GEARLOC => 2 | RAMP => 3 | CROSSOVER => 4
  | INTERCEPTOR => 5 | BIT => 6 | GEARBIT => 7 | GEAR => 8 | BALL => 9
  | DROP => 10 | FENCE => 11
  end%nat.

Definition canRotate (ty : PartType) : bool :=
  match ty with RAMP | BIT | GEARBIT | GEAR => true | _ => false end.

Definition canMirror (ty : PartType) : bool :=
  match ty with
  | PARTLOC | GEARLOC | CROSSOVER | INTERCEPTOR | BIT | GEARBIT => true
  | _ => false
  end.

Definition canFlip (ty : PartType) : bool :=
  match ty with RAMP | DROP | FENCE => true | _ => false end.

(** [part instanceof GearBase] *)
Definition isGearBase (ty : PartType) : bool :=
  match ty with GEARBIT | GEAR => true | _ => false end.

Definition bodyCanMove (ty : PartType) : bool :=
  match ty with BALL => true | _ => false end.

Definition bodyCanRotate (ty : PartType) : bool :=
  match ty with GEAR => false | _ => canRotate ty end.

Inductive FenceVariant : Type := PREVIEW | SIDE | SLOPE.

#[export] Instance FenceVariant_eq_dec : EqDecision FenceVariant.
Proof. solve_decision. Defined.

(** Object identities. *)
Definition PartId : Type := nat.
Definition SetRef : Type := nat.

(** One record for the [Part] class and its subclasses: the fields a
    subclass adds are present in every part and keep their initial value
    in the parts that do not have them. Sprite state is left out. *)

Record Part : Type := mkPart {
  type : PartType;
  isLocked : bool;
  changeCounter : Z;
  _column : Q;
  _row : Q;
  _rotation : Q;
  _isFlipped : bool;
  connected : option SetRef;
  _connectionLabel : Z;
  _isOnPartLocation : bool;
  _variant : FenceVariant;
  _modulus : Z;
  _sequence : Z;
  lastColumn : option Z;
  lastRow : option Z
}.

Definition with_isLocked (v : bool) (p : Part) : Part :=
  mkPart (type p) v (changeCounter p) (_column p) (_row p)
    (_rotation p) (_isFlipped p) (connected p) (_connectionLabel p) (_isOnPartLocation p)
    (_variant p) (_modulus p) (_sequence p) (lastColumn p) (lastRow p).

Definition with_changeCounter (v : Z) (p : Part) : Part :=
  mkPart (type p) (isLocked p) v (_column p) (_row p)
    (_rotation p) (_isFlipped p) (connected p) (_connectionLabel p) (_isOnPartLocation p)
    (_variant p) (_modulus p) (_sequence p) (lastColumn p) (lastRow p).

Definition with_column (v : Q) (p : Part) : Part :=
  mkPart (type p) (isLocked p) (changeCounter p) v (_row p)
    (_rotation p) (_isFlipped p) (connected p) (_connectionLabel p) (_isOnPartLocation p)
    (_variant p) (_modulus p) (_sequence p) (lastColumn p) (lastRow p).

Definition with_row (v : Q) (p : Part) : Part :=
  mkPart (type p) (isLocked p) (changeCounter p) (_column p) v
    (_rotation p) (_isFlipped p) (connected p) (_connectionLabel p) (_isOnPartLocation p)
    (_variant p) (_modulus p) (_sequence p) (lastColumn p) (lastRow p).

Definition with_rotation (v : Q) (p : Part) : Part :=
  mkPart (type p) (isLocked p) (changeCounter p) (_column p) (_row p)
    v (_isFlipped p) (connected p) (_connectionLabel p) (_isOnPartLocation p)
    (_variant p) (_modulus p) (_sequence p) (lastColumn p) (lastRow p).

Definition with_isFlipped (v : bool) (p : Part) : Part :=
  mkPart (type p) (isLocked p) (changeCounter p) (_column p) (_row p)
    (_rotation p) v (connected p) (_connectionLabel p) (_isOnPartLocation p)
    (_variant p) (_modulus p) (_sequence p) (lastColumn p) (lastRow p).

Definition with_connected (v : option SetRef) (p : Part) : Part :=
  mkPart (type p) (isLocked p) (changeCounter p) (_column p) (_row p)
    (_rotation p) (_isFlipped p) v (_connectionLabel p) (_isOnPartLocation p)
    (_variant p) (_modulus p) (_sequence p) (lastColumn p) (lastRow p).

Definition with_connectionLabel (v : Z) (p : Part) : Part :=
  mkPart (type p) (isLocked p) (changeCounter p) (_column p) (_row p)
    (_rotation p) (_isFlipped p) (connected p) v (_isOnPartLocation p)
    (_variant p) (_modulus p) (_sequence p) (lastColumn p) (lastRow p).

Definition with_isOnPartLocation (v : bool) (p : Part) : Part :=
  mkPart (type p) (isLocked p) (changeCounter p) (_column p) (_row p)
    (_rotation p) (_isFlipped p) (connected p) (_connectionLabel p) v
    (_variant p) (_modulus p) (_sequence p) (lastColumn p) (lastRow p).

Definition with_variant (v : FenceVariant) (p : Part) : Part :=
  mkPart (type p) (isLocked p) (changeCounter p) (_column p) (_row p)
    (_rotation p) (_isFlipped p) (connected p) (_connectionLabel p) (_isOnPartLocation p)
    v (_modulus p) (_sequence p) (lastColumn p) (lastRow p).

Definition with_modulus (v : Z) (p : Part) : Part :=
  mkPart (type p) (isLocked p) (changeCounter p) (_column p) (_row p)
    (_rotation p) (_isFlipped p) (connected p) (_connectionLabel p) (_isOnPartLocation p)
    (_variant p) v (_sequence p) (lastColumn p) (lastRow p).

Definition with_sequence (v : Z) (p : Part) : Part :=
  mkPart (type p) (isLocked p) (changeCounter p) (_column p) (_row p)
    (_rotation p) (_isFlipped p) (connected p) (_connectionLabel p) (_isOnPartLocation p)
    (_variant p) (_modulus p) v (lastColumn p) (lastRow p).

Definition with_lastColumn (v : option Z) (p : Part) : Part :=
  mkPart (type p) (isLocked p) (changeCounter p) (_column p) (_row p)
    (_rotation p) (_isFlipped p) (connected p) (_connectionLabel p) (_isOnPartLocation p)
    (_variant p) (_modulus p) (_sequence p) v (lastRow p).

Definition with_lastRow (v : option Z) (p : Part) : Part :=
  mkPart (type p) (isLocked p) (changeCounter p) (_column p) (_row p)
    (_rotation p) (_isFlipped p) (connected p) (_connectionLabel p) (_isOnPartLocation p)
    (_variant p) (_modulus p) (_sequence p) (lastColumn p) v.

(** [new Part(textures)] and the field initialisers of the subclasses. *)
Definition newPart (ty : PartType) : Part :=
  mkPart ty false 0 0%Q 0%Q 0%Q false None (-1) false PREVIEW 1 1 None None.

(** The objects of the program: the parts, the [Set] objects that the
    [connected] fields share, the singleton animator's records and the
    static field [GearBase._settingConnectedRotation]. *)
Record World : Type := mkWorld {
  parts : gmap PartId Part;
  sets : gmap SetRef (list PartId);
  nextPart : PartId;
  nextSet : SetRef;
  animations : Animator.Subjects;
  _settingConnectedRotation : option PartId
}.

Definition with_parts (v : gmap PartId Part) (w : World) : World :=
  mkWorld v (sets w) (nextPart w) (nextSet w) (animations w) (_settingConnectedRotation w).

Definition with_sets (v : gmap SetRef (list PartId)) (w : World) : World :=
  mkWorld (parts w) v (nextPart w) (nextSet w) (animations w) (_settingConnectedRotation w).

Definition with_animations (v : Animator.Subjects) (w : World) : World :=
  mkWorld (parts w) (sets w) (nextPart w) (nextSet w) v (_settingConnectedRotation w).

Definition with_settingConnectedRotation (v : option PartId) (w : World) : World :=
  mkWorld (parts w) (sets w) (nextPart w) (nextSet w) (animations w) v.

Definition emptyWorld : World := mkWorld ∅ ∅ 0%nat 0%nat [] None.

(** A field assignment on the object [id]. *)
Definition update_part (id : PartId) (f : Part → Part) (w : World) : World :=
  match parts w !! id with
  | Some p => with_parts (<[id := f p]> (parts w)) w
  | None => w
  end.

(** [new Constructor(textures)]: a fresh object. *)
Definition alloc_part (ty : PartType) (w : World) : PartId * World :=
  (nextPart w,
   mkWorld (<[nextPart w := newPart ty]> (parts w)) (sets w) (S (nextPart w))
     (nextSet w) (animations w) (_settingConnectedRotation w)).

(** [new Set()] *)
Definition alloc_set (w : World) : SetRef * World :=
  (nextSet w,
   mkWorld (parts w) (<[nextSet w := []]> (sets w)) (nextPart w)
     (S (nextSet w)) (animations w) (_settingConnectedRotation w)).

(** *** Setters of the [Part] base class *)

Definition Part_column_set (v : Q) (p : Part) : Part :=
  if Qeq_bool v (_column p) then p
  else with_changeCounter (changeCounter p + 1) (with_column v p).

Definition Part_row_set (v : Q) (p : Part) : Part :=
  if Qeq_bool v (_row p) then p
  else with_changeCounter (changeCounter p + 1) (with_row v p).

Definition Part_rotation_set (r : Q) (p : Part) : Part :=
  if negb (canRotate (type p)) then p
  else
    let r := clamp 0 1 r in
    if Qeq_bool r (_rotation p) then p
    else with_changeCounter (changeCounter p + 1) (with_rotation r p).

Definition Part_isFlipped_set (v : bool) (p : Part) : Part :=
  if negb (canFlip (type p)) || bool_decide (v = _isFlipped p) then p
  else with_changeCounter (changeCounter p + 1) (with_isFlipped v p).

(** *** Setters of [Fence] and [Gear] *)

Definition maxModulus : Z := 6.

Definition Fence_variant_set (v : FenceVariant) (p : Part) : Part :=
  if decide (v = _variant p) then p else with_variant v p.

(** The argument is already an integer here, so [Math.round] is the
    identity. *)
Definition Fence_modulus_set (v : Z) (p : Part) : Part :=
  let v := Z.min (Z.max 1 v) maxModulus in
  if decide (v = _modulus p) then p else with_modulus v p.

Definition Fence_sequence_set (v : Z) (p : Part) : Part :=
  if decide (v = _sequence p) then p else with_sequence v p.

Definition Gear_isOnPartLocation_set (v : bool) (p : Part) : Part :=
  if bool_decide (v = _isOnPartLocation p) then p else with_isOnPartLocation v p.

(** *** The rotation setter, with the override of [GearBase] *)

(** [part.rotation = v] dispatches on the class of [part]. [GearBase]
    overrides the setter and passes the value on to the members of
    [connected]; each of those assignments is again a call of the
    overriding setter, so the definition is recursive and runs on fuel: one
    unit for each nested call. *)
Definition rotation_set_body (assign : PartId → Q → World → outcome World World)
    (id : PartId) (v : Q) (w : World) : outcome World World :=
  match parts w !! id with
  | None => Ok w
  | Some p =>
      if isGearBase (type p) then
        let propagated :=
          match _settingConnectedRotation w, connected p with
          | None, Some ref =>
              match
                for_each
                  (λ part w', if decide (part = id) then Ok w' else assign part v w')
                  (default [] (sets w !! ref))
                  (with_settingConnectedRotation (Some id) w)
              with
              | Ok w' => Ok (with_settingConnectedRotation None w')
              | o => o
              end
          | _, _ => Ok w
          end in
        match propagated with
        | Ok w1 =>
            let w2 :=
              match _settingConnectedRotation w1 with
              | Some setting =>
                  if decide (setting = id) then w1
                  else with_animations
                         (Animator.stopAnimating id "rotation" (animations w1)) w1
              | None => w1
              end in
            Ok (update_part id (Part_rotation_set v) w2)
        | o => o
        end
      else Ok (update_part id (Part_rotation_set v) w)
  end.

Fixpoint rotation_set (fuel : nat) (id : PartId) (v : Q) (w : World) : outcome World World :=
  match fuel with
  | O => Diverge
  | S fuel' => rotation_set_body (rotation_set fuel') id v w
  end.

(** Two units of fuel are all an assignment ever uses (lemma
    [rotation_set_total] below). *)
Definition rotation_fuel : nat := 2.

Definition rotation_assign (id : PartId) (v : Q) (w : World) : World :=
  default w (final (rotation_set rotation_fuel id v w)).

Definition rotation (id : PartId) (w : World) : Q :=
  match parts w !! id with Some p => _rotation p | None => 0%Q end.

(** *** The animator over parts *)

(** The only property the program animates is ['rotation']. *)
Definition getProperty (subject : PartId) (property : string) (w : World) : Q :=
  rotation subject w.

Definition setProperty (subject : PartId) (property : string) (v : Q)
    (st : Animator.Subjects * World) : Animator.Subjects * World :=
  let w := rotation_assign subject v (with_animations st.1 st.2) in
  (animations w, w).

Definition animate (subject : PartId) (property : string) (start end_ time : Q)
    (w : World) : World :=
  let st := Animator.animate setProperty subject property start end_ time
              (animations w, w) in
  with_animations st.1 st.2.

(** [Part.bitValue] *)
Definition bitValue (id : PartId) (w : World) : bool :=
  Qle_bool (1 # 2)
    (Animator.getEndValue (rotation id w) id "rotation" (animations w)).

(** [Part.flip(time)] *)
Definition flip (id : PartId) (time : Q) (w : World) : World :=
  match parts w !! id with
  | None => w
  | Some p =>
      if canFlip (type p) then
        update_part id (Part_isFlipped_set (negb (_isFlipped p))) w
      else if canRotate (type p) then
        let b := bitValue id w in
        animate id "rotation" (if b then 1 else 0)%Q (if b then 0 else 1)%Q time w
      else w
  end.

(** [Part.restingRotation] with the overrides of [Ramp], [Bit] and [Gearbit] *)
Definition restingRotation (id : PartId) (w : World) : Q :=
  match parts w !! id with
  | None => 0%Q
  | Some p =>
      match type p with
      | RAMP => 0%Q
      | BIT | GEARBIT => if bitValue id w then 1%Q else 0%Q
      | _ => _rotation p
      end
  end.

(** *** Facts about the setters *)

Lemma Part_rotation_set_type v p : type (Part_rotation_set v p) = type p.
Proof. unfold Part_rotation_set. by repeat case_match. Qed.

Lemma Part_rotation_set_value v p :
  canRotate (type p) = true → (_rotation (Part_rotation_set v p) == clamp 0 1 v)%Q.
Proof.
  intros Hc. unfold Part_rotation_set. rewrite Hc. simpl.
  destruct (Qeq_bool _ _) eqn:He; simpl; [|reflexivity].
  symmetry. by apply Qeq_bool_iff.
Qed.

Lemma Part_rotation_set_stable v p :
  (_rotation p == clamp 0 1 v)%Q → (_rotation (Part_rotation_set v p) == clamp 0 1 v)%Q.
Proof.
  intros He. unfold Part_rotation_set. repeat case_match; simpl; done.
Qed.

Lemma Part_rotation_set_range v p :
  (0 <= _rotation p ∧ _rotation p <= 1)%Q →
  (0 <= _rotation (Part_rotation_set v p) ∧ _rotation (Part_rotation_set v p) <= 1)%Q.
Proof.
  intros Hr. unfold Part_rotation_set. repeat case_match; simpl; try done.
  by apply clamp_bounds.
Qed.

Lemma Part_rotation_set_fixed v p :
  canRotate (type p) = false → Part_rotation_set v p = p.
Proof. intros Hc. unfold Part_rotation_set. by rewrite Hc. Qed.

Lemma Part_isFlipped_set_fixed v p :
  canFlip (type p) = false → Part_isFlipped_set v p = p.
Proof. intros Hc. unfold Part_isFlipped_set. by rewrite Hc. Qed.

Lemma Part_isFlipped_set_rotation v p :
  _rotation (Part_isFlipped_set v p) = _rotation p.
Proof. unfold Part_isFlipped_set. by repeat case_match. Qed.

Lemma update_part_lookup id f w i :
  parts (update_part id f w) !! i
  = if decide (i = id) then f <$> parts w !! id else parts w !! i.
Proof.
  unfold update_part. destruct (parts w !! id) as [p|] eqn:Hp; simpl.
  - destruct (decide (i = id)) as [->|Hne].
    + by rewrite lookup_insert_eq.
    + by rewrite lookup_insert_ne.
  - destruct (decide (i = id)) as [->|Hne]; [by rewrite Hp|done].
Qed.

Lemma update_part_fixed id f w :
  (∀ p, parts w !! id = Some p → f p = p) → update_part id f w = w.
Proof.
  intros Hf. unfold update_part. destruct (parts w !! id) as [p|] eqn:Hp; [|done].
  rewrite Hf by done. rewrite insert_id by done. by destruct w.
Qed.

(** The nested assignment: what [part.rotation = v] does to [id] while
    [_settingConnectedRotation] holds [setting]. *)
Definition member_assign (setting id : PartId) (v : Q) (w : World) : World :=
  match parts w !! id with
  | None => w
  | Some p =>
      if isGearBase (type p) then
        update_part id (Part_rotation_set v)
          (if decide (setting = id) then w
           else with_animations
                  (Animator.stopAnimating id "rotation" (animations w)) w)
      else update_part id (Part_rotation_set v) w
  end.

Definition members_assign (id : PartId) (v : Q) (l : list PartId) (w : World) : World :=
  foldl (λ w' part, if decide (part = id) then w' else member_assign id part v w') w l.

(** The world an assignment [id.rotation = v] leaves. *)
Definition rotation_set_result (id : PartId) (v : Q) (w : World) : World :=
  match parts w !! id with
  | None => w
  | Some p =>
      if isGearBase (type p) then
        match _settingConnectedRotation w, connected p with
        | None, Some ref =>
            update_part id (Part_rotation_set v)
              (with_settingConnectedRotation None
                 (members_assign id v (default [] (sets w !! ref))
                    (with_settingConnectedRotation (Some id) w)))
        | Some setting, _ => member_assign setting id v w
        | None, None => update_part id (Part_rotation_set v) w
        end
      else update_part id (Part_rotation_set v) w
  end.

Lemma update_part_setting id f w :
  _settingConnectedRotation (update_part id f w) = _settingConnectedRotation w.
Proof. unfold update_part. by case_match. Qed.

Lemma update_part_animations id f w :
  animations (update_part id f w) = animations w.
Proof. unfold update_part. by case_match. Qed.

Lemma update_part_sets id f w : sets (update_part id f w) = sets w.
Proof. unfold update_part. by case_match. Qed.

Lemma member_assign_setting setting id v w :
  _settingConnectedRotation (member_assign setting id v w) = _settingConnectedRotation w.
Proof.
  unfold member_assign. repeat case_match; try done;
    by rewrite update_part_setting.
Qed.

Lemma rotation_set_nested fuel setting id v w :
  _settingConnectedRotation w = Some setting →
  rotation_set (S fuel) id v w = Ok (member_assign setting id v w).
Proof.
  intros Hs. unfold member_assign. cbn [rotation_set]. unfold rotation_set_body.
  destruct (parts w !! id) as [p|]; [|done].
  destruct (isGearBase (type p)); [|done].
  rewrite Hs. simpl. rewrite Hs.
  destruct (decide (setting = id)); done.
Qed.

Lemma for_each_members fuel id v l w :
  _settingConnectedRotation w = Some id →
  for_each (λ part w', if decide (part = id) then Ok w'
                       else rotation_set (S fuel) part v w') l w
  = Ok (members_assign id v l w).
Proof.
  revert w. induction l as [|q l IH]; intros w Hs; [done|].
  cbn [for_each].
  change (members_assign id v (q :: l) w)
    with (members_assign id v l
            (if decide (q = id) then w else member_assign id q v w)).
  destruct (decide (q = id)) as [->|Hne].
  - by apply IH.
  - rewrite (rotation_set_nested fuel id q v w Hs).
    apply IH. by rewrite member_assign_setting.
Qed.

Lemma members_assign_setting id v l w :
  _settingConnectedRotation (members_assign id v l w) = _settingConnectedRotation w.
Proof.
  revert w. induction l as [|q l IH]; intros w; simpl; [done|].
  rewrite IH. destruct (decide (q = id)); [done|]. apply member_assign_setting.
Qed.

(** Two units of fuel are enough, and more change nothing. *)
Lemma rotation_set_total fuel id v w :
  rotation_set (S (S fuel)) id v w = Ok (rotation_set_result id v w).
Proof.
  unfold rotation_set_result.
  destruct (_settingConnectedRotation w) as [setting|] eqn:Hs.
  { rewrite (rotation_set_nested _ setting) by done. unfold member_assign.
    by repeat case_match. }
  change (rotation_set (S (S fuel)) id v w)
    with (rotation_set_body (rotation_set (S fuel)) id v w).
  unfold rotation_set_body.
  destruct (parts w !! id) as [p|] eqn:Hp; [|done].
  destruct (isGearBase (type p)); [|done].
  rewrite Hs. destruct (connected p) as [ref|]; [|by rewrite Hs].
  rewrite for_each_members by done.
  cbn [_settingConnectedRotation with_settingConnectedRotation]. done.
Qed.

Lemma rotation_assign_eq id v w : rotation_assign id v w = rotation_set_result id v w.
Proof. unfold rotation_assign, rotation_fuel. by rewrite rotation_set_total. Qed.

(** A relation between the versions of each part that every step of an
    assignment respects is respected by the assignment. *)
Definition parts_related (R : Part → Part → Prop) (w w' : World) : Prop :=
  ∀ i, match parts w !! i, parts w' !! i with
       | Some p, Some p' => R p p'
       | None, None => True
       | _, _ => False
       end.

Lemma parts_related_refl (R : Part → Part → Prop) w :
  (∀ p, R p p) → parts_related R w w.
Proof. intros HR i. by destruct (parts w !! i). Qed.

Lemma parts_related_trans (R : Part → Part → Prop) w1 w2 w3 :
  (∀ p1 p2 p3, R p1 p2 → R p2 p3 → R p1 p3) →
  parts_related R w1 w2 → parts_related R w2 w3 → parts_related R w1 w3.
Proof.
  intros HR H12 H23 i. specialize (H12 i). specialize (H23 i).
  destruct (parts w1 !! i), (parts w2 !! i), (parts w3 !! i); try done.
  eauto.
Qed.

Lemma parts_related_eq (R : Part → Part → Prop) w w' :
  (∀ p, R p p) → parts w' = parts w → parts_related R w w'.
Proof. intros HR Heq i. rewrite Heq. by destruct (parts w !! i). Qed.

Lemma parts_related_lookup (R : Part → Part → Prop) w w' i p :
  parts_related R w w' → parts w !! i = Some p →
  ∃ p', parts w' !! i = Some p' ∧ R p p'.
Proof.
  intros HR Hp. specialize (HR i). rewrite Hp in HR.
  destruct (parts w' !! i) as [p'|]; [eauto|done].
Qed.

Lemma parts_related_lookup_inv (R : Part → Part → Prop) w w' i p' :
  parts_related R w w' → parts w' !! i = Some p' →
  ∃ p, parts w !! i = Some p ∧ R p p'.
Proof.
  intros HR Hp. specialize (HR i). rewrite Hp in HR.
  destruct (parts w !! i) as [p|]; [eauto|done].
Qed.

Lemma update_part_related (R : Part → Part → Prop) id f w :
  (∀ p, R p p) → (∀ p, R p (f p)) → parts_related R w (update_part id f w).
Proof.
  intros Hrefl Hf i. rewrite update_part_lookup.
  destruct (decide (i = id)) as [->|Hne].
  - destruct (parts w !! id); simpl; auto.
  - destruct (parts w !! i); auto.
Qed.

Section related.
Variable R : Part → Part → Prop.
Variable v : Q.
Hypothesis R_refl : ∀ p, R p p.
Hypothesis R_trans : ∀ p1 p2 p3, R p1 p2 → R p2 p3 → R p1 p3.
Hypothesis R_rotation_set : ∀ p, R p (Part_rotation_set v p).

Lemma member_assign_related setting id w :
  parts_related R w (member_assign setting id v w).
Proof using R_refl R_rotation_set R_trans.
  unfold member_assign. destruct (parts w !! id) as [p|] eqn:Hp;
    [|by apply parts_related_refl].
  destruct (isGearBase (type p)); [|by apply update_part_related].
  destruct (decide (setting = id)); [by apply update_part_related|].
  eapply parts_related_trans; [done| |by apply update_part_related].
  by apply parts_related_eq.
Qed.

Lemma members_assign_related id l w :
  parts_related R w (members_assign id v l w).
Proof using R_refl R_rotation_set R_trans.
  revert w. induction l as [|q l IH]; intros w; simpl;
    [by apply parts_related_refl|].
  destruct (decide (q = id)); [apply IH|].
  eapply parts_related_trans; [done|apply member_assign_related|apply IH].
Qed.

Lemma rotation_set_result_related id w :
  parts_related R w (rotation_set_result id v w).
Proof using R_refl R_rotation_set R_trans.
  unfold rotation_set_result. destruct (parts w !! id) as [p|] eqn:Hp;
    [|by apply parts_related_refl].
  destruct (isGearBase (type p)); [|by apply update_part_related].
  destruct (_settingConnectedRotation w) as [setting|].
  { apply member_assign_related. }
  destruct (connected p) as [ref|]; [|by apply update_part_related].
  eapply parts_related_trans; [done| |by apply update_part_related].
  eapply parts_related_trans; [done| |by apply parts_related_eq].
  eapply parts_related_trans; [done| |apply members_assign_related].
  by apply parts_related_eq.
Qed.
End related.

(** *** Assignments to the orientation of parts *)

Lemma isGearBase_canRotate ty : isGearBase ty = true → canRotate ty = true.
Proof. by destruct ty. Qed.

Definition same_type (p p' : Part) : Prop := type p = type p'.

Lemma members_assign_same_type id v l w :
  parts_related same_type w (members_assign id v l w).
Proof.
  apply members_assign_related; unfold same_type; try congruence.
  intros p. by rewrite Part_rotation_set_type.
Qed.

Lemma member_assign_same_type setting id v w :
  parts_related same_type w (member_assign setting id v w).
Proof.
  apply member_assign_related; unfold same_type; try congruence.
  intros p. by rewrite Part_rotation_set_type.
Qed.

Lemma member_assign_lookup_ne setting id v w i :
  i ≠ id → parts (member_assign setting id v w) !! i = parts w !! i.
Proof.
  intros Hne. unfold member_assign. repeat case_match; try done;
    rewrite update_part_lookup, decide_False by done; done.
Qed.

(** The member [q] has received the value and has no rotation animation. *)
Definition assigned (v : Q) (q : PartId) (w : World) : Prop :=
  (rotation q w == clamp 0 1 v)%Q ∧
  Animator.registered q "rotation" (animations w) = false.

Lemma member_assign_assigned setting q v w pq :
  q ≠ setting → parts w !! q = Some pq → isGearBase (type pq) = true →
  assigned v q (member_assign setting q v w).
Proof.
  intros Hne Hq Hg. unfold assigned, member_assign, rotation.
  rewrite Hq, Hg. rewrite decide_False by done.
  rewrite update_part_lookup, decide_True by done. simpl. rewrite Hq. simpl.
  split.
  - apply Part_rotation_set_value. by apply isGearBase_canRotate.
  - rewrite update_part_animations. simpl.
    rewrite Animator.registered_stopAnimating. by rewrite decide_True.
Qed.

Lemma member_assign_assigned_stable setting q q' v w :
  assigned v q w → assigned v q (member_assign setting q' v w).
Proof.
  intros [Hr Ha]. unfold assigned. split.
  - unfold rotation in *. destruct (decide (q = q')) as [->|Hne].
    + unfold member_assign. destruct (parts w !! q') as [p|] eqn:Hp.
      * assert (∀ w0, parts w0 = parts w →
                  match parts (update_part q' (Part_rotation_set v) w0) !! q' with
                  | Some p0 => _rotation p0
                  | None => 0%Q
                  end == clamp 0 1 v)%Q as Hupd.
        { intros w0 Hw0. rewrite update_part_lookup, decide_True by done.
          rewrite Hw0, Hp. simpl. by apply Part_rotation_set_stable. }
        destruct (isGearBase (type p)); [destruct (decide (setting = q'))|];
          by apply Hupd.
      * by rewrite Hp.
    + by rewrite member_assign_lookup_ne.
  - unfold member_assign. repeat case_match; try done;
      rewrite update_part_animations; try done.
    simpl. rewrite Animator.registered_stopAnimating. by case_match.
Qed.

Lemma members_assign_assigned_stable id q v l w :
  assigned v q w → assigned v q (members_assign id v l w).
Proof.
  revert w. induction l as [|q' l IH]; intros w Ha; simpl; [done|].
  apply IH. destruct (decide (q' = id)); [done|].
  by apply member_assign_assigned_stable.
Qed.

Lemma members_assign_assigned id q v l w pq :
  q ∈ l → q ≠ id → parts w !! q = Some pq → isGearBase (type pq) = true →
  assigned v q (members_assign id v l w).
Proof.
  revert w pq. induction l as [|q' l IH]; intros w pq Hin Hne Hq Hg.
  { by apply elem_of_nil in Hin. }
  simpl. destruct (decide (q = q')) as [<-|Hqq].
  - rewrite decide_False by done.
    apply members_assign_assigned_stable. by eapply member_assign_assigned.
  - apply elem_of_cons in Hin as [?|Hin]; [done|].
    destruct (decide (q' = id)); [by eapply IH|].
    destruct (parts_related_lookup same_type _ _ q pq
                (member_assign_same_type id q' v w) Hq) as (pq' & Hq' & Hty).
    eapply IH; [done..|]. by rewrite <- Hty.
Qed.

(** C10: an assignment [p.rotation = v] to a gear-class part whose
    [connected] set is [members], made outside any other such assignment,
    comes back with two units of fuel (one nested call deep, whatever fuel
    is added), leaves every member of the set and [p] at the clamped value
    of [v], leaves no rotation animation registered for the other members,
    and resets the guard. *)
Theorem gear_rotation_set_propagates w id p ref members v fuel :
  parts w !! id = Some p →
  isGearBase (type p) = true →
  connected p = Some ref →
  sets w !! ref = Some members →
  _settingConnectedRotation w = None →
  (∀ q, q ∈ members → ∃ pq, parts w !! q = Some pq ∧ isGearBase (type pq) = true) →
  ∃ w',
    rotation_set (S (S fuel)) id v w = Ok w' ∧
    (∀ q, q ∈ members ∨ q = id → (rotation q w' == clamp 0 1 v)%Q) ∧
    (∀ q, q ∈ members → q ≠ id →
       Animator.registered q "rotation" (animations w') = false) ∧
    _settingConnectedRotation w' = None.
Proof.
  intros Hp Hg Hc Hs Hflag Hmem.
  eexists. split; [apply rotation_set_total|].
  unfold rotation_set_result. rewrite Hp, Hg, Hflag, Hc, Hs. simpl.
  set (w1 := with_settingConnectedRotation (Some id) w).
  set (w2 := members_assign id v members w1).
  assert (∀ q, q ∈ members → q ≠ id → assigned v q w2) as Hdone.
  { intros q Hin Hne. destruct (Hmem q Hin) as (pq & Hq & Hgq).
    by eapply members_assign_assigned. }
  split_and!.
  - intros q Hq. unfold rotation.
    rewrite update_part_lookup. destruct (decide (q = id)) as [->|Hne].
    + simpl.
      destruct (parts_related_lookup same_type w1 w2 id p
                  (members_assign_same_type id v members w1) Hp)
        as (p' & Hp' & Hty).
      rewrite Hp'. simpl. apply Part_rotation_set_value.
      apply isGearBase_canRotate. by rewrite <- Hty.
    + destruct Hq as [Hq|?]; [|done]. by apply (Hdone q).
  - intros q Hin Hne. rewrite update_part_animations. simpl.
    by apply (Hdone q).
  - by rewrite update_part_setting.
Qed.

Definition two_gears : World :=
  let w := (alloc_part GEARBIT (alloc_part GEAR emptyWorld).2).2 in
  let w := with_sets {[ 0%nat := [0%nat; 1%nat] ]} w in
  update_part 1%nat (with_connected (Some 0%nat))
    (update_part 0%nat (with_connected (Some 0%nat)) w).

Lemma gear_rotation_set_propagates_witness :
  ∃ w',
    rotation_set 2 0%nat (3 # 2) two_gears = Ok w' ∧
    (∀ q, q ∈ [0%nat; 1%nat] ∨ q = 0%nat → (rotation q w' == clamp 0 1 (3 # 2))%Q) ∧
    (∀ q, q ∈ [0%nat; 1%nat] → q ≠ 0%nat →
       Animator.registered q "rotation" (animations w') = false) ∧
    _settingConnectedRotation w' = None.
Proof.
  apply (gear_rotation_set_propagates two_gears 0%nat
           (with_connected (Some 0%nat) (newPart GEAR)) 0%nat [0%nat; 1%nat]
           (3 # 2) 0); try reflexivity.
  intros q Hq. apply elem_of_cons in Hq as [->|Hq].
  - by eexists.
  - apply list_elem_of_singleton in Hq as ->. by eexists.
Defined.

Inductive Assignment : Type :=
  | AssignRotation (id : PartId) (v : Q)
  | AssignIsFlipped (id : PartId) (v : bool).

Definition assign (a : Assignment) (w : World) : outcome World World :=
  match a with
  | AssignRotation id v => rotation_set rotation_fuel id v w
  | AssignIsFlipped id v => Ok (update_part id (Part_isFlipped_set v) w)
  end.

Definition in_unit_range (p : Part) : Prop :=
  Qle_bool 0 (_rotation p) && Qle_bool (_rotation p) 1 = true.

Definition rotations_in_range (w : World) : Prop :=
  map_Forall (λ _ p, in_unit_range p) (parts w).

#[export] Instance in_unit_range_dec p : Decision (in_unit_range p).
Proof. unfold in_unit_range. apply _. Defined.

#[export] Instance rotations_in_range_dec w : Decision (rotations_in_range w).
Proof. unfold rotations_in_range. apply _. Defined.

Lemma in_unit_range_iff p :
  in_unit_range p ↔ (0 <= _rotation p ∧ _rotation p <= 1)%Q.
Proof.
  unfold in_unit_range. by rewrite andb_true_iff, !Qle_bool_iff.
Qed.

Lemma rotations_in_range_related w w' :
  parts_related (λ p p', in_unit_range p → in_unit_range p') w w' →
  rotations_in_range w → rotations_in_range w'.
Proof.
  intros HR Hw i p' Hp'.
  destruct (parts_related_lookup_inv _ _ _ _ _ HR Hp') as (p & Hp & Hpp').
  apply Hpp'. by apply (Hw i).
Qed.

Lemma assign_in_range a w :
  rotations_in_range w →
  ∃ w', assign a w = Ok w' ∧ rotations_in_range w'.
Proof.
  intros Hw. destruct a as [id v|id v]; cbn [assign].
  - unfold rotation_fuel. rewrite (rotation_set_total 0). eexists. split; [done|].
    eapply rotations_in_range_related; [|done].
    apply rotation_set_result_related; [auto..|].
    intros p. rewrite !in_unit_range_iff. apply Part_rotation_set_range.
  - eexists. split; [done|].
    eapply rotations_in_range_related; [|done].
    apply update_part_related; [auto|].
    intros p. unfold in_unit_range. by rewrite Part_isFlipped_set_rotation.
Qed.

(** *** What an assignment to [rotation] does to the part itself *)

Lemma members_assign_lookup_self id v l w :
  parts (members_assign id v l w) !! id = parts w !! id.
Proof.
  revert w. induction l as [|q l IH]; intros w; simpl; [done|].
  rewrite IH. destruct (decide (q = id)); [done|].
  by apply member_assign_lookup_ne.
Qed.

Lemma update_rotation_value id v w w0 p :
  parts w0 !! id = Some p → canRotate (type p) = true →
  parts w = parts (update_part id (Part_rotation_set v) w0) →
  (rotation id w == clamp 0 1 v)%Q.
Proof.
  intros Hp Hc Hw. unfold rotation. rewrite Hw, update_part_lookup, decide_True by done.
  rewrite Hp. simpl. by apply Part_rotation_set_value.
Qed.

Lemma rotation_set_result_value id v w p :
  parts w !! id = Some p → canRotate (type p) = true →
  (rotation id (rotation_set_result id v w) == clamp 0 1 v)%Q.
Proof.
  intros Hp Hc. unfold rotation_set_result. rewrite Hp.
  assert (∀ w0, parts w0 !! id = Some p →
            (rotation id (update_part id (Part_rotation_set v) w0) == clamp 0 1 v)%Q) as Hupd.
  { intros w0 Hw0. by apply (update_rotation_value id v _ w0 p). }
  destruct (isGearBase (type p)) eqn:Hg; [|by apply Hupd].
  destruct (_settingConnectedRotation w) as [setting|].
  { unfold member_assign. rewrite Hp, Hg.
    destruct (decide (setting = id)); by apply Hupd. }
  destruct (connected p) as [ref|]; [|by apply Hupd].
  apply Hupd. simpl. by rewrite members_assign_lookup_self.
Qed.

(** C8: from a world whose rotations are in [0,1] (a new part starts at
    0), every sequence of assignments to [rotation] and [isFlipped] comes
    back without a throw and leaves every rotation in [0,1]; an
    assignment of [v] to the [rotation] of a part that can rotate leaves
    that part at [v] clamped into [0,1], and an assignment of [v] to the
    [isFlipped] of a part that can flip leaves that part at [v];
    assigning [rotation] to a part that cannot rotate, or [isFlipped] to
    a part that cannot flip, leaves the world as it was. *)
Theorem orientation_assignments_stay_in_range w (ops : list Assignment) :
  rotations_in_range w →
  (∃ w', for_each assign ops w = Ok w' ∧ rotations_in_range w') ∧
  (∀ ty, rotations_in_range (alloc_part ty w).2) ∧
  (∀ id p v, parts w !! id = Some p → canRotate (type p) = true →
     ∃ w', assign (AssignRotation id v) w = Ok w' ∧
           (rotation id w' == clamp 0 1 v)%Q ∧
           (0 <= rotation id w' ∧ rotation id w' <= 1)%Q) ∧
  (∀ id p v, parts w !! id = Some p → canFlip (type p) = true →
     ∃ w', assign (AssignIsFlipped id v) w = Ok w' ∧
           _isFlipped <$> parts w' !! id = Some v) ∧
  (∀ id p v, parts w !! id = Some p → canRotate (type p) = false →
     assign (AssignRotation id v) w = Ok w) ∧
  (∀ id p v, parts w !! id = Some p → canFlip (type p) = false →
     assign (AssignIsFlipped id v) w = Ok w).
Proof.
  intros Hw. split_and!.
  - revert w Hw. induction ops as [|a ops IH]; intros w Hw; cbn [for_each];
      [by eexists|].
    destruct (assign_in_range a w Hw) as (w1 & -> & Hw1). by apply IH.
  - intros ty. unfold rotations_in_range, alloc_part. simpl.
    apply map_Forall_insert_2; [done|apply Hw].
  - intros id p v Hp Hc. cbn [assign]. unfold rotation_fuel.
    rewrite (rotation_set_total 0). eexists. split; [done|].
    pose proof (rotation_set_result_value id v w p Hp Hc) as Hval.
    split; [done|]. rewrite Hval. by apply clamp_bounds.
  - intros id p v Hp Hc. cbn [assign]. eexists. split; [done|].
    rewrite update_part_lookup, decide_True by done. rewrite Hp. simpl. f_equal.
    unfold Part_isFlipped_set. rewrite Hc. simpl.
    case_bool_decide; [done|]. by destruct p.
  - intros id p v Hp Hc. cbn [assign]. unfold rotation_fuel.
    rewrite (rotation_set_total 0). f_equal. unfold rotation_set_result.
    rewrite Hp. assert (isGearBase (type p) = false) as ->.
    { destruct (type p); done. }
    apply update_part_fixed. intros p' Hp'. apply Part_rotation_set_fixed.
    congruence.
  - intros id p v Hp Hc. simpl. f_equal.
    apply update_part_fixed. intros p' Hp'. apply Part_isFlipped_set_fixed.
    congruence.
Qed.

Lemma orientation_assignments_stay_in_range_witness :
  (∃ w', for_each assign
           [AssignRotation 0%nat (3 # 2); AssignIsFlipped 1%nat true;
            AssignRotation 1%nat (- (1))] two_gears = Ok w' ∧
         rotations_in_range w') ∧
  (∀ ty, rotations_in_range (alloc_part ty two_gears).2) ∧
  (∀ id p v, parts two_gears !! id = Some p → canRotate (type p) = true →
     ∃ w', assign (AssignRotation id v) two_gears = Ok w' ∧
           (rotation id w' == clamp 0 1 v)%Q ∧
           (0 <= rotation id w' ∧ rotation id w' <= 1)%Q) ∧
  (∀ id p v, parts two_gears !! id = Some p → canFlip (type p) = true →
     ∃ w', assign (AssignIsFlipped id v) two_gears = Ok w' ∧
           _isFlipped <$> parts w' !! id = Some v) ∧
  (∀ id p v, parts two_gears !! id = Some p → canRotate (type p) = false →
     assign (AssignRotation id v) two_gears = Ok two_gears) ∧
  (∀ id p v, parts two_gears !! id = Some p → canFlip (type p) = false →
     assign (AssignIsFlipped id v) two_gears = Ok two_gears).
Proof.
  apply (orientation_assignments_stay_in_range two_gears).
  apply (bool_decide_unpack _). vm_compute. reflexivity.
Defined.

End Parts.

(** ** util/disjoint: the disjoint-set resolver *)

Module DisjointSet.
Local Open Scope nat_scope.

(** The three per-node arrays and the set counter. *)
Record t : Type := mk {
  parents : list nat;
  ranks : list nat;
  sizes : list nat;
  numSets : Z
}.

(** [new DisjointSet(numElems)]; the caller passes the size of a Set, so
    the test for a negative count cannot fire. *)
Definition create (numElems : nat) : t :=
  mk (seq 0 numElems) (replicate numElems 0) (replicate numElems 1)
     (Z.of_nat numElems).

Definition getNumberOfElements (ds : t) : nat := length (parents ds).

(** The [while (true)] loop of [getRepr], on fuel. The entries of
    [parents] are indices of the array; should a lookup fall outside it the
    run is abandoned like one that exhausts its fuel. *)
Fixpoint getRepr_loop (fuel : nat) (parents : list nat) (elemIndex parent : nat)
    : option (list nat * nat) :=
  match fuel with
  | O => None
  | S fuel' =>
      match parents !! parent with
      | None => None
      | Some grandparent =>
          if decide (grandparent = parent) then Some (parents, parent)
          else getRepr_loop fuel' (<[elemIndex := grandparent]> parents)
                 parent grandparent
      end
  end.

Definition getRepr (ds : t) (elemIndex : Z) : outcome t (t * nat) :=
  if ((elemIndex <? 0) || (Z.of_nat (length (parents ds)) <=? elemIndex))%Z
  then Throw "Element index out of bounds" ds
  else
    let elemIndex := Z.to_nat elemIndex in
    match parents ds !! elemIndex with
    | None => Diverge
    | Some parent =>
        if decide (parent = elemIndex) then Ok (ds, elemIndex)
        else
          match getRepr_loop (length (parents ds)) (parents ds) elemIndex parent with
          | Some (parents', repr) =>
              Ok (mk parents' (ranks ds) (sizes ds) (numSets ds), repr)
          | None => Diverge
          end
    end.

Definition rank (ds : t) (i : nat) : nat := default 0 (ranks ds !! i).
Definition size (ds : t) (i : nat) : nat := default 0 (sizes ds !! i).

(** The grafting at the end of [mergeSets]: [repr1] goes under [repr0]. *)
Definition graft (ds : t) (repr0 repr1 : nat) : t :=
  mk (<[repr1 := repr0]> (parents ds))
     (ranks ds)
     (<[repr1 := 0]> (<[repr0 := size ds repr0 + size ds repr1]> (sizes ds)))
     (numSets ds - 1)%Z.

Definition mergeSets (ds : t) (elemIndex0 elemIndex1 : Z) : outcome t (t * bool) :=
  match getRepr ds elemIndex0 with
  | Ok (ds, repr0) =>
      match getRepr ds elemIndex1 with
      | Ok (ds, repr1) =>
          if decide (repr0 = repr1) then Ok (ds, false)
          else
            let cmp := (Z.of_nat (rank ds repr0) - Z.of_nat (rank ds repr1))%Z in
            if decide (cmp = 0)%Z then
              Ok (graft (mk (parents ds) (<[repr0 := S (rank ds repr0)]> (ranks ds))
                            (sizes ds) (numSets ds)) repr0 repr1, true)
            else if decide (cmp < 0)%Z then Ok (graft ds repr1 repr0, true)
            else Ok (graft ds repr0 repr1, true)
      | Throw msg ds => Throw msg ds
      | Diverge => Diverge
      end
  | Throw msg ds => Throw msg ds
  | Diverge => Diverge
  end.

(** *** The forest behind the arrays *)

(** [height P i r k]: following the parent links from [i] reaches the
    representative [r] after [k] steps. *)
Inductive height (P : list nat) : nat → nat → nat → Prop :=
  | height_root r : P !! r = Some r → height P r r 0
  | height_step i j r k :
      P !! i = Some j → i ≠ j → height P j r k → height P i r (S k).

Definition root_of (P : list nat) (i r : nat) : Prop := ∃ k, height P i r k.

(** Every element belongs to a tree. *)
Definition wfP (P : list nat) : Prop :=
  ∀ i, i < length P → ∃ r, root_of P i r.

Definition wf (ds : t) : Prop := wfP (parents ds).

(** [i] and [j] are in the same set. *)
Definition sameP (P : list nat) (i j : nat) : Prop :=
  ∃ r, root_of P i r ∧ root_of P j r.

Definition same (ds : t) (i j : nat) : Prop := sameP (parents ds) i j.

Lemma height_functional P i r k r' k' :
  height P i r k → height P i r' k' → r = r' ∧ k = k'.
Proof.
  intros H. revert r' k'. induction H as [r Hr|i j r k Hi Hne H IH]; intros r' k' H'.
  - inversion H' as [? Hr'|? j ? ? Hj Hne]; subst; [done|]. congruence.
  - inversion H' as [? Hr'|? j' ? k0 Hj Hne' H0]; subst; [congruence|].
    assert (j' = j) as -> by congruence.
    destruct (IH _ _ H0) as [-> ->]. done.
Qed.

Lemma height_root_is_root P i r k : height P i r k → P !! r = Some r.
Proof. induction 1; auto. Qed.

Lemma height_lookup_lt P i r k : height P i r k → i < length P.
Proof. destruct 1; by eapply lookup_lt_Some. Qed.

(** The nodes on the way from [i] to its representative. *)
Lemma height_path P i r k :
  height P i r k →
  ∃ l, length l = S k ∧ NoDup l ∧
       ∀ x, x ∈ l → x < length P ∧ ∃ k', k' ≤ k ∧ height P x r k'.
Proof.
  induction 1 as [r Hr|i j r k Hi Hne H (l & Hlen & Hnd & Hl)].
  - exists [r]. split_and!; [done|apply NoDup_singleton|].
    intros x ->%list_elem_of_singleton. split; [by eapply lookup_lt_Some|].
    exists 0. split; [lia|by constructor].
  - exists (i :: l). split_and!.
    + simpl. by rewrite Hlen.
    + apply NoDup_cons. split; [|done]. intros Hin.
      destruct (Hl i Hin) as (_ & k' & Hk' & Hh).
      assert (height P i r (S k)) as Hh' by (by econstructor).
      destruct (height_functional _ _ _ _ _ _ Hh Hh') as [_ ?]. lia.
    + intros x [->|Hx]%elem_of_cons.
      * split; [by eapply lookup_lt_Some|]. exists (S k). split; [lia|].
        by econstructor.
      * destruct (Hl x Hx) as (? & k' & ? & ?). split; [done|].
        exists k'. split; [lia|done].
Qed.

(** A path visits no node twice, so it is shorter than the array. *)
Lemma height_lt P i r k : height P i r k → k < length P.
Proof.
  intros H. destruct (height_path _ _ _ _ H) as (l & Hlen & Hnd & Hl).
  assert (length l ≤ length (seq 0 (length P))) as Hle.
  { apply submseteq_length, NoDup_submseteq; [done|].
    intros x Hx. apply elem_of_seq. destruct (Hl x Hx). lia. }
  rewrite length_seq in Hle. lia.
Qed.

Lemma root_of_functional P i r r' : root_of P i r → root_of P i r' → r = r'.
Proof.
  intros [k H] [k' H']. by destruct (height_functional _ _ _ _ _ _ H H').
Qed.

Lemma root_of_lt P i r : root_of P i r → i < length P.
Proof. intros [k H]. by eapply height_lookup_lt. Qed.

Lemma root_of_root P r : P !! r = Some r → root_of P r r.
Proof. exists 0. by constructor. Qed.

Lemma root_of_is_root P i r : root_of P i r → P !! r = Some r.
Proof. intros [k H]. by eapply height_root_is_root. Qed.

Lemma root_of_fixed P r r' : P !! r = Some r → root_of P r r' → r' = r.
Proof. intros Hr H. eapply root_of_functional; [done|]. by apply root_of_root. Qed.

(** Writing to a node leaves the paths of the nodes below it alone. *)
Lemma height_insert_above P e x i r k r' k' :
  height P i r k → height P e r' k' → k < k' →
  height (<[e := x]> P) i r k.
Proof.
  induction 1 as [r Hr|i j r k Hi Hne H IH]; intros He Hlt.
  - constructor. rewrite list_lookup_insert_ne; [done|]. intros ->.
    assert (height P r r 0) as H0 by (by constructor).
    destruct (height_functional _ _ _ _ _ _ He H0) as [_ ?]. lia.
  - econstructor; [|done|apply IH; [done|lia]].
    rewrite list_lookup_insert_ne; [done|]. intros ->.
    assert (height P i r (S k)) as H0 by (by econstructor).
    destruct (height_functional _ _ _ _ _ _ He H0) as [_ ?]. lia.
Qed.

(** The path compression step [parents[elemIndex] = grandparent] keeps
    every element under its representative. *)
Lemma root_of_compress P e p g i r :
  P !! e = Some p → P !! p = Some g → e ≠ p → p ≠ g →
  root_of P i r → root_of (<[e := g]> P) i r.
Proof.
  intros He Hp Hep Hpg [k H].
  assert (e < length P) as Hlt by (by eapply lookup_lt_Some).
  induction H as [r Hr|i j r k Hi Hne H IH].
  - apply root_of_root. rewrite list_lookup_insert_ne; [done|]. congruence.
  - destruct IH as [k1 IH]. destruct (decide (i = e)) as [->|Hie].
    + assert (j = p) as -> by congruence.
      assert (<[e := g]> P !! p = Some g) as Hp'.
      { by rewrite list_lookup_insert_ne. }
      inversion IH as [? Hr'|? j' ? k2 Hj' Hne' H2]; subst; [congruence|].
      assert (j' = g) as -> by congruence.
      destruct (decide (e = g)) as [->|Heg]; [by exists k2|].
      exists (S k2). apply (height_step _ e g r k2); [|done|done].
      by rewrite list_lookup_insert_eq.
    + exists (S k1). apply (height_step _ i j r k1); [|done|done].
      by rewrite list_lookup_insert_ne.
Qed.

Lemma getRepr_loop_spec k : ∀ fuel P e p r,
  k < fuel → P !! e = Some p → e ≠ p → height P p r k →
  ∃ P', getRepr_loop fuel P e p = Some (P', r) ∧
        length P' = length P ∧
        ∀ i r', root_of P i r' → root_of P' i r'.
Proof.
  induction k as [|k IH]; intros fuel P e p r Hfuel He Hep Hh.
  - inversion Hh as [? Hr|]; subst.
    destruct fuel as [|fuel]; [lia|]. simpl. rewrite Hr.
    rewrite decide_True by done. by exists P.
  - inversion Hh as [|? g ? ? Hp Hpg Hg]; subst.
    destruct fuel as [|fuel]; [lia|]. simpl. rewrite Hp.
    rewrite decide_False by done.
    assert (height P e r (S (S k))) as Hhe by (by econstructor).
    destruct (IH fuel (<[e := g]> P) p g r) as (P' & Hloop & Hlen & Hroots).
    + lia.
    + by rewrite list_lookup_insert_ne.
    + done.
    + eapply height_insert_above; [done|done|lia].
    + exists P'. split_and!; [done| |].
      * by rewrite Hlen, length_insert.
      * intros i r' Hi. apply Hroots. by eapply root_of_compress.
Qed.

(** [find] with path compression: the representative comes back, and
    every element keeps its representative. *)
Lemma getRepr_spec ds i :
  wf ds → i < length (parents ds) →
  ∃ ds' r,
    getRepr ds (Z.of_nat i) = Ok (ds', r) ∧
    root_of (parents ds) i r ∧
    length (parents ds') = length (parents ds) ∧
    ∀ j r', root_of (parents ds) j r' → root_of (parents ds') j r'.
Proof.
  intros Hwf Hi. unfold getRepr.
  assert (((Z.of_nat i <? 0) || (Z.of_nat (length (parents ds)) <=? Z.of_nat i))%Z
          = false) as ->.
  { apply orb_false_iff. split; [apply Z.ltb_ge|apply Z.leb_gt]; lia. }
  rewrite Nat2Z.id.
  destruct (Hwf i Hi) as (r & k & Hh).
  inversion Hh as [? Hr|? j ? k0 Hij Hne Hj]; subst.
  - rewrite Hr. rewrite decide_True by done.
    exists ds, r. split_and!; [done|by apply root_of_root|done|done].
  - rewrite Hij. rewrite decide_False by done.
    destruct (getRepr_loop_spec k0 (length (parents ds)) (parents ds) i j r)
      as (P' & -> & Hlen & Hroots); [by eapply height_lt|done..|].
    eexists _, r. split_and!; [done|by exists (S k0)|done|done].
Qed.

Lemma wfP_preserved P P' :
  length P' = length P →
  (∀ j r', root_of P j r' → root_of P' j r') →
  wfP P → wfP P'.
Proof.
  intros Hlen Hroots Hwf i Hi. rewrite Hlen in Hi.
  destruct (Hwf i Hi) as [r Hr]. exists r. by apply Hroots.
Qed.

Lemma root_of_preserved_inv P P' j r' :
  length P' = length P →
  (∀ j r', root_of P j r' → root_of P' j r') →
  wfP P → root_of P' j r' → root_of P j r'.
Proof.
  intros Hlen Hroots Hwf Hj.
  assert (j < length P) as Hlt by (rewrite <- Hlen; by eapply root_of_lt).
  destruct (Hwf j Hlt) as [r Hr].
  by rewrite (root_of_functional _ _ _ _ Hj (Hroots _ _ Hr)).
Qed.

Lemma sameP_preserved P P' i j :
  length P' = length P →
  (∀ j r', root_of P j r' → root_of P' j r') →
  wfP P → (sameP P' i j ↔ sameP P i j).
Proof.
  intros Hlen Hroots Hwf. split; intros (r & Hi & Hj); exists r.
  - split; by eapply root_of_preserved_inv.
  - split; by apply Hroots.
Qed.

Lemma sameP_refl P i : wfP P → i < length P → sameP P i i.
Proof. intros Hwf Hi. destruct (Hwf i Hi) as [r Hr]. by exists r. Qed.

Lemma sameP_sym P i j : sameP P i j → sameP P j i.
Proof. intros (r & ? & ?). by exists r. Qed.

Lemma sameP_trans P i j k : sameP P i j → sameP P j k → sameP P i k.
Proof.
  intros (r & Hi & Hj) (r' & Hj' & Hk).
  rewrite (root_of_functional _ _ _ _ Hj Hj') in Hi. by exists r'.
Qed.

Lemma sameP_root P i r : root_of P i r → sameP P i r.
Proof.
  intros Hi. exists r. split; [done|].
  apply root_of_root. by eapply root_of_is_root.
Qed.

(** Grafting the tree of [r1] under [r0]. *)
Lemma root_of_graft P r0 r1 i r :
  P !! r0 = Some r0 → P !! r1 = Some r1 → r0 ≠ r1 →
  root_of P i r →
  root_of (<[r1 := r0]> P) i (if decide (r = r1) then r0 else r).
Proof.
  intros H0 H1 Hne [k H].
  assert (r1 < length P) as Hlt by (by eapply lookup_lt_Some).
  assert (root_of (<[r1 := r0]> P) r0 r0) as Hroot0.
  { apply root_of_root. by rewrite list_lookup_insert_ne. }
  induction H as [r Hr|i j r k Hi Hij H IH].
  - destruct (decide (r = r1)) as [->|Hr1].
    + destruct Hroot0 as [k0 Hk0]. exists (S k0).
      apply (height_step _ r1 r0 r0 k0); [|done|done].
      by rewrite list_lookup_insert_eq.
    + apply root_of_root. by rewrite list_lookup_insert_ne.
  - destruct IH as [k1 IH]. exists (S k1).
    apply (height_step _ i j _ k1); [|done|done].
    rewrite list_lookup_insert_ne; [done|]. congruence.
Qed.

Lemma sameP_graft P r0 r1 i j :
  wfP P → P !! r0 = Some r0 → P !! r1 = Some r1 → r0 ≠ r1 →
  i < length P → j < length P →
  sameP (<[r1 := r0]> P) i j ↔
  sameP P i j ∨ (sameP P i r0 ∧ sameP P r1 j) ∨ (sameP P i r1 ∧ sameP P r0 j).
Proof.
  intros Hwf H0 H1 Hne Hi Hj.
  destruct (Hwf i Hi) as [ri Hri]. destruct (Hwf j Hj) as [rj Hrj].
  pose proof (root_of_graft P r0 r1 i ri H0 H1 Hne Hri) as Hi'.
  pose proof (root_of_graft P r0 r1 j rj H0 H1 Hne Hrj) as Hj'.
  assert (∀ x rx r, root_of P x rx → sameP P x r → P !! r = Some r → rx = r) as Hsr.
  { intros x rx r Hx (r' & Hx' & Hr') Hr.
    rewrite (root_of_functional _ _ _ _ Hx Hx').
    by apply (root_of_fixed P r r'). }
  split.
  - intros (r & Hir & Hjr).
    pose proof (root_of_functional _ _ _ _ Hi' Hir) as Ei.
    pose proof (root_of_functional _ _ _ _ Hj' Hjr) as Ej.
    destruct (decide (ri = r1)) as [->|Hri1], (decide (rj = r1)) as [->|Hrj1].
    + left. by exists r1.
    + right; right. split; [by apply sameP_root|].
      apply sameP_sym. assert (rj = r0) as <- by congruence. by apply sameP_root.
    + right; left. split; [|by apply sameP_sym, sameP_root].
      assert (ri = r0) as <- by congruence. by apply sameP_root.
    + left. exists ri. split; [done|]. congruence.
  - intros [(r & Hir & Hjr)|[[Hi0 H1j]|[Hi1 H0j]]].
    + rewrite <- (root_of_functional _ _ _ _ Hri Hir) in *.
      rewrite <- (root_of_functional _ _ _ _ Hrj Hjr) in *.
      eexists. split; done.
    + assert (ri = r0) as -> by (by eapply Hsr).
      assert (rj = r1) as -> by (eapply Hsr; [done|by apply sameP_sym|done]).
      rewrite decide_False in Hi' by done. rewrite decide_True in Hj' by done.
      by exists r0.
    + assert (ri = r1) as -> by (by eapply Hsr).
      assert (rj = r0) as -> by (eapply Hsr; [done|by apply sameP_sym|done]).
      rewrite decide_True in Hi' by done. rewrite decide_False in Hj' by done.
      by exists r0.
Qed.

Lemma wfP_graft P r0 r1 :
  wfP P → P !! r0 = Some r0 → P !! r1 = Some r1 → r0 ≠ r1 →
  wfP (<[r1 := r0]> P).
Proof.
  intros Hwf H0 H1 Hne i Hi. rewrite length_insert in Hi.
  destruct (Hwf i Hi) as [r Hr]. eexists. by apply root_of_graft.
Qed.

Lemma wf_create n : wf (create n).
Proof.
  intros i Hi. unfold create in *. simpl in *. rewrite length_seq in Hi.
  exists i. apply root_of_root. by rewrite lookup_seq_lt.
Qed.

Lemma length_create n : length (parents (create n)) = n.
Proof. simpl. by rewrite length_seq. Qed.

Lemma same_create n i j : same (create n) i j ↔ i = j ∧ i < n.
Proof.
  unfold same, create. simpl. split.
  - intros (r & Hi & Hj).
    assert (∀ x, root_of (seq 0 n) x r → x = r ∧ x < n) as Hx.
    { intros x Hxr. assert (x < n) as Hlt.
      { apply root_of_lt in Hxr. by rewrite length_seq in Hxr. }
      split; [|done]. symmetry. eapply root_of_fixed; [|done].
      by rewrite lookup_seq_lt. }
    destruct (Hx _ Hi) as [-> ?]. destruct (Hx _ Hj) as [-> ?]. done.
  - intros [-> Hj]. exists j.
    split; apply root_of_root; by rewrite lookup_seq_lt.
Qed.

(** [union]: the call comes back, the forest stays well formed, and the
    sets of the two elements are joined. *)
Lemma mergeSets_spec ds a b :
  wf ds → a < length (parents ds) → b < length (parents ds) →
  ∃ ds' merged,
    mergeSets ds (Z.of_nat a) (Z.of_nat b) = Ok (ds', merged) ∧
    wf ds' ∧
    length (parents ds') = length (parents ds) ∧
    ∀ i j, i < length (parents ds) → j < length (parents ds) →
      (same ds' i j ↔
       same ds i j ∨ (same ds i a ∧ same ds b j) ∨ (same ds i b ∧ same ds a j)).
Proof.
  intros Hwf Ha Hb. unfold mergeSets.
  destruct (getRepr_spec ds a Hwf Ha) as (ds1 & ra & -> & Hra & Hlen1 & Hroots1).
  assert (wf ds1) as Hwf1 by (by eapply wfP_preserved).
  assert (b < length (parents ds1)) as Hb1 by (by rewrite Hlen1).
  destruct (getRepr_spec ds1 b Hwf1 Hb1) as (ds2 & rb & -> & Hrb & Hlen2 & Hroots2).
  assert (wf ds2) as Hwf2 by (by eapply wfP_preserved).
  assert (length (parents ds2) = length (parents ds)) as Hlen by congruence.
  assert (∀ j r', root_of (parents ds) j r' → root_of (parents ds2) j r') as Hroots
    by auto.
  assert (∀ i j, sameP (parents ds2) i j ↔ sameP (parents ds) i j) as Hsame.
  { intros i j. by apply sameP_preserved. }
  assert (root_of (parents ds2) a ra) as Hra2 by auto.
  assert (root_of (parents ds2) b rb) as Hrb2 by auto.
  pose proof (root_of_is_root _ _ _ Hra2) as Hroota.
  pose proof (root_of_is_root _ _ _ Hrb2) as Hrootb.
  assert (sameP (parents ds2) a ra) as Hsa by (by apply sameP_root).
  assert (sameP (parents ds2) b rb) as Hsb by (by apply sameP_root).
  destruct (decide (ra = rb)) as [->|Hne].
  - exists ds2, false. split_and!; [done..|].
    intros i j Hi Hj. unfold same. rewrite !Hsame. split; [auto|].
    assert (sameP (parents ds) a b) as Hab.
    { apply Hsame. eapply sameP_trans; [done|by apply sameP_sym]. }
    intros [?|[[? ?]|[? ?]]]; [done| |].
    + eapply sameP_trans; [done|]. by eapply sameP_trans.
    + eapply sameP_trans; [done|]. eapply sameP_trans; [|done]. by apply sameP_sym.
  - assert (∀ P' r0 r1 rk sz ns,
              P' = <[r1 := r0]> (parents ds2) →
              (r0 = ra ∧ r1 = rb) ∨ (r0 = rb ∧ r1 = ra) →
              wf (mk P' rk sz ns) ∧
              length (parents (mk P' rk sz ns)) = length (parents ds) ∧
              ∀ i j, i < length (parents ds) → j < length (parents ds) →
                (same (mk P' rk sz ns) i j ↔
                 same ds i j ∨ (same ds i a ∧ same ds b j)
                 ∨ (same ds i b ∧ same ds a j))) as Hgraft.
    { intros P' r0 r1 rk sz ns -> Hcase.
      assert (r0 ≠ r1 ∧ parents ds2 !! r0 = Some r0 ∧ parents ds2 !! r1 = Some r1)
        as (Hne' & H0 & H1).
      { destruct Hcase as [[-> ->]|[-> ->]]; split_and!; done. }
      unfold wf, same. simpl. split_and!.
      - by apply wfP_graft.
      - by rewrite length_insert.
      - intros i j Hi Hj.
        rewrite sameP_graft by (done || by rewrite Hlen).
        rewrite <- !Hsame.
        assert (∀ x, sameP (parents ds2) x ra ↔ sameP (parents ds2) x a) as Hxa.
        { intros x. split; intros Hx; (eapply sameP_trans; [done|]);
            [by apply sameP_sym|done]. }
        assert (∀ x, sameP (parents ds2) x rb ↔ sameP (parents ds2) x b) as Hxb.
        { intros x. split; intros Hx; (eapply sameP_trans; [done|]);
            [by apply sameP_sym|done]. }
        assert (∀ x, sameP (parents ds2) ra x ↔ sameP (parents ds2) a x) as Hax.
        { intros x. split; intros Hx; apply sameP_sym, Hxa, sameP_sym, Hx. }
        assert (∀ x, sameP (parents ds2) rb x ↔ sameP (parents ds2) b x) as Hbx.
        { intros x. split; intros Hx; apply sameP_sym, Hxb, sameP_sym, Hx. }
        destruct Hcase as [[-> ->]|[-> ->]]; rewrite ?Hxa, ?Hxb, ?Hax, ?Hbx; tauto. }
    destruct (decide (_ = 0)%Z); [|destruct (decide (_ < 0)%Z)].
    + eexists _, true. split; [done|]. unfold graft. simpl.
      apply (Hgraft _ ra rb); [done|]. by left.
    + eexists _, true. split; [done|]. unfold graft.
      apply (Hgraft _ rb ra); [done|]. by right.
    + eexists _, true. split; [done|]. unfold graft.
      apply (Hgraft _ ra rb); [done|]. by left.
Qed.

End DisjointSet.

(** ** board/board: the grid model *)

Module Board.
Import Parts.

(** The fields of [Board] that the grid logic reads and writes; the view,
    the layers and the mouse state are rendering and interaction. A cell
    holds the identity of its part, or [None] for [null]. *)
Record Board : Type := mkBoard {
  _grid : list (list (option PartId));
  _columnCount : Z;
  _rowCount : Z;
  balls : list PartId;
  _changeCounter : Z;
  _partSize : Z
}.

Definition with_grid (v : list (list (option PartId))) (b : Board) : Board :=
  mkBoard v (_columnCount b) (_rowCount b) (balls b) (_changeCounter b) (_partSize b).

Definition with_columnCount (v : Z) (b : Board) : Board :=
  mkBoard (_grid b) v (_rowCount b) (balls b) (_changeCounter b) (_partSize b).

Definition with_rowCount (v : Z) (b : Board) : Board :=
  mkBoard (_grid b) (_columnCount b) v (balls b) (_changeCounter b) (_partSize b).

Definition with_balls (v : list PartId) (b : Board) : Board :=
  mkBoard (_grid b) (_columnCount b) (_rowCount b) v (_changeCounter b) (_partSize b).

(** [new Board(partFactory)] *)
Definition newBoard : Board := mkBoard [] 0 0 [] 0 64.

Definition onChange (b : Board) : Board :=
  mkBoard (_grid b) (_columnCount b) (_rowCount b) (balls b) (_changeCounter b + 1)
    (_partSize b).

(** [Math.floor(this.partSize * SPACING_FACTOR)], with [SPACING_FACTOR = 1.0625] *)
Definition spacing (b : Board) : Z := Qfloor (inject_Z (_partSize b) * (17 # 16)).

Definition columnForX (b : Board) (x : Q) : Q := (x / inject_Z (spacing b))%Q.
Definition rowForY (b : Board) (y : Q) : Q := (y / inject_Z (spacing b))%Q.

(** [this._grid[row][column]] for indices inside the arrays. *)
Definition cell (grid : list (list (option PartId))) (row column : nat) : option PartId :=
  match grid !! row with
  | Some cells => match cells !! column with Some part => part | None => None end
  | None => None
  end.

Definition out_of_bounds (b : Board) (column row : Z) : bool :=
  (column <? 0) || (_columnCount b <=? column) || (row <? 0) || (_rowCount b <=? row).

Definition getPart (b : Board) (column row : Z) : option PartId :=
  if out_of_bounds b column row then None
  else cell (_grid b) (Z.to_nat row) (Z.to_nat column).

(** [part.f] for a part that may be [null]; [d] stands for what the
    source does not read in that case. *)
Definition field {A : Type} (f : Part → A) (d : A) (w : World) (part : option PartId) : A :=
  match part ≫= (λ id, parts w !! id) with Some p => f p | None => d end.

Definition typeIs (ty : PartType) (w : World) (part : option PartId) : bool :=
  field (λ p, bool_decide (type p = ty)) false w part.

(** [part instanceof GearBase], [part instanceof Fence] *)
Definition isGear (w : World) (part : option PartId) : bool :=
  field (λ p, isGearBase (type p)) false w part.

Definition isFence (w : World) (part : option PartId) : bool := typeIs FENCE w part.

(** *** Placement *)

Definition canPlacePart (b : Board) (w : World) (ty : PartType) (column row : Z) : bool :=
  if decide (ty = BALL) then
    (0 <=? row) && (0 <=? column) && (row <? _rowCount b) && (column <? _columnCount b)
  else if out_of_bounds b column row then false
  else
    let oldPart := getPart b column row in
    if field isLocked false w oldPart then false
    else if bool_decide (ty = PARTLOC) || bool_decide (ty = GEARLOC)
            || bool_decide (ty = GEAR) || bool_decide (ty = FENCE) then true
    else Z.rem (row + column) 2 =? 0.

Definition backgroundType (column row : Z) : PartType :=
  if Z.rem (row + column) 2 =? 0 then PARTLOC else GEARLOC.

(** [makeBackgroundPart]: the factory makes a new object. *)
Definition makeBackgroundPart (column row : Z) (w : World) : PartId * World :=
  alloc_part (backgroundType column row) w.

(** [layoutPart]; the pixel coordinates and the size are sprite state. *)
Definition layoutPart (part : option PartId) (column row : Q) (w : World) : World :=
  match part with
  | None => w
  | Some id => update_part id (Part_row_set row) (update_part id (Part_column_set column) w)
  end.

(** *** Gear connectivity *)

Record Labelling : Type := mkLabelling {
  l_world : World;
  equivalence : DisjointSet.t;
  label : Z
}.

Definition connectionLabel (w : World) (part : option PartId) : Z :=
  if isGear w part then field _connectionLabel (-1) w part else -1.

Definition set_connectionLabel (id : PartId) (v : Z) (st : Labelling) : Labelling :=
  mkLabelling (update_part id (with_connectionLabel v) (l_world st))
    (equivalence st) (label st).

(** The first collecting loop of [_connectGears]. *)
Definition collect_gears (w : World) (grid : list (list (option PartId))) : list PartId :=
  foldl (λ allGears row,
           foldl (λ allGears part,
                    match part with
                    | Some id => if isGear w part then JsSet.add id allGears else allGears
                    | None => allGears
                    end) allGears row)
        [] grid.

(** The body of the labelling loop for the cell at ([r], [c]). *)
Definition label_part (b : Board) (r c : Z) (part westPart : option PartId)
    (st : Labelling) : outcome Labelling Labelling :=
  let northPart := if 0 <? r then getPart b c (r - 1) else None in
  match part with
  | Some id =>
      if isGear (l_world st) part then
        let northLabel := connectionLabel (l_world st) northPart in
        let westLabel := connectionLabel (l_world st) westPart in
        if (0 <=? northLabel) && (0 <=? westLabel) then
          if northLabel =? westLabel then Ok (set_connectionLabel id northLabel st)
          else
            let min := Z.min northLabel westLabel in
            let max := Z.max northLabel westLabel in
            let st := set_connectionLabel id min st in
            match DisjointSet.mergeSets (equivalence st) min max with
            | Ok (ds, _) => Ok (mkLabelling (l_world st) ds (label st))
            | Throw msg ds => Throw msg (mkLabelling (l_world st) ds (label st))
            | Diverge => Diverge
            end
        else if 0 <=? northLabel then Ok (set_connectionLabel id northLabel st)
        else if 0 <=? westLabel then Ok (set_connectionLabel id westLabel st)
        else
          let st := set_connectionLabel id (label st) st in
          Ok (mkLabelling (l_world st) (equivalence st) (label st + 1))
      else Ok st
  | None => Ok st
  end.

Fixpoint label_row (b : Board) (r c : Z) (westPart : option PartId)
    (row : list (option PartId)) (st : Labelling) : outcome Labelling Labelling :=
  match row with
  | [] => Ok st
  | part :: row' =>
      match label_part b r c part westPart st with
      | Ok st' => label_row b r (c + 1) part row' st'
      | o => o
      end
  end.

Fixpoint label_rows (b : Board) (r : Z) (rows : list (list (option PartId)))
    (st : Labelling) : outcome Labelling Labelling :=
  match rows with
  | [] => Ok st
  | row :: rows' =>
      match label_row b r 0 None row st with
      | Ok st' => label_rows b (r + 1) rows' st'
      | o => o
      end
  end.

Record Grouping : Type := mkGrouping {
  g_world : World;
  g_equivalence : DisjointSet.t;
  g_sets : list (nat * SetRef)
}.

(** The body of the grouping loop: [sets] maps a representative label to
    the [Set] object of its group. *)
Definition group_part (part : PartId) (st : Grouping) : outcome Grouping Grouping :=
  match DisjointSet.getRepr (g_equivalence st)
          (field _connectionLabel (-1) (g_world st) (Some part)) with
  | Ok (ds, label) =>
      let '(sets, w) :=
        if JsMap.has label (g_sets st) then (g_sets st, g_world st)
        else
          let '(ref, w) := alloc_set (g_world st) in
          (JsMap.set label ref (g_sets st), w) in
      match JsMap.get label sets with
      | Some ref =>
          let w := with_sets (<[ref := JsSet.add part (default [] (Parts.sets w !! ref))]>
                                (Parts.sets w)) w in
          Ok (mkGrouping (update_part part (with_connected (Some ref)) w) ds sets)
      | None => Ok (mkGrouping w ds sets)
      end
  | Throw msg ds => Throw msg (mkGrouping (g_world st) ds (g_sets st))
  | Diverge => Diverge
  end.

Definition _connectGears (b : Board) (w : World) : outcome World World :=
  let allGears := collect_gears w (_grid b) in
  let equivalence := DisjointSet.create (length allGears) in
  match label_rows b 0 (_grid b) (mkLabelling w equivalence 0) with
  | Ok st =>
      match for_each group_part allGears (mkGrouping (l_world st) (Board.equivalence st) []) with
      | Ok st => Ok (g_world st)
      | Throw msg st => Throw msg (g_world st)
      | Diverge => Diverge
      end
  | Throw msg st => Throw msg (l_world st)
  | Diverge => Diverge
  end.

(** *** Fence layout *)

Definition fence_set (id : PartId) (f : Part → Part) (w : World) : World :=
  update_part id f w.

Definition isFlipped (w : World) (id : PartId) : bool :=
  field _isFlipped false w (Some id).

(** The loop at the end of [_makeSlope] over [fences[i]], [i] counting
    from [i0]; [n] is [fences.length]. *)
Fixpoint slope_loop (n : Z) (i : Z) (fences : list PartId) (w : World) : World :=
  match fences with
  | [] => w
  | f :: fences' =>
      let w := fence_set f (Fence_variant_set SLOPE) w in
      let w := fence_set f (Fence_modulus_set n) w in
      let w := fence_set f (Fence_sequence_set
                              (if isFlipped w f then (n - 1) - i else i)) w in
      slope_loop n (i + 1) fences' w
  end.

(** The two [if]s at the head of [_makeSlope]: an end of the run below a
    fence flipped the same way becomes a side piece and leaves the run. *)
Definition slope_ends (first : PartId) (fences : list PartId)
    (leftNorthFence rightNorthFence : option PartId) (w : World) : list PartId * World :=
  if isFlipped w first
     && match leftNorthFence with Some l => isFlipped w l | None => false end
  then (tail fences, fence_set first (Fence_variant_set SIDE) w)
  else if negb (isFlipped w first)
          && match rightNorthFence with
             | Some r => negb (isFlipped w r)
             | None => false
             end
  then (removelast fences,
        fence_set (List.last fences first) (Fence_variant_set SIDE) w)
  else (fences, w).

(** The rest of [_makeSlope]: one fence is a side, more are a slope. *)
Definition slope_fill (fences : list PartId) (w : World) : World :=
  match fences with
  | [only] => fence_set only (Fence_variant_set SIDE) w
  | _ => slope_loop (Z.of_nat (length fences)) 0 fences w
  end.

Definition _makeSlope (fences : list PartId) (leftNorthFence rightNorthFence : option PartId)
    (w : World) : World :=
  match fences with
  | [] => w
  | first :: _ =>
      let '(fences, w) := slope_ends first fences leftNorthFence rightNorthFence w in
      slope_fill fences w
  end.

Record FenceScan : Type := mkFenceScan {
  f_world : World;
  slopeParts : list PartId;
  leftNorthFence : option PartId;
  rightNorthFence : option PartId
}.

(** [_makeSlope(slopeParts, ...)] followed by
    [leftNorthFence = rightNorthFence = null]; the call empties the array. *)
Definition close_run (st : FenceScan) : FenceScan :=
  mkFenceScan (_makeSlope (slopeParts st) (leftNorthFence st) (rightNorthFence st) (f_world st))
    [] None None.

(** The fence above the current one, if it is a side piece, is recorded:
    as [leftNorthFence] at the start of a run, as [rightNorthFence] later. *)
Definition track_north (b : Board) (r c : Z) (st : FenceScan) : FenceScan :=
  let northPart := getPart b c (r - 1) in
  if isFence (f_world st) northPart
     && bool_decide (field _variant PREVIEW (f_world st) northPart = SIDE) then
    match slopeParts st with
    | [] => mkFenceScan (f_world st) (slopeParts st) northPart (rightNorthFence st)
    | _ => mkFenceScan (f_world st) (slopeParts st) (leftNorthFence st) northPart
    end
  else mkFenceScan (f_world st) (slopeParts st) (leftNorthFence st) None.

(** [if (slopeParts.length > 0 && slopeParts[0].isFlipped !== part.isFlipped)] *)
Definition close_if_turned (id : PartId) (st : FenceScan) : FenceScan :=
  match slopeParts st with
  | first :: _ =>
      if bool_decide (isFlipped (f_world st) first ≠ isFlipped (f_world st) id)
      then close_run st else st
  | [] => st
  end.

(** [if (slopeParts.length > 0)] *)
Definition close_if_open (st : FenceScan) : FenceScan :=
  match slopeParts st with [] => st | _ => close_run st end.

Definition push (id : PartId) (st : FenceScan) : FenceScan :=
  mkFenceScan (f_world st) (slopeParts st ++ [id]) (leftNorthFence st) (rightNorthFence st).

(** The body of the inner loop of [_updateFences]. *)
Definition fence_part (b : Board) (r c : Z) (part : option PartId) (st : FenceScan) : FenceScan :=
  match part with
  | Some id =>
      if isFence (f_world st) part then push id (close_if_turned id (track_north b r c st))
      else close_if_open st
  | None => close_if_open st
  end.

Fixpoint fence_row (b : Board) (r c : Z) (row : list (option PartId)) (st : FenceScan) : FenceScan :=
  match row with
  | [] => close_if_open st
  | part :: row' => fence_row b r (c + 1) row' (fence_part b r c part st)
  end.

Fixpoint fence_rows (b : Board) (r : Z) (rows : list (list (option PartId)))
    (st : FenceScan) : FenceScan :=
  match rows with
  | [] => st
  | row :: rows' => fence_rows b (r + 1) rows' (fence_row b r 0 row st)
  end.

Definition _updateFences (b : Board) (w : World) : World :=
  f_world (fence_rows b 0 (_grid b) (mkFenceScan w [] None None)).

(** *** Editing the grid *)

Definition set_cell (row column : nat) (part : option PartId)
    (grid : list (list (option PartId))) : list (list (option PartId)) :=
  match grid !! row with
  | Some cells => <[row := <[column := part]> cells]> grid
  | None => grid
  end.

Definition sum_rotations (w : World) (members : list PartId) : Q :=
  foldl (λ sum part, (sum + rotation part w)%Q) 0%Q members.

(** The merge of the new part's rotation with its connected set. The
    sum and the quotient are the exact ones: the source computes them in
    floating-point numbers, which gives the same answer when the rotations
    are 0 or 1, and can give another when an average of rotations in
    between falls next to one half. *)
Definition merged_rotation (w : World) (members : list PartId) : Q :=
  if Qle_bool (1 # 2) (sum_rotations w members / inject_Z (Z.of_nat (length members)))
  then 1%Q else 0%Q.

(** The calls [this.removePart] and [this.addPart] of the source move
    sprites between layers and are rendering. *)
Definition setPart (newPart : option PartId) (column row : Z) (st : World * Board)
    : outcome (World * Board) (World * Board) :=
  let '(w, b) := st in
  if out_of_bounds b column row then Ok st
  else
    let oldPart := getPart b column row in
    if decide (oldPart = newPart) then Ok st
    else
      let b := with_grid (set_cell (Z.to_nat row) (Z.to_nat column) newPart (_grid b)) b in
      let w := layoutPart newPart (inject_Z column) (inject_Z row) w in
      let w :=
        match newPart with
        | Some id =>
            if typeIs GEAR w newPart
            then update_part id
                   (Gear_isOnPartLocation_set (Z.rem (column + row) 2 =? 0)) w
            else w
        | None => w
        end in
      let after_gears : outcome (World * Board) World :=
        if isGear w oldPart || isGear w newPart then
          let w :=
            match oldPart with
            | Some old => if isGear w oldPart
                          then update_part old (with_connected None) w else w
            | None => w
            end in
          match _connectGears b w with
          | Ok w =>
              match newPart with
              | Some id =>
                  match (if isGear w newPart then field connected None w newPart
                         else None) with
                  | Some ref =>
                      let members := default [] (sets w !! ref) in
                      match rotation_set rotation_fuel id (merged_rotation w members) w with
                      | Ok w => Ok w
                      | Throw msg w => Throw msg (w, b)
                      | Diverge => Diverge
                      end
                  | None => Ok w
                  end
              | None => Ok w
              end
          | Throw msg w => Throw msg (w, b)
          | Diverge => Diverge
          end
        else Ok w in
      match after_gears with
      | Ok w =>
          let w := if isFence w oldPart || isFence w newPart
                   then _updateFences b w else w in
          Ok (w, onChange b)
      | Throw msg st => Throw msg st
      | Diverge => Diverge
      end.

Definition clearPart (column row : Z) (st : World * Board)
    : outcome (World * Board) (World * Board) :=
  let '(part, w) := makeBackgroundPart column row st.1 in
  setPart (Some part) column row (w, st.2).

(** [shouldContinue] of [_flipFence], iterated along one direction:
    [i] is the coordinate that moves, by [step], for at most [n] cells. *)
Fixpoint flip_along (get : Z → option PartId) (wasFlipped : bool) (variant : FenceVariant)
    (step : Z) (n : nat) (i : Z) (w : World) : World :=
  match n with
  | O => w
  | S n' =>
      let part := get i in
      match part with
      | Some id =>
          if isFence w part
             && bool_decide (isFlipped w id = wasFlipped)
             && bool_decide (field _variant PREVIEW w part = variant)
          then flip_along get wasFlipped variant step n' (i + step) (flip id 0 w)
          else w
      | None => w
      end
  end.

Definition _flipFence (b : Board) (column row : Z) (w : World) : World :=
  let fence := getPart b column row in
  match fence with
  | Some id =>
      if isFence w fence then
        let wasFlipped := isFlipped w id in
        let variant := field _variant PREVIEW w fence in
        let w := flip id 0 w in
        let w :=
          match variant with
          | SLOPE =>
              let w := flip_along (λ c, getPart b c row) wasFlipped variant 1
                         (Z.to_nat (_columnCount b - (column + 1))) (column + 1) w in
              flip_along (λ c, getPart b c row) wasFlipped variant (-1)
                (Z.to_nat column) (column - 1) w
          | SIDE =>
              let w := flip_along (λ r, getPart b column r) wasFlipped variant 1
                         (Z.to_nat (_rowCount b - (row + 1))) (row + 1) w in
              flip_along (λ r, getPart b column r) wasFlipped variant (-1)
                (Z.to_nat row) (row - 1) w
          | PREVIEW => w
          end in
        _updateFences b w
      else w
  | None => w
  end.

Definition flipPart (column row : Z) (st : World * Board) : World * Board :=
  let part := getPart st.2 column row in
  if isFence st.1 part then (_flipFence st.2 column row st.1, st.2)
  else
    match part with
    | Some id => (flip id (1 # 4) st.1, st.2)
    | None => st
    end.

Definition addBall (ball : PartId) (x y : Q) (st : World * Board) : World * Board :=
  let '(w, b) := st in
  if JsSet.has ball (balls b) then st
  else
    let b := with_balls (JsSet.add ball (balls b)) b in
    let w := layoutPart (Some ball) (columnForX b x) (rowForY b y) w in
    (w, onChange b).

Definition removeBall (ball : PartId) (st : World * Board) : World * Board :=
  let '(w, b) := st in
  if JsSet.has ball (balls b) then (w, onChange (with_balls (JsSet.delete ball (balls b)) b))
  else st.

(** The loop [for (c = c0; c < columnCount; c++)] of [setSize] that
    pushes [n] background parts onto a row. *)
Fixpoint extend_row (r c : Z) (n : nat) (cells : list (option PartId)) (w : World)
    : list (option PartId) * World :=
  match n with
  | O => (cells, w)
  | S n' =>
      let '(p, w) := makeBackgroundPart c r w in
      let w := layoutPart (Some p) (inject_Z c) (inject_Z r) w in
      extend_row r (c + 1) n' (cells ++ [Some p]) w
  end.

Fixpoint extend_rows (r c : Z) (n : nat) (rows : list (list (option PartId))) (w : World)
    : list (list (option PartId)) * World :=
  match rows with
  | [] => ([], w)
  | cells :: rows' =>
      let '(cells, w) := extend_row r c n cells w in
      let '(rows', w) := extend_rows (r + 1) c n rows' w in
      (cells :: rows', w)
  end.

Fixpoint append_rows (r : Z) (n : nat) (columnCount : nat)
    (grid : list (list (option PartId))) (w : World)
    : list (list (option PartId)) * World :=
  match n with
  | O => (grid, w)
  | S n' =>
      let '(cells, w) := extend_row r 0 columnCount [] w in
      append_rows (r + 1) n' columnCount (grid ++ [cells]) w
  end.

(** [array.splice(start, deleteCount)] for counts inside the array. *)
Definition splice {A : Type} (start deleteCount : nat) (l : list A) : list A :=
  take start l ++ drop (start + deleteCount) l.

Section setSize.
(** The router attached to the board, if any, and its
    [onBoardSizeChanged]. *)
Context {Router : Type}.
Variable onBoardSizeChanged : Router → World * Board → Router * (World * Board).

(** The counts are array lengths. *)
Definition setSize (router : option Router) (columnCount rowCount : nat)
    (st : World * Board) : option Router * (World * Board) :=
  let '(w, b) := st in
  (* contract rows *)
  let b :=
    if Z.of_nat rowCount <? _rowCount b
    then with_rowCount (Z.of_nat rowCount)
           (with_grid (splice rowCount (Z.to_nat (_rowCount b - Z.of_nat rowCount))
                         (_grid b)) b)
    else b in
  (* expand or contract columns *)
  let '(grid, w) :=
    if (_columnCount b <? Z.of_nat columnCount) && (0 <? _rowCount b) then
      extend_rows 0 (_columnCount b)
        (Z.to_nat (Z.of_nat columnCount - _columnCount b)) (_grid b) w
    else if (Z.of_nat columnCount <? _columnCount b) && (0 <? _rowCount b) then
      (splice columnCount (Z.to_nat (_columnCount b - Z.of_nat columnCount))
         <$> _grid b, w)
    else (_grid b, w) in
  let b := with_columnCount (Z.of_nat columnCount) (with_grid grid b) in
  (* expand rows *)
  let '(grid, w) :=
    if _rowCount b <? Z.of_nat rowCount then
      append_rows (_rowCount b) (Z.to_nat (Z.of_nat rowCount - _rowCount b))
        columnCount (_grid b) w
    else (_grid b, w) in
  let b := with_rowCount (Z.of_nat rowCount) (with_grid grid b) in
  match router with
  | Some rt => let '(rt, st) := onBoardSizeChanged rt (w, b) in (Some rt, st)
  | None => (None, (w, b))
  end.
End setSize.

(** *** The placement rule *)

Definition in_bounds (b : Board) (column row : Z) : Prop :=
  0 ≤ column < _columnCount b ∧ 0 ≤ row < _rowCount b.

Lemma out_of_bounds_false b column row :
  out_of_bounds b column row = false ↔ in_bounds b column row.
Proof. unfold out_of_bounds, in_bounds. rewrite !orb_false_iff. lia. Qed.

Lemma out_of_bounds_true b column row :
  out_of_bounds b column row = true ↔ ¬ in_bounds b column row.
Proof.
  rewrite <- out_of_bounds_false. destruct (out_of_bounds b column row); naive_solver.
Qed.

Definition locked_at (b : Board) (w : World) (column row : Z) : Prop :=
  field isLocked false w (getPart b column row) = true.

Definition unrestricted : list PartType := [PARTLOC; GEARLOC; GEAR; FENCE].

(** C2: [canPlacePart] is a function of the board, the parts and its
    arguments and returns no new state. It is the decision list of the
    placement rule, read in order: a Ball is allowed exactly inside the
    bounds; any other type is refused out of bounds, refused on a locked
    part, allowed in bounds for PartLocation, GearLocation, Gear and Fence,
    and allowed for the remaining types exactly where
    [(row + column) mod 2 = 0]. *)
Theorem canPlacePart_rule b w ty column row :
  (ty = BALL → (canPlacePart b w ty column row = true ↔ in_bounds b column row)) ∧
  (ty ≠ BALL → ¬ in_bounds b column row → canPlacePart b w ty column row = false) ∧
  (ty ≠ BALL → locked_at b w column row → canPlacePart b w ty column row = false) ∧
  (ty ≠ BALL → in_bounds b column row → ¬ locked_at b w column row →
     ty ∈ unrestricted → canPlacePart b w ty column row = true) ∧
  (ty ≠ BALL → in_bounds b column row → ¬ locked_at b w column row →
     ty ∉ unrestricted →
     (canPlacePart b w ty column row = true ↔ (row + column) `mod` 2 = 0)).
Proof.
  unfold canPlacePart, locked_at. split_and!.
  - intros ->. rewrite decide_True by done. unfold in_bounds.
    rewrite !andb_true_iff, !Z.leb_le, !Z.ltb_lt. lia.
  - intros Hty Hout. rewrite decide_False by done.
    apply out_of_bounds_true in Hout. by rewrite Hout.
  - intros Hty Hl. rewrite decide_False by done.
    destruct (out_of_bounds b column row); [done|]. by rewrite Hl.
  - intros Hty Hin Hl Hun. rewrite decide_False by done.
    apply out_of_bounds_false in Hin. rewrite Hin.
    apply not_true_is_false in Hl. rewrite Hl.
    unfold unrestricted in Hun. rewrite !elem_of_cons, elem_of_nil in Hun.
    destruct Hun as [->|[->|[->|[->|[]]]]]; done.
  - intros Hty Hin Hl Hun. rewrite decide_False by done.
    pose proof Hin as Hin'. apply out_of_bounds_false in Hin'. rewrite Hin'.
    apply not_true_is_false in Hl. rewrite Hl.
    assert (bool_decide (ty = PARTLOC) || bool_decide (ty = GEARLOC)
            || bool_decide (ty = GEAR) || bool_decide (ty = FENCE) = false) as ->.
    { unfold unrestricted in Hun. rewrite !not_elem_of_cons in Hun.
      destruct Hun as (? & ? & ? & ? & _).
      by rewrite !bool_decide_eq_false_2. }
    rewrite Z.eqb_eq. destruct Hin as [? ?].
    rewrite Z.rem_mod_nonneg by lia. done.
Qed.

(** *** Well-formed grids *)

(** The identities held by a list of cells. *)
Definition ids_of (cells : list (option PartId)) : list PartId := omap id cells.

(** The grid is [_rowCount] by [_columnCount], and no part object sits in
    two cells. *)
Definition wf_grid (b : Board) : Prop :=
  0 ≤ _rowCount b ∧ 0 ≤ _columnCount b ∧
  length (_grid b) = Z.to_nat (_rowCount b) ∧
  Forall (λ cells, length cells = Z.to_nat (_columnCount b)) (_grid b) ∧
  NoDup (ids_of (mjoin (_grid b))).

#[export] Instance wf_grid_dec b : Decision (wf_grid b).
Proof. unfold wf_grid. apply _. Defined.

Lemma ids_of_app l1 l2 : ids_of (l1 ++ l2) = ids_of l1 ++ ids_of l2.
Proof. unfold ids_of. by rewrite omap_app. Qed.

Lemma elem_of_ids_of (cells : list (option PartId)) i :
  i ∈ ids_of cells ↔ Some i ∈ cells.
Proof.
  unfold ids_of. rewrite list_elem_of_omap. split.
  - intros ([j|] & Hin & Hj); simplify_eq/=. done.
  - intros Hin. by exists (Some i).
Qed.

Lemma cell_Some grid r c i :
  cell grid r c = Some i ↔ ∃ cells, grid !! r = Some cells ∧ cells !! c = Some (Some i).
Proof.
  unfold cell. split.
  - destruct (grid !! r) as [cells|]; [|done].
    destruct (cells !! c) as [part|] eqn:Hc; [|done]. intros ->. eauto.
  - intros (cells & -> & ->). done.
Qed.

Lemma cell_elem_of grid r c i : cell grid r c = Some i → i ∈ ids_of (mjoin grid).
Proof.
  intros (cells & Hr & Hc)%cell_Some. apply elem_of_ids_of.
  apply list_elem_of_join. exists cells. split.
  - by eapply list_elem_of_lookup_2.
  - by eapply list_elem_of_lookup_2.
Qed.

Lemma row_lookup_inj (cells : list (option PartId)) c c' i :
  NoDup (ids_of cells) → cells !! c = Some (Some i) → cells !! c' = Some (Some i) → c = c'.
Proof.
  revert c c'. induction cells as [|x cells IH]; intros c c' Hnd Hc Hc'; [done|].
  assert (NoDup (ids_of cells)) as Hnd'.
  { destruct x; [by apply NoDup_cons in Hnd as [_ ?]|done]. }
  assert (∀ k, cells !! k = Some (Some i) → x = Some i → False) as Hno.
  { intros k Hk ->. apply NoDup_cons in Hnd as [Hni _]. apply Hni.
    apply elem_of_ids_of. by eapply list_elem_of_lookup_2. }
  destruct c as [|c], c' as [|c']; simplify_eq/=; [done| | |].
  - exfalso. by eapply Hno.
  - exfalso. by eapply Hno.
  - f_equal. by apply (IH c c').
Qed.

(** A part object occupies one cell. *)
Lemma cell_inj grid r c r' c' i :
  NoDup (ids_of (mjoin grid)) →
  cell grid r c = Some i → cell grid r' c' = Some i → r = r' ∧ c = c'.
Proof.
  revert r r'. induction grid as [|cells grid IH]; intros r r' Hnd H H'.
  { by apply cell_Some in H as (? & ? & ?). }
  simpl in Hnd. rewrite ids_of_app in Hnd.
  apply NoDup_app in Hnd as (Hnd1 & Hdisj & Hnd2).
  apply cell_Some in H as (cs & Hr & Hc). apply cell_Some in H' as (cs' & Hr' & Hc').
  destruct r as [|r], r' as [|r']; simplify_eq/=.
  - split; [done|]. by apply (row_lookup_inj cs c c' i).
  - exfalso. eapply (Hdisj i).
    + apply elem_of_ids_of. by eapply list_elem_of_lookup_2.
    + eapply (cell_elem_of grid r' c'). apply cell_Some. eauto.
  - exfalso. eapply (Hdisj i).
    + apply elem_of_ids_of. by eapply list_elem_of_lookup_2.
    + eapply (cell_elem_of grid r c). apply cell_Some. eauto.
  - destruct (IH r r' Hnd2) as [-> ->]; [apply cell_Some; eauto..|done].
Qed.

Lemma getPart_cell b column row :
  wf_grid b → 0 ≤ column → 0 ≤ row →
  getPart b column row = cell (_grid b) (Z.to_nat row) (Z.to_nat column).
Proof.
  intros (Hr & Hc & Hlen & Hcols & _) Hcol Hrow. unfold getPart.
  destruct (out_of_bounds b column row) eqn:Hout; [|done].
  apply out_of_bounds_true in Hout. unfold in_bounds in Hout. unfold cell.
  destruct (_grid b !! Z.to_nat row) as [cells|] eqn:Hcells; [|done].
  assert (length cells = Z.to_nat (_columnCount b)) as Hl.
  { eapply (Forall_lookup_1 _ _ _ _ Hcols Hcells). }
  apply lookup_lt_Some in Hcells.
  rewrite lookup_ge_None_2; [done|]. lia.
Qed.

(** The gear-class parts of a list of cells, in order. *)
Definition gear_ids (w : World) (cells : list (option PartId)) : list PartId :=
  filter (λ i, isGear w (Some i) = true) (ids_of cells).

Lemma gear_ids_app w l1 l2 : gear_ids w (l1 ++ l2) = gear_ids w l1 ++ gear_ids w l2.
Proof. unfold gear_ids. by rewrite ids_of_app, filter_app. Qed.

Lemma elem_of_gear_ids w cells i :
  i ∈ gear_ids w cells ↔ Some i ∈ cells ∧ isGear w (Some i) = true.
Proof. unfold gear_ids. rewrite list_elem_of_filter, elem_of_ids_of. tauto. Qed.

Lemma NoDup_gear_ids w cells : NoDup (ids_of cells) → NoDup (gear_ids w cells).
Proof. apply NoDup_filter. Qed.

Lemma collect_gears_row w allGears cells :
  NoDup (allGears ++ ids_of cells) →
  foldl (λ allGears part,
           match part with
           | Some id => if isGear w part then JsSet.add id allGears else allGears
           | None => allGears
           end) allGears cells
  = allGears ++ gear_ids w cells.
Proof.
  revert allGears. induction cells as [|[i|] cells IH]; intros allGears Hnd; simpl.
  - by rewrite app_nil_r.
  - change (ids_of (Some i :: cells)) with (i :: ids_of cells) in Hnd.
    change (gear_ids w (Some i :: cells))
      with (filter (λ i, isGear w (Some i) = true) (i :: ids_of cells)).
    rewrite filter_cons. destruct (decide (isGear w (Some i) = true)) as [Hg|Hg].
    + rewrite Hg. unfold JsSet.add, JsSet.has. rewrite bool_decide_eq_false_2.
      * rewrite IH; [by rewrite <- app_assoc|].
        by rewrite <- app_assoc.
      * apply NoDup_app in Hnd as (_ & Hdisj & _). intros Hin.
        apply (Hdisj i Hin). by left.
    + apply not_true_is_false in Hg. rewrite Hg. apply IH.
      apply NoDup_app in Hnd as (Hnd1 & Hdisj & Hnd2).
      apply NoDup_app. split_and!; [done| |by apply NoDup_cons in Hnd2 as [_ ?]].
      intros x Hx Hx'. apply (Hdisj x Hx). by right.
  - apply IH. done.
Qed.

Lemma collect_gears_rows w allGears grid :
  NoDup (allGears ++ ids_of (mjoin grid)) →
  foldl (λ allGears row,
           foldl (λ allGears part,
                    match part with
                    | Some id => if isGear w part then JsSet.add id allGears else allGears
                    | None => allGears
                    end) allGears row) allGears grid
  = allGears ++ gear_ids w (mjoin grid).
Proof.
  revert allGears. induction grid as [|cells grid IH]; intros allGears Hnd; simpl.
  - by rewrite app_nil_r.
  - simpl in Hnd. rewrite ids_of_app in Hnd.
    rewrite collect_gears_row.
    + rewrite IH.
      * by rewrite gear_ids_app, app_assoc.
      * rewrite app_assoc in Hnd. apply NoDup_app in Hnd as (Hnd1 & Hdisj & Hnd2).
        apply NoDup_app. split_and!; [|  |done].
        -- apply NoDup_app in Hnd1 as (Ha & Hd & Hc).
           apply NoDup_app. split_and!; [done| |by apply NoDup_gear_ids].
           intros x Hx Hx'. apply (Hd x Hx).
           apply elem_of_gear_ids in Hx' as [? _]. by apply elem_of_ids_of.
        -- intros x Hx Hx'. apply (Hdisj x); [|done].
           apply elem_of_app in Hx as [Hx|Hx]; apply elem_of_app; [by left|right].
           apply elem_of_gear_ids in Hx as [? _]. by apply elem_of_ids_of.
    + rewrite app_assoc in Hnd. by apply NoDup_app in Hnd as (? & _ & _).
Qed.

Lemma collect_gears_eq w grid :
  NoDup (ids_of (mjoin grid)) → collect_gears w grid = gear_ids w (mjoin grid).
Proof. intros Hnd. unfold collect_gears. by rewrite collect_gears_rows. Qed.

(** *** Connected components of gear cells *)

(** A position is a (row, column) pair of array indices. *)
Definition pos : Type := nat * nat.

Definition part_at (b : Board) (x : pos) : option PartId := cell (_grid b) x.1 x.2.

(** The cell holds a gear-class part. *)
Definition gear_at (b : Board) (w : World) (x : pos) : Prop :=
  isGear w (part_at b x) = true.

#[export] Instance gear_at_dec b w x : Decision (gear_at b w x).
Proof. unfold gear_at. apply _. Defined.

(** Edge-adjacent: north, south, east or west, never diagonal. *)
Definition adjacent (x y : pos) : Prop :=
  (x.1 = y.1 ∧ (x.2 = S y.2 ∨ y.2 = S x.2)) ∨
  (x.2 = y.2 ∧ (x.1 = S y.1 ∨ y.1 = S x.1)).

Definition gear_step (b : Board) (w : World) (x y : pos) : Prop :=
  gear_at b w x ∧ gear_at b w y ∧ adjacent x y.

(** Joined by a path of edge-adjacent gear cells. *)
Definition joined (b : Board) (w : World) : pos → pos → Prop := rtc (gear_step b w).

(** Row-major order: the scan reaches [x] before [y]. *)
Definition before (x y : pos) : Prop :=
  (x.1 < y.1 ∨ (x.1 = y.1 ∧ x.2 < y.2))%nat.

Definition next (x : pos) : pos := (x.1, S x.2).

(** Everything but the scratch label and the connected set is kept. *)
Definition keeps_but_links (p p' : Part) : Prop :=
  with_connected None (with_connectionLabel 0 p')
  = with_connected None (with_connectionLabel 0 p).

Lemma keeps_but_links_refl p : keeps_but_links p p.
Proof. done. Qed.

Lemma keeps_but_links_trans p1 p2 p3 :
  keeps_but_links p1 p2 → keeps_but_links p2 p3 → keeps_but_links p1 p3.
Proof. unfold keeps_but_links. congruence. Qed.

Lemma keeps_but_links_type p p' : keeps_but_links p p' → type p' = type p.
Proof.
  unfold keeps_but_links. intros H.
  by apply (f_equal type) in H.
Qed.

Lemma keeps_but_links_label v p : keeps_but_links p (with_connectionLabel v p).
Proof. done. Qed.

Lemma keeps_but_links_connected v p : keeps_but_links p (with_connected v p).
Proof. done. Qed.

Lemma isGear_related w w' part :
  parts_related keeps_but_links w w' → isGear w' part = isGear w part.
Proof.
  intros HR. unfold isGear, field. destruct part as [i|]; [|done]. simpl.
  specialize (HR i). destruct (parts w !! i), (parts w' !! i); try done.
  by rewrite (keeps_but_links_type _ _ HR).
Qed.

(** The world is kept but for the links of its parts and the [Set]
    objects. *)
Definition world_kept (w w' : World) : Prop :=
  parts_related keeps_but_links w w' ∧
  animations w' = animations w ∧
  _settingConnectedRotation w' = _settingConnectedRotation w ∧
  nextPart w' = nextPart w.

Lemma world_kept_refl w : world_kept w w.
Proof.
  split_and!; [|done..]. apply parts_related_refl, keeps_but_links_refl.
Qed.

Lemma world_kept_trans w1 w2 w3 :
  world_kept w1 w2 → world_kept w2 w3 → world_kept w1 w3.
Proof.
  intros (H1 & H2 & H3 & H4) (H1' & H2' & H3' & H4'). split_and!; [|congruence..].
  eapply parts_related_trans; [apply keeps_but_links_trans|done..].
Qed.

Lemma isGear_kept w w' part : world_kept w w' → isGear w' part = isGear w part.
Proof. intros [H _]. by apply isGear_related. Qed.

Lemma update_part_nextPart id f w : nextPart (update_part id f w) = nextPart w.
Proof. unfold update_part. by case_match. Qed.

Lemma update_part_nextSet id f w : nextSet (update_part id f w) = nextSet w.
Proof. unfold update_part. by case_match. Qed.

Lemma update_part_kept id f w :
  (∀ p, keeps_but_links p (f p)) → world_kept w (update_part id f w).
Proof.
  intros Hf. split_and!.
  - apply update_part_related; [apply keeps_but_links_refl|done].
  - apply update_part_animations.
  - apply update_part_setting.
  - apply update_part_nextPart.
Qed.

Lemma adjacent_sym x y : adjacent x y → adjacent y x.
Proof. unfold adjacent. lia. Qed.

Lemma gear_step_sym b w x y : gear_step b w x y → gear_step b w y x.
Proof. intros (? & ? & ?). split_and!; [done..|]. by apply adjacent_sym. Qed.

Lemma joined_sym b w x y : joined b w x y → joined b w y x.
Proof.
  induction 1 as [|x y z Hxy _ IH]; [done|].
  eapply rtc_r; [done|]. by apply gear_step_sym.
Qed.

Lemma before_next x cur : before x (next cur) ↔ before x cur ∨ x = cur.
Proof.
  unfold before, next. destruct x as [r c], cur as [r' c']. simpl.
  split; [|intros [?|[= -> ->]]; lia].
  intros [?|[-> ?]]; [lia|].
  destruct (decide (c = c')) as [->|]; [by right|left; lia].
Qed.

Lemma before_irrefl x : ¬ before x x.
Proof. unfold before. lia. Qed.

Lemma adjacent_irrefl x : ¬ adjacent x x.
Proof. unfold adjacent. lia. Qed.

(** In row-major order, the neighbours already scanned are the northern
    and the western one. *)
Lemma before_adjacent y cur :
  before y cur → adjacent y cur →
  (cur.1 = S y.1 ∧ y.2 = cur.2) ∨ (y.1 = cur.1 ∧ cur.2 = S y.2).
Proof. unfold before, adjacent. lia. Qed.

Section labelling.
Variable b : Board.
Variable w0 : World.
Hypothesis Hwf : wf_grid b.

(** The number of elements of the resolver. *)
Definition gear_count : nat := length (gear_ids w0 (mjoin (_grid b))).

Definition lab (w : World) (x : pos) : Z := connectionLabel w (part_at b x).
Definition labn (w : World) (x : pos) : nat := Z.to_nat (lab w x).

(** The state of the labelling scan when it is about to visit [cur], with
    [rem] gear cells still to come. *)
Record Inv (cur : pos) (rem : nat) (st : Labelling) : Prop := {
  inv_parts : world_kept w0 (l_world st);
  inv_wf : DisjointSet.wf (equivalence st);
  inv_len : length (DisjointSet.parents (equivalence st)) = gear_count;
  inv_label : 0 ≤ label st ∧ (Z.to_nat (label st) + rem ≤ gear_count)%nat;
  inv_range : ∀ x, before x cur → gear_at b w0 x →
    0 ≤ lab (l_world st) x < label st;
  inv_fresh : ∀ l j, (Z.to_nat (label st) ≤ l)%nat →
    DisjointSet.same (equivalence st) l j → j = l;
  inv_complete : ∀ x y, before x cur → before y cur → gear_step b w0 x y →
    DisjointSet.same (equivalence st) (labn (l_world st) x) (labn (l_world st) y);
  inv_sound : ∀ x y, before x cur → before y cur →
    gear_at b w0 x → gear_at b w0 y →
    DisjointSet.same (equivalence st) (labn (l_world st) x) (labn (l_world st) y) →
    joined b w0 x y
}.

Lemma Inv_weaken cur cur' rem st :
  (∀ x, before x cur' → gear_at b w0 x → before x cur) →
  Inv cur rem st → Inv cur' rem st.
Proof using Type.
  intros Hsub [H1 H2 H3 H4 H5 H6 H7 H8]. split; try done.
  - intros x Hx Hg. apply H5; auto.
  - intros x y Hx Hy Hxy. pose proof Hxy as (? & ? & ?). apply H7; auto.
  - intros x y Hx Hy Hgx Hgy. apply H8; auto.
Qed.

Lemma Inv_skip cur rem st :
  ¬ gear_at b w0 cur → Inv cur rem st → Inv (next cur) rem st.
Proof using Type.
  intros Hng. apply Inv_weaken. intros x [?| ->]%before_next Hg; done.
Qed.

Lemma lab_update_other w i v cur x :
  part_at b cur = Some i → x ≠ cur →
  lab (update_part i (with_connectionLabel v) w) x = lab w x.
Proof using Hwf.
  intros Hcur Hne. unfold lab, connectionLabel, isGear, field.
  destruct (part_at b x) as [j|] eqn:Hx; [|done]. simpl.
  assert (j ≠ i) as Hji.
  { intros ->. apply Hne. destruct Hwf as (_ & _ & _ & _ & Hnd).
    destruct x, cur. unfold part_at in *. simpl in *.
    by destruct (cell_inj _ _ _ _ _ _ Hnd Hx Hcur) as [-> ->]. }
  by rewrite update_part_lookup, decide_False.
Qed.

Lemma lab_update_same w i v cur :
  part_at b cur = Some i → isGear w (Some i) = true →
  lab (update_part i (with_connectionLabel v) w) cur = v.
Proof using Type.
  intros Hcur Hg. unfold lab, connectionLabel, isGear, field in *.
  rewrite Hcur. simpl in *. rewrite update_part_lookup, decide_True by done.
  destruct (parts w !! i) as [p|]; [|done]. simpl. by rewrite Hg.
Qed.

Lemma update_label_related w i v :
  world_kept w0 w →
  world_kept w0 (update_part i (with_connectionLabel v) w).
Proof using Type.
  intros HR. eapply world_kept_trans; [done|].
  apply update_part_kept. intros p. apply keeps_but_links_label.
Qed.

(** The cell takes over the label of a neighbour [A] scanned before it,
    while the resolver joins the sets of two labels whose cells [X] and [Y]
    are already joined by a path. *)
Lemma Inv_extend cur rem st i A ds' X Y :
  Inv cur (S rem) st →
  part_at b cur = Some i → gear_at b w0 cur →
  before A cur → gear_at b w0 A → adjacent A cur →
  DisjointSet.wf ds' →
  length (DisjointSet.parents ds') = gear_count →
  before X cur → gear_at b w0 X → before Y cur → gear_at b w0 Y →
  joined b w0 X Y →
  (∀ k j, (k < gear_count)%nat → (j < gear_count)%nat →
     (DisjointSet.same ds' k j ↔
      DisjointSet.same (equivalence st) k j
      ∨ (DisjointSet.same (equivalence st) k (labn (l_world st) X)
         ∧ DisjointSet.same (equivalence st) (labn (l_world st) Y) j)
      ∨ (DisjointSet.same (equivalence st) k (labn (l_world st) Y)
         ∧ DisjointSet.same (equivalence st) (labn (l_world st) X) j))) →
  (∀ y, before y cur → gear_at b w0 y → adjacent y cur →
     DisjointSet.same ds' (labn (l_world st) y) (labn (l_world st) A)) →
  Inv (next cur) rem
    (mkLabelling (update_part i (with_connectionLabel (lab (l_world st) A)) (l_world st))
       ds' (label st)).
Proof using Hwf.
  intros [H1 H2 H3 H4 H5 H6 H7 H8] Hcur Hgcur HA HgA HadjA Hwf' Hlen'
    HX HgX HY HgY HXY Hsame Hnbr.
  set (w := l_world st) in *. set (ds := equivalence st) in *.
  set (w' := update_part i (with_connectionLabel (lab w A)) w).
  assert (isGear w (Some i) = true) as Hgi.
  { rewrite (isGear_kept w0 w) by done. unfold gear_at in Hgcur.
    by rewrite Hcur in Hgcur. }
  assert (∀ x, x ≠ cur → lab w' x = lab w x) as Hother.
  { intros x Hx. by apply lab_update_other with (cur := cur). }
  assert (lab w' cur = lab w A) as Hsame_cur.
  { by apply lab_update_same. }
  (* the cell that stands for [x] among the cells scanned before [cur] *)
  set (rep := λ x : pos, if decide (x = cur) then A else x).
  assert (∀ x, before x (next cur) → gear_at b w0 x →
            before (rep x) cur ∧ gear_at b w0 (rep x) ∧
            lab w' x = lab w (rep x) ∧ joined b w0 x (rep x)) as Hrep.
  { intros x Hx Hg. unfold rep. destruct (decide (x = cur)) as [->|Hne].
    - split_and!; [done..|]. apply rtc_once. split_and!; [done..|].
      by apply adjacent_sym.
    - apply before_next in Hx as [Hx|?]; [|done].
      split_and!; [done|done|by apply Hother|done]. }
  assert (∀ x, before x cur → gear_at b w0 x → (labn w x < gear_count)%nat) as Hlt.
  { intros x Hx Hg. unfold labn. pose proof (H5 x Hx Hg). lia. }
  assert (∀ x y, before x cur → before y cur → gear_at b w0 x → gear_at b w0 y →
            DisjointSet.same ds' (labn w x) (labn w y) → joined b w0 x y) as Hsound'.
  { intros x y Hx Hy Hgx Hgy Hxy.
    apply (proj1 (Hsame _ _ (Hlt x Hx Hgx) (Hlt y Hy Hgy))) in Hxy.
    destruct Hxy as [Hxy|[[HxX HYy]|[HxY HXy]]].
    - by apply H8.
    - etrans; [by apply (H8 x X)|]. etrans; [done|]. by apply H8.
    - etrans; [by apply (H8 x Y)|]. etrans; [by apply joined_sym|]. by apply H8. }
  split; simpl.
  - by apply update_label_related.
  - done.
  - done.
  - lia.
  - intros x Hx Hg. destruct (Hrep x Hx Hg) as (Hb & Hgr & -> & _). by apply H5.
  - intros l j Hl Hlj.
    assert (l < gear_count ∧ j < gear_count)%nat as [Hl' Hj'].
    { destruct Hlj as (r & Hr1 & Hr2). rewrite <- Hlen'.
      split; by eapply DisjointSet.root_of_lt. }
    pose proof (H5 X HX HgX). pose proof (H5 Y HY HgY).
    apply (proj1 (Hsame l j Hl' Hj')) in Hlj.
    destruct Hlj as [Hlj|[[HlX _]|[HlY _]]].
    + by apply H6.
    + apply H6 in HlX; [|done]. unfold labn in HlX. lia.
    + apply H6 in HlY; [|done]. unfold labn in HlY. lia.
  - intros x y Hx Hy Hxy. pose proof Hxy as (Hgx & Hgy & Hadj).
    destruct (Hrep x Hx Hgx) as (Hbx & Hgrx & Hlx & _).
    destruct (Hrep y Hy Hgy) as (Hby & Hgry & Hly & _).
    unfold labn. rewrite Hlx, Hly. fold (labn w (rep x)) (labn w (rep y)).
    unfold rep in *.
    destruct (decide (x = cur)) as [->|Hxc], (decide (y = cur)) as [->|Hyc].
    + by apply adjacent_irrefl in Hadj.
    + apply DisjointSet.sameP_sym. apply Hnbr; [done..|].
      by apply adjacent_sym.
    + by apply Hnbr.
    + apply Hsame; [by apply Hlt..|]. left. apply H7; [|done..].
      apply before_next in Hx as [?|?]; done.
  - intros x y Hx Hy Hgx Hgy Hxy.
    destruct (Hrep x Hx Hgx) as (Hbx & Hgrx & Hlx & Hjx).
    destruct (Hrep y Hy Hgy) as (Hby & Hgry & Hly & Hjy).
    unfold labn in Hxy. rewrite Hlx, Hly in Hxy.
    etrans; [done|]. etrans; [|by apply joined_sym].
    by apply Hsound'.
Qed.

(** No neighbour scanned before is a gear cell: the cell opens a new
    label. *)
Lemma Inv_new_label cur rem st i :
  Inv cur (S rem) st →
  part_at b cur = Some i → gear_at b w0 cur →
  (∀ y, before y cur → gear_at b w0 y → ¬ adjacent y cur) →
  Inv (next cur) rem
    (mkLabelling (update_part i (with_connectionLabel (label st)) (l_world st))
       (equivalence st) (label st + 1)).
Proof using Hwf.
  intros [H1 H2 H3 H4 H5 H6 H7 H8] Hcur Hgcur Hnone.
  set (w := l_world st) in *. set (ds := equivalence st) in *.
  set (w' := update_part i (with_connectionLabel (label st)) w).
  assert (isGear w (Some i) = true) as Hgi.
  { rewrite (isGear_kept w0 w) by done. unfold gear_at in Hgcur.
    by rewrite Hcur in Hgcur. }
  assert (∀ x, x ≠ cur → lab w' x = lab w x) as Hother.
  { intros x Hx. by apply lab_update_other with (cur := cur). }
  assert (lab w' cur = label st) as Hsame_cur by (by apply lab_update_same).
  split; simpl.
  - by apply update_label_related.
  - done.
  - done.
  - lia.
  - intros x [Hx| ->]%before_next Hg.
    + rewrite Hother by (intros ->; by apply before_irrefl in Hx).
      pose proof (H5 x Hx Hg). lia.
    + rewrite Hsame_cur. lia.
  - intros l j Hl. apply H6. lia.
  - intros x y Hx Hy Hxy. pose proof Hxy as (Hgx & Hgy & Hadj).
    apply before_next in Hx as [Hx| ->]; apply before_next in Hy as [Hy| ->].
    + unfold labn. rewrite !Hother
        by (intros ->; by eapply before_irrefl).
      by apply H7.
    + by apply Hnone in Hadj.
    + apply adjacent_sym in Hadj. by apply Hnone in Hadj.
    + by apply adjacent_irrefl in Hadj.
  - intros x y Hx Hy Hgx Hgy Hxy.
    apply before_next in Hx as [Hx| ->]; apply before_next in Hy as [Hy| ->].
    + unfold labn in Hxy. rewrite !Hother in Hxy
        by (intros ->; by eapply before_irrefl).
      by apply H8.
    + exfalso. unfold labn in Hxy. rewrite Hsame_cur in Hxy.
      rewrite Hother in Hxy by (intros ->; by eapply before_irrefl).
      apply DisjointSet.sameP_sym in Hxy. apply H6 in Hxy; [|lia].
      pose proof (H5 x Hx Hgx). lia.
    + exfalso. unfold labn in Hxy. rewrite Hsame_cur in Hxy.
      rewrite Hother in Hxy by (intros ->; by eapply before_irrefl).
      apply H6 in Hxy; [|lia].
      pose proof (H5 y Hy Hgy). lia.
    + done.
Qed.

Lemma Inv_take_label cur rem st i A :
  Inv cur (S rem) st →
  part_at b cur = Some i → gear_at b w0 cur →
  before A cur → gear_at b w0 A → adjacent A cur →
  (∀ y, before y cur → gear_at b w0 y → adjacent y cur →
     lab (l_world st) y = lab (l_world st) A) →
  Inv (next cur) rem
    (mkLabelling (update_part i (with_connectionLabel (lab (l_world st) A)) (l_world st))
       (equivalence st) (label st)).
Proof using Hwf.
  intros HI Hcur Hg HA HgA Hadj Hnbr.
  assert (labn (l_world st) A < gear_count)%nat as Hlt.
  { pose proof (inv_range _ _ _ HI A HA HgA). pose proof (inv_label _ _ _ HI).
    unfold labn. lia. }
  assert (DisjointSet.same (equivalence st) (labn (l_world st) A) (labn (l_world st) A))
    as Hrefl.
  { apply DisjointSet.sameP_refl; [by apply (inv_wf _ _ _ HI)|].
    by rewrite (inv_len _ _ _ HI). }
  apply (Inv_extend cur rem st i A (equivalence st) A A); try done.
  - by apply (inv_wf _ _ _ HI).
  - by apply (inv_len _ _ _ HI).
  - intros k j _ _. split; [auto|].
    intros [?|[[? ?]|[? ?]]]; [done|by eapply DisjointSet.sameP_trans..].
  - intros y Hy Hgy Hadjy. unfold labn. by rewrite (Hnbr y Hy Hgy Hadjy).
Qed.

(** The label the scan reads off a neighbour. *)
Lemma neighbour_label cur rem st y :
  Inv cur rem st → before y cur →
  (gear_at b w0 y ∧ 0 ≤ lab (l_world st) y) ∨
  (¬ gear_at b w0 y ∧ lab (l_world st) y = -1).
Proof using Type.
  intros HI Hy. destruct (decide (gear_at b w0 y)) as [Hg|Hg].
  - left. split; [done|]. by apply (inv_range _ _ _ HI y Hy Hg).
  - right. split; [done|]. unfold lab, connectionLabel.
    rewrite (isGear_kept w0) by apply (inv_parts _ _ _ HI).
    unfold gear_at in Hg. by apply not_true_is_false in Hg as ->.
Qed.

Definition north (cur : pos) : option pos :=
  match cur.1 with S r => Some (r, cur.2) | O => None end.

Definition west (cur : pos) : option pos :=
  match cur.2 with S c => Some (cur.1, c) | O => None end.

Lemma before_adjacent_cases y cur :
  before y cur → adjacent y cur → north cur = Some y ∨ west cur = Some y.
Proof.
  intros Hb Ha. destruct (before_adjacent y cur Hb Ha) as [[H1 H2]|[H1 H2]].
  - left. unfold north. rewrite H1, <- H2. by destruct y.
  - right. unfold west. rewrite H2, <- H1. by destruct y.
Qed.

Lemma north_before cur y : north cur = Some y → before y cur ∧ adjacent y cur.
Proof.
  unfold north, before, adjacent. destruct cur as [[|r] c]; intros [= <-]; simpl; lia.
Qed.

Lemma west_before cur y : west cur = Some y → before y cur ∧ adjacent y cur.
Proof.
  unfold west, before, adjacent. destruct cur as [r [|c]]; intros [= <-]; simpl; lia.
Qed.

Lemma northPart_eq cur :
  (if 0 <? Z.of_nat cur.1 then getPart b (Z.of_nat cur.2) (Z.of_nat cur.1 - 1) else None)
  = north cur ≫= part_at b.
Proof using Hwf.
  unfold north. destruct cur as [[|r] c]; simpl; [done|].
  rewrite getPart_cell by (done || lia). unfold part_at. simpl.
  f_equal; lia.
Qed.

(** One step of the labelling scan. *)
Lemma label_part_Inv cur rem st :
  Inv cur (length (gear_ids w0 [part_at b cur]) + rem) st →
  ∃ st',
    label_part b (Z.of_nat cur.1) (Z.of_nat cur.2) (part_at b cur)
      (west cur ≫= part_at b) st = Ok st' ∧
    Inv (next cur) rem st'.
Proof using Hwf.
  intros HI. unfold label_part. rewrite northPart_eq.
  destruct (part_at b cur) as [i|] eqn:Hcur;
    [|eexists; split; [done|]; apply Inv_skip; [|done];
      unfold gear_at; by rewrite Hcur].
  rewrite (isGear_kept w0) by apply (inv_parts _ _ _ HI).
  destruct (isGear w0 (Some i)) eqn:Hgi; cycle 1.
  { eexists. split; [done|]. apply Inv_skip.
    - unfold gear_at. rewrite Hcur. by rewrite Hgi.
    - unfold gear_ids, ids_of in HI. simpl in HI.
      rewrite filter_cons, decide_False in HI by (by rewrite Hgi). done. }
  assert (gear_at b w0 cur) as Hg by (unfold gear_at; by rewrite Hcur).
  assert (Inv cur (S rem) st) as HI'.
  { unfold gear_ids, ids_of in HI. simpl in HI.
    rewrite filter_cons, decide_True in HI by done. done. }
  clear HI. rename HI' into HI.
  set (w := l_world st).
  (* what the scan learns from one neighbour *)
  assert (∀ nb : option pos,
            (∀ y, nb = Some y → before y cur ∧ adjacent y cur) →
            let l := connectionLabel w (nb ≫= part_at b) in
            (∃ y, nb = Some y ∧ gear_at b w0 y ∧ 0 ≤ l ∧ l = lab w y) ∨
            (l = -1 ∧ ∀ y, nb = Some y → ¬ gear_at b w0 y)) as Hnb.
  { intros [y|] Hy; simpl.
    - destruct (Hy y eq_refl) as [Hby _].
      destruct (neighbour_label cur _ st y HI Hby) as [[? ?]|[? ?]].
      + left. exists y. done.
      + right. split; [done|]. by intros ? [= <-].
    - right. split; [done|]. done. }
  destruct (Hnb (north cur) (north_before cur)) as
    [(N & HN & HgN & HN0 & HNl)|[HN HNg]];
  destruct (Hnb (west cur) (west_before cur)) as
    [(W & HW & HgW & HW0 & HWl)|[HW HWg]];
  fold w; set (nl := connectionLabel w (north cur ≫= part_at b)) in *;
  set (wl := connectionLabel w (west cur ≫= part_at b)) in *.
  - (* both neighbours are gear cells *)
    destruct (north_before _ _ HN) as [HbN HaN].
    destruct (west_before _ _ HW) as [HbW HaW].
    assert ((0 <=? nl) && (0 <=? wl) = true) as ->.
    { apply andb_true_iff. split; apply Z.leb_le; done. }
    assert (∀ y, before y cur → gear_at b w0 y → adjacent y cur → y = N ∨ y = W)
      as Hcases.
    { intros y Hy _ Ha. destruct (before_adjacent_cases y cur Hy Ha); [left|right];
        congruence. }
    destruct (nl =? wl) eqn:Heq.
    + apply Z.eqb_eq in Heq. eexists. split; [done|].
      unfold set_connectionLabel. rewrite HNl.
      apply Inv_take_label; try done.
      intros y Hy Hgy Hay. destruct (Hcases y Hy Hgy Hay) as [->| ->]; [done|].
      fold w. rewrite <- HNl, <- HWl. lia.
    + apply Z.eqb_neq in Heq.
      pose proof (inv_range _ _ _ HI N HbN HgN) as HrN.
      pose proof (inv_range _ _ _ HI W HbW HgW) as HrW.
      pose proof (inv_label _ _ _ HI) as [Hl0 Hln].
      (* [X] carries the smaller label, [Y] the larger *)
      assert (∃ X Y, before X cur ∧ gear_at b w0 X ∧ adjacent X cur ∧
                     before Y cur ∧ gear_at b w0 Y ∧ adjacent Y cur ∧
                     Z.min nl wl = lab w X ∧ Z.max nl wl = lab w Y ∧
                     (∀ y, y = N ∨ y = W → y = X ∨ y = Y))
        as (X & Y & HbX & HgX & HaX & HbY & HgY & HaY & Hmin & Hmax & HXY).
      { destruct (Z.lt_ge_cases nl wl).
        - exists N, W. rewrite Z.min_l, Z.max_r by lia. split_and!; auto.
        - exists W, N. rewrite Z.min_r, Z.max_l by lia. split_and!; auto.
          intros y [?|?]; auto. }
      simpl. rewrite Hmin, Hmax.
      pose proof (inv_range _ _ _ HI X HbX HgX) as HrX.
      pose proof (inv_range _ _ _ HI Y HbY HgY) as HrY.
      destruct (DisjointSet.mergeSets_spec (equivalence st) (labn w X) (labn w Y))
        as (ds' & merged & Hmerge & Hwf' & Hlen' & Hsame).
      { apply (inv_wf _ _ _ HI). }
      { rewrite (inv_len _ _ _ HI). unfold labn, w. lia. }
      { rewrite (inv_len _ _ _ HI). unfold labn, w. lia. }
      unfold labn in Hmerge. rewrite !Z2Nat.id in Hmerge by lia.
      rewrite Hmerge. eexists. split; [done|]. simpl.
      rewrite (inv_len _ _ _ HI) in Hlen', Hsame.
      assert (∀ y, before y cur → gear_at b w0 y →
                DisjointSet.same ds' (labn w y) (labn w y)) as Hrefl.
      { intros y Hy Hgy. apply DisjointSet.sameP_refl; [done|].
        rewrite Hlen'. pose proof (inv_range _ _ _ HI y Hy Hgy). unfold labn, w. lia. }
      assert (∀ y, before y cur → gear_at b w0 y →
                DisjointSet.same (equivalence st) (labn w y) (labn w y)) as Hrefl0.
      { intros y Hy Hgy. apply DisjointSet.sameP_refl; [apply (inv_wf _ _ _ HI)|].
        rewrite (inv_len _ _ _ HI).
        pose proof (inv_range _ _ _ HI y Hy Hgy). unfold labn, w. lia. }
      apply (Inv_extend cur rem st i X ds' X Y); try done.
      * etrans; [apply rtc_once|apply rtc_once].
        -- split_and!; [done|exact Hg|done].
        -- split_and!; [exact Hg|done|by apply adjacent_sym].
      * intros y Hy Hgy Hay.
        destruct (HXY y (Hcases y Hy Hgy Hay)) as [->| ->]; [by apply Hrefl|].
        apply Hsame; [unfold labn, w; lia..|].
        right; right. split; by apply Hrefl0.
  - (* only the northern neighbour is a gear cell *)
    destruct (north_before _ _ HN) as [HbN HaN].
    assert ((0 <=? nl) && (0 <=? wl) = false) as ->.
    { apply andb_false_iff. right. apply Z.leb_gt. lia. }
    assert ((0 <=? nl) = true) as -> by (by apply Z.leb_le).
    eexists. split; [done|]. unfold set_connectionLabel. rewrite HNl.
    apply Inv_take_label; try done.
    intros y Hy Hgy Hay.
    destruct (before_adjacent_cases y cur Hy Hay) as [?|Hyw]; [congruence|].
    by apply HWg in Hyw.
  - (* only the western neighbour is a gear cell *)
    destruct (west_before _ _ HW) as [HbW HaW].
    assert ((0 <=? nl) && (0 <=? wl) = false) as ->.
    { apply andb_false_iff. left. apply Z.leb_gt. lia. }
    assert ((0 <=? nl) = false) as -> by (apply Z.leb_gt; lia).
    assert ((0 <=? wl) = true) as -> by (by apply Z.leb_le).
    eexists. split; [done|]. unfold set_connectionLabel. rewrite HWl.
    apply Inv_take_label; try done.
    intros y Hy Hgy Hay.
    destruct (before_adjacent_cases y cur Hy Hay) as [Hyn|?]; [|congruence].
    by apply HNg in Hyn.
  - (* neither: a new label *)
    assert ((0 <=? nl) && (0 <=? wl) = false) as ->.
    { apply andb_false_iff. left. apply Z.leb_gt. lia. }
    assert ((0 <=? nl) = false) as -> by (apply Z.leb_gt; lia).
    assert ((0 <=? wl) = false) as -> by (apply Z.leb_gt; lia).
    eexists. split; [done|]. simpl.
    apply Inv_new_label; try done.
    intros y Hy Hgy Hay.
    destruct (before_adjacent_cases y cur Hy Hay) as [Hyn|Hyw].
    + by apply HNg in Hyn.
    + by apply HWg in Hyw.
Qed.

Lemma gear_at_lookup x :
  gear_at b w0 x → ∃ cells i, _grid b !! x.1 = Some cells ∧ cells !! x.2 = Some (Some i).
Proof using Type.
  unfold gear_at, part_at. destruct (cell (_grid b) x.1 x.2) as [i|] eqn:Hc; [|done].
  intros _. apply cell_Some in Hc as (cells & ? & ?). eauto.
Qed.

Lemma label_row_Inv r cells rest : ∀ pre rem st,
  _grid b !! r = Some cells → cells = pre ++ rest →
  Inv (r, length pre) (length (gear_ids w0 rest) + rem) st →
  ∃ st',
    label_row b (Z.of_nat r) (Z.of_nat (length pre))
      (west (r, length pre) ≫= part_at b) rest st = Ok st' ∧
    Inv (r, length cells) rem st'.
Proof using Hwf.
  induction rest as [|part rest IH]; intros pre rem st Hr Hcells HI.
  - simpl. exists st. split; [done|]. subst cells. by rewrite app_nil_r.
  - assert (part_at b (r, length pre) = part) as Hpart.
    { unfold part_at, cell. simpl. rewrite Hr, Hcells.
      by rewrite list_lookup_middle. }
    change (part :: rest) with ([part] ++ rest) in HI.
    rewrite gear_ids_app, length_app, <- Nat.add_assoc, <- Hpart in HI.
    destruct (label_part_Inv (r, length pre) _ st HI) as (st1 & Hstep & HI1).
    simpl in Hstep. cbn [label_row]. rewrite Hpart in Hstep. rewrite Hstep.
    destruct (IH (pre ++ [part]) rem st1) as (st' & Hrow & HI').
    + done.
    + by rewrite <- app_assoc.
    + rewrite length_app. simpl. rewrite Nat.add_1_r. exact HI1.
    + exists st'. split; [|done].
      rewrite length_app in Hrow. simpl in Hrow. rewrite Nat.add_1_r in Hrow.
      unfold west in Hrow. simpl in Hrow. rewrite Hpart in Hrow.
      rewrite <- Hrow. f_equal. lia.
Qed.

Lemma label_rows_Inv rest : ∀ pre rem st,
  _grid b = pre ++ rest →
  Inv (length pre, 0%nat) (length (gear_ids w0 (mjoin rest)) + rem) st →
  ∃ st',
    label_rows b (Z.of_nat (length pre)) rest st = Ok st' ∧
    Inv (length (_grid b), 0%nat) rem st'.
Proof using Hwf.
  induction rest as [|cells rest IH]; intros pre rem st Hgrid HI.
  - simpl. exists st. split; [done|]. rewrite Hgrid. by rewrite app_nil_r.
  - assert (_grid b !! length pre = Some cells) as Hr.
    { rewrite Hgrid. by rewrite list_lookup_middle. }
    simpl in HI. rewrite gear_ids_app, length_app, <- Nat.add_assoc in HI.
    destruct (label_row_Inv (length pre) cells cells [] _ st Hr eq_refl HI)
      as (st1 & Hrow & HI1).
    cbn [label_rows].
    change (label_row b (Z.of_nat (length pre)) 0 None cells st = Ok st1) in Hrow.
    rewrite Hrow.
    destruct (IH (pre ++ [cells]) rem st1) as (st' & Hrows & HI').
    + by rewrite <- app_assoc.
    + rewrite length_app. simpl. rewrite Nat.add_1_r.
      eapply Inv_weaken; [|exact HI1].
      intros x Hx Hg. unfold before in *. simpl in *.
      destruct (decide (x.1 < length pre)%nat); [by left|right].
      split; [lia|].
      destruct (gear_at_lookup x Hg) as (cells' & i & Hx1 & Hx2).
      assert (x.1 = length pre) as Hx1' by lia. rewrite Hx1' in Hx1.
      assert (cells' = cells) as -> by congruence.
      by eapply lookup_lt_Some.
    + exists st'. split; [|done].
      rewrite length_app in Hrows. simpl in Hrows.
      rewrite <- Hrows. f_equal. lia.
Qed.

Lemma Inv_initial :
  Inv (0%nat, 0%nat) (gear_count + 0) (mkLabelling w0 (DisjointSet.create gear_count) 0).
Proof using Type.
  split; simpl.
  - apply world_kept_refl.
  - apply DisjointSet.wf_create.
  - by rewrite length_seq.
  - lia.
  - intros x Hx. unfold before in Hx. simpl in Hx. lia.
  - intros l j _ Hlj. apply DisjointSet.same_create in Hlj. lia.
  - intros x y Hx. unfold before in Hx. simpl in Hx. lia.
  - intros x y Hx. unfold before in Hx. simpl in Hx. lia.
Qed.

(** The labelling scan comes back, with every gear cell labelled. *)
Lemma label_rows_total :
  ∃ st,
    label_rows b 0 (_grid b) (mkLabelling w0 (DisjointSet.create gear_count) 0) = Ok st ∧
    Inv (length (_grid b), 0%nat) 0 st.
Proof using Hwf.
  apply (label_rows_Inv (_grid b) [] 0); [done|]. apply Inv_initial.
Qed.

Lemma gear_at_scanned x : gear_at b w0 x → before x (length (_grid b), 0%nat).
Proof using Type.
  intros Hg. destruct (gear_at_lookup x Hg) as (cells & i & Hx1 & _).
  left. simpl. by eapply lookup_lt_Some.
Qed.

(** After the scan, two gear cells carry labels of one set exactly when a
    path of gear cells joins them. *)
Lemma Inv_joined st x y :
  Inv (length (_grid b), 0%nat) 0 st →
  gear_at b w0 x → gear_at b w0 y →
  (DisjointSet.same (equivalence st) (labn (l_world st) x) (labn (l_world st) y)
   ↔ joined b w0 x y).
Proof using Type.
  intros HI Hgx Hgy. split.
  - apply (inv_sound _ _ _ HI); by try apply gear_at_scanned.
  - intros Hj. clear Hgy. induction Hj as [x|x y z Hxy Hyz IH].
    + apply DisjointSet.sameP_refl; [apply (inv_wf _ _ _ HI)|].
      rewrite (inv_len _ _ _ HI).
      pose proof (inv_range _ _ _ HI x (gear_at_scanned x Hgx) Hgx).
      pose proof (inv_label _ _ _ HI). unfold labn. lia.
    + pose proof Hxy as (_ & Hgy & _).
      eapply DisjointSet.sameP_trans; [|by apply IH].
      apply (inv_complete _ _ _ HI); [by apply gear_at_scanned..|done].
Qed.

End labelling.

(** *** Grouping the labelled gears into sets *)

(** [part._connectionLabel] *)
Definition plab (w : World) (g : PartId) : Z := field _connectionLabel (-1) w (Some g).

Definition keeps_but_connected (p p' : Part) : Prop :=
  with_connected None p' = with_connected None p.

Lemma keeps_but_connected_links p p' :
  keeps_but_connected p p' → keeps_but_links p p'.
Proof.
  unfold keeps_but_connected, keeps_but_links. destruct p, p'.
  unfold with_connected, with_connectionLabel. simpl. congruence.
Qed.

Lemma keeps_but_connected_label p p' :
  keeps_but_connected p p' → _connectionLabel p' = _connectionLabel p.
Proof. intros H. by apply (f_equal _connectionLabel) in H. Qed.

Section grouping.
Variable w1 : World.
Variable P1 : list nat.
Hypothesis HP1 : DisjointSet.wfP P1.

(** The representative of the label of [g] after the scan. *)
Definition root1 (g : PartId) (key : nat) : Prop :=
  DisjointSet.root_of P1 (Z.to_nat (plab w1 g)) key.

(** The state of the grouping loop after the gears [done]. *)
Record GInv (done : list PartId) (st : Grouping) : Prop := {
  g_parts : parts_related keeps_but_connected w1 (g_world st);
  g_rest : animations (g_world st) = animations w1 ∧
           _settingConnectedRotation (g_world st) = _settingConnectedRotation w1 ∧
           nextPart (g_world st) = nextPart w1;
  g_wf : DisjointSet.wf (g_equivalence st);
  g_len : length (DisjointSet.parents (g_equivalence st)) = length P1;
  g_roots : ∀ j r, DisjointSet.root_of (DisjointSet.parents (g_equivalence st)) j r
                   ↔ DisjointSet.root_of P1 j r;
  g_refs : ∀ key ref, JsMap.get key (g_sets st) = Some ref →
    ∃ members, sets (g_world st) !! ref = Some members ∧
               (ref < nextSet (g_world st))%nat ∧
               ∀ j, j ∈ members ↔ j ∈ done ∧ root1 j key;
  g_inj : ∀ key key' ref, JsMap.get key (g_sets st) = Some ref →
    JsMap.get key' (g_sets st) = Some ref → key = key';
  g_conn : ∀ j, j ∈ done →
    ∃ key ref, root1 j key ∧ JsMap.get key (g_sets st) = Some ref ∧
               field connected None (g_world st) (Some j) = Some ref
}.

Lemma root1_functional g key key' : root1 g key → root1 g key' → key = key'.
Proof using Type. apply DisjointSet.root_of_functional. Qed.

(** A new [Set] for a representative that has none yet. *)
Lemma GInv_alloc done st key :
  GInv done st → JsMap.get key (g_sets st) = None →
  GInv done (mkGrouping (alloc_set (g_world st)).2 (g_equivalence st)
               (JsMap.set key (alloc_set (g_world st)).1 (g_sets st))).
Proof using Type.
  intros [H1 H2 H3 H4 H5 H6 H7 H8] Hnone. split; simpl; try done.
  - intros key' ref'. destruct (decide (key = key')) as [<-|Hne].
    + rewrite JsMap.jm_get_set_eq. intros [= <-]. exists [].
      split_and!; [by rewrite lookup_insert_eq|lia|].
      intros j. split; [by intros ?%elem_of_nil|].
      intros [Hj Hroot]. destruct (H8 j Hj) as (key_j & ref_j & Hrj & Hget & _).
      rewrite (root1_functional _ _ _ Hroot Hrj) in Hnone. congruence.
    + rewrite JsMap.jm_get_set_ne by done. intros Hget.
      destruct (H6 key' ref' Hget) as (members & Hm & Hlt & Hmem).
      exists members. split_and!; [|lia|done].
      rewrite lookup_insert_ne; [done|lia].
  - intros k k' ref.
    destruct (decide (key = k)) as [<-|Hk], (decide (key = k')) as [<-|Hk'];
      rewrite ?JsMap.jm_get_set_eq, ?JsMap.jm_get_set_ne by done.
    + done.
    + intros [= <-] Hget. destruct (H6 _ _ Hget) as (? & _ & ? & _). lia.
    + intros Hget [= <-]. destruct (H6 _ _ Hget) as (? & _ & ? & _). lia.
    + apply H7.
  - intros j Hj. destruct (H8 j Hj) as (key_j & ref_j & Hrj & Hget & Hc).
    exists key_j, ref_j. split_and!; [done| |done].
    rewrite JsMap.jm_get_set_ne; [done|]. intros ->. congruence.
Qed.

(** The gear joins the [Set] of its representative. *)
Lemma GInv_add done st g key ref :
  GInv done st → g ∉ done → is_Some (parts w1 !! g) → root1 g key →
  JsMap.get key (g_sets st) = Some ref →
  GInv (done ++ [g])
    (mkGrouping
       (update_part g (with_connected (Some ref))
          (with_sets (<[ref := JsSet.add g (default [] (sets (g_world st) !! ref))]>
                        (sets (g_world st))) (g_world st)))
       (g_equivalence st) (g_sets st)).
Proof using Type.
  intros [H1 H2 H3 H4 H5 H6 H7 H8] Hnotin [p1 Hp1] Hroot Hget.
  destruct (H6 key ref Hget) as (members & Hm & Hlt & Hmem).
  destruct (parts_related_lookup _ _ _ _ _ H1 Hp1) as (p & Hp & Hpp).
  split; simpl.
  - eapply parts_related_trans; [unfold keeps_but_connected; congruence|exact H1|].
    eapply (parts_related_trans _ _
              (with_sets (<[ref := JsSet.add g (default [] (sets (g_world st) !! ref))]>
                            (sets (g_world st))) (g_world st)));
      [unfold keeps_but_connected; congruence| |].
    + apply parts_related_eq; [done|]. reflexivity.
    + apply update_part_related; [done|]. intros q. done.
  - rewrite update_part_animations, update_part_setting, update_part_nextPart. done.
  - done.
  - done.
  - done.
  - intros key' ref' Hget'. rewrite update_part_sets, update_part_nextSet. simpl.
    destruct (decide (ref' = ref)) as [->|Hne].
    + assert (key' = key) as -> by (by eapply H7).
      rewrite lookup_insert_eq, Hm. simpl. eexists. split_and!; [done..|].
      intros j. rewrite JsSet.js_elem_of_add, Hmem, elem_of_app, list_elem_of_singleton.
      split; [intros [-> |[? ?]]; auto|intros [[?| ->] ?]; auto].
    + destruct (H6 key' ref' Hget') as (members' & Hm' & Hlt' & Hmem').
      exists members'. rewrite lookup_insert_ne by done. split_and!; [done..|].
      intros j. rewrite Hmem', elem_of_app, list_elem_of_singleton.
      split; [intros [? ?]; auto|]. intros [[?| ->] Hr]; [done|].
      exfalso. apply Hne.
      rewrite (root1_functional _ _ _ Hr Hroot) in Hget'. congruence.
  - done.
  - intros j [Hj| ->%list_elem_of_singleton]%elem_of_app.
    + destruct (H8 j Hj) as (key_j & ref_j & Hrj & Hgetj & Hc).
      exists key_j, ref_j. split_and!; [done..|].
      unfold field in *. simpl in *. rewrite update_part_lookup.
      rewrite decide_False by (intros ->; done). done.
    + exists key, ref. split_and!; [done..|].
      unfold field. simpl. rewrite update_part_lookup, decide_True by done.
      simpl. by rewrite Hp.
Qed.

Lemma plab_kept w g :
  parts_related keeps_but_connected w1 w → plab w g = plab w1 g.
Proof using Type.
  intros HR. unfold plab, field. simpl. specialize (HR g).
  destruct (parts w1 !! g), (parts w !! g); try done.
  by apply keeps_but_connected_label.
Qed.

(** One step of the grouping loop. *)
Lemma group_part_GInv done st g :
  GInv done st → g ∉ done → is_Some (parts w1 !! g) →
  0 ≤ plab w1 g < Z.of_nat (length P1) →
  ∃ st', group_part g st = Ok st' ∧ GInv (done ++ [g]) st'.
Proof using HP1.
  intros HG Hnotin Hg Hrange. unfold group_part.
  fold (plab (g_world st) g). rewrite (plab_kept _ _ (g_parts _ _ HG)).
  destruct (DisjointSet.getRepr_spec (g_equivalence st) (Z.to_nat (plab w1 g)))
    as (ds' & key & Hrep & Hroot & Hlen' & Hroots').
  { apply (g_wf _ _ HG). }
  { rewrite (g_len _ _ HG). lia. }
  rewrite Z2Nat.id in Hrep by lia. rewrite Hrep.
  assert (root1 g key) as Hroot1 by (by apply (g_roots _ _ HG)).
  assert (GInv done (mkGrouping (g_world st) ds' (g_sets st))) as HG'.
  { destruct HG as [H1 H2 H3 H4 H5 H6 H7 H8]. split; simpl; try done.
    - by eapply DisjointSet.wfP_preserved.
    - congruence.
    - intros j r. rewrite <- H5. split.
      + by apply DisjointSet.root_of_preserved_inv.
      + apply Hroots'. }
  clear HG Hrep Hroot Hroots' Hlen'.
  unfold JsMap.has. destruct (JsMap.get key (g_sets st)) as [ref|] eqn:Hget.
  - rewrite Hget. eexists. split; [done|].
    by apply (GInv_add done (mkGrouping (g_world st) ds' (g_sets st)) g key ref).
  - pose proof (GInv_alloc done _ key HG' Hget) as HG''. simpl in HG''.
    simpl. rewrite JsMap.jm_get_set_eq. eexists. split; [done|].
    apply (GInv_add done _ g key (nextSet (g_world st)) HG''); try done.
    simpl. by rewrite JsMap.jm_get_set_eq.
Qed.

Lemma group_parts_GInv todo : ∀ done st,
  GInv done st → NoDup (done ++ todo) →
  (∀ g, g ∈ todo → is_Some (parts w1 !! g) ∧ 0 ≤ plab w1 g < Z.of_nat (length P1)) →
  ∃ st', for_each group_part todo st = Ok st' ∧ GInv (done ++ todo) st'.
Proof using HP1.
  induction todo as [|g todo IH]; intros done st HG Hnd Hgood.
  - simpl. exists st. by rewrite app_nil_r.
  - destruct (Hgood g) as [Hg Hr]; [by left|].
    destruct (group_part_GInv done st g HG) as (st1 & Hstep & HG1); [|done..|].
    { apply NoDup_app in Hnd as (_ & Hd & _). intros Hin. apply (Hd g Hin). by left. }
    cbn [for_each]. rewrite Hstep.
    destruct (IH (done ++ [g]) st1 HG1) as (st' & Hall & HG').
    + by rewrite <- app_assoc.
    + intros g' Hg'. apply Hgood. by right.
    + exists st'. split; [done|]. by rewrite <- app_assoc in HG'.
Qed.

Lemma GInv_initial ds :
  DisjointSet.parents ds = P1 → GInv [] (mkGrouping w1 ds []).
Proof using HP1.
  intros HP. split; simpl; try done.
  - apply parts_related_refl. done.
  - unfold DisjointSet.wf. by rewrite HP.
  - by rewrite HP.
  - by rewrite HP.
  - intros j Hj. by apply elem_of_nil in Hj.
Qed.

End grouping.

(** *** [_connectGears] as a whole *)

Lemma elem_of_mjoin_cell (grid : list (list (option PartId))) i :
  Some i ∈ mjoin grid → ∃ x : pos, cell grid x.1 x.2 = Some i.
Proof.
  intros (cells & Hi & Hcells)%list_elem_of_join.
  apply list_elem_of_lookup_1 in Hi as [c Hc].
  apply list_elem_of_lookup_1 in Hcells as [r Hr].
  exists (r, c). apply cell_Some. eauto.
Qed.

Lemma part_at_elem_of b x i : part_at b x = Some i → Some i ∈ mjoin (_grid b).
Proof.
  intros (cells & Hr & Hc)%cell_Some. apply list_elem_of_join. exists cells.
  split; by eapply list_elem_of_lookup_2.
Qed.

(** What [_connectGears] leaves behind, for every gear cell [x] holding
    the part [i]. *)
Definition grouped (b : Board) (w w' : World) (x : pos) (i : PartId) : Prop :=
  ∃ ref members,
    field connected None w' (Some i) = Some ref ∧
    sets w' !! ref = Some members ∧
    (∀ j, j ∈ members ↔ ∃ y, part_at b y = Some j ∧ gear_at b w y ∧ joined b w x y) ∧
    (∀ y j, part_at b y = Some j → gear_at b w y →
       (field connected None w' (Some j) = Some ref ↔ joined b w x y)).

Lemma connectGears_spec b w :
  wf_grid b →
  ∃ w',
    _connectGears b w = Ok w' ∧ world_kept w w' ∧
    ∀ x i, part_at b x = Some i → gear_at b w x → grouped b w w' x i.
Proof.
  intros Hwf. pose proof Hwf as (_ & _ & _ & _ & Hnd).
  unfold _connectGears. rewrite collect_gears_eq by done.
  fold (gear_count b w).
  destruct (label_rows_total b w Hwf) as (st1 & -> & HI).
  set (w1 := l_world st1) in *. set (ds1 := equivalence st1) in *.
  set (P1 := DisjointSet.parents ds1).
  assert (DisjointSet.wfP P1) as HP1 by apply (inv_wf _ _ _ _ _ HI).
  assert (length P1 = gear_count b w) as Hlen by apply (inv_len _ _ _ _ _ HI).
  (* a gear cell and its label *)
  assert (∀ x i, part_at b x = Some i → gear_at b w x →
            is_Some (parts w1 !! i) ∧ plab w1 i = lab b w1 x ∧
            0 ≤ plab w1 i < Z.of_nat (length P1)) as Hcell.
  { intros x i Hx Hg.
    assert (isGear w1 (Some i) = true) as Hgi.
    { rewrite (isGear_kept w w1) by apply (inv_parts _ _ _ _ _ HI).
      unfold gear_at in Hg. by rewrite Hx in Hg. }
    assert (plab w1 i = lab b w1 x) as Hl.
    { unfold lab, connectionLabel. rewrite Hx. by rewrite Hgi. }
    split; [|split; [done|]].
    - unfold isGear, field in Hgi. simpl in Hgi.
      destruct (parts w1 !! i); [by eexists|done].
    - rewrite Hl.
      pose proof (inv_range _ _ _ _ _ HI x (gear_at_scanned b w x Hg) Hg).
      pose proof (inv_label _ _ _ _ _ HI). rewrite Hlen. unfold w1. lia. }
  assert (∀ i, i ∈ gear_ids w (mjoin (_grid b)) ↔
               ∃ x, part_at b x = Some i ∧ gear_at b w x) as Hgears.
  { intros i. rewrite elem_of_gear_ids. split.
    - intros [Hin Hg]. apply elem_of_mjoin_cell in Hin as [x Hx].
      exists x. split; [done|]. unfold gear_at, part_at. by rewrite Hx.
    - intros (x & Hx & Hg). split; [by eapply part_at_elem_of|].
      unfold gear_at in Hg. by rewrite Hx in Hg. }
  destruct (group_parts_GInv w1 P1 HP1 (gear_ids w (mjoin (_grid b))) []
              (mkGrouping w1 ds1 [])) as (st2 & Hgroup & HG).
  { by apply GInv_initial. }
  { simpl. by apply NoDup_gear_ids. }
  { intros g (x & Hx & Hg)%Hgears. destruct (Hcell x g Hx Hg) as (? & _ & ?). done. }
  rewrite Hgroup. simpl in HG. exists (g_world st2). split; [done|].
  assert (world_kept w (g_world st2)) as Hkept.
  { eapply world_kept_trans; [apply (inv_parts _ _ _ _ _ HI)|].
    destruct (g_rest _ _ _ _ HG) as (? & ? & ?). split_and!; [|done..].
    intros i. pose proof (g_parts _ _ _ _ HG i) as Hi. unfold w1 in Hi.
    destruct (parts (l_world st1) !! i), (parts (g_world st2) !! i); try done.
    by apply keeps_but_connected_links. }
  split; [done|].
  (* the representative of a gear cell *)
  assert (∀ x i y j, part_at b x = Some i → gear_at b w x →
            part_at b y = Some j → gear_at b w y →
            ∀ key, root1 w1 P1 i key → (root1 w1 P1 j key ↔ joined b w x y)) as Hroot.
  { intros x i y j Hx Hgx Hy Hgy key Hi.
    rewrite <- (Inv_joined b w st1 x y HI Hgx Hgy).
    destruct (Hcell x i Hx Hgx) as (_ & Hlx & _).
    destruct (Hcell y j Hy Hgy) as (_ & Hly & _).
    unfold root1 in *. unfold labn. fold w1. rewrite <- Hlx, <- Hly.
    split.
    - intros Hj. by exists key.
    - intros (r & Hri & Hrj).
      by rewrite (DisjointSet.root_of_functional _ _ _ _ Hi Hri). }
  intros x i Hx Hgx.
  assert (i ∈ gear_ids w (mjoin (_grid b))) as Hi by (apply Hgears; eauto).
  destruct (g_conn _ _ _ _ HG i Hi) as (key & ref & Hkey & Hget & Hconn).
  destruct (g_refs _ _ _ _ HG key ref Hget) as (members & Hm & _ & Hmem).
  exists ref, members. split_and!; [done..| |].
  - intros j. rewrite Hmem, Hgears. split.
    + intros [(y & Hy & Hgy) Hj]. exists y. split_and!; [done..|].
      by apply (Hroot x i y j Hx Hgx Hy Hgy key Hkey).
    + intros (y & Hy & Hgy & Hxy). split; [eauto|].
      by apply (Hroot x i y j Hx Hgx Hy Hgy key Hkey).
  - intros y j Hy Hgy.
    assert (j ∈ gear_ids w (mjoin (_grid b))) as Hj by (apply Hgears; eauto).
    destruct (g_conn _ _ _ _ HG j Hj) as (key' & ref' & Hkey' & Hget' & Hconn').
    rewrite Hconn', <- (Hroot x i y j Hx Hgx Hy Hgy key Hkey). split.
    + intros [= ->]. by rewrite (g_inj _ _ _ _ HG _ _ _ Hget Hget').
    + intros Hj'. rewrite (root1_functional _ _ _ _ _ Hkey' Hj') in Hget'. congruence.
Qed.

(** C1: on every grid that is [_rowCount] by [_columnCount] with each part
    object in one cell, [_connectGears] comes back; afterwards every
    gear-class part holds a [connected] set, the set contains exactly the
    parts of the gear cells joined to its own cell by a path of
    edge-adjacent gear cells (itself included), and two gear-class parts
    hold the same set exactly when such a path joins their cells. *)
Theorem connectGears_components b w :
  wf_grid b →
  ∃ w',
    _connectGears b w = Ok w' ∧
    ∀ x i, part_at b x = Some i → gear_at b w x →
      ∃ ref members,
        field connected None w' (Some i) = Some ref ∧
        sets w' !! ref = Some members ∧
        i ∈ members ∧
        (∀ j, j ∈ members ↔
              ∃ y, part_at b y = Some j ∧ gear_at b w y ∧ joined b w x y) ∧
        (∀ y j, part_at b y = Some j → gear_at b w y →
           (field connected None w' (Some j) = field connected None w' (Some i)
            ↔ joined b w x y)).
Proof.
  intros Hwf. destruct (connectGears_spec b w Hwf) as (w' & Hrun & _ & Hgrouped).
  exists w'. split; [done|]. intros x i Hx Hg.
  destruct (Hgrouped x i Hx Hg) as (ref & members & Hc & Hm & Hmem & Hsame).
  exists ref, members. split_and!; [done..| |done|].
  - apply Hmem. exists x. split_and!; done.
  - intros y j Hy Hgy. rewrite Hc. by apply Hsame.
Qed.

(** A board of two rows: gear, peg, gearbit over gear, gearbit, gear. *)
Definition alloc_parts (tys : list PartType) (w : World) : World :=
  foldl (λ w ty, (alloc_part ty w).2) w tys.

Definition gear_world : World :=
  alloc_parts [GEAR; PARTLOC; GEARBIT; GEAR; GEARBIT; GEAR] emptyWorld.

Definition gear_board : Board :=
  mkBoard [[Some 0%nat; Some 1%nat; Some 2%nat]; [Some 3%nat; Some 4%nat; Some 5%nat]]
    3 2 [] 0 64.

Example connectGears_gear_board :
  ∃ w', _connectGears gear_board gear_world = Ok w' ∧
        sets w' !! 0%nat = Some [0; 2; 3; 4; 5]%nat ∧
        (λ i, field connected None w' (Some i)) <$> [0; 1; 2; 3; 4; 5]%nat
        = [Some 0; None; Some 0; Some 0; Some 0; Some 0]%nat.
Proof. eexists. split; [vm_compute; reflexivity|]. split; vm_compute; reflexivity. Qed.

Lemma connectGears_components_witness :
  ∃ w',
    _connectGears gear_board gear_world = Ok w' ∧
    ∀ x i, part_at gear_board x = Some i → gear_at gear_board gear_world x →
      ∃ ref members,
        field connected None w' (Some i) = Some ref ∧
        sets w' !! ref = Some members ∧
        i ∈ members ∧
        (∀ j, j ∈ members ↔
              ∃ y, part_at gear_board y = Some j ∧ gear_at gear_board gear_world y ∧
                   joined gear_board gear_world x y) ∧
        (∀ y j, part_at gear_board y = Some j → gear_at gear_board gear_world y →
           (field connected None w' (Some j) = field connected None w' (Some i)
            ↔ joined gear_board gear_world x y)).
Proof.
  apply (connectGears_components gear_board gear_world).
  apply (bool_decide_unpack _). vm_compute. reflexivity.
Defined.

(** *** The fence layout pass: what it keeps *)

(** Everything but the three layout fields of a fence is kept. *)
Definition keeps_but_layout (p p' : Part) : Prop :=
  with_variant PREVIEW (with_modulus 0 (with_sequence 0 p'))
  = with_variant PREVIEW (with_modulus 0 (with_sequence 0 p)).

Lemma keeps_but_layout_refl p : keeps_but_layout p p.
Proof. done. Qed.

Lemma keeps_but_layout_trans p1 p2 p3 :
  keeps_but_layout p1 p2 → keeps_but_layout p2 p3 → keeps_but_layout p1 p3.
Proof. unfold keeps_but_layout. congruence. Qed.

Lemma keeps_but_layout_fields p p' :
  keeps_but_layout p p' →
  type p' = type p ∧ _isFlipped p' = _isFlipped p ∧ _rotation p' = _rotation p ∧
  connected p' = connected p ∧ isLocked p' = isLocked p.
Proof.
  unfold keeps_but_layout. intros H. split_and!.
  - by apply (f_equal type) in H.
  - by apply (f_equal _isFlipped) in H.
  - by apply (f_equal _rotation) in H.
  - by apply (f_equal connected) in H.
  - by apply (f_equal isLocked) in H.
Qed.

Lemma Fence_variant_set_keeps v p : keeps_but_layout p (Fence_variant_set v p).
Proof. unfold Fence_variant_set. by case_decide. Qed.

Lemma Fence_modulus_set_keeps v p : keeps_but_layout p (Fence_modulus_set v p).
Proof. unfold Fence_modulus_set. by case_decide. Qed.

Lemma Fence_sequence_set_keeps v p : keeps_but_layout p (Fence_sequence_set v p).
Proof. unfold Fence_sequence_set. by case_decide. Qed.

(** The world is kept but for the layout fields of its parts. *)
Definition layout_kept (w w' : World) : Prop :=
  parts_related keeps_but_layout w w' ∧
  sets w' = sets w ∧ animations w' = animations w ∧
  _settingConnectedRotation w' = _settingConnectedRotation w ∧
  nextPart w' = nextPart w ∧ nextSet w' = nextSet w.

Lemma layout_kept_refl w : layout_kept w w.
Proof. split_and!; [|done..]. by apply parts_related_refl. Qed.

Lemma layout_kept_trans w1 w2 w3 :
  layout_kept w1 w2 → layout_kept w2 w3 → layout_kept w1 w3.
Proof.
  intros (H1 & ? & ? & ? & ? & ?) (H1' & ? & ? & ? & ? & ?).
  split_and!; [|congruence..].
  eapply parts_related_trans; [apply keeps_but_layout_trans|done..].
Qed.

Lemma fence_set_kept id f w :
  (∀ p, keeps_but_layout p (f p)) → layout_kept w (fence_set id f w).
Proof.
  intros Hf. unfold fence_set. split_and!.
  - by apply update_part_related.
  - apply update_part_sets.
  - apply update_part_animations.
  - apply update_part_setting.
  - apply update_part_nextPart.
  - apply update_part_nextSet.
Qed.

(** The parts outside [ids] are not written to. *)
Definition untouched (ids : list PartId) (w w' : World) : Prop :=
  ∀ i, i ∉ ids → parts w' !! i = parts w !! i.

Lemma untouched_refl ids w : untouched ids w w.
Proof. done. Qed.

Lemma untouched_trans ids w1 w2 w3 :
  untouched ids w1 w2 → untouched ids w2 w3 → untouched ids w1 w3.
Proof. intros H1 H2 i Hi. rewrite H2, H1; done. Qed.


Lemma fence_set_untouched id f w ids : id ∈ ids → untouched ids w (fence_set id f w).
Proof.
  intros Hin i Hi. unfold fence_set. rewrite update_part_lookup.
  rewrite decide_False; [done|]. by intros ->.
Qed.

Lemma isFlipped_kept w w' id : layout_kept w w' → isFlipped w' id = isFlipped w id.
Proof.
  intros [HR _]. unfold isFlipped, field. simpl. specialize (HR id).
  destruct (parts w !! id), (parts w' !! id); try done.
  by destruct (keeps_but_layout_fields _ _ HR) as (_ & -> & _).
Qed.

Lemma typeIs_kept ty w w' part : layout_kept w w' → typeIs ty w' part = typeIs ty w part.
Proof.
  intros [HR _]. unfold typeIs, field. destruct part as [id|]; [|done]. simpl.
  specialize (HR id). destruct (parts w !! id), (parts w' !! id); try done.
  by destruct (keeps_but_layout_fields _ _ HR) as (-> & _).
Qed.

Lemma isFence_kept w w' part : layout_kept w w' → isFence w' part = isFence w part.
Proof. apply typeIs_kept. Qed.

Lemma slope_loop_kept n fences : ∀ i w, layout_kept w (slope_loop n i fences w).
Proof.
  induction fences as [|f fences IH]; intros i w; simpl; [apply layout_kept_refl|].
  eapply layout_kept_trans; [|apply IH].
  eapply layout_kept_trans; [|apply fence_set_kept, Fence_sequence_set_keeps].
  eapply layout_kept_trans; [|apply fence_set_kept, Fence_modulus_set_keeps].
  apply fence_set_kept, Fence_variant_set_keeps.
Qed.

Lemma slope_loop_untouched n fences ids : ∀ i w,
  fences ⊆ ids → untouched ids w (slope_loop n i fences w).
Proof.
  induction fences as [|f fences IH]; intros i w Hsub; simpl; [done|].
  assert (f ∈ ids) as Hf by (apply Hsub; by left).
  eapply untouched_trans; [|apply IH; set_solver].
  eapply untouched_trans; [|by apply fence_set_untouched].
  eapply untouched_trans; [|by apply fence_set_untouched].
  by apply fence_set_untouched.
Qed.

Lemma slope_fill_kept fences w : layout_kept w (slope_fill fences w).
Proof.
  unfold slope_fill. destruct fences as [|? [|? ?]]; try apply slope_loop_kept.
  apply fence_set_kept, Fence_variant_set_keeps.
Qed.

Lemma slope_ends_kept first fences l r w :
  layout_kept w (slope_ends first fences l r w).2.
Proof.
  unfold slope_ends.
  destruct (_ && _); [apply fence_set_kept, Fence_variant_set_keeps|].
  destruct (_ && _); [apply fence_set_kept, Fence_variant_set_keeps|].
  apply layout_kept_refl.
Qed.

Lemma makeSlope_kept fences l r w : layout_kept w (_makeSlope fences l r w).
Proof.
  unfold _makeSlope. destruct fences as [|first fences]; [apply layout_kept_refl|].
  pose proof (slope_ends_kept first (first :: fences) l r w) as H.
  destruct (slope_ends _ _ _ _ _) as [fs w']. simpl in H.
  eapply layout_kept_trans; [done|apply slope_fill_kept].
Qed.

Lemma last_elem_of (l : list PartId) d : l ≠ [] → List.last l d ∈ l.
Proof.
  induction l as [|x [|y l] IH]; intros Hne; [done|by left|].
  right. apply IH. done.
Qed.

Lemma removelast_subseteq (l : list PartId) : removelast l ⊆ l.
Proof.
  induction l as [|x [|y l] IH]; [done|set_solver|].
  change (removelast (x :: y :: l)) with (x :: removelast (y :: l)).
  intros z [->|Hz]%elem_of_cons; [by left|right; by apply IH].
Qed.

Lemma slope_fill_untouched fences w ids :
  fences ⊆ ids → untouched ids w (slope_fill fences w).
Proof.
  intros Hsub. unfold slope_fill.
  destruct fences as [|? [|? ?]]; try by apply slope_loop_untouched.
  apply fence_set_untouched. apply Hsub. by left.
Qed.

Lemma slope_ends_subseteq first fences l r w :
  (slope_ends first (first :: fences) l r w).1 ⊆ first :: fences.
Proof.
  unfold slope_ends.
  destruct (_ && _); [simpl; set_solver|].
  destruct (_ && _); [apply removelast_subseteq|done].
Qed.

Lemma slope_ends_untouched first fences l r w ids :
  first :: fences ⊆ ids → untouched ids w (slope_ends first (first :: fences) l r w).2.
Proof.
  intros Hsub. unfold slope_ends.
  destruct (_ && _); [apply fence_set_untouched, Hsub; by left|].
  destruct (_ && _); [|done].
  apply fence_set_untouched, Hsub. by apply last_elem_of.
Qed.

Lemma makeSlope_untouched fences l r w ids :
  fences ⊆ ids → untouched ids w (_makeSlope fences l r w).
Proof.
  intros Hsub. unfold _makeSlope.
  destruct fences as [|first fences]; [apply untouched_refl|].
  pose proof (slope_ends_untouched first fences l r w ids Hsub) as H.
  pose proof (slope_ends_subseteq first fences l r w) as H'.
  destruct (slope_ends _ _ _ _ _) as [fs w']. simpl in H, H'.
  eapply untouched_trans; [done|]. apply slope_fill_untouched. by etrans.
Qed.

Lemma close_run_kept st : layout_kept (f_world st) (f_world (close_run st)).
Proof. apply makeSlope_kept. Qed.

Lemma close_if_open_kept st : layout_kept (f_world st) (f_world (close_if_open st)).
Proof.
  unfold close_if_open. destruct (slopeParts st); [apply layout_kept_refl|apply makeSlope_kept].
Qed.

Lemma track_north_world b r c st : f_world (track_north b r c st) = f_world st.
Proof. unfold track_north. by repeat case_match. Qed.

Lemma track_north_slopeParts b r c st : slopeParts (track_north b r c st) = slopeParts st.
Proof. unfold track_north. by repeat case_match. Qed.

Lemma close_if_turned_kept id st :
  layout_kept (f_world st) (f_world (close_if_turned id st)).
Proof.
  unfold close_if_turned. destruct (slopeParts st); [apply layout_kept_refl|].
  case_bool_decide; [apply makeSlope_kept|apply layout_kept_refl].
Qed.

Lemma fence_part_kept b r c part st :
  layout_kept (f_world st) (f_world (fence_part b r c part st)).
Proof.
  unfold fence_part. destruct part as [id|]; [|apply close_if_open_kept].
  destruct (isFence (f_world st) (Some id)); [|apply close_if_open_kept].
  simpl. rewrite <- (track_north_world b r c st) at 1. apply close_if_turned_kept.
Qed.

Lemma fence_row_kept b r cells : ∀ c st,
  layout_kept (f_world st) (f_world (fence_row b r c cells st)).
Proof.
  induction cells as [|part cells IH]; intros c st; simpl.
  - apply close_if_open_kept.
  - eapply layout_kept_trans; [apply fence_part_kept|apply IH].
Qed.

Lemma fence_rows_kept b rows : ∀ r st,
  layout_kept (f_world st) (f_world (fence_rows b r rows st)).
Proof.
  induction rows as [|cells rows IH]; intros r st; simpl; [apply layout_kept_refl|].
  eapply layout_kept_trans; [apply fence_row_kept|apply IH].
Qed.

Lemma updateFences_kept b w : layout_kept w (_updateFences b w).
Proof. apply (fence_rows_kept b (_grid b) 0 (mkFenceScan w [] None None)). Qed.

(** *** The fence layout pass: what it writes *)

Definition variant (w : World) (id : PartId) : FenceVariant :=
  field _variant PREVIEW w (Some id).
Definition modulus (w : World) (id : PartId) : Z := field _modulus 0 w (Some id).
Definition sequence (w : World) (id : PartId) : Z := field _sequence 0 w (Some id).

Lemma field_lookup {A} (f : Part → A) d w id p :
  parts w !! id = Some p → field f d w (Some id) = f p.
Proof. unfold field. simpl. by intros ->. Qed.

Lemma isFence_lookup w id :
  isFence w (Some id) = true → ∃ p, parts w !! id = Some p ∧ type p = FENCE.
Proof.
  unfold isFence, typeIs, field. simpl. destruct (parts w !! id) as [p|]; [|done].
  intros H%bool_decide_eq_true. eauto.
Qed.

Lemma fence_set_lookup id f w p :
  parts w !! id = Some p → parts (fence_set id f w) !! id = Some (f p).
Proof.
  intros Hp. unfold fence_set. rewrite update_part_lookup, decide_True by done.
  by rewrite Hp.
Qed.

Lemma variant_side id w :
  is_Some (parts w !! id) → variant (fence_set id (Fence_variant_set SIDE) w) id = SIDE.
Proof.
  intros [p Hp]. unfold variant.
  rewrite (field_lookup _ _ _ _ _ (fence_set_lookup _ _ _ _ Hp)).
  unfold Fence_variant_set. by case_decide.
Qed.


Lemma layout_kept_is_Some w w' id :
  layout_kept w w' → is_Some (parts w !! id) → is_Some (parts w' !! id).
Proof.
  intros [HR _] [p Hp]. destruct (parts_related_lookup _ _ _ _ _ HR Hp) as (p' & -> & _).
  eauto.
Qed.

(** One round of the loop of [_makeSlope] on a fence. *)
Lemma slope_round n j f w :
  is_Some (parts w !! f) →
  let w1 := fence_set f (Fence_variant_set SLOPE) w in
  let w2 := fence_set f (Fence_modulus_set n) w1 in
  let w3 := fence_set f (Fence_sequence_set (if isFlipped w2 f then n - 1 - j else j)) w2 in
  variant w3 f = SLOPE ∧ modulus w3 f = Z.min (Z.max 1 n) maxModulus ∧
  sequence w3 f = (if isFlipped w f then n - 1 - j else j).
Proof.
  intros [p Hp] w1 w2 w3.
  assert (parts w1 !! f = Some (Fence_variant_set SLOPE p)) as H1
    by by apply fence_set_lookup.
  assert (parts w2 !! f = Some (Fence_modulus_set n (Fence_variant_set SLOPE p))) as H2
    by by apply fence_set_lookup.
  assert (isFlipped w2 f = isFlipped w f) as Hflip.
  { unfold isFlipped. rewrite (field_lookup _ _ _ _ _ H2), (field_lookup _ _ _ _ _ Hp).
    unfold Fence_modulus_set, Fence_variant_set. by repeat case_decide. }
  pose proof (fence_set_lookup f
    (Fence_sequence_set (if isFlipped w2 f then n - 1 - j else j)) w2 _ H2) as H3.
  fold w3 in H3. rewrite <- Hflip. unfold variant, modulus, sequence.
  rewrite !(field_lookup _ _ _ _ _ H3).
  unfold Fence_sequence_set, Fence_modulus_set, Fence_variant_set.
  repeat case_decide; simpl in *; split_and!; congruence.
Qed.

Lemma slope_loop_spec n fences : ∀ i w k id,
  NoDup fences → (∀ f, f ∈ fences → is_Some (parts w !! f)) →
  fences !! k = Some id →
  let w' := slope_loop n i fences w in
  variant w' id = SLOPE ∧ modulus w' id = Z.min (Z.max 1 n) maxModulus ∧
  sequence w' id = (if isFlipped w id then n - 1 - (i + Z.of_nat k) else i + Z.of_nat k).
Proof.
  induction fences as [|f fences IH]; intros i w k id Hnd Hall Hk; [done|].
  apply NoDup_cons in Hnd as [Hf Hnd]. simpl.
  set (w1 := fence_set f (Fence_variant_set SLOPE) w).
  set (w2 := fence_set f (Fence_modulus_set n) w1).
  set (w3 := fence_set f _ w2).
  assert (layout_kept w w3) as Hkept.
  { eapply layout_kept_trans; [|apply fence_set_kept, Fence_sequence_set_keeps].
    eapply layout_kept_trans; [|apply fence_set_kept, Fence_modulus_set_keeps].
    apply fence_set_kept, Fence_variant_set_keeps. }
  destruct k as [|k]; simpl in Hk.
  - simplify_eq. pose proof (slope_loop_untouched n fences fences (i + 1) w3
      (reflexivity _) id Hf) as Hsame.
    unfold variant, modulus, sequence, field. simpl. rewrite Hsame.
    replace (i + Z.of_nat 0) with i by lia.
    apply (slope_round n i id w). apply Hall. by left.
  - rewrite <- (isFlipped_kept w w3 id Hkept).
    replace (i + Z.of_nat (S k)) with (i + 1 + Z.of_nat k) by lia.
    apply IH; [done| |done].
    intros f' Hf'. eapply layout_kept_is_Some; [done|]. apply Hall. by right.
Qed.

(** A run of one fence becomes a side piece, whatever stands above it. *)
Lemma makeSlope_single id l r w :
  is_Some (parts w !! id) → variant (_makeSlope [id] l r w) id = SIDE.
Proof.
  intros Hid. unfold _makeSlope, slope_ends.
  destruct (_ && _); [by apply variant_side|].
  destruct (_ && _); [by apply variant_side|].
  by apply variant_side.
Qed.

(** A longer run with nothing above its ends becomes a slope. *)
Lemma makeSlope_slope fences w k id :
  NoDup fences → (∀ f, f ∈ fences → is_Some (parts w !! f)) →
  (2 ≤ length fences)%nat → fences !! k = Some id →
  let w' := _makeSlope fences None None w in
  let n := Z.of_nat (length fences) in
  variant w' id = SLOPE ∧ modulus w' id = Z.min n maxModulus ∧
  sequence w' id = (if isFlipped w id then n - 1 - Z.of_nat k else Z.of_nat k).
Proof.
  intros Hnd Hall Hlen Hk. unfold _makeSlope, slope_ends.
  destruct fences as [|first [|second fences]]; try (simpl in Hlen; lia).
  rewrite !andb_false_r. unfold slope_fill.
  pose proof (slope_loop_spec (Z.of_nat (length (first :: second :: fences)))
                (first :: second :: fences) 0 w k id Hnd Hall Hk) as H.
  simpl in H. rewrite Z.max_r in H by lia. exact H.
Qed.

(** *** The fence layout pass: runs *)

(** The inner loop without the closing test at the end of the row. *)
Fixpoint fence_cells (b : Board) (r c : Z) (cells : list (option PartId))
    (st : FenceScan) : FenceScan :=
  match cells with
  | [] => st
  | part :: cells' => fence_cells b r (c + 1) cells' (fence_part b r c part st)
  end.


Lemma fence_cells_app b r cells1 : ∀ c cells2 st,
  fence_cells b r c (cells1 ++ cells2) st
  = fence_cells b r (c + Z.of_nat (length cells1)) cells2 (fence_cells b r c cells1 st).
Proof.
  induction cells1 as [|part cells1 IH]; intros c cells2 st; simpl length.
  - by replace (c + Z.of_nat 0) with c by lia.
  - simpl. rewrite IH. f_equal. lia.
Qed.


(** Between runs nothing is pending. *)
Definition idle (st : FenceScan) : Prop :=
  slopeParts st = [] → leftNorthFence st = None ∧ rightNorthFence st = None.

Lemma close_run_idle st : idle (close_run st).
Proof. done. Qed.

Lemma close_if_open_idle st : idle st → idle (close_if_open st).
Proof. unfold close_if_open. by destruct (slopeParts st). Qed.

Lemma close_if_open_slopeParts st : slopeParts (close_if_open st) = [].
Proof. unfold close_if_open. by destruct (slopeParts st) eqn:?. Qed.

Lemma push_idle id st : idle (push id st).
Proof. intros H. simpl in H. by destruct (slopeParts st). Qed.

Lemma fence_part_idle b r c part st : idle st → idle (fence_part b r c part st).
Proof.
  intros Hidle. unfold fence_part. destruct part as [id|]; [|by apply close_if_open_idle].
  destruct (isFence _ _); [apply push_idle|by apply close_if_open_idle].
Qed.


Lemma fence_row_idle b r cells : ∀ c st,
  idle st → idle (fence_row b r c cells st) ∧ slopeParts (fence_row b r c cells st) = [].
Proof.
  induction cells as [|part cells IH]; intros c st Hidle; simpl.
  - split; [by apply close_if_open_idle|apply close_if_open_slopeParts].
  - by apply IH, fence_part_idle.
Qed.


(** Only the fences of the run being closed are written to. *)
Lemma close_if_open_untouched st ids :
  slopeParts st ⊆ ids → untouched ids (f_world st) (f_world (close_if_open st)).
Proof.
  intros Hsub. unfold close_if_open. destruct (slopeParts st) eqn:Hs; [done|].
  simpl. rewrite Hs. by apply makeSlope_untouched.
Qed.












Section runs.
Variables (b : Board) (w : World) (r : Z) (f : bool).









End runs.




















(** Two rows; in the lower one a fence that is not flipped, then a run
    of three flipped fences up to the edge of the board. *)
Definition slope_world : World :=
  foldl (λ w id, update_part id (Part_isFlipped_set true) w)
    (alloc_parts [PARTLOC; GEARLOC; PARTLOC; GEARLOC; FENCE; FENCE; FENCE; FENCE] emptyWorld)
    [5; 6; 7]%nat.

Definition slope_board : Board :=
  mkBoard [[Some 0; Some 1; Some 2; Some 3]; [Some 4; Some 5; Some 6; Some 7]]%nat
    4 2 [] 0 64.




End Board.

(** ** More of the union-find structure: counts, sizes and errors *)

Module DisjointSetFacts.
Import DisjointSet.
Local Open Scope nat_scope.

Definition getNumberOfSets (ds : t) : Z := numSets ds.

(** [this.sizes[this.getRepr(elemIndex)]]; [getRepr] returns an index of
    the arrays. *)
Definition getSizeOfSet (ds : t) (elemIndex : Z) : outcome t (t * nat) :=
  match getRepr ds elemIndex with
  | Ok (ds, repr) => Ok (ds, size ds repr)
  | Throw msg ds => Throw msg ds
  | Diverge => Diverge
  end.

(** The operands of [==] are evaluated from left to right. *)
Definition areInSameSet (ds : t) (elemIndex0 elemIndex1 : Z) : outcome t (t * bool) :=
  match getRepr ds elemIndex0 with
  | Ok (ds, repr0) =>
      match getRepr ds elemIndex1 with
      | Ok (ds, repr1) => Ok (ds, bool_decide (repr0 = repr1))
      | Throw msg ds => Throw msg ds
      | Diverge => Diverge
      end
  | Throw msg ds => Throw msg ds
  | Diverge => Diverge
  end.

(** What the comments of the class promise about the arrays: the parent
    links form a forest, [numSets] counts the representatives, [sizes]
    holds the size of the set at a representative and zero elsewhere. *)
Record good (ds : t) : Prop := mkGood {
  good_wf : wf ds;
  good_ranks : length (ranks ds) = length (parents ds);
  good_sizes : length (sizes ds) = length (parents ds);
  good_count : ∃ roots, NoDup roots ∧ (∀ r, r ∈ roots ↔ parents ds !! r = Some r) ∧
                        numSets ds = Z.of_nat (length roots);
  good_size : ∀ r, parents ds !! r = Some r →
                ∃ members, NoDup members ∧
                           (∀ i, i ∈ members ↔ root_of (parents ds) i r) ∧
                           size ds r = length members;
  good_zero : ∀ i j, parents ds !! i = Some j → i ≠ j → size ds i = 0
}.

Lemma good_create n : good (create n).
Proof.
  assert (∀ i r, root_of (seq 0 n) i r ↔ i = r ∧ i < n) as Hroot.
  { intros i r. split.
    - intros Hi. assert (i < n) as Hlt.
      { apply root_of_lt in Hi. by rewrite length_seq in Hi. }
      split; [|done]. symmetry. eapply root_of_fixed; [|done]. by rewrite lookup_seq_lt.
    - intros [-> Hlt]. apply root_of_root. by rewrite lookup_seq_lt. }
  split.
  - apply wf_create.
  - simpl. by rewrite length_replicate, length_seq.
  - simpl. by rewrite length_replicate, length_seq.
  - exists (seq 0 n). simpl. split_and!.
    + apply NoDup_seq.
    + intros r. rewrite elem_of_seq. split.
      * intros [_ Hr]. by rewrite lookup_seq_lt.
      * intros Hr. apply lookup_lt_Some in Hr. rewrite length_seq in Hr. lia.
    + by rewrite length_seq.
  - simpl. intros r Hr. apply lookup_lt_Some in Hr as Hlt. rewrite length_seq in Hlt.
    exists [r]. split_and!.
    + apply NoDup_singleton.
    + intros i. rewrite Hroot, list_elem_of_singleton. naive_solver.
    + unfold size. simpl. by rewrite lookup_replicate_2.
  - simpl. intros i j Hi Hne. apply lookup_seq in Hi as [-> _]. done.
Qed.

(** [getRepr] writes to [parents] only. *)
Lemma getRepr_frame ds i ds' r :
  getRepr ds i = Ok (ds', r) →
  ranks ds' = ranks ds ∧ sizes ds' = sizes ds ∧ numSets ds' = numSets ds.
Proof.
  unfold getRepr. destruct (_ || _); [done|].
  destruct (parents ds !! Z.to_nat i) as [parent|]; [|done].
  destruct (decide _); [by intros [= <- <-]|].
  destruct (getRepr_loop _ _ _ _) as [[P' r']|]; [|done]. by intros [= <- <-].
Qed.

Lemma getRepr_out_of_bounds ds i :
  (i < 0 ∨ Z.of_nat (length (parents ds)) ≤ i)%Z →
  getRepr ds i = Throw "Element index out of bounds" ds.
Proof.
  intros Hi. unfold getRepr.
  assert (((i <? 0) || (Z.of_nat (length (parents ds)) <=? i))%Z = true) as ->; [|done].
  apply orb_true_iff. rewrite Z.ltb_lt, Z.leb_le. lia.
Qed.

(** Path compression keeps the representatives, so it keeps [good]. *)
Lemma good_preserved ds ds' :
  length (parents ds') = length (parents ds) →
  (∀ j r', root_of (parents ds) j r' → root_of (parents ds') j r') →
  ranks ds' = ranks ds → sizes ds' = sizes ds → numSets ds' = numSets ds →
  good ds → good ds'.
Proof.
  intros Hlen Hroots Hrk Hsz Hns [Hwf Hlr Hls (roots & Hnd & Hin & Hcount) Hsize Hzero].
  assert (∀ j r', root_of (parents ds') j r' ↔ root_of (parents ds) j r') as Hiff.
  { intros j r'. split; [by apply root_of_preserved_inv|by apply Hroots]. }
  assert (∀ r, parents ds' !! r = Some r ↔ parents ds !! r = Some r) as Hisroot.
  { intros r. split; intros Hr.
    - eapply root_of_is_root. apply Hiff. by apply root_of_root.
    - eapply root_of_is_root. apply Hiff. by apply root_of_root. }
  split.
  - by eapply wfP_preserved.
  - congruence.
  - congruence.
  - exists roots. split_and!; [done| |congruence].
    intros r. by rewrite Hin, Hisroot.
  - intros r Hr. apply Hisroot in Hr. destruct (Hsize r Hr) as (members & ? & Hm & ?).
    exists members. split_and!; [done| |].
    + intros i. by rewrite Hm, Hiff.
    + unfold size in *. by rewrite Hsz.
  - intros i j Hi Hne. unfold size. rewrite Hsz.
    assert (i < length (parents ds)) as Hlt.
    { rewrite <- Hlen. by eapply lookup_lt_Some. }
    destruct (lookup_lt_is_Some_2 _ _ Hlt) as [j0 Hj0].
    destruct (decide (i = j0)) as [<-|Hne0]; [|by eapply Hzero].
    apply Hisroot in Hj0. congruence.
Qed.

(** [find]: the representative of the set comes back, the sets and the
    bookkeeping are as before. *)
Lemma getRepr_good ds i :
  good ds → i < length (parents ds) →
  ∃ ds' r,
    getRepr ds (Z.of_nat i) = Ok (ds', r) ∧
    root_of (parents ds) i r ∧ good ds' ∧
    length (parents ds') = length (parents ds) ∧
    (∀ j r', root_of (parents ds') j r' ↔ root_of (parents ds) j r') ∧
    sizes ds' = sizes ds ∧ numSets ds' = numSets ds.
Proof.
  intros Hgood Hi.
  destruct (getRepr_spec ds i (good_wf _ Hgood) Hi) as (ds' & r & Hget & Hr & Hlen & Hroots).
  destruct (getRepr_frame _ _ _ _ Hget) as (Hrk & Hsz & Hns).
  exists ds', r. split_and!; try done.
  - by eapply good_preserved.
  - intros j r'. split; [|by apply Hroots].
    apply root_of_preserved_inv; [done..|]. apply Hgood.
Qed.

(** The grafting step of [mergeSets] on two distinct representatives. *)
Lemma good_graft ds rk r0 r1 :
  good ds → length rk = length (ranks ds) →
  parents ds !! r0 = Some r0 → parents ds !! r1 = Some r1 → r0 ≠ r1 →
  good (graft (mk (parents ds) rk (sizes ds) (numSets ds)) r0 r1).
Proof.
  intros [Hwf Hlr Hls (roots & Hnd & Hin & Hcount) Hsize Hzero] Hrk H0 H1 Hne.
  set (P := parents ds) in *.
  assert (r0 < length P) as Hlt0 by by eapply lookup_lt_Some.
  assert (r1 < length P) as Hlt1 by by eapply lookup_lt_Some.
  assert (∀ r, <[r1 := r0]> P !! r = Some r ↔ r ≠ r1 ∧ P !! r = Some r) as Hisroot.
  { intros r. destruct (decide (r = r1)) as [->|Hr].
    - rewrite list_lookup_insert_eq by done. naive_solver.
    - rewrite list_lookup_insert_ne by done. naive_solver. }
  assert (∀ i r, root_of (<[r1 := r0]> P) i r ↔
                 ∃ r', root_of P i r' ∧ r = if decide (r' = r1) then r0 else r') as Hroot.
  { intros i r. split.
    - intros Hi. assert (i < length P) as Hlt.
      { apply root_of_lt in Hi. by rewrite length_insert in Hi. }
      destruct (Hwf i Hlt) as [r' Hr']. exists r'. split; [done|].
      eapply root_of_functional; [done|]. by apply root_of_graft.
    - intros (r' & Hr' & ->). by apply root_of_graft. }
  unfold graft. simpl. fold P. split; simpl.
  - by apply wfP_graft.
  - rewrite length_insert. congruence.
  - rewrite !length_insert. done.
  - assert (r1 ∈ roots) as Hr1 by by apply Hin.
    apply list_elem_of_split in Hr1 as (l1 & l2 & ->).
    apply NoDup_app in Hnd as (Hnd1 & Hdisj & Hnd2).
    apply NoDup_cons in Hnd2 as [Hr1 Hnd2].
    exists (l1 ++ l2). split_and!.
    + apply NoDup_app. split_and!; [done| |done].
      intros x Hx1 Hx2. apply (Hdisj x Hx1). by right.
    + intros r. rewrite Hisroot, <- Hin, !elem_of_app, elem_of_cons. split.
      * intros [Hx|Hx].
        -- split; [|by left]. intros ->. apply (Hdisj r1 Hx). by left.
        -- split; [|by right; right]. by intros ->.
      * intros [Hne' [?|[?|?]]]; [by left|done|by right].
    + rewrite Hcount, !length_app. simpl. lia.
  - intros r [Hr1 Hr]%Hisroot.
    destruct (decide (r = r0)) as [->|Hr0].
    + destruct (Hsize r0 H0) as (m0 & Hnd0 & Hm0 & Hs0).
      destruct (Hsize r1 H1) as (m1 & Hnd1 & Hm1 & Hs1).
      exists (m0 ++ m1). split_and!.
      * apply NoDup_app. split_and!; [done| |done].
        intros x Hx0%Hm0 Hx1%Hm1. apply Hne. by eapply root_of_functional.
      * intros i. rewrite elem_of_app, Hm0, Hm1, Hroot. split.
        -- intros [Hi|Hi]; eexists; (split; [done|]).
           ++ by rewrite decide_False.
           ++ by rewrite decide_True.
        -- intros (r' & Hr' & Heq). destruct (decide (r' = r1)) as [->|]; [by right|].
           subst r'. by left.
      * unfold size. simpl.
        rewrite list_lookup_insert_ne, list_lookup_insert_eq by (done || lia).
        simpl. unfold size in Hs0, Hs1. rewrite length_app. unfold size. lia.
    + destruct (Hsize r Hr) as (m & Hndm & Hm & Hs).
      exists m. split_and!; [done| |].
      * intros i. rewrite Hm, Hroot. split.
        -- intros Hi. exists r. by rewrite decide_False.
        -- intros (r' & Hr' & Heq). destruct (decide (r' = r1)); congruence.
      * unfold size. simpl. by rewrite !list_lookup_insert_ne.
  - intros i j Hi Hij. unfold size. simpl.
    destruct (decide (i = r1)) as [->|Hi1].
    { rewrite list_lookup_insert_eq; [done|]. rewrite length_insert. lia. }
    rewrite list_lookup_insert_ne in Hi by done.
    assert (i ≠ r0) as Hi0 by congruence.
    rewrite !list_lookup_insert_ne by done. by eapply Hzero.
Qed.

Lemma same_root ds a ra b rb :
  root_of (parents ds) a ra → root_of (parents ds) b rb → (same ds a b ↔ ra = rb).
Proof.
  intros Ha Hb. split.
  - intros (r & Ha' & Hb').
    rewrite (root_of_functional _ _ _ _ Ha Ha'). by eapply root_of_functional.
  - intros ->. by exists rb.
Qed.

(** [union], in full: the answer tells whether two sets were joined, the
    counter follows, and the bookkeeping stays right. *)
Lemma mergeSets_good ds a b :
  good ds → a < length (parents ds) → b < length (parents ds) →
  ∃ ds' merged,
    mergeSets ds (Z.of_nat a) (Z.of_nat b) = Ok (ds', merged) ∧
    good ds' ∧
    length (parents ds') = length (parents ds) ∧
    (merged = true ↔ ¬ same ds a b) ∧
    numSets ds' = (numSets ds - if merged then 1 else 0)%Z ∧
    ∀ i j, i < length (parents ds) → j < length (parents ds) →
      (same ds' i j ↔
       same ds i j ∨ (same ds i a ∧ same ds b j) ∨ (same ds i b ∧ same ds a j)).
Proof.
  intros Hgood Ha Hb.
  destruct (mergeSets_spec ds a b (good_wf _ Hgood) Ha Hb)
    as (ds' & merged & Hmerge & _ & Hlen & Hsame).
  exists ds', merged. split; [done|]. revert Hmerge. unfold mergeSets.
  destruct (getRepr_good ds a Hgood Ha) as (ds1 & ra & -> & Hra & Hgood1 & Hlen1 & Hiff1 & Hsz1 & Hns1).
  assert (b < length (parents ds1)) as Hb1 by by rewrite Hlen1.
  destruct (getRepr_good ds1 b Hgood1 Hb1)
    as (ds2 & rb & -> & Hrb & Hgood2 & Hlen2 & Hiff2 & Hsz2 & Hns2).
  apply Hiff1 in Hrb.
  pose proof (same_root ds a ra b rb Hra Hrb) as Hab.
  assert (parents ds2 !! ra = Some ra) as Hroota.
  { eapply root_of_is_root. apply Hiff2, Hiff1. done. }
  assert (parents ds2 !! rb = Some rb) as Hrootb.
  { eapply root_of_is_root. apply Hiff2, Hiff1. done. }
  destruct (decide (ra = rb)) as [Heq|Hne].
  { intros [= <- <-]. split_and!; [done|congruence| |lia|done].
    split; [done|]. intros Hn. exfalso. by apply Hn, Hab. }
  assert (ds2 = mk (parents ds2) (ranks ds2) (sizes ds2) (numSets ds2)) as Hds2
    by by destruct ds2.
  destruct (decide (_ = 0)%Z); [|destruct (decide (_ < 0)%Z)]; intros [= <- <-].
  - split_and!; [|done| |simpl; lia|done].
    + apply (good_graft ds2); [done| |done..].
      rewrite length_insert. done.
    + split; [|done]. intros _. by rewrite Hab.
  - split_and!; [|done| |simpl; lia|done].
    + rewrite Hds2. apply (good_graft ds2); [done|done|done|done|congruence].
    + split; [|done]. intros _. by rewrite Hab.
  - split_and!; [|done| |simpl; lia|done].
    + rewrite Hds2. by apply (good_graft ds2).
    + split; [|done]. intros _. by rewrite Hab.
Qed.

(** The structures a program can hold: what the constructor returns, and
    what [getRepr] and [mergeSets] leave behind, also when [mergeSets]
    throws on its second argument after compressing for the first. *)
Inductive reachable : t → Prop :=
  | reach_create n : reachable (create n)
  | reach_getRepr ds i ds' r :
      reachable ds → getRepr ds i = Ok (ds', r) → reachable ds'
  | reach_mergeSets ds i j ds' merged :
      reachable ds → mergeSets ds i j = Ok (ds', merged) → reachable ds'
  | reach_mergeSets_throw ds i j ds' msg :
      reachable ds → mergeSets ds i j = Throw msg ds' → reachable ds'.

Definition in_range (ds : t) (i : Z) : Prop :=
  (0 ≤ i < Z.of_nat (getNumberOfElements ds))%Z.

Lemma in_range_nat ds i :
  in_range ds i → Z.to_nat i < length (parents ds) ∧ i = Z.of_nat (Z.to_nat i).
Proof. unfold in_range, getNumberOfElements. lia. Qed.

Lemma getRepr_cases ds i :
  good ds →
  (¬ in_range ds i ∧ getRepr ds i = Throw "Element index out of bounds" ds) ∨
  (in_range ds i ∧ ∃ ds' r, getRepr ds i = Ok (ds', r) ∧ good ds').
Proof.
  intros Hgood. destruct (decide (in_range ds i)) as [Hin|Hout].
  - right. split; [done|]. destruct (in_range_nat _ _ Hin) as [Hlt ->].
    destruct (getRepr_good ds _ Hgood Hlt) as (ds' & r & ? & _ & ? & _). eauto.
  - left. split; [done|]. apply getRepr_out_of_bounds.
    unfold in_range, getNumberOfElements in Hout. lia.
Qed.

Lemma reachable_good ds : reachable ds → good ds.
Proof.
  induction 1 as [n|ds i ds' r _ IH Hget|ds i j ds' merged _ IH Hmerge
                  |ds i j ds' msg _ IH Hmerge].
  - apply good_create.
  - destruct (getRepr_cases ds i IH) as [[_ Hthrow]|(_ & ds1 & r1 & Hok & Hgood)];
      congruence.
  - destruct (getRepr_cases ds i IH) as [[_ Hi]|(Hi & ds1 & r1 & Hok1 & Hgood1)].
    { unfold mergeSets in Hmerge. by rewrite Hi in Hmerge. }
    destruct (getRepr_cases ds1 j Hgood1) as [[_ Hj]|(Hj & ds2 & r2 & Hok2 & Hgood2)].
    { unfold mergeSets in Hmerge. by rewrite Hok1, Hj in Hmerge. }
    destruct (in_range_nat _ _ Hi) as [Hlti Hi'].
    assert (in_range ds j) as Hj0.
    { unfold in_range, getNumberOfElements in *.
      destruct (getRepr_good ds _ IH Hlti) as (ds1' & r1' & Hok1' & _ & _ & Hlen & _).
      rewrite <- Hi' in Hok1'. assert (ds1' = ds1) as -> by congruence. lia. }
    destruct (in_range_nat _ _ Hj0) as [Hltj Hj'].
    destruct (mergeSets_good ds _ _ IH Hlti Hltj) as (ds0 & m0 & Hm & Hg & _).
    rewrite <- Hi', <- Hj' in Hm. congruence.
  - destruct (getRepr_cases ds i IH) as [[_ Hi]|(Hi & ds1 & r1 & Hok1 & Hgood1)].
    { unfold mergeSets in Hmerge. rewrite Hi in Hmerge. congruence. }
    destruct (getRepr_cases ds1 j Hgood1) as [[_ Hj]|(Hj & ds2 & r2 & Hok2 & Hgood2)].
    { unfold mergeSets in Hmerge. rewrite Hok1, Hj in Hmerge. congruence. }
    unfold mergeSets in Hmerge. rewrite Hok1, Hok2 in Hmerge.
    repeat case_match; done.
Qed.

(** X1: [getRepr] on an index outside the arrays throws and changes nothing;
    on an index inside it returns a representative ([parents[r] = r]) of
    the set of the element, and no element changes its set. *)
Theorem getRepr_returns_representative ds i :
  reachable ds →
  (¬ in_range ds i → getRepr ds i = Throw "Element index out of bounds" ds) ∧
  (in_range ds i →
   ∃ ds' r,
     getRepr ds i = Ok (ds', r) ∧
     same ds (Z.to_nat i) r ∧ parents ds' !! r = Some r ∧
     getNumberOfElements ds' = getNumberOfElements ds ∧
     getNumberOfSets ds' = getNumberOfSets ds ∧
     ∀ j k, same ds' j k ↔ same ds j k).
Proof.
  intros Hgood%reachable_good. split.
  - intros Hout. apply getRepr_out_of_bounds.
    unfold in_range, getNumberOfElements in Hout. lia.
  - intros Hin. destruct (in_range_nat _ _ Hin) as [Hlt Hi].
    destruct (getRepr_good ds _ Hgood Hlt)
      as (ds' & r & Hget & Hr & Hgood' & Hlen & Hiff & _ & Hns).
    rewrite <- Hi in Hget. exists ds', r. split_and!; try done.
    + by apply sameP_root.
    + eapply root_of_is_root. by apply Hiff.
    + intros j k. unfold same, sameP. by setoid_rewrite Hiff.
Qed.

Lemma getRepr_returns_representative_witness :
  ∃ ds' r,
    getRepr (create 3) 2 = Ok (ds', r) ∧
    same (create 3) (Z.to_nat 2) r ∧ parents ds' !! r = Some r ∧
    getNumberOfElements ds' = getNumberOfElements (create 3) ∧
    getNumberOfSets ds' = getNumberOfSets (create 3) ∧
    ∀ j k, same ds' j k ↔ same (create 3) j k.
Proof.
  apply (getRepr_returns_representative (create 3) 2); [apply reach_create|].
  unfold in_range, getNumberOfElements. rewrite length_create. lia.
Defined.

(** X2: [areInSameSet] answers whether the two elements are in one set, and
    asking changes no set. *)
Theorem areInSameSet_decides ds i j :
  reachable ds → in_range ds i → in_range ds j →
  ∃ ds' answer,
    areInSameSet ds i j = Ok (ds', answer) ∧
    (answer = true ↔ same ds (Z.to_nat i) (Z.to_nat j)) ∧
    ∀ x y, same ds' x y ↔ same ds x y.
Proof.
  intros Hgood%reachable_good Hi Hj.
  destruct (in_range_nat _ _ Hi) as [Hlti Hi']. destruct (in_range_nat _ _ Hj) as [Hltj Hj'].
  destruct (getRepr_good ds _ Hgood Hlti)
    as (ds1 & ri & Hget1 & Hri & Hgood1 & Hlen1 & Hiff1 & _).
  assert (Z.to_nat j < length (parents ds1)) as Hltj1 by by rewrite Hlen1.
  destruct (getRepr_good ds1 _ Hgood1 Hltj1)
    as (ds2 & rj & Hget2 & Hrj & Hgood2 & Hlen2 & Hiff2 & _).
  rewrite <- Hi' in Hget1. rewrite <- Hj' in Hget2.
  unfold areInSameSet. rewrite Hget1, Hget2. eexists _, _. split; [done|]. split.
  - rewrite bool_decide_eq_true. symmetry. apply same_root; [done|by apply Hiff1].
  - intros x y. unfold same, sameP. setoid_rewrite Hiff2. by setoid_rewrite Hiff1.
Qed.

Lemma areInSameSet_decides_witness :
  ∃ ds' answer,
    areInSameSet (create 3) 0 2 = Ok (ds', answer) ∧
    (answer = true ↔ same (create 3) (Z.to_nat 0) (Z.to_nat 2)) ∧
    ∀ x y, same ds' x y ↔ same (create 3) x y.
Proof.
  apply (areInSameSet_decides (create 3) 0 2); [apply reach_create| |];
    unfold in_range, getNumberOfElements; rewrite length_create; lia.
Defined.

(** X3: [mergeSets] returns [true] exactly when the two elements were in
    different sets; it then joins the two sets and decrements the number
    of sets by one, and otherwise leaves the sets and the number as they
    were. *)
Theorem mergeSets_joins ds i j :
  reachable ds → in_range ds i → in_range ds j →
  ∃ ds' merged,
    mergeSets ds i j = Ok (ds', merged) ∧
    (merged = true ↔ ¬ same ds (Z.to_nat i) (Z.to_nat j)) ∧
    getNumberOfSets ds' = (getNumberOfSets ds - if merged then 1 else 0)%Z ∧
    getNumberOfElements ds' = getNumberOfElements ds ∧
    ∀ x y, in_range ds (Z.of_nat x) → in_range ds (Z.of_nat y) →
      (same ds' x y ↔
       same ds x y ∨ (same ds x (Z.to_nat i) ∧ same ds (Z.to_nat j) y)
       ∨ (same ds x (Z.to_nat j) ∧ same ds (Z.to_nat i) y)).
Proof.
  intros Hgood%reachable_good Hi Hj.
  destruct (in_range_nat _ _ Hi) as [Hlti Hi']. destruct (in_range_nat _ _ Hj) as [Hltj Hj'].
  destruct (mergeSets_good ds _ _ Hgood Hlti Hltj)
    as (ds' & merged & Hm & _ & Hlen & Hret & Hns & Hsame).
  rewrite <- Hi', <- Hj' in Hm. exists ds', merged. split_and!; try done.
  intros x y Hx Hy. apply Hsame; unfold in_range, getNumberOfElements in *; lia.
Qed.

Lemma mergeSets_joins_witness :
  ∃ ds' merged,
    mergeSets (create 3) 0 2 = Ok (ds', merged) ∧
    (merged = true ↔ ¬ same (create 3) (Z.to_nat 0) (Z.to_nat 2)) ∧
    getNumberOfSets ds' = (getNumberOfSets (create 3) - if merged then 1 else 0)%Z ∧
    getNumberOfElements ds' = getNumberOfElements (create 3) ∧
    ∀ x y, in_range (create 3) (Z.of_nat x) → in_range (create 3) (Z.of_nat y) →
      (same ds' x y ↔
       same (create 3) x y
       ∨ (same (create 3) x (Z.to_nat 0) ∧ same (create 3) (Z.to_nat 2) y)
       ∨ (same (create 3) x (Z.to_nat 2) ∧ same (create 3) (Z.to_nat 0) y)).
Proof.
  apply (mergeSets_joins (create 3) 0 2); [apply reach_create| |];
    unfold in_range, getNumberOfElements; rewrite length_create; lia.
Defined.

Lemma bounded_NoDup_length (l : list nat) n :
  NoDup l → (∀ x, x ∈ l → x < n) → length l ≤ n.
Proof.
  intros Hnd Hlt. pose proof (submseteq_length l (seq 0 n)) as H.
  rewrite length_seq in H. apply H.
  apply NoDup_submseteq; [done|]. intros x Hx. apply elem_of_seq. specialize (Hlt x Hx). lia.
Qed.

(** X4: [getSizeOfSet] returns the number of elements that are in the set of
    the given element, itself included. *)
Theorem getSizeOfSet_counts ds i :
  reachable ds → in_range ds i →
  ∃ ds' n members,
    getSizeOfSet ds i = Ok (ds', n) ∧
    NoDup members ∧ (∀ j, j ∈ members ↔ same ds (Z.to_nat i) j) ∧
    n = length members ∧ 1 ≤ n ≤ getNumberOfElements ds.
Proof.
  intros Hgood%reachable_good Hi. destruct (in_range_nat _ _ Hi) as [Hlt Hi'].
  destruct (getRepr_good ds _ Hgood Hlt)
    as (ds' & r & Hget & Hr & Hgood' & Hlen & Hiff & Hsz & _).
  rewrite <- Hi' in Hget.
  destruct (good_size _ Hgood r (root_of_is_root _ _ _ Hr)) as (members & Hnd & Hm & Hs).
  assert (∀ j, j ∈ members ↔ same ds (Z.to_nat i) j) as Hmem.
  { intros j. rewrite Hm. split.
    - intros Hj. by exists r.
    - intros (r' & Hi1 & Hj). by rewrite (root_of_functional _ _ _ _ Hr Hi1). }
  exists ds', (size ds r), members. split_and!; try done.
  - unfold getSizeOfSet. rewrite Hget. unfold size. by rewrite Hsz.
  - rewrite Hs. assert (Z.to_nat i ∈ members) as Hin by by apply Hm.
    destruct members; [by apply elem_of_nil in Hin|simpl; lia].
  - rewrite Hs. apply bounded_NoDup_length; [done|].
    intros x Hx%Hm. by eapply root_of_lt.
Qed.

Lemma getSizeOfSet_counts_witness :
  ∃ ds' n members,
    getSizeOfSet (create 3) 1 = Ok (ds', n) ∧
    NoDup members ∧ (∀ j, j ∈ members ↔ same (create 3) (Z.to_nat 1) j) ∧
    n = length members ∧ 1 ≤ n ≤ getNumberOfElements (create 3).
Proof.
  apply (getSizeOfSet_counts (create 3) 1); [apply reach_create|].
  unfold in_range, getNumberOfElements. rewrite length_create. lia.
Defined.

(** X5: [getNumberOfSets] is the number of sets: there are that many
    representatives, each of them an element of the structure, no two of
    them in one set, and every element is in the set of one of them. *)
Theorem getNumberOfSets_counts ds :
  reachable ds →
  ∃ reps,
    NoDup reps ∧ getNumberOfSets ds = Z.of_nat (length reps) ∧
    (∀ r, r ∈ reps → in_range ds (Z.of_nat r) ∧ same ds r r) ∧
    (∀ i, in_range ds (Z.of_nat i) → ∃ r, r ∈ reps ∧ same ds i r) ∧
    (∀ r r', r ∈ reps → r' ∈ reps → same ds r r' → r = r') ∧
    (0 ≤ getNumberOfSets ds ≤ Z.of_nat (getNumberOfElements ds))%Z.
Proof.
  intros Hgood%reachable_good.
  destruct (good_count _ Hgood) as (roots & Hnd & Hin & Hcount).
  exists roots. split_and!; try done.
  - intros r Hr%Hin. split.
    + apply lookup_lt_Some in Hr. unfold in_range, getNumberOfElements. lia.
    + exists r. split; by apply root_of_root.
  - intros i Hi. destruct (good_wf _ Hgood i) as [r Hr].
    { unfold in_range, getNumberOfElements in Hi. lia. }
    exists r. split; [|by apply sameP_root].
    apply Hin. by eapply root_of_is_root.
  - intros r r' Hr%Hin Hr'%Hin (r0 & H1 & H2).
    apply (root_of_fixed _ _ _ Hr) in H1. apply (root_of_fixed _ _ _ Hr') in H2. congruence.
  - unfold getNumberOfSets. lia.
  - unfold getNumberOfSets, getNumberOfElements. rewrite Hcount.
    apply inj_le, bounded_NoDup_length; [done|].
    intros r Hr%Hin. by eapply lookup_lt_Some.
Qed.

Lemma getNumberOfSets_counts_witness :
  ∃ reps,
    NoDup reps ∧ getNumberOfSets (create 3) = Z.of_nat (length reps) ∧
    (∀ r, r ∈ reps → in_range (create 3) (Z.of_nat r) ∧ same (create 3) r r) ∧
    (∀ i, in_range (create 3) (Z.of_nat i) → ∃ r, r ∈ reps ∧ same (create 3) i r) ∧
    (∀ r r', r ∈ reps → r' ∈ reps → same (create 3) r r' → r = r') ∧
    (0 ≤ getNumberOfSets (create 3) ≤ Z.of_nat (getNumberOfElements (create 3)))%Z.
Proof. apply (getNumberOfSets_counts (create 3)). apply reach_create. Defined.

(** X6: [mergeSets] with an index outside the arrays throws, and the sets,
    their sizes and their number are as before. *)
Theorem mergeSets_out_of_bounds ds i j :
  reachable ds → ¬ (in_range ds i ∧ in_range ds j) →
  ∃ ds',
    mergeSets ds i j = Throw "Element index out of bounds" ds' ∧
    (∀ x y, same ds' x y ↔ same ds x y) ∧
    sizes ds' = sizes ds ∧ getNumberOfSets ds' = getNumberOfSets ds.
Proof.
  intros Hgood%reachable_good Hout. unfold mergeSets.
  destruct (decide (in_range ds i)) as [Hi|Hi].
  - destruct (in_range_nat _ _ Hi) as [Hlt Hi'].
    destruct (getRepr_good ds _ Hgood Hlt)
      as (ds1 & r & Hget & _ & _ & Hlen & Hiff & Hsz & Hns).
    rewrite <- Hi' in Hget. rewrite Hget.
    rewrite getRepr_out_of_bounds.
    + exists ds1. split_and!; try done.
      intros x y. unfold same, sameP. by setoid_rewrite Hiff.
    + unfold in_range, getNumberOfElements in *. lia.
  - rewrite getRepr_out_of_bounds.
    + by exists ds.
    + unfold in_range, getNumberOfElements in *. lia.
Qed.

Lemma mergeSets_out_of_bounds_witness :
  ∃ ds',
    mergeSets (create 3) 1 3 = Throw "Element index out of bounds" ds' ∧
    (∀ x y, same ds' x y ↔ same (create 3) x y) ∧
    sizes ds' = sizes (create 3) ∧ getNumberOfSets ds' = getNumberOfSets (create 3).
Proof.
  apply (mergeSets_out_of_bounds (create 3) 1 3); [apply reach_create|].
  unfold in_range, getNumberOfElements. rewrite length_create. lia.
Defined.

End DisjointSetFacts.

(** ** More of the animator: starting, ending and running a ramp *)

Module AnimatorFacts.
Import Animator.

(** The record registered for a property, if any. *)
Definition record (subject : Subject) (property : string) (subjects : Subjects)
    : option Animation :=
  JsMap.get subject subjects ≫= JsMap.get property.

Lemma registered_record subject property subjects :
  registered subject property subjects = bool_decide (is_Some (record subject property subjects)).
Proof.
  unfold registered, record. destruct (_ ≫= _); [by rewrite bool_decide_eq_true_2|].
  rewrite bool_decide_eq_false_2; [done|]. by intros [? ?].
Qed.

Lemma getEndValue_record current subject property subjects :
  getEndValue current subject property subjects
  = match record subject property subjects with
    | Some animation => end_ animation
    | None => current
    end.
Proof.
  unfold getEndValue, record. destruct (JsMap.get subject subjects); [|done]. simpl.
  by destruct (JsMap.get property _).
Qed.

Lemma record_stopAnimating subject property subject' property' subjects :
  record subject' property' (stopAnimating subject property subjects)
  = if decide (subject' = subject ∧ property' = property) then None
    else record subject' property' subjects.
Proof.
  unfold record, stopAnimating.
  destruct (JsMap.get subject subjects) as [properties|] eqn:Hget.
  - destruct (decide (subject' = subject)) as [->|Hs].
    + destruct (decide (length _ = 0%nat)) as [Hlen|Hlen].
      * rewrite JsMap.jm_get_delete_eq. simpl.
        destruct (decide (_ ∧ _)) as [Hd|Hd]; [done|]. rewrite Hget. simpl.
        assert (property ≠ property') as Hp by (intros ->; apply Hd; done).
        erewrite <- (JsMap.jm_get_delete_ne property property') by done.
        by rewrite JsMap.jm_get_nil_of_length.
      * rewrite JsMap.jm_get_set_eq. simpl.
        destruct (decide (_ ∧ _)) as [Hd|Hd].
        -- destruct Hd as [_ ->]. by rewrite JsMap.jm_get_delete_eq.
        -- rewrite Hget. simpl. rewrite JsMap.jm_get_delete_ne; [done|].
           intros ->. by apply Hd.
    + rewrite (decide_False (P := subject' = subject ∧ _)) by (intros [? _]; done).
      destruct (decide (length _ = 0%nat)).
      * by rewrite JsMap.jm_get_delete_ne.
      * by rewrite JsMap.jm_get_set_ne.
  - destruct (decide (_ ∧ _)) as [Hd|Hd]; [|done]. destruct Hd as [-> ->]. by rewrite Hget.
Qed.

(** The branch of [animate] for a positive duration, whatever the
    setters of the subjects do. *)
Lemma animate_positive {Obj : Type}
    (setProperty : Subject → string → Q → Subjects * Obj → Subjects * Obj)
    subject property start end_ time (st0 : Subjects * Obj) :
  (0 < time)%Q →
  let st := animate setProperty subject property start end_ time st0 in
  st.2 = st0.2 ∧
  record subject property st.1
  = Some (mkAnimation subject property start end_ time ((end_ - start) / (time * 60))%Q) ∧
  ∀ subject' property', ¬ (subject' = subject ∧ property' = property) →
    record subject' property' st.1 = record subject' property' st0.1.
Proof.
  intros Ht%Qltb_lt. unfold animate. rewrite Ht. simpl.
  set (subjects := st0.1).
  set (subjects1 := if JsMap.has subject subjects then subjects
                    else JsMap.set subject [] subjects).
  set (properties := default [] (JsMap.get subject subjects1)).
  set (animation := mkAnimation _ _ _ _ _ _).
  split_and!; [done| |].
  - unfold record. rewrite JsMap.jm_get_set_eq. simpl. apply JsMap.jm_get_set_eq.
  - intros s' p' Hne. unfold record.
    assert (JsMap.get s' subjects1 ≫= JsMap.get p' = JsMap.get s' subjects ≫= JsMap.get p')
      as Hsub.
    { unfold subjects1, JsMap.has.
      destruct (JsMap.get subject subjects) as [ps|] eqn:Hget; [done|].
      destruct (decide (subject = s')) as [<-|Hs].
      - by rewrite JsMap.jm_get_set_eq, Hget.
      - by rewrite JsMap.jm_get_set_ne. }
    destruct (decide (subject = s')) as [<-|Hs].
    + rewrite JsMap.jm_get_set_eq. simpl.
      rewrite JsMap.jm_get_set_ne by (intros ->; by apply Hne).
      rewrite <- Hsub. unfold properties.
      by destruct (JsMap.get subject subjects1).
    + by rewrite JsMap.jm_get_set_ne.
Qed.

(** X8: [animate] with a positive duration writes nothing to the subject: it
    registers the record with [delta = (end - start) / (time * 60)],
    replacing the record the property had, so that [getEndValue] is the
    new end; the records of other properties stay. *)
Theorem animate_registers subject property start end_ time subjects (o : Plain) :
  (0 < time)%Q →
  let st := animate setPlain subject property start end_ time (subjects, o) in
  st.2 = o ∧
  record subject property st.1
  = Some (mkAnimation subject property start end_ time ((end_ - start) / (time * 60))%Q) ∧
  (∀ current, getEndValue current subject property st.1 = end_) ∧
  ∀ subject' property', ¬ (subject' = subject ∧ property' = property) →
    record subject' property' st.1 = record subject' property' subjects.
Proof.
  intros Ht.
  destruct (animate_positive setPlain subject property start end_ time (subjects, o) Ht)
    as (Ho & Hrec & Hothers).
  split_and!; [done|done| |done].
  intros current. rewrite getEndValue_record. cbn zeta in Hrec. by rewrite Hrec.
Qed.

Lemma animate_registers_witness :
  let st := animate setPlain 0%nat "rotation" 0 1 (1 # 4) ([], (λ _ _, 0%Q) : Plain) in
  st.2 = (λ _ _, 0%Q) ∧
  record 0%nat "rotation" st.1
  = Some (mkAnimation 0%nat "rotation" 0 1 (1 # 4) ((1 - 0) / ((1 # 4) * 60))%Q) ∧
  (∀ current, getEndValue current 0%nat "rotation" st.1 = 1%Q) ∧
  ∀ subject' property', ¬ (subject' = 0%nat ∧ property' = "rotation") →
    record subject' property' st.1 = record subject' property' [].
Proof.
  apply (animate_registers 0%nat "rotation" 0 1 (1 # 4) [] (λ _ _, 0%Q)). reflexivity.
Defined.

End AnimatorFacts.

(** ** More of the parts: flipping and copying *)

Module PartsFacts.
Import Parts.

(** [PartFactory.make]: every value of [PartType] has a constructor. *)
Definition make (ty : PartType) (w : World) : PartId * World := alloc_part ty w.

(** [PartFactory.copy] *)
Definition copy (part : option PartId) (w : World) : option PartId * World :=
  match part with
  | None => (None, w)
  | Some id =>
      match parts w !! id with
      | None => (None, w)
      | Some p =>
          let '(newPart, w) := make (type p) w in
          let w := rotation_assign newPart (if bitValue id w then 1 else 0)%Q w in
          let w :=
            update_part newPart
              (Part_isFlipped_set
                 (match parts w !! id with Some p => _isFlipped p | None => false end)) w in
          let w :=
            update_part newPart
              (with_isLocked
                 (match parts w !! id with Some p => isLocked p | None => false end)) w in
          (Some newPart, w)
      end
  end.

(** [this.hasSameStateAs(part)] *)
Definition hasSameStateAs (this : PartId) (part : option PartId) (w : World) : bool :=
  match part with
  | None => false
  | Some other =>
      match parts w !! this, parts w !! other with
      | Some p, Some q =>
          bool_decide (type p = type q)
          && bool_decide (_isFlipped p = _isFlipped q)
          && bool_decide (bitValue this w = bitValue other w)
      | _, _ => false
      end
  end.

Definition isFlipped (id : PartId) (w : World) : bool :=
  match parts w !! id with Some p => _isFlipped p | None => false end.

Definition registered (id : PartId) (w : World) : bool :=
  Animator.registered id "rotation" (animations w).

Lemma member_assign_registered setting q v w i :
  registered i w = false → registered i (member_assign setting q v w) = false.
Proof.
  intros Hr. unfold registered, member_assign in *.
  repeat case_match; try done; rewrite update_part_animations; try done.
  simpl. rewrite Animator.registered_stopAnimating. by case_match.
Qed.

Lemma members_assign_registered id v l w i :
  registered i w = false → registered i (members_assign id v l w) = false.
Proof.
  revert w. induction l as [|q l IH]; intros w Hr; simpl; [done|].
  apply IH. destruct (decide (q = id)); [done|]. by apply member_assign_registered.
Qed.

Lemma rotation_set_result_registered id v w i :
  registered i w = false → registered i (rotation_set_result id v w) = false.
Proof.
  intros Hr. unfold rotation_set_result.
  assert (∀ w0, registered i w0 = false →
            registered i (update_part id (Part_rotation_set v) w0) = false) as Hupd.
  { intros w0 H0. unfold registered in *. by rewrite update_part_animations. }
  repeat case_match; try done; try by apply Hupd.
  - by apply member_assign_registered.
  - apply Hupd. unfold registered. simpl.
    by apply (members_assign_registered id v _ (with_settingConnectedRotation (Some id) w)).
Qed.

Definition same_flip (p p' : Part) : Prop :=
  _isFlipped p' = _isFlipped p ∧ isLocked p' = isLocked p ∧ type p' = type p.

Lemma rotation_set_result_same_flip id v w :
  parts_related same_flip w (rotation_set_result id v w).
Proof.
  apply rotation_set_result_related; unfold same_flip.
  - done.
  - intros p1 p2 p3 (? & ? & ?) (? & ? & ?). split_and!; congruence.
  - intros p. unfold Part_rotation_set. by repeat case_match.
Qed.

Lemma bitValue_unregistered id w :
  registered id w = false → bitValue id w = Qle_bool (1 # 2) (rotation id w).
Proof.
  unfold registered, Animator.registered, bitValue, Animator.getEndValue.
  destruct (JsMap.get _ (animations w)) as [ps|]; simpl; [|done].
  by destruct (JsMap.get _ ps).
Qed.

(** [Animator.animate] on a part, by the sign of the duration. *)
Lemma animate_now id start end_ time w :
  ¬ (0 < time)%Q →
  animate id "rotation" start end_ time w
  = rotation_set_result id end_
      (with_animations (Animator.stopAnimating id "rotation" (animations w)) w).
Proof.
  intros Ht. unfold animate, Animator.animate.
  assert (Qltb 0 time = false) as ->.
  { apply not_true_iff_false. by rewrite Qltb_lt. }
  simpl. unfold setProperty. simpl. rewrite rotation_assign_eq.
  by destruct (rotation_set_result _ _ _).
Qed.

Lemma animate_later id start end_ time w :
  (0 < time)%Q →
  let w' := animate id "rotation" start end_ time w in
  parts w' = parts w ∧
  AnimatorFacts.record id "rotation" (animations w')
  = Some (Animator.mkAnimation id "rotation" start end_ time
            ((end_ - start) / (time * 60))%Q).
Proof.
  intros Ht. unfold animate.
  destruct (AnimatorFacts.animate_positive setProperty id "rotation" start end_ time
              (animations w, w) Ht) as (Hw & Hrec & _).
  cbn zeta in Hw, Hrec. simpl in Hw. split.
  - simpl. by rewrite Hw.
  - done.
Qed.

Lemma bitValue_record id w animation :
  AnimatorFacts.record id "rotation" (animations w) = Some animation →
  bitValue id w = Qle_bool (1 # 2) (Animator.end_ animation).
Proof.
  intros Hrec. unfold bitValue. by rewrite AnimatorFacts.getEndValue_record, Hrec.
Qed.

(** X10: [flip]: a part that can flip changes sides and keeps its rotation;
    a part that can only rotate changes its bit value, at once when the
    duration is not positive and through an animation of the rotation when
    it is; any other part is left alone. *)
Theorem flip_toggles w id p time :
  parts w !! id = Some p →
  let w' := flip id time w in
  (canFlip (type p) = true →
   isFlipped id w' = negb (_isFlipped p) ∧ rotation id w' = rotation id w ∧
   animations w' = animations w) ∧
  (canFlip (type p) = false → canRotate (type p) = true →
   bitValue id w' = negb (bitValue id w) ∧ isFlipped id w' = _isFlipped p ∧
   ((0 < time)%Q → rotation id w' = rotation id w) ∧
   (¬ (0 < time)%Q → (rotation id w' == if bitValue id w then 0 else 1)%Q)) ∧
  (canFlip (type p) = false → canRotate (type p) = false → w' = w).
Proof.
  intros Hp w'. unfold w', flip. rewrite Hp. split_and!.
  - intros Hf. rewrite Hf. unfold isFlipped, rotation.
    rewrite update_part_lookup, decide_True, Hp, update_part_animations by done. simpl.
    rewrite Part_isFlipped_set_rotation. split_and!; [|done|done].
    unfold Part_isFlipped_set. rewrite Hf. simpl.
    rewrite bool_decide_eq_false_2; [done|]. by destruct (_isFlipped p).
  - intros Hf Hr. rewrite Hf, Hr.
    set (b := bitValue id w). set (e := (if b then 0 else 1)%Q).
    assert (Qle_bool (1 # 2) e = negb b) as He by by destruct b.
    destruct (Qlt_le_dec 0 time) as [Ht|Ht].
    + destruct (animate_later id (if b then 1 else 0)%Q e time w Ht) as [Hparts Hrec].
      split_and!.
      * by rewrite (bitValue_record _ _ _ Hrec).
      * unfold isFlipped. by rewrite Hparts, Hp.
      * intros _. unfold rotation. by rewrite Hparts.
      * intros Hn. done.
    + apply Qle_not_lt in Ht. rewrite (animate_now id _ e time w Ht).
      set (w0 := with_animations _ w).
      assert (registered id w0 = false) as Hreg.
      { unfold registered, w0. simpl.
        by rewrite Animator.registered_stopAnimating, decide_True. }
      pose proof (rotation_set_result_value id e w0 p Hp Hr) as Hval.
      assert (clamp 0 1 e == e)%Q as Hclamp by by destruct b.
      rewrite Hclamp in Hval. split_and!.
      * rewrite bitValue_unregistered by by apply rotation_set_result_registered.
        by rewrite Hval.
      * destruct (parts_related_lookup _ _ _ id p (rotation_set_result_same_flip id e w0) Hp)
          as (p' & Hp' & Hflip & _).
        unfold isFlipped. by rewrite Hp'.
      * done.
      * done.
  - intros Hf Hr. by rewrite Hf, Hr.
Qed.

Definition flip_world : World :=
  (alloc_part GEARBIT (alloc_part RAMP emptyWorld).2).2.

Lemma flip_toggles_witness :
  let w' := flip 1%nat 0 flip_world in
  (canFlip GEARBIT = true →
   isFlipped 1%nat w' = negb false ∧ rotation 1%nat w' = rotation 1%nat flip_world ∧
   animations w' = animations flip_world) ∧
  (canFlip GEARBIT = false → canRotate GEARBIT = true →
   bitValue 1%nat w' = negb (bitValue 1%nat flip_world) ∧ isFlipped 1%nat w' = false ∧
   ((0 < 0)%Q → rotation 1%nat w' = rotation 1%nat flip_world) ∧
   (¬ (0 < 0)%Q → (rotation 1%nat w' == if bitValue 1%nat flip_world then 0 else 1)%Q)) ∧
  (canFlip GEARBIT = false → canRotate GEARBIT = false → w' = flip_world).
Proof. apply (flip_toggles flip_world 1%nat (newPart GEARBIT) 0). reflexivity. Defined.

(** *** Copies *)

Lemma bitValue_ext id w w' :
  rotation id w' = rotation id w →
  AnimatorFacts.record id "rotation" (animations w')
  = AnimatorFacts.record id "rotation" (animations w) →
  bitValue id w' = bitValue id w.
Proof.
  intros Hr Hrec. unfold bitValue. by rewrite !AnimatorFacts.getEndValue_record, Hrec, Hr.
Qed.

(** An assignment to the rotation of a part that is not connected writes
    to that part only, and touches no record of another part. *)
Lemma rotation_set_result_alone id v w p :
  parts w !! id = Some p → connected p = None →
  let w' := rotation_set_result id v w in
  (∀ i, i ≠ id → parts w' !! i = parts w !! i) ∧
  (∃ w0, parts w0 !! id = Some p ∧ parts w' = parts (update_part id (Part_rotation_set v) w0)) ∧
  (∀ i, i ≠ id → AnimatorFacts.record i "rotation" (animations w')
                 = AnimatorFacts.record i "rotation" (animations w)).
Proof.
  intros Hp Hc. unfold rotation_set_result. rewrite Hp, Hc.
  assert (let w' := update_part id (Part_rotation_set v) w in
          (∀ i, i ≠ id → parts w' !! i = parts w !! i) ∧
          (∃ w0, parts w0 !! id = Some p ∧
                 parts w' = parts (update_part id (Part_rotation_set v) w0)) ∧
          (∀ i, i ≠ id → AnimatorFacts.record i "rotation" (animations w')
                         = AnimatorFacts.record i "rotation" (animations w))) as Hplain.
  { split_and!.
    - intros i Hi. by rewrite update_part_lookup, decide_False.
    - by exists w.
    - intros i Hi. by rewrite update_part_animations. }
  destruct (isGearBase (type p)) eqn:Hg; [|done].
  destruct (_settingConnectedRotation w) as [setting|]; [|done].
  unfold member_assign. rewrite Hp, Hg.
  destruct (decide (setting = id)); [done|].
  set (w0 := with_animations _ w). split_and!.
  - intros i Hi. by rewrite update_part_lookup, decide_False.
  - by exists w0.
  - intros i Hi. rewrite update_part_animations. simpl.
    rewrite AnimatorFacts.record_stopAnimating. rewrite decide_False; [done|].
    by intros [? _].
Qed.

(** X11: [copy] returns a new part that has the same state as the original
    ([hasSameStateAs]) and the same lock, and leaves every other part as it
    was. The original is any part in a state its own setters allow: only a
    part that can flip is flipped, only a part that can rotate has a bit
    value of one. *)
Theorem copy_has_same_state w id p :
  parts w !! id = Some p →
  parts w !! nextPart w = None → JsMap.get (nextPart w) (animations w) = None →
  (canFlip (type p) = false → _isFlipped p = false) →
  (canRotate (type p) = false → bitValue id w = false) →
  ∃ newPart w',
    copy (Some id) w = (Some newPart, w') ∧ newPart ≠ id ∧
    hasSameStateAs newPart (Some id) w' = true ∧
    (isLocked <$> parts w' !! newPart) = Some (isLocked p) ∧
    (∀ i, i ≠ newPart → parts w' !! i = parts w !! i).
Proof.
  intros Hp Hfresh Hquiet Hflip Hbit. unfold copy, make. rewrite Hp.
  set (n := nextPart w). fold n in Hfresh, Hquiet.
  assert (n ≠ id) as Hne by congruence.
  set (w1 := (alloc_part (type p) w).2).
  change (alloc_part (type p) w) with (n, w1). cbn iota.
  assert (parts w1 !! n = Some (newPart (type p))) as Hn1.
  { unfold w1. simpl. by rewrite lookup_insert_eq. }
  assert (∀ i, i ≠ n → parts w1 !! i = parts w !! i) as Hother1.
  { intros i Hi. unfold w1. simpl. by rewrite lookup_insert_ne. }
  assert (bitValue id w1 = bitValue id w) as Hb1.
  { apply bitValue_ext; [|done]. unfold rotation. by rewrite Hother1. }
  rewrite Hb1. set (b := bitValue id w) in *.
  set (v := (if b then 1 else 0)%Q). rewrite rotation_assign_eq.
  set (w2 := rotation_set_result n v w1).
  destruct (rotation_set_result_alone n v w1 _ Hn1 eq_refl)
    as (Hother2 & (w0 & Hn0 & Hparts2) & Hrec2).
  fold w2 in Hother2, Hparts2, Hrec2.
  assert (parts w2 !! id = Some p) as Hid2 by by rewrite Hother2, Hother1.
  rewrite Hid2.
  assert (parts w2 !! n = Some (Part_rotation_set v (newPart (type p)))) as Hn2.
  { by rewrite Hparts2, update_part_lookup, decide_True, Hn0. }
  set (p2 := Part_rotation_set v (newPart (type p))) in *.
  set (w3 := update_part n (Part_isFlipped_set (_isFlipped p)) w2).
  assert (parts w3 !! id = Some p) as Hid3.
  { unfold w3. by rewrite update_part_lookup, decide_False. }
  rewrite Hid3.
  set (w4 := update_part n (with_isLocked (isLocked p)) w3).
  set (p4 := with_isLocked (isLocked p) (Part_isFlipped_set (_isFlipped p) p2)).
  assert (parts w4 !! n = Some p4) as Hn4.
  { unfold w4, w3. rewrite !update_part_lookup, !decide_True, Hn2 by done. done. }
  assert (parts w4 !! id = Some p) as Hid4.
  { unfold w4. by rewrite update_part_lookup, decide_False. }
  assert (type p2 = type p) as Hty2.
  { unfold p2. by rewrite Part_rotation_set_type. }
  assert (type p4 = type p) as Hty4.
  { unfold p4, Part_isFlipped_set. by repeat case_match. }
  assert (_isFlipped p4 = _isFlipped p) as Hfl4.
  { unfold p4, Part_isFlipped_set. rewrite Hty2. simpl.
    destruct (canFlip (type p)) eqn:Hcf; simpl.
    - case_bool_decide; [done|]. done.
    - rewrite Hflip by done. unfold p2, Part_rotation_set. by repeat case_match. }
  assert (_rotation p4 = _rotation p2) as Hrot4.
  { unfold p4. simpl. apply Part_isFlipped_set_rotation. }
  assert (animations w4 = animations w2) as Han4.
  { unfold w4, w3. by rewrite !update_part_animations. }
  assert (registered n w2 = false) as Hreg2.
  { apply rotation_set_result_registered. unfold registered, Animator.registered, w1.
    simpl. fold n. unfold PartId, Animator.Subject in *. by rewrite Hquiet. }
  assert (bitValue n w4 = b) as Hbn.
  { rewrite bitValue_unregistered by (unfold registered; by rewrite Han4).
    unfold rotation. rewrite Hn4, Hrot4.
    destruct (canRotate (type p)) eqn:Hcr.
    - assert (_rotation p2 == clamp 0 1 v)%Q as ->.
      { apply Part_rotation_set_value. done. }
      unfold v. by destruct b.
    - unfold p2. rewrite Part_rotation_set_fixed by done.
      rewrite Hbit by done. done. }
  assert (bitValue id w4 = b) as Hbid.
  { apply bitValue_ext.
    - unfold rotation. by rewrite Hid4, Hp.
    - rewrite Han4, Hrec2 by done. done. }
  exists n, w4. split_and!; [done|done| | |].
  - unfold hasSameStateAs. rewrite Hn4, Hid4, Hty4, Hfl4, Hbn, Hbid.
    by rewrite !bool_decide_eq_true_2.
  - by rewrite Hn4.
  - intros i Hi. unfold w4, w3. rewrite !update_part_lookup, !decide_False by done.
    by rewrite Hother2, Hother1.
Qed.

Lemma copy_has_same_state_witness :
  ∃ newPart w',
    copy (Some 1%nat) flip_world = (Some newPart, w') ∧ newPart ≠ 1%nat ∧
    hasSameStateAs newPart (Some 1%nat) w' = true ∧
    (isLocked <$> parts w' !! newPart) = Some (isLocked (Parts.newPart GEARBIT)) ∧
    (∀ i, i ≠ newPart → parts w' !! i = parts flip_world !! i).
Proof.
  apply (copy_has_same_state flip_world 1%nat (Parts.newPart GEARBIT)); try reflexivity.
  all: intros H; discriminate H.
Defined.

(** An assignment to a gear-class part outside any other assignment
    reaches every member of its connected set. *)
Lemma rotation_set_result_members w id p ref members v :
  parts w !! id = Some p → isGearBase (type p) = true →
  connected p = Some ref → sets w !! ref = Some members →
  _settingConnectedRotation w = None →
  (∀ q, q ∈ members → ∃ pq, parts w !! q = Some pq ∧ isGearBase (type pq) = true) →
  ∀ q, q ∈ members → (rotation q (rotation_set_result id v w) == clamp 0 1 v)%Q.
Proof.
  intros Hp Hg Hc Hs Hflag Hmem q Hq.
  destruct (decide (q = id)) as [->|Hne].
  { apply (rotation_set_result_value id v w p Hp). by apply isGearBase_canRotate. }
  unfold rotation_set_result. rewrite Hp, Hg, Hflag, Hc, Hs. simpl.
  unfold rotation. rewrite update_part_lookup, decide_False by done.
  destruct (Hmem q Hq) as (pq & Hpq & Hgq).
  by apply (members_assign_assigned id q v members
              (with_settingConnectedRotation (Some id) w) pq).
Qed.

(** An assignment to the rotation of a part that is no gear-class part,
    or is in no connected set, writes to that part only. *)
Lemma rotation_set_result_single id v w p :
  parts w !! id = Some p → isGearBase (type p) = false ∨ connected p = None →
  let w' := rotation_set_result id v w in
  (∀ i, i ≠ id → parts w' !! i = parts w !! i) ∧
  (∀ i, i ≠ id → AnimatorFacts.record i "rotation" (animations w')
                 = AnimatorFacts.record i "rotation" (animations w)).
Proof.
  intros Hp [Hg|Hc].
  - unfold rotation_set_result. rewrite Hp, Hg. split.
    + intros i Hi. by rewrite update_part_lookup, decide_False.
    + intros i Hi. by rewrite update_part_animations.
  - destruct (rotation_set_result_alone id v w p Hp Hc) as (H1 & _ & H2). by split.
Qed.

(** X7: [animate] on the rotation of a part that can rotate, with a duration
    that is not positive: the part is left at the end value clamped into
    [0,1] and has no rotation animation, so that its end value is that
    value. If the part is no gear-class part or is in no connected set,
    no other part is written to and no record of another part changes.
    If it is a gear-class part with a connected set and the call is made
    outside an assignment to a rotation, every member of the set is left
    at the same value, and the other members have no rotation animation
    any more. *)
Theorem animate_without_duration w id p start end_ time :
  parts w !! id = Some p → canRotate (type p) = true → ¬ (0 < time)%Q →
  let w' := animate id "rotation" start end_ time w in
  (rotation id w' == clamp 0 1 end_)%Q ∧
  registered id w' = false ∧
  (Animator.getEndValue (rotation id w') id "rotation" (animations w')
   == clamp 0 1 end_)%Q ∧
  (isGearBase (type p) = false ∨ connected p = None →
   (∀ i, i ≠ id → parts w' !! i = parts w !! i) ∧
   (∀ i, i ≠ id → AnimatorFacts.record i "rotation" (animations w')
                  = AnimatorFacts.record i "rotation" (animations w))) ∧
  (∀ ref members,
     isGearBase (type p) = true → connected p = Some ref →
     sets w !! ref = Some members → _settingConnectedRotation w = None →
     (∀ q, q ∈ members → ∃ pq, parts w !! q = Some pq ∧ isGearBase (type pq) = true) →
     ∀ q, q ∈ members →
       (rotation q w' == clamp 0 1 end_)%Q ∧ (q ≠ id → registered q w' = false)).
Proof.
  intros Hp Hr Ht w'. unfold w'. rewrite (animate_now id start end_ time w Ht).
  set (w0 := with_animations (Animator.stopAnimating id "rotation" (animations w)) w).
  assert (parts w0 !! id = Some p) as Hp0 by done.
  assert (registered id w0 = false) as Hreg0.
  { unfold registered, w0. simpl.
    by rewrite Animator.registered_stopAnimating, decide_True. }
  pose proof (rotation_set_result_value id end_ w0 p Hp0 Hr) as Hval.
  pose proof (rotation_set_result_registered id end_ w0 id Hreg0) as Hreg.
  split_and!; [done|done| | |].
  - rewrite AnimatorFacts.getEndValue_record.
    unfold registered in Hreg. rewrite AnimatorFacts.registered_record in Hreg.
    apply bool_decide_eq_false in Hreg.
    destruct (AnimatorFacts.record _ _ _); [|done]. exfalso. apply Hreg. eauto.
  - intros Halone.
    destruct (rotation_set_result_single id end_ w0 p Hp0 Halone) as [H1 H2].
    split; [done|]. intros i Hi. rewrite (H2 i Hi). unfold w0. simpl.
    rewrite AnimatorFacts.record_stopAnimating, decide_False; [done|].
    by intros [? _].
  - intros ref members Hg Hc Hs Hflag Hmem q Hq. split.
    + by apply (rotation_set_result_members w0 id p ref members end_).
    + intros Hne. unfold rotation_set_result. rewrite Hp0, Hg.
      change (_settingConnectedRotation w0) with (_settingConnectedRotation w).
      rewrite Hflag, Hc. change (sets w0) with (sets w). rewrite Hs. simpl.
      unfold registered. rewrite update_part_animations. simpl.
      destruct (Hmem q Hq) as (pq & Hpq & Hgq).
      by apply (members_assign_assigned id q end_ members
                  (with_settingConnectedRotation (Some id) w0) pq).
Qed.

Lemma animate_without_duration_witness :
  let w' := animate 0%nat "rotation" 0 (3 # 2) 0 two_gears in
  (rotation 0%nat w' == clamp 0 1 (3 # 2))%Q ∧
  registered 0%nat w' = false ∧
  (Animator.getEndValue (rotation 0%nat w') 0%nat "rotation" (animations w')
   == clamp 0 1 (3 # 2))%Q ∧
  (∀ q, q ∈ [0; 1]%nat →
     (rotation q w' == clamp 0 1 (3 # 2))%Q ∧ (q ≠ 0%nat → registered q w' = false)).
Proof.
  destruct (animate_without_duration two_gears 0%nat
              (default (newPart GEAR) (parts two_gears !! 0%nat)) 0 (3 # 2) 0)
    as (H1 & H2 & H3 & _ & H5).
  - reflexivity.
  - reflexivity.
  - intros H. by apply Qlt_irrefl in H.
  - split_and!; [done..|].
    apply (H5 0%nat [0; 1]%nat); try reflexivity.
    intros q Hq.
    repeat (apply elem_of_cons in Hq as [->|Hq]; [by eexists|]).
    inversion Hq.
Defined.

End PartsFacts.

(** ** More of the board: editing, resizing, balls and fences *)

Module BoardFacts.
Import Parts Board.

(** *** Writing one cell of the grid *)

Lemma set_cell_split grid r c (cells : list (option PartId)) old part :
  grid !! r = Some cells → cells !! c = Some old →
  ∃ before after pre post,
    grid = before ++ (pre ++ old :: post) :: after ∧
    length before = r ∧ length pre = c ∧
    set_cell r c part grid = before ++ (pre ++ part :: post) :: after.
Proof.
  intros Hr Hc. exists (take r grid), (drop (S r) grid), (take c cells), (drop (S c) cells).
  assert (r < length grid)%nat as Hlr by by eapply lookup_lt_Some.
  assert (c < length cells)%nat as Hlc by by eapply lookup_lt_Some.
  split_and!.
  - rewrite (take_drop_middle cells c old Hc). by rewrite (take_drop_middle grid r cells Hr).
  - rewrite length_take. lia.
  - rewrite length_take. lia.
  - unfold set_cell. rewrite Hr. rewrite insert_take_drop by done.
    by rewrite (insert_take_drop cells) by done.
Qed.

Lemma cell_set_cell grid r c part r' c' :
  is_Some (grid !! r ≫= (.!! c)) →
  cell (set_cell r c part grid) r' c'
  = if decide (r' = r ∧ c' = c) then part else cell grid r' c'.
Proof.
  intros [old Hold]. destruct (grid !! r) as [cells|] eqn:Hr; [|done]. simpl in Hold.
  assert (r < length grid)%nat as Hlr by by eapply lookup_lt_Some.
  assert (c < length cells)%nat as Hlc by by eapply lookup_lt_Some.
  unfold set_cell, cell. rewrite Hr.
  destruct (decide (r' = r)) as [->|Hne].
  - rewrite list_lookup_insert_eq by done. rewrite Hr.
    destruct (decide (c' = c)) as [->|Hnc].
    + rewrite decide_True by done. by rewrite list_lookup_insert_eq.
    + rewrite decide_False by (by intros [_ ?]). by rewrite list_lookup_insert_ne.
  - rewrite decide_False by (by intros [? _]). by rewrite list_lookup_insert_ne.
Qed.

Lemma length_set_cell grid r c part : length (set_cell r c part grid) = length grid.
Proof. unfold set_cell. destruct (grid !! r); [|done]. by rewrite length_insert. Qed.

Lemma Forall_length_set_cell grid r c part n :
  Forall (λ cells : list (option PartId), length cells = n) grid →
  Forall (λ cells : list (option PartId), length cells = n) (set_cell r c part grid).
Proof.
  intros Hall. unfold set_cell. destruct (grid !! r) as [cells|] eqn:Hr; [|done].
  apply Forall_insert; [done|]. rewrite length_insert.
  by apply (Forall_lookup_1 _ _ _ _ Hall Hr).
Qed.

Lemma ids_of_grid_split (before after : list (list (option PartId))) pre post part :
  ids_of (mjoin (before ++ (pre ++ part :: post) :: after))
  = (ids_of (mjoin before) ++ ids_of pre) ++ ids_of [part]
    ++ (ids_of post ++ ids_of (mjoin after)).
Proof.
  rewrite join_app. simpl.
  change (part :: post) with ([part] ++ post).
  rewrite !ids_of_app. by rewrite <- !app_assoc.
Qed.

(** The parts of the grid after a write: the part written, and the parts
    that were there but for the one overwritten. *)
Lemma ids_set_cell grid r c cells old part :
  grid !! r = Some cells → cells !! c = Some old →
  NoDup (ids_of (mjoin grid)) →
  (∀ i, part = Some i → i ∉ ids_of (mjoin grid)) →
  NoDup (ids_of (mjoin (set_cell r c part grid))) ∧
  ∀ i, i ∈ ids_of (mjoin (set_cell r c part grid)) ↔
       part = Some i ∨ (i ∈ ids_of (mjoin grid) ∧ old ≠ Some i).
Proof.
  intros Hr Hc Hnd Hfresh.
  destruct (set_cell_split grid r c cells old part Hr Hc)
    as (before & after & pre & post & Hgrid & _ & _ & ->).
  rewrite Hgrid in Hnd, Hfresh. rewrite ids_of_grid_split in *.
  set (L1 := ids_of (mjoin before) ++ ids_of pre) in *.
  set (L2 := ids_of post ++ ids_of (mjoin after)) in *.
  rewrite Hgrid. rewrite ids_of_grid_split. fold L1 L2.
  apply NoDup_app in Hnd as (Hnd1 & Hdisj & Hnd2).
  apply NoDup_app in Hnd2 as (Hndo & Hdisj2 & Hnd2).
  assert (∀ x i, i ∈ ids_of [x] ↔ x = Some i) as Hone.
  { intros [j|] i; unfold ids_of; simpl.
    - rewrite list_elem_of_singleton. naive_solver.
    - rewrite elem_of_nil. naive_solver. }
  split.
  - apply NoDup_app. split_and!; [done| |].
    + intros x Hx [Hp|Hx2]%elem_of_app.
      * apply Hone in Hp. apply (Hfresh x Hp). apply elem_of_app. by left.
      * apply (Hdisj x Hx). apply elem_of_app. by right.
    + apply NoDup_app. split_and!; [|  |done].
      * destruct part; unfold ids_of; simpl; [apply NoDup_singleton|apply NoDup_nil_2].
      * intros x Hp%Hone Hx2. apply (Hfresh x Hp). rewrite !elem_of_app. auto.
  - intros i. rewrite !elem_of_app, !Hone. split.
    + intros [H1|[Hp|H2]]; [|by left|].
      * right. split; [by left|]. intros Ho. apply (Hdisj i H1).
        apply elem_of_app. left. by apply Hone.
      * right. split; [by right; right|]. intros Ho. apply (Hdisj2 i); [by apply Hone|done].
    + intros [Hp|[[H1|[Ho|H2]] Hne]]; auto. done.
Qed.

Lemma in_bounds_lookup b column row :
  wf_grid b → in_bounds b column row →
  ∃ cells old, _grid b !! Z.to_nat row = Some cells ∧ cells !! Z.to_nat column = Some old ∧
               getPart b column row = old.
Proof.
  intros (Hr & Hc & Hlen & Hcols & _) [Hcol Hrow].
  destruct (lookup_lt_is_Some_2 (_grid b) (Z.to_nat row)) as [cells Hcells]; [lia|].
  pose proof (Forall_lookup_1 _ _ _ _ Hcols Hcells) as Hlc. simpl in Hlc.
  destruct (lookup_lt_is_Some_2 cells (Z.to_nat column)) as [old Hold]; [lia|].
  exists cells, old. split_and!; [done..|].
  unfold getPart. rewrite (proj2 (out_of_bounds_false b column row)) by done.
  unfold cell. by rewrite Hcells, Hold.
Qed.

(** The board after [this._grid[row][column] = part]. *)
Lemma wf_grid_set_cell b column row part :
  wf_grid b → in_bounds b column row →
  (∀ i, part = Some i → i ∉ ids_of (mjoin (_grid b))) →
  let b' := with_grid (set_cell (Z.to_nat row) (Z.to_nat column) part (_grid b)) b in
  wf_grid b' ∧
  (∀ x, part_at b' x = if decide (x = (Z.to_nat row, Z.to_nat column)) then part
                       else part_at b x) ∧
  (∀ i, i ∈ ids_of (mjoin (_grid b')) ↔
        part = Some i ∨ (i ∈ ids_of (mjoin (_grid b)) ∧ getPart b column row ≠ Some i)).
Proof.
  intros Hwf Hin Hfresh b'.
  destruct (in_bounds_lookup b column row Hwf Hin) as (cells & old & Hcells & Hold & Hget).
  pose proof Hwf as (Hr & Hc & Hlen & Hcols & Hnd).
  destruct (ids_set_cell _ _ _ _ _ part Hcells Hold Hnd Hfresh) as [Hnd' Hids].
  split_and!.
  - unfold wf_grid, b'. simpl. split_and!; [done|done| | |done].
    + by rewrite length_set_cell.
    + by apply Forall_length_set_cell.
  - intros [r c]. unfold part_at, b'. simpl. rewrite cell_set_cell.
    + destruct (decide (r = _ ∧ c = _)) as [[-> ->]|Hne].
      * by rewrite decide_True.
      * rewrite decide_False; [done|]. intros [= -> ->]. by apply Hne.
    + rewrite Hcells. simpl. rewrite Hold. eauto.
  - intros i. unfold b'. simpl. by rewrite Hids, Hget.
Qed.

Lemma getPart_part_at b column row :
  wf_grid b → 0 ≤ column → 0 ≤ row →
  getPart b column row = part_at b (Z.to_nat row, Z.to_nat column).
Proof. intros. by apply getPart_cell. Qed.

(** *** The steps of [setPart] *)

(** [layoutPart] of the new part and, for a [Gear], the note of the kind
    of location it stands on. *)
Definition placed (new : PartId) (column row : Z) (w : World) : World :=
  let w := layoutPart (Some new) (inject_Z column) (inject_Z row) w in
  if typeIs GEAR w (Some new)
  then update_part new (Gear_isOnPartLocation_set (Z.rem (column + row) 2 =? 0)) w
  else w.

(** [oldPart.connected = null] for a gear-class part. *)
Definition disconnected (old : option PartId) (w : World) : World :=
  match old with
  | Some o => if isGear w old then update_part o (with_connected None) w else w
  | None => w
  end.

(** The merge of the rotation of the new part with its connected set. *)
Definition merged (new : PartId) (w : World) : World :=
  match (if isGear w (Some new) then field connected None w (Some new) else None) with
  | Some ref => rotation_set_result new (merged_rotation w (default [] (sets w !! ref))) w
  | None => w
  end.

Definition fenced (b : Board) (old new : option PartId) (w : World) : World :=
  if isFence w old || isFence w new then _updateFences b w else w.

Lemma setPart_eq w b new column row :
  out_of_bounds b column row = false → getPart b column row ≠ Some new →
  setPart (Some new) column row (w, b)
  = let old := getPart b column row in
    let b' := with_grid (set_cell (Z.to_nat row) (Z.to_nat column) (Some new) (_grid b)) b in
    let w0 := placed new column row w in
    if isGear w0 old || isGear w0 (Some new) then
      match _connectGears b' (disconnected old w0) with
      | Ok w1 => Ok (fenced b' old (Some new) (merged new w1), onChange b')
      | Throw msg w1 => Throw msg (w1, b')
      | Diverge => Diverge
      end
    else Ok (fenced b' old (Some new) w0, onChange b').
Proof.
  intros Hin Hne. unfold setPart. rewrite Hin. rewrite decide_False by done.
  cbn zeta. fold (placed new column row w).
  set (w0 := placed new column row w). set (old := getPart b column row).
  destruct (isGear w0 old || isGear w0 (Some new)); [|done].
  fold (disconnected old w0).
  destruct (_connectGears _ _) as [w1|msg w1|]; [|done..].
  unfold merged, fenced.
  destruct (if isGear w1 (Some new) then _ else _) as [ref|]; [|done].
  unfold rotation_fuel. by rewrite rotation_set_total.
Qed.

(** *** What the steps keep *)

Lemma parts_related_impl (R1 R2 : Part → Part → Prop) w w' :
  (∀ p p', R1 p p' → R2 p p') → parts_related R1 w w' → parts_related R2 w w'.
Proof.
  intros Himpl HR i. specialize (HR i).
  destruct (parts w !! i), (parts w' !! i); try done. by apply Himpl.
Qed.

(** A relation between the versions of a part that holds whenever only
    bookkeeping fields differ. *)
Record steady (R : Part → Part → Prop) : Prop := mkSteady {
  steady_refl : ∀ p, R p p;
  steady_trans : ∀ p1 p2 p3, R p1 p2 → R p2 p3 → R p1 p3;
  steady_column : ∀ v p, R p (Part_column_set v p);
  steady_row : ∀ v p, R p (Part_row_set v p);
  steady_location : ∀ v p, R p (Gear_isOnPartLocation_set v p);
  steady_label : ∀ v p, R p (with_connectionLabel v p)
}.

Definition keeps_core (p p' : Part) : Prop :=
  type p' = type p ∧ _isFlipped p' = _isFlipped p ∧ isLocked p' = isLocked p.

Definition keeps_spin (p p' : Part) : Prop :=
  type p' = type p ∧ _rotation p' = _rotation p.

Definition keeps_link (p p' : Part) : Prop :=
  type p' = type p ∧ connected p' = connected p.

Lemma setters_core v1 v2 v3 v4 p :
  keeps_core p (Part_column_set v1 p) ∧ keeps_core p (Part_row_set v2 p) ∧
  keeps_core p (Gear_isOnPartLocation_set v3 p) ∧ keeps_core p (Part_rotation_set v4 p).
Proof.
  unfold keeps_core, Part_column_set, Part_row_set, Gear_isOnPartLocation_set,
    Part_rotation_set.
  split_and!; by repeat case_match.
Qed.

Lemma steady_core : steady keeps_core.
Proof.
  split.
  - done.
  - unfold keeps_core. intros p1 p2 p3 (? & ? & ?) (? & ? & ?). split_and!; congruence.
  - intros v p. apply (setters_core v 0 false 0).
  - intros v p. apply (setters_core 0 v false 0).
  - intros v p. apply (setters_core 0 0 v 0).
  - done.
Qed.

Lemma steady_spin : steady keeps_spin.
Proof.
  split; unfold keeps_spin, Part_column_set, Part_row_set, Gear_isOnPartLocation_set.
  - done.
  - intros p1 p2 p3 [? ?] [? ?]. split; congruence.
  - intros v p. by repeat case_match.
  - intros v p. by repeat case_match.
  - intros v p. by repeat case_match.
  - done.
Qed.

Lemma placed_related R new column row w :
  steady R → parts_related R w (placed new column row w).
Proof.
  intros HR. unfold placed, layoutPart.
  set (w1 := update_part new (Part_row_set _) _).
  assert (parts_related R w w1) as H1.
  { eapply parts_related_trans; [apply (steady_trans _ HR)| |].
    - apply update_part_related; [apply HR|apply (steady_column _ HR)].
    - apply update_part_related; [apply HR|apply (steady_row _ HR)]. }
  destruct (typeIs GEAR w1 (Some new)); [|done].
  eapply parts_related_trans; [apply (steady_trans _ HR)|done|].
  apply update_part_related; [apply HR|apply (steady_location _ HR)].
Qed.

Lemma disconnected_related R old w :
  steady R → (∀ p, R p (with_connected None p)) →
  parts_related R w (disconnected old w).
Proof.
  intros HR Hc. unfold disconnected. destruct old as [o|]; [|apply parts_related_refl, HR].
  destruct (isGear w (Some o)); [|apply parts_related_refl, HR].
  apply update_part_related; [apply HR|done].
Qed.

Lemma placed_frame new column row w :
  sets (placed new column row w) = sets w ∧
  animations (placed new column row w) = animations w ∧
  _settingConnectedRotation (placed new column row w) = _settingConnectedRotation w ∧
  nextPart (placed new column row w) = nextPart w.
Proof.
  unfold placed, layoutPart. destruct (typeIs _ _ _);
    rewrite ?update_part_sets, ?update_part_animations, ?update_part_setting,
      ?update_part_nextPart; done.
Qed.

Lemma disconnected_frame old w :
  sets (disconnected old w) = sets w ∧
  animations (disconnected old w) = animations w ∧
  _settingConnectedRotation (disconnected old w) = _settingConnectedRotation w ∧
  nextPart (disconnected old w) = nextPart w.
Proof.
  unfold disconnected. destruct old as [o|]; [|done]. destruct (isGear _ _); [|done].
  by rewrite update_part_sets, update_part_animations, update_part_setting,
    update_part_nextPart.
Qed.

(** The rotation setter keeps the sets, the guard and the allocation. *)
Lemma member_assign_frame setting id v w :
  sets (member_assign setting id v w) = sets w ∧
  nextPart (member_assign setting id v w) = nextPart w.
Proof.
  unfold member_assign. repeat case_match;
    rewrite ?update_part_sets, ?update_part_nextPart; done.
Qed.

Lemma members_assign_frame id v l : ∀ w,
  sets (members_assign id v l w) = sets w ∧
  nextPart (members_assign id v l w) = nextPart w.
Proof.
  induction l as [|q l IH]; intros w; simpl; [done|].
  destruct (IH (if decide (q = id) then w else member_assign id q v w)) as [-> ->].
  destruct (decide (q = id)); [done|]. apply member_assign_frame.
Qed.

Lemma rotation_set_result_frame id v w :
  sets (rotation_set_result id v w) = sets w ∧
  nextPart (rotation_set_result id v w) = nextPart w ∧
  _settingConnectedRotation (rotation_set_result id v w) = _settingConnectedRotation w.
Proof.
  unfold rotation_set_result. destruct (parts w !! id) as [p|]; [|done].
  destruct (isGearBase (type p));
    [|by rewrite update_part_sets, update_part_nextPart, update_part_setting].
  destruct (_settingConnectedRotation w) as [setting|] eqn:Hs.
  { destruct (member_assign_frame setting id v w) as [-> ->].
    by rewrite member_assign_setting. }
  destruct (connected p) as [ref|];
    [|by rewrite update_part_sets, update_part_nextPart, update_part_setting].
  rewrite update_part_sets, update_part_nextPart, update_part_setting. simpl.
  by destruct (members_assign_frame id v (default [] (sets w !! ref))
                 (with_settingConnectedRotation (Some id) w)) as [-> ->].
Qed.

Lemma rotation_set_result_core id v w :
  parts_related keeps_core w (rotation_set_result id v w).
Proof.
  apply rotation_set_result_related.
  - apply steady_core.
  - apply steady_core.
  - intros p. apply (setters_core 0 0 false v).
Qed.

Lemma rotation_set_result_link id v w :
  parts_related keeps_link w (rotation_set_result id v w).
Proof.
  apply rotation_set_result_related; unfold keeps_link.
  - done.
  - intros p1 p2 p3 [? ?] [? ?]. split; congruence.
  - intros p. unfold Part_rotation_set. by repeat case_match.
Qed.

Lemma typeIs_core ty w w' part :
  parts_related keeps_core w w' → typeIs ty w' part = typeIs ty w part.
Proof.
  intros HR. unfold typeIs, field. destruct part as [i|]; [|done]. simpl.
  specialize (HR i). destruct (parts w !! i), (parts w' !! i); try done.
  by destruct HR as (-> & _).
Qed.

Lemma isGear_core w w' part :
  parts_related keeps_core w w' → isGear w' part = isGear w part.
Proof.
  intros HR. unfold isGear, field. destruct part as [i|]; [|done]. simpl.
  specialize (HR i). destruct (parts w !! i), (parts w' !! i); try done.
  by destruct HR as (-> & _).
Qed.

Lemma isFence_core w w' part :
  parts_related keeps_core w w' → isFence w' part = isFence w part.
Proof. apply typeIs_core. Qed.

Lemma joined_ext b w w' x y :
  (∀ part, isGear w' part = isGear w part) → joined b w' x y ↔ joined b w x y.
Proof.
  intros Hg. unfold joined.
  split; apply rtc_subrel; intros u v (Hu & Hv & Ha); split_and!; try done;
    unfold gear_at in *; by rewrite ?Hg in *.
Qed.

(** A relation that the steps after the placement respect. *)
Record lasting (R : Part → Part → Prop) : Prop := mkLasting {
  lasting_refl : ∀ p, R p p;
  lasting_trans : ∀ p1 p2 p3, R p1 p2 → R p2 p3 → R p1 p3;
  lasting_links : ∀ p p', keeps_but_links p p' → R p p';
  lasting_layout : ∀ p p', keeps_but_layout p p' → R p p';
  lasting_rotation : ∀ v p, R p (Part_rotation_set v p)
}.

Lemma lasting_core : lasting keeps_core.
Proof.
  split.
  - done.
  - apply steady_core.
  - intros p p' H. unfold keeps_but_links in H. unfold keeps_core. split_and!.
    + by apply (f_equal type) in H.
    + by apply (f_equal _isFlipped) in H.
    + by apply (f_equal isLocked) in H.
  - intros p p' (? & ? & _ & _ & ?)%keeps_but_layout_fields. done.
  - intros v p. apply (setters_core 0 0 false v).
Qed.

Definition keeps_place (p p' : Part) : Prop :=
  _column p' = _column p ∧ _row p' = _row p.

Lemma lasting_place : lasting keeps_place.
Proof.
  split; unfold keeps_place.
  - done.
  - intros p1 p2 p3 [? ?] [? ?]. split; congruence.
  - intros p p' H. unfold keeps_but_links in H. split.
    + by apply (f_equal _column) in H.
    + by apply (f_equal _row) in H.
  - intros p p' H. unfold keeps_but_layout in H. split.
    + by apply (f_equal _column) in H.
    + by apply (f_equal _row) in H.
  - intros v p. unfold Part_rotation_set. by repeat case_match.
Qed.

Lemma merged_related R new w :
  lasting R → parts_related R w (merged new w).
Proof.
  intros HR. unfold merged. destruct (if isGear _ _ then _ else _);
    [|apply parts_related_refl, HR].
  apply rotation_set_result_related; [apply HR|apply HR|].
  intros p. apply (lasting_rotation _ HR).
Qed.

Lemma merged_frame new w :
  sets (merged new w) = sets w ∧ nextPart (merged new w) = nextPart w ∧
  _settingConnectedRotation (merged new w) = _settingConnectedRotation w.
Proof.
  unfold merged. destruct (if isGear _ _ then _ else _); [|done].
  apply rotation_set_result_frame.
Qed.

Lemma fenced_kept b old new w : layout_kept w (fenced b old new w).
Proof.
  unfold fenced. destruct (_ || _); [apply updateFences_kept|apply layout_kept_refl].
Qed.

Lemma fenced_related R b old new w :
  lasting R → parts_related R w (fenced b old new w).
Proof.
  intros HR. destruct (fenced_kept b old new w) as [H _].
  eapply parts_related_impl; [|done]. apply HR.
Qed.

Lemma disconnected_related_lasting R old w :
  lasting R → (∀ p, R p (with_connected None p)) →
  parts_related R w (disconnected old w).
Proof.
  intros HR Hc. unfold disconnected. destruct old as [o|]; [|apply parts_related_refl, HR].
  destruct (isGear w (Some o)); [|apply parts_related_refl, HR].
  apply update_part_related; [apply HR|done].
Qed.

(** [setPart] with a part that is not on the board, at a cell of the
    board: the call comes back, and these are its steps. *)
Lemma setPart_run w b new column row :
  wf_grid b → in_bounds b column row → new ∉ ids_of (mjoin (_grid b)) →
  let old := getPart b column row in
  let b' := with_grid (set_cell (Z.to_nat row) (Z.to_nat column) (Some new) (_grid b)) b in
  let w0 := placed new column row w in
  ∃ w1,
    setPart (Some new) column row (w, b) = Ok (fenced b' old (Some new) w1, onChange b') ∧
    if isGear w old || isGear w (Some new) then
      ∃ w', _connectGears b' (disconnected old w0) = Ok w' ∧
            world_kept (disconnected old w0) w' ∧
            (∀ x i, part_at b' x = Some i → gear_at b' (disconnected old w0) x →
                    grouped b' (disconnected old w0) w' x i) ∧
            w1 = merged new w'
    else w1 = w0.
Proof.
  intros Hwf Hin Hfresh old b' w0.
  assert (getPart b column row ≠ Some new) as Hne.
  { intros Hget. apply Hfresh. destruct Hin as [Hc Hr].
    rewrite getPart_cell in Hget by (done || lia). by eapply cell_elem_of. }
  rewrite setPart_eq by (done || by apply out_of_bounds_false). cbn zeta.
  fold old b' w0.
  assert (parts_related keeps_core w w0) as Hcore0 by apply placed_related, steady_core.
  rewrite !(isGear_core w w0) by done.
  destruct (isGear w old || isGear w (Some new)); [|by exists w0].
  destruct (wf_grid_set_cell b column row (Some new) Hwf Hin) as (Hwf' & _).
  { by intros i [= <-]. }
  destruct (connectGears_spec b' (disconnected old w0) Hwf') as (w' & Hconn & Hkept & Hgroup).
  rewrite Hconn. exists (merged new w'). split; [done|]. by exists w'.
Qed.

Lemma setPart_result w b new column row :
  wf_grid b → in_bounds b column row → new ∉ ids_of (mjoin (_grid b)) →
  let b' := with_grid (set_cell (Z.to_nat row) (Z.to_nat column) (Some new) (_grid b)) b in
  ∃ w',
    setPart (Some new) column row (w, b) = Ok (w', onChange b') ∧
    (∀ R, lasting R → (∀ p, R p (with_connected None p)) →
          parts_related R (placed new column row w) w') ∧
    nextPart w' = nextPart w.
Proof.
  intros Hwf Hin Hfresh b'.
  destruct (setPart_run w b new column row Hwf Hin Hfresh) as (w1 & Hset & Hcase).
  cbn zeta in Hset, Hcase. fold b' in Hset, Hcase.
  set (old := getPart b column row) in *. set (w0 := placed new column row w) in *.
  eexists. split; [exact Hset|].
  assert ((∀ R, lasting R → (∀ p, R p (with_connected None p)) → parts_related R w0 w1) ∧
          nextPart w1 = nextPart w) as [Hrel Hnext].
  { destruct (isGear w old || isGear w (Some new)).
    - destruct Hcase as (w' & _ & Hkept & _ & ->). split.
      + intros R HR Hc.
        eapply parts_related_trans; [apply HR|by apply disconnected_related_lasting| ].
        eapply parts_related_trans; [apply HR| |by apply merged_related].
        destruct Hkept as [Hk _]. eapply parts_related_impl; [|done]. apply HR.
      + pose proof (merged_frame new w') as (_ & H1 & _).
        destruct Hkept as (_ & _ & _ & H2).
        pose proof (disconnected_frame old w0) as (_ & _ & _ & H3).
        pose proof (placed_frame new column row w) as (_ & _ & _ & H4).
        fold w0 in H4. congruence.
    - subst w1. split.
      + intros R HR _. apply parts_related_refl, HR.
      + pose proof (placed_frame new column row w) as (_ & _ & _ & H4). done. }
  split.
  - intros R HR Hc. eapply parts_related_trans; [apply HR|by apply Hrel|].
    by apply fenced_related.
  - pose proof (fenced_kept b' old (Some new) w1) as (_ & _ & _ & _ & H5 & _). congruence.
Qed.

Lemma placed_position new column row w p :
  parts w !! new = Some p →
  ∃ p0, parts (placed new column row w) !! new = Some p0 ∧
        (_column p0 == inject_Z column)%Q ∧ (_row p0 == inject_Z row)%Q.
Proof.
  intros Hp. unfold placed, layoutPart.
  set (p1 := Part_row_set (inject_Z row) (Part_column_set (inject_Z column) p)).
  set (w1 := update_part new (Part_row_set _) _).
  assert (parts w1 !! new = Some p1) as H1.
  { unfold w1. rewrite !update_part_lookup, !decide_True, Hp by done. done. }
  assert ((_column p1 == inject_Z column)%Q ∧ (_row p1 == inject_Z row)%Q) as [Hc Hr].
  { unfold p1, Part_row_set, Part_column_set.
    destruct (Qeq_bool (inject_Z column) (_column p)) eqn:Hc;
      destruct (Qeq_bool (inject_Z row) _) eqn:Hr; simpl;
      try apply Qeq_bool_iff in Hc; try apply Qeq_bool_iff in Hr; simpl in *;
      split; by try symmetry. }
  destruct (typeIs GEAR w1 (Some new)); [|by exists p1].
  exists (Gear_isOnPartLocation_set (Z.rem (column + row) 2 =? 0) p1). split_and!.
  - by rewrite update_part_lookup, decide_True, H1.
  - unfold Gear_isOnPartLocation_set. by case_match.
  - unfold Gear_isOnPartLocation_set. by case_match.
Qed.

Lemma getPart_with_grid b grid column row :
  getPart (onChange (with_grid grid b)) column row
  = if out_of_bounds b column row then None
    else cell grid (Z.to_nat row) (Z.to_nat column).
Proof. done. Qed.

(** The effect of [setPart] with a part that is not on the board. *)
Lemma setPart_fresh w b new column row :
  wf_grid b → in_bounds b column row → new ∉ ids_of (mjoin (_grid b)) →
  ∃ w' b',
    setPart (Some new) column row (w, b) = Ok (w', b') ∧
    wf_grid b' ∧ getPart b' column row = Some new ∧
    (∀ c r, (c, r) ≠ (column, row) → getPart b' c r = getPart b c r) ∧
    _changeCounter b' = _changeCounter b + 1 ∧
    _columnCount b' = _columnCount b ∧ _rowCount b' = _rowCount b ∧
    balls b' = balls b ∧
    parts_related keeps_core w w' ∧ nextPart w' = nextPart w ∧
    (∀ p', parts w' !! new = Some p' →
           (_column p' == inject_Z column)%Q ∧ (_row p' == inject_Z row)%Q) ∧
    (∀ i, i ∈ ids_of (mjoin (_grid b')) ↔
          i = new ∨ (i ∈ ids_of (mjoin (_grid b)) ∧ getPart b column row ≠ Some i)).
Proof.
  intros Hwf Hin Hfresh.
  destruct (setPart_result w b new column row Hwf Hin Hfresh) as (w' & Hset & Hrel & Hnext).
  destruct (wf_grid_set_cell b column row (Some new) Hwf Hin) as (Hwf' & Hat & Hids).
  { by intros i [= <-]. }
  destruct (in_bounds_lookup b column row Hwf Hin) as (cells & old & Hcells & Hold & _).
  assert (is_Some (_grid b !! Z.to_nat row ≫= (.!! Z.to_nat column))) as Hsome.
  { rewrite Hcells. simpl. rewrite Hold. eauto. }
  eexists _, _. split; [exact Hset|]. split_and!; try done.
  - rewrite getPart_with_grid, (proj2 (out_of_bounds_false b column row)) by done.
    rewrite cell_set_cell by done. by rewrite decide_True.
  - intros c r Hne. rewrite getPart_with_grid. unfold getPart.
    destruct (out_of_bounds b c r) eqn:Hout; [done|].
    apply out_of_bounds_false in Hout. rewrite cell_set_cell by done.
    rewrite decide_False; [done|]. intros [Hr Hc]. apply Hne.
    destruct Hin, Hout. f_equal; lia.
  - eapply parts_related_trans; [apply steady_core|apply placed_related, steady_core|].
    apply Hrel; [apply lasting_core|done].
  - intros p' Hp'.
    destruct (parts_related_lookup_inv keeps_place _ _ new p'
                (Hrel keeps_place lasting_place (λ p, conj eq_refl eq_refl)) Hp')
      as (p0 & Hp0 & Hc & Hr).
    destruct (parts_related_lookup_inv keeps_core _ _ new p0
                (placed_related keeps_core new column row w steady_core) Hp0)
      as (p & Hp & _).
    destruct (placed_position new column row w p Hp) as (p0' & Hp0' & Hc0 & Hr0).
    assert (p0' = p0) as -> by congruence. by rewrite Hc, Hr.
  - intros i. simpl. rewrite (Hids i). split; intros [Hi|Hi]; auto.
    left. congruence.
Qed.

(** X12: [setPart] outside the board, or with the part the cell already holds,
    changes nothing. With a part that is not on the board and a cell of
    the board it comes back, the cell holds the part, every other cell
    holds what it held, the change counter goes up by one, the part is laid
    out at the cell, and no part changes its type, its flip or its lock. *)
Theorem setPart_places w b part column row :
  (¬ in_bounds b column row → setPart part column row (w, b) = Ok (w, b)) ∧
  (getPart b column row = part → setPart part column row (w, b) = Ok (w, b)) ∧
  ∀ new, part = Some new →
    wf_grid b → in_bounds b column row → new ∉ ids_of (mjoin (_grid b)) →
    ∃ w' b',
      setPart part column row (w, b) = Ok (w', b') ∧
      wf_grid b' ∧ getPart b' column row = Some new ∧
      (∀ c r, (c, r) ≠ (column, row) → getPart b' c r = getPart b c r) ∧
      _changeCounter b' = _changeCounter b + 1 ∧
      _columnCount b' = _columnCount b ∧ _rowCount b' = _rowCount b ∧
      balls b' = balls b ∧
      parts_related keeps_core w w' ∧ nextPart w' = nextPart w ∧
      (∀ p', parts w' !! new = Some p' →
             (_column p' == inject_Z column)%Q ∧ (_row p' == inject_Z row)%Q).
Proof.
  split_and!.
  - intros Hout%out_of_bounds_true. unfold setPart. by rewrite Hout.
  - intros Hsame. unfold setPart. destruct (out_of_bounds b column row); [done|].
    by rewrite decide_True.
  - intros new -> Hwf Hin Hfresh.
    destruct (setPart_fresh w b new column row Hwf Hin Hfresh)
      as (w' & b' & H1 & H2 & H3 & H4 & H5 & H6 & H7 & H8 & H9 & H10 & H11 & _).
    exists w', b'. split_and!; done.
Qed.

(** A board of two rows and three columns, and a Gearbit not yet on it. *)
Definition edit_world : World := (alloc_part GEARBIT gear_world).2.

Lemma setPart_places_witness :
  ∃ w' b',
    setPart (Some 6%nat) 1 0 (edit_world, gear_board) = Ok (w', b') ∧
    wf_grid b' ∧ getPart b' 1 0 = Some 6%nat ∧
    (∀ c r, (c, r) ≠ (1, 0) → getPart b' c r = getPart gear_board c r) ∧
    _changeCounter b' = _changeCounter gear_board + 1 ∧
    _columnCount b' = _columnCount gear_board ∧ _rowCount b' = _rowCount gear_board ∧
    balls b' = balls gear_board ∧
    parts_related keeps_core edit_world w' ∧ nextPart w' = nextPart edit_world ∧
    (∀ p', parts w' !! 6%nat = Some p' →
           (_column p' == inject_Z 1)%Q ∧ (_row p' == inject_Z 0)%Q).
Proof.
  destruct (setPart_places edit_world gear_board (Some 6%nat) 1 0) as (_ & _ & H).
  apply (H 6%nat eq_refl).
  - apply (bool_decide_unpack _). vm_compute. reflexivity.
  - unfold in_bounds. simpl. lia.
  - apply (bool_decide_unpack _). vm_compute. reflexivity.
Defined.

(** *** The rotation of a new gear *)

Lemma rotation_related w w' :
  parts_related keeps_spin w w' → ∀ q, rotation q w' = rotation q w.
Proof.
  intros HR q. unfold rotation. specialize (HR q).
  destruct (parts w !! q), (parts w' !! q); try done. by destruct HR as [_ ->].
Qed.

Lemma merged_rotation_ext w w' members :
  (∀ q, rotation q w' = rotation q w) →
  merged_rotation w' members = merged_rotation w members.
Proof.
  intros Hr. unfold merged_rotation, sum_rotations.
  assert (∀ acc, foldl (λ sum part, (sum + rotation part w')%Q) acc members
                 = foldl (λ sum part, (sum + rotation part w)%Q) acc members) as ->; [|done].
  induction members as [|q l IH]; intros acc; simpl; [done|]. by rewrite Hr, IH.
Qed.

Lemma merged_rotation_bit w members :
  (clamp 0 1 (merged_rotation w members) == merged_rotation w members)%Q.
Proof. unfold merged_rotation. by destruct (Qle_bool _ _). Qed.

Lemma keeps_spin_links p p' : keeps_but_links p p' → keeps_spin p p'.
Proof.
  unfold keeps_but_links, keeps_spin. intros H. split.
  - by apply (f_equal type) in H.
  - by apply (f_equal _rotation) in H.
Qed.

Lemma field_connected_related w w' id :
  parts_related keeps_link w w' →
  field connected None w' (Some id) = field connected None w (Some id).
Proof.
  intros HR. unfold field. simpl. specialize (HR id).
  destruct (parts w !! id), (parts w' !! id); try done. by destruct HR as [_ ->].
Qed.

(** [setPart] with a new gear-class part, in the numbers of the model:
    the part holds a connected set, which contains the part itself and
    the parts of the gear cells joined to its cell, and the rotation of
    the part is the merged rotation of the rotations the members had. *)
Lemma setPart_merge_spec w b new p column row :
  wf_grid b → in_bounds b column row →
  parts w !! new = Some p → isGearBase (type p) = true →
  new ∉ ids_of (mjoin (_grid b)) →
  ∃ w' b' ref members,
    setPart (Some new) column row (w, b) = Ok (w', b') ∧
    field connected None w' (Some new) = Some ref ∧
    sets w' !! ref = Some members ∧ new ∈ members ∧
    (∀ j, j ∈ members ↔
          ∃ y, part_at b' y = Some j ∧ gear_at b' w y ∧
               joined b' w (Z.to_nat row, Z.to_nat column) y) ∧
    (rotation new w' == merged_rotation w members)%Q ∧
    (_settingConnectedRotation w = None →
     ∀ j, j ∈ members → (rotation j w' == merged_rotation w members)%Q).
Proof.
  intros Hwf Hin Hp Hg Hfresh.
  destruct (setPart_run w b new column row Hwf Hin Hfresh) as (w1 & Hset & Hcase).
  cbn zeta in Hset, Hcase.
  set (b' := with_grid _ b) in *. set (old := getPart b column row) in *.
  set (w0 := placed new column row w) in *. set (wd := disconnected old w0) in *.
  set (x := (Z.to_nat row, Z.to_nat column)).
  assert (isGear w (Some new) = true) as Hgn.
  { unfold isGear, field. simpl. by rewrite Hp. }
  rewrite Hgn, orb_true_r in Hcase. destruct Hcase as (w' & _ & Hkept & Hgroup & ->).
  destruct (wf_grid_set_cell b column row (Some new) Hwf Hin) as (Hwf' & Hat & _).
  { by intros i [= <-]. }
  (* the world before the connections are rebuilt *)
  assert (parts_related keeps_core w wd) as Hcore.
  { eapply parts_related_trans; [apply steady_core|apply placed_related, steady_core|].
    apply disconnected_related; [apply steady_core|done]. }
  assert (parts_related keeps_spin w wd) as Hspin.
  { eapply parts_related_trans; [apply steady_spin|apply placed_related, steady_spin|].
    apply disconnected_related; [apply steady_spin|done]. }
  assert (∀ part, isGear wd part = isGear w part) as Hgear
    by (intros part; by apply isGear_core).
  assert (∀ y, gear_at b' wd y ↔ gear_at b' w y) as Hgat.
  { intros y. unfold gear_at. by rewrite Hgear. }
  assert (_settingConnectedRotation w' = _settingConnectedRotation w) as Hflag.
  { destruct Hkept as (_ & _ & -> & _).
    pose proof (disconnected_frame old w0) as (_ & _ & H1 & _).
    pose proof (placed_frame new column row w) as (_ & _ & H2 & _). fold w0 in H2.
    unfold wd. congruence. }
  (* the set of the new part *)
  assert (part_at b' x = Some new) as Hx by (rewrite Hat; by rewrite decide_True).
  assert (gear_at b' wd x) as Hgx.
  { apply Hgat. unfold gear_at. by rewrite Hx. }
  destruct (Hgroup x new Hx Hgx) as (ref & members & Hconn & Hsets & Hmem & _).
  assert (∀ j, j ∈ members ↔
               ∃ y, part_at b' y = Some j ∧ gear_at b' w y ∧ joined b' w x y) as Hmem'.
  { intros j. rewrite Hmem.
    split; intros (y & Hy & Hgy & Hj); exists y; (split_and!; [done|by apply Hgat|]).
    - by apply (joined_ext b' w wd x y Hgear).
    - by apply (joined_ext b' w wd x y Hgear). }
  assert (new ∈ members) as Hnew.
  { apply Hmem'. exists x. split_and!; [done|by apply Hgat|apply rtc_refl]. }
  (* the assignment *)
  assert (isGear w' (Some new) = true) as Hgn'.
  { by rewrite (isGear_kept wd w'), Hgear. }
  set (v := merged_rotation w' members).
  assert (merged new w' = rotation_set_result new v w') as Hmerged.
  { unfold merged. by rewrite Hgn', Hconn, Hsets. }
  assert (v = merged_rotation w members) as Hv.
  { apply merged_rotation_ext. intros q.
    rewrite <- (rotation_related w wd Hspin q). apply rotation_related.
    destruct Hkept as [Hk _]. eapply parts_related_impl; [|done]. apply keeps_spin_links. }
  unfold isGear, field in Hgn'. simpl in Hgn'.
  destruct (parts w' !! new) as [p'|] eqn:Hp'; [|done].
  assert (connected p' = Some ref) as Hconn'.
  { unfold field in Hconn. simpl in Hconn. by rewrite Hp' in Hconn. }
  set (w2 := rotation_set_result new v w') in *.
  set (w3 := fenced b' old (Some new) (merged new w')) in *.
  assert (layout_kept w2 w3) as Hlay.
  { unfold w3. rewrite Hmerged. apply fenced_kept. }
  assert (∀ q, rotation q w3 = rotation q w2) as Hrot3.
  { intros q. unfold rotation. destruct Hlay as [HR _]. specialize (HR q).
    destruct (parts w2 !! q), (parts w3 !! q); try done.
    by destruct (keeps_but_layout_fields _ _ HR) as (_ & _ & -> & _). }
  exists w3, (onChange b'), ref, members. split_and!; try done.
  - unfold field. simpl. destruct Hlay as [HR _]. specialize (HR new).
    pose proof (rotation_set_result_link new v w' new) as HL. fold w2 in HL.
    rewrite Hp' in HL.
    destruct (parts w2 !! new), (parts w3 !! new); try done.
    destruct (keeps_but_layout_fields _ _ HR) as (_ & _ & _ & -> & _).
    destruct HL as [_ ->]. done.
  - destruct Hlay as (_ & -> & _).
    pose proof (rotation_set_result_frame new v w') as (H1 & _). fold w2 in H1.
    by rewrite H1.
  - rewrite Hrot3, <- Hv.
    eapply Qeq_trans; [|apply (merged_rotation_bit w' members)].
    apply (rotation_set_result_value new v w' p'); [done|].
    by apply isGearBase_canRotate.
  - intros Hnone j Hj. rewrite Hrot3, <- Hv.
    eapply Qeq_trans; [|apply (merged_rotation_bit w' members)].
    apply (PartsFacts.rotation_set_result_members w' new p' ref members v); try done.
    + congruence.
    + intros q (y & Hy & Hgy & _)%Hmem.
      assert (isGear w' (Some q) = true) as Hq.
      { rewrite (isGear_kept wd w') by done. unfold gear_at in Hgy. by rewrite Hy in Hgy. }
      unfold isGear, field in Hq. simpl in Hq.
      destruct (parts w' !! q) as [pq|]; [|done]. eauto.
Qed.

(** *** Gears at rest *)

(** Every part stands at one of the two ends of its turn. *)
Definition at_rest (w : World) : Prop :=
  map_Forall (λ _ p, Qeq_bool (_rotation p) 0 || Qeq_bool (_rotation p) 1 = true) (parts w).

#[export] Instance at_rest_dec w : Decision (at_rest w).
Proof. unfold at_rest. apply _. Defined.

(** The part stands at the end of its turn. *)
Definition turned (w : World) (j : PartId) : bool := Qeq_bool (rotation j w) 1.

(** The number of members that stand at the end of their turn. *)
Definition count_turned (w : World) (members : list PartId) : nat :=
  length (filter (λ j, turned w j = true) members).

Lemma at_rest_rotation w j :
  at_rest w → (rotation j w == if turned w j then 1 else 0)%Q.
Proof.
  intros Hw. unfold turned, rotation.
  destruct (parts w !! j) as [p|] eqn:Hp; [|done].
  specialize (Hw j p Hp). simpl in Hw.
  destruct (Qeq_bool (_rotation p) 1) eqn:H1; [by apply Qeq_bool_iff|].
  rewrite orb_false_r in Hw. by apply Qeq_bool_iff.
Qed.

Lemma sum_rotations_at_rest w members :
  at_rest w →
  (sum_rotations w members == inject_Z (Z.of_nat (count_turned w members)))%Q.
Proof.
  intros Hw. unfold sum_rotations, count_turned.
  assert (∀ acc, (foldl (λ sum part, sum + rotation part w) acc members
                  == acc + inject_Z (Z.of_nat
                                       (length (filter (λ j, turned w j = true) members))))%Q)
    as H; [|by rewrite H, Qplus_0_l].
  induction members as [|j l IH]; intros acc; simpl.
  { by rewrite Qplus_0_r. }
  rewrite IH, (at_rest_rotation w j Hw). rewrite filter_cons.
  destruct (turned w j); simpl.
  - rewrite Nat2Z.inj_succ, <- Z.add_1_r, inject_Z_plus. ring.
  - ring.
Qed.

(** At rest the merge is a vote: the sum of the rotations is the number
    of members at the end of their turn. On such rotations the sum, the
    quotient and the test against one half come out the same in the
    floating-point numbers of the source. *)
Lemma merged_rotation_at_rest w members :
  at_rest w → members ≠ [] →
  merged_rotation w members
  = if (length members <=? 2 * count_turned w members)%nat then 1%Q else 0%Q.
Proof.
  intros Hw Hne. unfold merged_rotation.
  set (k := count_turned w members). set (n := length members).
  assert (Qle_bool (1 # 2) (sum_rotations w members / inject_Z (Z.of_nat n))
          = (n <=? 2 * k)%nat) as ->; [|done].
  assert (0 < n)%nat as Hn.
  { unfold n. destruct members; [done|simpl; lia]. }
  assert (sum_rotations w members / inject_Z (Z.of_nat n)
          == inject_Z (Z.of_nat k) / inject_Z (Z.of_nat n))%Q as Hsum.
  { by rewrite (sum_rotations_at_rest w members Hw). }
  assert (0 < inject_Z (Z.of_nat n))%Q as Hpos.
  { change 0%Q with (inject_Z 0). rewrite <- Zlt_Qlt. lia. }
  apply eq_true_iff_eq. rewrite Qle_bool_iff, Nat.leb_le, Hsum. split.
  - intros Hle.
    apply (Qmult_le_compat_r _ _ (inject_Z (Z.of_nat n))) in Hle; [|by apply Qlt_le_weak].
    unfold Qdiv in Hle. rewrite <- Qmult_assoc, (Qmult_comm (/ _)), Qmult_inv_r in Hle.
    2: { intros H0. rewrite H0 in Hpos. by apply Qlt_irrefl in Hpos. }
    rewrite Qmult_1_r in Hle. unfold Qle in Hle. simpl in Hle. lia.
  - intros Hle. apply Qle_shift_div_l; [done|].
    unfold Qle. simpl. lia.
Qed.

(** X13: [setPart] with a new gear-class part while every part stands at 0 or
    at 1: after the connections are rebuilt the part holds a connected
    set, which contains the part itself and the parts of the gear cells
    joined to its cell, and its rotation is set by a vote of the members:
    1 if at least half of them stood at 1, and 0 otherwise. Outside an
    assignment to a rotation, every member of the set ends at that
    value. *)
Theorem setPart_merges_rotation w b new p column row :
  wf_grid b → in_bounds b column row →
  parts w !! new = Some p → isGearBase (type p) = true →
  new ∉ ids_of (mjoin (_grid b)) →
  at_rest w →
  ∃ w' b' ref members,
    setPart (Some new) column row (w, b) = Ok (w', b') ∧
    field connected None w' (Some new) = Some ref ∧
    sets w' !! ref = Some members ∧ new ∈ members ∧
    (∀ j, j ∈ members ↔
          ∃ y, part_at b' y = Some j ∧ gear_at b' w y ∧
               joined b' w (Z.to_nat row, Z.to_nat column) y) ∧
    let vote :=
      if (length members <=? 2 * count_turned w members)%nat then 1%Q else 0%Q in
    (rotation new w' == vote)%Q ∧
    (_settingConnectedRotation w = None →
     ∀ j, j ∈ members → (rotation j w' == vote)%Q).
Proof.
  intros Hwf Hin Hp Hg Hfresh Hrest.
  destruct (setPart_merge_spec w b new p column row Hwf Hin Hp Hg Hfresh)
    as (w' & b' & ref & members & Hset & Hconn & Hsets & Hnew & Hmem & Hrot & Hall).
  exists w', b', ref, members. split_and!; try done.
  assert (members ≠ []) as Hne by (intros ->; by apply elem_of_nil in Hnew).
  cbn zeta. rewrite <- (merged_rotation_at_rest w members Hrest Hne). by split.
Qed.

(** The board of gears with the gears of the upper row turned, and a
    Gearbit to place between them. *)
Definition turned_world : World :=
  update_part 2%nat (Part_rotation_set 1) (update_part 0%nat (Part_rotation_set 1) edit_world).

Lemma setPart_merges_rotation_witness :
  ∃ w' b' ref members,
    setPart (Some 6%nat) 1 0 (turned_world, gear_board) = Ok (w', b') ∧
    field connected None w' (Some 6%nat) = Some ref ∧
    sets w' !! ref = Some members ∧ 6%nat ∈ members ∧
    (∀ j, j ∈ members ↔
          ∃ y, part_at b' y = Some j ∧ gear_at b' turned_world y ∧
               joined b' turned_world (Z.to_nat 0, Z.to_nat 1) y) ∧
    let vote :=
      if (length members <=? 2 * count_turned turned_world members)%nat
      then 1%Q else 0%Q in
    (rotation 6%nat w' == vote)%Q ∧
    (_settingConnectedRotation turned_world = None →
     ∀ j, j ∈ members → (rotation j w' == vote)%Q).
Proof.
  apply (setPart_merges_rotation turned_world gear_board 6%nat (newPart GEARBIT) 1 0).
  - apply (bool_decide_unpack _). vm_compute. reflexivity.
  - unfold in_bounds. simpl. lia.
  - reflexivity.
  - reflexivity.
  - apply (bool_decide_unpack _). vm_compute. reflexivity.
  - apply (bool_decide_unpack _). vm_compute. reflexivity.
Defined.

(** Two of the six gears stood at 1: the vote is lost, and all six end
    at 0. A Gearbit at one quarter of its turn, placed alone on a board
    of one cell, ends at 0 as well. *)
Definition lone_world : World :=
  update_part 1%nat (Part_rotation_set (1 # 4)) (alloc_parts [PARTLOC; GEARBIT] emptyWorld).

Definition lone_board : Board := mkBoard [[Some 0%nat]] 1 1 [] 0 64.

Example setPart_votes :
  (∃ w' b',
     setPart (Some 6%nat) 1 0 (turned_world, gear_board) = Ok (w', b') ∧
     sets w' !! 0%nat = Some [0; 6; 2; 3; 4; 5]%nat ∧
     Forall (λ j, (rotation j w' == 0)%Q) [0; 6; 2; 3; 4; 5]%nat) ∧
  (∃ w' b',
     setPart (Some 1%nat) 0 0 (lone_world, lone_board) = Ok (w', b') ∧
     sets w' !! 0%nat = Some [1%nat] ∧
     (rotation 1%nat lone_world == 1 # 4)%Q ∧ (rotation 1%nat w' == 0)%Q).
Proof.
  split.
  - eexists _, _. split_and!; [vm_compute; reflexivity|reflexivity|].
    repeat (apply Forall_cons; split; [reflexivity|]). apply Forall_nil_2.
  - eexists _, _. split_and!; [vm_compute; reflexivity|reflexivity..].
Qed.

(** *** Clearing a cell *)

(** Every part of the grid is an object that has been made. *)
Definition grid_allocated (b : Board) (w : World) : Prop :=
  ∀ i, i ∈ ids_of (mjoin (_grid b)) → (i < nextPart w)%nat.

Lemma backgroundType_even column row :
  0 ≤ column → 0 ≤ row →
  backgroundType column row = if Z.even (row + column) then PARTLOC else GEARLOC.
Proof.
  intros Hc Hr. unfold backgroundType. rewrite Z.rem_mod_nonneg by lia.
  rewrite Zmod_even. by destruct (Z.even (row + column)).
Qed.

Lemma typeIs_lookup ty w id p :
  parts w !! id = Some p → typeIs ty w (Some id) = bool_decide (type p = ty).
Proof. intros Hp. unfold typeIs, field. simpl. by rewrite Hp. Qed.

Lemma clearPart_fresh w b column row :
  wf_grid b → in_bounds b column row → grid_allocated b w →
  ∃ w' b',
    clearPart column row (w, b) = Ok (w', b') ∧
    wf_grid b' ∧ getPart b' column row = Some (nextPart w) ∧
    typeIs (backgroundType column row) w' (Some (nextPart w)) = true ∧
    (∀ c r, (c, r) ≠ (column, row) → getPart b' c r = getPart b c r) ∧
    _changeCounter b' = _changeCounter b + 1 ∧
    _columnCount b' = _columnCount b ∧ _rowCount b' = _rowCount b ∧
    balls b' = balls b ∧
    nextPart w' = S (nextPart w) ∧ grid_allocated b' w' ∧
    (∀ i p, parts w !! i = Some p → i ≠ nextPart w →
            ∃ p', parts w' !! i = Some p' ∧ keeps_core p p').
Proof.
  intros Hwf Hin Halloc. unfold clearPart, makeBackgroundPart. simpl.
  set (made := nextPart w). set (w1 := (alloc_part (backgroundType column row) w).2).
  change (alloc_part (backgroundType column row) w) with (made, w1). cbn iota.
  assert (made ∉ ids_of (mjoin (_grid b))) as Hfresh.
  { intros Hm%Halloc. unfold made in Hm. lia. }
  destruct (setPart_fresh w1 b made column row Hwf Hin Hfresh)
    as (w' & b' & Hset & Hwf' & Hget & Hothers & Hcc & Hcol & Hrow & Hballs & Hcore & Hnext
        & _ & Hids).
  assert (parts w1 !! made = Some (newPart (backgroundType column row))) as Hmade.
  { unfold w1. simpl. by rewrite lookup_insert_eq. }
  exists w', b'. split_and!; try done.
  - destruct (parts_related_lookup _ _ _ _ _ Hcore Hmade) as (p' & Hp' & Hty & _).
    rewrite (typeIs_lookup _ _ _ _ Hp'), Hty. by apply bool_decide_eq_true_2.
  - intros i Hi. rewrite Hnext. unfold w1. simpl. fold made.
    apply Hids in Hi as [->|[Hi _]]; [lia|]. apply Halloc in Hi. lia.
  - intros i p Hp Hne.
    assert (parts w1 !! i = Some p) as Hp1.
    { unfold w1. simpl. by rewrite lookup_insert_ne. }
    destruct (parts_related_lookup _ _ _ _ _ Hcore Hp1) as (p' & Hp' & Hk). eauto.
Qed.

(** X14: [clearPart] at a cell of the board puts a newly made background part
    there, a PartLocation where row plus column is even and a GearLocation
    where it is odd, and leaves the other cells; outside the board it makes
    the part and changes nothing else. *)
Theorem clearPart_puts_background w b column row :
  (¬ in_bounds b column row →
   clearPart column row (w, b) = Ok ((makeBackgroundPart column row w).2, b)) ∧
  (wf_grid b → in_bounds b column row → grid_allocated b w →
   ∃ w' b',
     clearPart column row (w, b) = Ok (w', b') ∧
     wf_grid b' ∧ getPart b' column row = Some (nextPart w) ∧
     typeIs (if Z.even (row + column) then PARTLOC else GEARLOC) w' (Some (nextPart w))
     = true ∧
     (∀ c r, (c, r) ≠ (column, row) → getPart b' c r = getPart b c r) ∧
     _changeCounter b' = _changeCounter b + 1 ∧
     nextPart w' = S (nextPart w) ∧ grid_allocated b' w').
Proof.
  split.
  - intros Hout%out_of_bounds_true. unfold clearPart. cbn [fst snd].
    generalize (makeBackgroundPart column row w). intros [part w1].
    unfold setPart. cbn [fst snd]. by rewrite Hout.
  - intros Hwf Hin Halloc.
    destruct (clearPart_fresh w b column row Hwf Hin Halloc)
      as (w' & b' & H1 & H2 & H3 & H4 & H5 & H6 & _ & _ & _ & H7 & H8 & _).
    exists w', b'. split_and!; try done.
    rewrite <- backgroundType_even; [done|destruct Hin; lia..].
Qed.

Lemma clearPart_puts_background_witness :
  ∃ w' b',
    clearPart 1 0 (gear_world, gear_board) = Ok (w', b') ∧
    wf_grid b' ∧ getPart b' 1 0 = Some (nextPart gear_world) ∧
    typeIs (if Z.even (0 + 1) then PARTLOC else GEARLOC) w' (Some (nextPart gear_world))
    = true ∧
    (∀ c r, (c, r) ≠ (1, 0) → getPart b' c r = getPart gear_board c r) ∧
    _changeCounter b' = _changeCounter gear_board + 1 ∧
    nextPart w' = S (nextPart gear_world) ∧ grid_allocated b' w'.
Proof.
  destruct (clearPart_puts_background gear_world gear_board 1 0) as [_ H].
  apply H.
  - apply (bool_decide_unpack _). vm_compute. reflexivity.
  - unfold in_bounds. simpl. lia.
  - intros i Hi. assert (i ∈ [0; 1; 2; 3; 4; 5]%nat) as Hi' by exact Hi.
    change (nextPart gear_world) with 6%nat.
    repeat (apply elem_of_cons in Hi' as [->|Hi']; [lia|]). by apply elem_of_nil in Hi'.
Defined.

(** *** Resizing the grid *)

(** The part [id] is a background part laid out at ([column], [row]). *)
Definition background_at (w : World) (column row : Z) (id : PartId) : Prop :=
  ∃ p, parts w !! id = Some p ∧ type p = backgroundType column row ∧
       (_column p == inject_Z column)%Q ∧ (_row p == inject_Z row)%Q.

(** Nothing made before is written to, and nothing but parts is made. *)
Definition only_made (w w' : World) : Prop :=
  (nextPart w ≤ nextPart w')%nat ∧
  (∀ i, (i < nextPart w)%nat → parts w' !! i = parts w !! i) ∧
  sets w' = sets w ∧ animations w' = animations w ∧
  _settingConnectedRotation w' = _settingConnectedRotation w ∧
  nextSet w' = nextSet w.

Lemma only_made_refl w : only_made w w.
Proof. by split_and!. Qed.

Lemma only_made_trans w1 w2 w3 : only_made w1 w2 → only_made w2 w3 → only_made w1 w3.
Proof.
  intros (H1 & H2 & H3 & H4 & H5 & H6) (H1' & H2' & H3' & H4' & H5' & H6').
  split_and!; try congruence; [lia|].
  intros i Hi. rewrite H2' by lia. by apply H2.
Qed.

Lemma background_at_made w w' column row id :
  only_made w w' → (id < nextPart w)%nat →
  background_at w column row id → background_at w' column row id.
Proof.
  intros (_ & Hparts & _) Hid (p & Hp & H). exists p. by rewrite Hparts.
Qed.

(** One background part made and laid out, as in the loops of [setSize]. *)
Lemma make_background column row w :
  let '(p, w1) := makeBackgroundPart column row w in
  let w2 := layoutPart (Some p) (inject_Z column) (inject_Z row) w1 in
  p = nextPart w ∧ nextPart w2 = S (nextPart w) ∧ only_made w w2 ∧
  background_at w2 column row p.
Proof.
  unfold makeBackgroundPart, alloc_part, layoutPart. simpl.
  set (m := nextPart w). set (ty := backgroundType column row).
  set (w1 := mkWorld _ _ _ _ _ _).
  set (w2 := update_part m (Part_row_set (inject_Z row))
               (update_part m (Part_column_set (inject_Z column)) w1)).
  assert (parts w1 !! m = Some (newPart ty)) as H1.
  { unfold w1. simpl. by rewrite lookup_insert_eq. }
  split_and!; [done| | |].
  - unfold w2. by rewrite !update_part_nextPart.
  - unfold only_made, w2.
    rewrite !update_part_nextPart, !update_part_sets, !update_part_animations,
      !update_part_setting, !update_part_nextSet.
    split_and!; try done; [simpl; lia|].
    intros i Hi. rewrite !update_part_lookup, !decide_False by (unfold m; lia).
    unfold w1. simpl. rewrite lookup_insert_ne; [done|]. unfold m. lia.
  - exists (Part_row_set (inject_Z row) (Part_column_set (inject_Z column) (newPart ty))).
    split_and!.
    + unfold w2. by rewrite !update_part_lookup, !decide_True, H1.
    + unfold Part_row_set, Part_column_set. by repeat case_match.
    + unfold Part_row_set, Part_column_set.
      destruct (Qeq_bool (inject_Z column) _) eqn:Hc; simpl;
        destruct (Qeq_bool (inject_Z row) _) eqn:Hr; simpl;
        try apply Qeq_bool_iff in Hc; simpl in *; by try symmetry.
    + unfold Part_row_set, Part_column_set.
      destruct (Qeq_bool (inject_Z column) _) eqn:Hc; simpl;
        destruct (Qeq_bool (inject_Z row) _) eqn:Hr; simpl;
        try apply Qeq_bool_iff in Hr; simpl in *; by try symmetry.
Qed.

Lemma extend_row_spec r n : ∀ c cells w,
  ∃ w', extend_row r c n cells w = (cells ++ (Some <$> seq (nextPart w) n), w') ∧
        nextPart w' = (nextPart w + n)%nat ∧ only_made w w' ∧
        ∀ k, (k < n)%nat → background_at w' (c + Z.of_nat k) r (nextPart w + k)%nat.
Proof.
  induction n as [|n IH]; intros c cells w.
  { exists w. simpl. rewrite app_nil_r. split_and!; [done|lia|apply only_made_refl|lia]. }
  cbn [extend_row].
  pose proof (make_background c r w) as Hmake.
  destruct (makeBackgroundPart c r w) as [p w1]. cbn zeta in Hmake.
  set (w2 := layoutPart (Some p) (inject_Z c) (inject_Z r) w1) in *.
  destruct Hmake as (-> & Hnext2 & Hmade2 & Hback).
  destruct (IH (c + 1) (cells ++ [Some (nextPart w)]) w2) as (w' & -> & Hnext & Hmade & Hcells).
  exists w'. split_and!.
  - rewrite <- app_assoc. simpl. by rewrite Hnext2.
  - lia.
  - by eapply only_made_trans.
  - intros k Hk. destruct k as [|k].
    + replace (c + Z.of_nat 0) with c by lia. replace (nextPart w + 0)%nat with (nextPart w) by lia.
      apply (background_at_made w2 w'); [done|lia|done].
    + replace (c + Z.of_nat (S k)) with (c + 1 + Z.of_nat k) by lia.
      replace (nextPart w + S k)%nat with (nextPart w2 + k)%nat by lia.
      apply Hcells. lia.
Qed.

Lemma cell_cons_0 (row : list (option PartId)) rows j :
  cell (row :: rows) 0 j = default None (row !! j).
Proof. unfold cell. simpl. by destruct (row !! j). Qed.

Lemma cell_cons_S (row : list (option PartId)) rows k j :
  cell (row :: rows) (S k) j = cell rows k j.
Proof. done. Qed.

Lemma lookup_fresh_cells (cells : list (option PartId)) m n j :
  (length cells ≤ j < length cells + n)%nat →
  (cells ++ (Some <$> seq m n)) !! j = Some (Some (m + (j - length cells))%nat).
Proof.
  intros Hj. unfold PartId in *. rewrite lookup_app_r; [|lia]. rewrite list_lookup_fmap.
  rewrite lookup_seq_lt; [done|lia].
Qed.

(** The loop of [setSize] that widens every row by [n] cells. *)
Lemma extend_rows_spec c n C : ∀ rows r w,
  Forall (λ row : list (option PartId), length row = C) rows →
  ∃ rows' w',
    extend_rows r c n rows w = (rows', w') ∧
    length rows' = length rows ∧
    Forall (λ row : list (option PartId), length row = (C + n)%nat) rows' ∧
    nextPart w' = (nextPart w + length rows * n)%nat ∧ only_made w w' ∧
    ∀ k j, (k < length rows)%nat →
      ((j < C)%nat → cell rows' k j = cell rows k j) ∧
      ((C ≤ j < C + n)%nat →
       cell rows' k j = Some (nextPart w + k * n + (j - C))%nat ∧
       background_at w' (c + Z.of_nat (j - C)) (r + Z.of_nat k)
         (nextPart w + k * n + (j - C))%nat).
Proof.
  induction rows as [|row rows IH]; intros r w Hall.
  { exists [], w. simpl. split_and!; [done..|lia|apply only_made_refl|]. intros k j Hk. lia. }
  apply Forall_cons in Hall as [Hrow Hall]. cbn [extend_rows].
  destruct (extend_row_spec r n c row w) as (w1 & -> & Hnext1 & Hmade1 & Hback1).
  destruct (IH (r + 1) w1 Hall) as (rows' & w' & -> & Hlen & Hall' & Hnext & Hmade & Hcells).
  eexists _, w'. split; [done|]. split_and!.
  - simpl. by rewrite Hlen.
  - apply Forall_cons. split; [|done]. rewrite length_app, length_fmap, length_seq. lia.
  - simpl. lia.
  - by eapply only_made_trans.
  - intros k j Hk. destruct k as [|k].
    + rewrite !cell_cons_0. split.
      * intros Hj. by rewrite lookup_app_l by lia.
      * intros Hj. rewrite lookup_fresh_cells by lia. simpl. rewrite Hrow.
        replace (nextPart w + 0 + (j - C))%nat with (nextPart w + (j - C))%nat by lia.
        split; [done|]. replace (r + Z.of_nat 0) with r by lia.
        apply (background_at_made w1 w'); [done|lia|]. apply Hback1. lia.
    + rewrite !cell_cons_S. simpl in Hk.
      destruct (Hcells k j) as [Hold Hnew]; [lia|]. split; [done|].
      intros Hj. destruct (Hnew Hj) as [Hc Hb].
      replace (nextPart w + S k * n + (j - C))%nat with (nextPart w1 + k * n + (j - C))%nat
        by lia.
      replace (r + Z.of_nat (S k)) with (r + 1 + Z.of_nat k) by lia. done.
Qed.

(** The loop of [setSize] that appends [n] rows of [C] cells. *)
Lemma append_rows_spec C n : ∀ r grid w,
  ∃ rows w',
    append_rows r n C grid w = (grid ++ rows, w') ∧
    length rows = n ∧
    Forall (λ row : list (option PartId), length row = C) rows ∧
    nextPart w' = (nextPart w + n * C)%nat ∧ only_made w w' ∧
    ∀ k j, (k < n)%nat → (j < C)%nat →
      cell rows k j = Some (nextPart w + k * C + j)%nat ∧
      background_at w' (Z.of_nat j) (r + Z.of_nat k) (nextPart w + k * C + j)%nat.
Proof.
  induction n as [|n IH]; intros r grid w.
  { exists [], w. simpl. rewrite app_nil_r.
    split_and!; [done..|lia|apply only_made_refl|]. intros k j Hk. lia. }
  cbn [append_rows].
  destruct (extend_row_spec r C 0 [] w) as (w1 & -> & Hnext1 & Hmade1 & Hback1).
  set (row0 := [] ++ (Some <$> seq (nextPart w) C)).
  destruct (IH (r + 1) (grid ++ [row0]) w1)
    as (rows & w' & Happ & Hlen & Hall & Hnext & Hmade & Hcells).
  exists (row0 :: rows), w'. split_and!.
  - rewrite <- app_assoc in Happ. exact Happ.
  - simpl. by rewrite Hlen.
  - apply Forall_cons. split; [|done]. unfold row0. simpl.
    by rewrite length_fmap, length_seq.
  - simpl. lia.
  - by eapply only_made_trans.
  - intros k j Hk Hj. destruct k as [|k].
    + rewrite cell_cons_0. unfold row0.
      rewrite lookup_fresh_cells by (simpl; lia). simpl.
      replace (nextPart w + 0 + j)%nat with (nextPart w + j)%nat by lia.
      replace (nextPart w + (j - 0))%nat with (nextPart w + j)%nat by lia.
      split; [done|]. replace (r + Z.of_nat 0) with r by lia.
      apply (background_at_made w1 w'); [done|lia|].
      replace (Z.of_nat j) with (0 + Z.of_nat j) by lia. apply Hback1. lia.
    + rewrite cell_cons_S.
      destruct (Hcells k j) as [Hc Hb]; [lia|done|].
      replace (nextPart w + S k * C + j)%nat with (nextPart w1 + k * C + j)%nat by lia.
      replace (r + Z.of_nat (S k)) with (r + 1 + Z.of_nat k) by lia. done.
Qed.

Lemma splice_take {A} (l : list A) start deleteCount :
  (length l ≤ start + deleteCount)%nat → splice start deleteCount l = take start l.
Proof. intros Hlen. unfold splice. rewrite drop_ge by done. apply app_nil_r. Qed.

Lemma take_all {A} (l : list A) n : (length l ≤ n)%nat → take n l = l.
Proof. apply take_ge. Qed.

(** [setSize] on a board without a router, with the tests on the counts
    read on the lengths of the arrays. *)
Lemma setSize_eq {Router : Type}
    (hook : Router → World * Board → Router * (World * Board)) w b C' R' :
  wf_grid b →
  let R := Z.to_nat (_rowCount b) in
  let C := Z.to_nat (_columnCount b) in
  let R0 := (R `min` R')%nat in
  let grid0 := take R0 (_grid b) in
  let step1 :=
    if (C <? C')%nat && (0 <? R0)%nat
    then extend_rows 0 (Z.of_nat C) (C' - C) grid0 w
    else if (C' <? C)%nat && (0 <? R0)%nat then (take C' <$> grid0, w)
    else (grid0, w) in
  let step2 :=
    if (R0 <? R')%nat then append_rows (Z.of_nat R0) (R' - R0) C' step1.1 step1.2
    else step1 in
  setSize hook None C' R' (w, b)
  = (None, (step2.2, mkBoard step2.1 (Z.of_nat C') (Z.of_nat R') (balls b)
                       (_changeCounter b) (_partSize b))).
Proof.
  intros (Hr & Hc & Hlen & Hcols & _) R C R0 grid0 step1 step2.
  unfold setSize.
  set (b1 := if Z.of_nat R' <? _rowCount b then _ else b).
  assert (_grid b1 = grid0 ∧ _rowCount b1 = Z.of_nat R0 ∧ _columnCount b1 = _columnCount b ∧
          balls b1 = balls b ∧ _changeCounter b1 = _changeCounter b ∧
          _partSize b1 = _partSize b) as (Hg1 & Hr1 & Hc1 & Hb1 & Hcc1 & Hps1).
  { unfold b1, grid0, R0, R. destruct (Z.ltb_spec (Z.of_nat R') (_rowCount b)) as [Hlt|Hge].
    - simpl. split_and!; try done; [|lia].
      rewrite splice_take by lia. f_equal. lia.
    - split_and!; try done; [|lia]. rewrite take_all; [done|lia]. }
  assert (Forall (λ row : list (option PartId), length row = C) grid0) as Hcols0.
  { unfold grid0. by apply Forall_take. }
  set (s1 := if (_columnCount b1 <? Z.of_nat C') && (0 <? _rowCount b1) then _ else _).
  assert (s1 = step1) as Hs1.
  { unfold s1, step1. rewrite Hc1, Hr1, Hg1.
    replace (_columnCount b <? Z.of_nat C') with (C <? C')%nat
      by (unfold C; destruct (Nat.ltb_spec (Z.to_nat (_columnCount b)) C'),
            (Z.ltb_spec (_columnCount b) (Z.of_nat C')); lia || done).
    replace (0 <? Z.of_nat R0) with (0 <? R0)%nat
      by (destruct (Nat.ltb_spec 0 R0), (Z.ltb_spec 0 (Z.of_nat R0)); lia || done).
    replace (Z.of_nat C' <? _columnCount b) with (C' <? C)%nat
      by (unfold C; destruct (Nat.ltb_spec C' (Z.to_nat (_columnCount b))),
            (Z.ltb_spec (Z.of_nat C') (_columnCount b)); lia || done).
    destruct ((C <? C')%nat && (0 <? R0)%nat) eqn:H1.
    { f_equal; unfold C; lia. }
    destruct ((C' <? C)%nat && (0 <? R0)%nat) eqn:H2; [|done].
    f_equal. apply andb_true_iff in H2 as [H2%Nat.ltb_lt _].
    apply Forall_fmap_ext. eapply Forall_impl; [exact Hcols0|].
    intros row Hrow. simpl in Hrow. apply splice_take. unfold C in *. lia. }
  rewrite Hs1. cbn zeta.
  destruct step1 as [grid1 w1] eqn:Hstep1. simpl.
  unfold step2. rewrite Hr1.
  replace (Z.of_nat R0 <? Z.of_nat R') with (R0 <? R')%nat
    by (destruct (Nat.ltb_spec R0 R'), (Z.ltb_spec (Z.of_nat R0) (Z.of_nat R')); lia || done).
  destruct (R0 <? R')%nat.
  - replace (Z.to_nat (Z.of_nat R' - Z.of_nat R0)) with (R' - R0)%nat by lia. simpl.
    destruct (append_rows _ _ _ _ _) as [grid2 w2]. simpl.
    unfold with_rowCount, with_grid, with_columnCount. simpl. by rewrite Hb1, Hcc1, Hps1.
  - simpl. unfold with_rowCount, with_grid, with_columnCount. simpl.
    by rewrite Hb1, Hcc1, Hps1.
Qed.

Lemma cell_take grid (R0 r c : nat) :
  (r < R0)%nat → cell (take R0 grid) r c = cell grid r c.
Proof. intros Hr. unfold cell. by rewrite lookup_take_lt. Qed.

Lemma cell_take_columns (grid : list (list (option PartId))) (C' r c : nat) :
  (c < C')%nat → cell (take C' <$> grid) r c = cell grid r c.
Proof.
  intros Hc. unfold cell. rewrite list_lookup_fmap.
  destruct (grid !! r) as [row|]; [|done]. simpl. by rewrite lookup_take_lt.
Qed.

Lemma cell_app_l (grid rows : list (list (option PartId))) r c :
  (r < length grid)%nat → cell (grid ++ rows) r c = cell grid r c.
Proof. intros Hr. unfold cell. by rewrite lookup_app_l. Qed.

Lemma cell_app_r (grid rows : list (list (option PartId))) r c :
  (length grid ≤ r)%nat → cell (grid ++ rows) r c = cell rows (r - length grid) c.
Proof. intros Hr. unfold cell. by rewrite lookup_app_r. Qed.

(** The identity of the part made for a new cell. *)
Definition made_id (N C C' R0 N1 r c : nat) : nat :=
  if (r <? R0)%nat then (N + r * (C' - C) + (c - C))%nat
  else (N1 + (r - R0) * C' + c)%nat.

(** The grid after [setSize], cell by cell. *)
Lemma setSize_cells {Router : Type}
    (hook : Router → World * Board → Router * (World * Board)) w b C' R' :
  wf_grid b →
  let R := Z.to_nat (_rowCount b) in
  let C := Z.to_nat (_columnCount b) in
  let R0 := (R `min` R')%nat in
  ∃ w' grid' N1,
    setSize hook None C' R' (w, b)
    = (None, (w', mkBoard grid' (Z.of_nat C') (Z.of_nat R') (balls b)
                    (_changeCounter b) (_partSize b))) ∧
    length grid' = R' ∧
    Forall (λ row : list (option PartId), length row = C') grid' ∧
    only_made w w' ∧
    (nextPart w ≤ N1 ≤ nextPart w')%nat ∧
    (((C < C')%nat ∧ (0 < R0)%nat) → N1 = (nextPart w + R0 * (C' - C))%nat) ∧
    ((R0 < R')%nat → nextPart w' = (N1 + (R' - R0) * C')%nat) ∧
    ∀ r c, (r < R')%nat → (c < C')%nat →
      if decide ((r < R)%nat ∧ (c < C)%nat) then cell grid' r c = cell (_grid b) r c
      else cell grid' r c = Some (made_id (nextPart w) C C' R0 N1 r c) ∧
           background_at w' (Z.of_nat c) (Z.of_nat r) (made_id (nextPart w) C C' R0 N1 r c).
Proof.
  intros Hwf R C R0. rewrite (setSize_eq hook w b C' R' Hwf). cbn zeta. fold R C R0.
  destruct Hwf as (Hr & Hc & Hlen & Hcols & _).
  set (grid0 := take R0 (_grid b)).
  assert (length grid0 = R0) as Hlen0.
  { unfold grid0. rewrite length_take. unfold R0, R. lia. }
  assert (Forall (λ row : list (option PartId), length row = C) grid0) as Hcols0.
  { unfold grid0. by apply Forall_take. }
  set (step1 := if (C <? C')%nat && (0 <? R0)%nat then _ else _).
  set (N := nextPart w).
  (* the columns *)
  assert (∃ grid1 w1,
            step1 = (grid1, w1) ∧ length grid1 = R0 ∧
            Forall (λ row : list (option PartId), length row = C') grid1 ∧
            only_made w w1 ∧
            (((C < C')%nat ∧ (0 < R0)%nat) → nextPart w1 = (N + R0 * (C' - C))%nat) ∧
            ∀ k j, (k < R0)%nat → (j < C')%nat →
              ((j < C)%nat → cell grid1 k j = cell (_grid b) k j) ∧
              ((C ≤ j)%nat →
               cell grid1 k j = Some (N + k * (C' - C) + (j - C))%nat ∧
               background_at w1 (Z.of_nat j) (Z.of_nat k) (N + k * (C' - C) + (j - C))%nat))
    as (grid1 & w1 & -> & Hlen1 & Hcols1 & Hmade1 & Hnext1 & Hcells1).
  { unfold step1.
    destruct ((C <? C')%nat && (0 <? R0)%nat) eqn:Hexp.
    - apply andb_true_iff in Hexp as [HC%Nat.ltb_lt HR0%Nat.ltb_lt].
      destruct (extend_rows_spec (Z.of_nat C) (C' - C) C grid0 0 w Hcols0)
        as (rows' & w1 & -> & Hl & Hall & Hnext & Hmade & Hcells).
      exists rows', w1. split_and!; [done|congruence| |done| |].
      + eapply Forall_impl; [exact Hall|]. intros row Hrow. simpl in *. lia.
      + intros _. rewrite Hnext, Hlen0. done.
      + intros k j Hk Hj. destruct (Hcells k j) as [Hold Hnew]; [lia|]. split.
        * intros HjC. rewrite Hold by done. by apply cell_take.
        * intros HjC. destruct Hnew as [Hcell Hback]; [lia|]. split; [done|].
          replace (Z.of_nat j) with (Z.of_nat C + Z.of_nat (j - C)) by lia.
          replace (Z.of_nat k) with (0 + Z.of_nat k) by lia. done.
    - destruct ((C' <? C)%nat && (0 <? R0)%nat) eqn:Hcon.
      + apply andb_true_iff in Hcon as [HC%Nat.ltb_lt HR0%Nat.ltb_lt].
        exists (take C' <$> grid0), w. split_and!; [done| | |apply only_made_refl| |].
        * by rewrite length_fmap.
        * apply Forall_fmap. eapply Forall_impl; [exact Hcols0|].
          intros row Hrow. simpl in *. rewrite length_take. lia.
        * intros [? _]. lia.
        * intros k j Hk Hj. split; [|lia]. intros _.
          rewrite cell_take_columns by done. by apply cell_take.
      + exists grid0, w.
        assert (R0 = 0%nat ∨ C = C') as Hcase.
        { apply andb_false_iff in Hexp, Hcon.
          rewrite !Nat.ltb_ge in Hexp, Hcon. lia. }
        split_and!; [done|done| |apply only_made_refl| |].
        * destruct Hcase as [H0| <-]; [|done].
          rewrite H0 in Hlen0. apply nil_length_inv in Hlen0. rewrite Hlen0. constructor.
        * intros [? ?]. apply andb_false_iff in Hexp. rewrite !Nat.ltb_ge in Hexp. lia.
        * intros k j Hk Hj. split; [|lia]. intros _. by apply cell_take. }
  (* the rows *)
  cbn [fst snd].
  destruct (Nat.ltb_spec R0 R') as [Hlt|Hge].
  - destruct (append_rows_spec C' (R' - R0) (Z.of_nat R0) grid1 w1)
      as (rows & w2 & -> & Hl & Hall & Hnext & Hmade & Hcells).
    exists w2, (grid1 ++ rows), (nextPart w1). cbn [fst snd]. split_and!.
    + done.
    + rewrite length_app. lia.
    + by apply Forall_app.
    + by eapply only_made_trans.
    + destruct Hmade1 as [? _]. unfold N in *. lia.
    + destruct Hmade as [? _]. lia.
    + exact Hnext1.
    + intros _. exact Hnext.
    + intros r c Hr' Hc'. unfold made_id.
      destruct (Nat.ltb_spec r R0) as [Hr0|Hr0].
      * rewrite cell_app_l by lia. destruct (Hcells1 r c Hr0 Hc') as [Hold Hnew].
        destruct (decide _) as [[? ?]|Hn]; [by apply Hold|].
        assert (C ≤ c)%nat as HcC by (unfold R0 in *; lia).
        destruct (Hnew HcC) as [Hcell Hback]. split; [done|].
        apply (background_at_made w1 w2); [done| |done].
        destruct Hback as (p & Hp & _). destruct Hmade1 as (_ & _ & _).
        destruct (decide (N + r * (C' - C) + (c - C) < nextPart w1)%nat); [done|].
        exfalso. rewrite Hnext1 in n by (unfold R0 in *; lia).
        apply n. unfold R0 in *.
        assert (r * (C' - C) + (C' - C) ≤ (R `min` R') * (C' - C))%nat; [|lia].
        replace (r * (C' - C) + (C' - C))%nat with (S r * (C' - C))%nat by lia.
        apply Nat.mul_le_mono_r. lia.
      * rewrite cell_app_r by lia. rewrite Hlen1.
        destruct (Hcells (r - R0)%nat c) as [Hcell Hback]; [lia|done|].
        rewrite decide_False by (unfold R0 in *; lia).
        split; [done|]. replace (Z.of_nat r) with (Z.of_nat R0 + Z.of_nat (r - R0)) by lia.
        done.
  - exists w1, grid1, (nextPart w1). cbn [fst snd].
    assert (R0 = R') as HR0 by (unfold R0 in *; lia).
    split_and!; [done|congruence|done|done| |done|done|lia|].
    + destruct Hmade1 as [? _]. unfold N in *. lia.
    + intros r c Hr' Hc'. unfold made_id.
      destruct (Nat.ltb_spec r R0) as [Hr0|Hr0]; [|lia].
      destruct (Hcells1 r c Hr0 Hc') as [Hold Hnew].
      destruct (decide _) as [[? ?]|Hn]; [by apply Hold|].
      assert (C ≤ c)%nat as HcC by (unfold R0 in *; lia).
      by apply Hnew.
Qed.

Lemma NoDup_ids_row (cells : list (option PartId)) :
  (∀ c c' i, cells !! c = Some (Some i) → cells !! c' = Some (Some i) → c = c') →
  NoDup (ids_of cells).
Proof.
  induction cells as [|x cells IH]; intros Hinj; [constructor|].
  assert (NoDup (ids_of cells)) as Hnd.
  { apply IH. intros c c' i H H'. by injection (Hinj (S c) (S c') i H H'). }
  destruct x as [i|]; [|done]. change (NoDup (i :: ids_of cells)).
  constructor; [|done]. intros Hin%elem_of_ids_of.
  apply list_elem_of_lookup in Hin as [c Hc].
  by specialize (Hinj 0%nat (S c) i eq_refl Hc).
Qed.

Lemma elem_of_cell grid i :
  i ∈ ids_of (mjoin grid) → ∃ r c, cell grid r c = Some i.
Proof.
  intros Hin%elem_of_ids_of. apply list_elem_of_join in Hin as (cells & Hin & Hrow).
  apply list_elem_of_lookup in Hrow as [r Hr]. apply list_elem_of_lookup in Hin as [c Hc].
  exists r, c. unfold cell. by rewrite Hr, Hc.
Qed.

(** A grid in which no part is read at two cells lists no part twice. *)
Lemma NoDup_cells grid :
  (∀ r c r' c' i, cell grid r c = Some i → cell grid r' c' = Some i → r = r' ∧ c = c') →
  NoDup (ids_of (mjoin grid)).
Proof.
  induction grid as [|cells grid IH]; intros Hinj; [constructor|].
  simpl. rewrite ids_of_app. apply NoDup_app. split_and!.
  - apply NoDup_ids_row. intros c c' i Hc Hc'.
    apply (Hinj 0%nat c 0%nat c' i); unfold cell; simpl; by rewrite ?Hc, ?Hc'.
  - intros i Hin%elem_of_ids_of Hin'. apply list_elem_of_lookup in Hin as [c Hc].
    apply elem_of_cell in Hin' as (r' & c' & Hcell).
    assert (0%nat = S r' ∧ c = c') as [? _]; [|done].
    apply (Hinj 0%nat c (S r') c' i); [|done]. unfold cell. simpl. by rewrite Hc.
  - apply IH. intros r c r' c' i H H'.
    destruct (Hinj (S r) c (S r') c' i H H') as [? ?]. split; [lia|done].
Qed.

Lemma cell_Some_bounds grid R C r c i :
  length grid = R → Forall (λ row : list (option PartId), length row = C) grid →
  cell grid r c = Some i → (r < R)%nat ∧ (c < C)%nat.
Proof.
  intros Hlen Hcols (cells & Hr & Hc)%cell_Some. split.
  - apply lookup_lt_Some in Hr. lia.
  - apply lookup_lt_Some in Hc.
    rewrite Forall_forall in Hcols. rewrite <- (Hcols cells); [done|].
    by eapply list_elem_of_lookup_2.
Qed.

(** The parts made for new cells are numbered row by row: first the new
    columns of the rows kept, then the new rows. *)
Lemma made_id_range N C C' R R' N1 r c :
  let R0 := (R `min` R')%nat in
  (r < R')%nat → (c < C')%nat → ¬ ((r < R)%nat ∧ (c < C)%nat) →
  (((C < C')%nat ∧ (0 < R0)%nat) → N1 = (N + R0 * (C' - C))%nat) →
  (N ≤ N1)%nat →
  (N ≤ made_id N C C' R0 N1 r c < N1 + (R' - R0) * C')%nat ∧
  ((r < R0)%nat → (made_id N C C' R0 N1 r c < N1)%nat) ∧
  ((R0 ≤ r)%nat → (N1 ≤ made_id N C C' R0 N1 r c)%nat).
Proof.
  intros R0 Hr Hc Hnew HN1 HN. unfold made_id.
  destruct (Nat.ltb_spec r R0) as [Hr0|Hr0].
  - assert (C ≤ c)%nat as HcC by (unfold R0 in *; lia).
    rewrite HN1 by lia.
    assert (r * (C' - C) + (C' - C) ≤ R0 * (C' - C))%nat.
    { replace (r * (C' - C) + (C' - C))%nat with (S r * (C' - C))%nat by lia.
      apply Nat.mul_le_mono_r. lia. }
    assert (c - C < C' - C)%nat by lia.
    set (x := (r * (C' - C))%nat) in *. set (y := (R0 * (C' - C))%nat) in *.
    set (z := ((R' - R0) * C')%nat). clearbody x y z. lia.
  - assert ((r - R0) * C' + C' ≤ (R' - R0) * C')%nat.
    { replace ((r - R0) * C' + C')%nat with (S (r - R0) * C')%nat by lia.
      apply Nat.mul_le_mono_r. lia. }
    set (x := ((r - R0) * C')%nat) in *. set (z := ((R' - R0) * C')%nat) in *.
    clearbody x z. lia.
Qed.

Lemma made_id_inj N C C' R R' N1 r c r' c' :
  let R0 := (R `min` R')%nat in
  (r < R')%nat → (c < C')%nat → ¬ ((r < R)%nat ∧ (c < C)%nat) →
  (r' < R')%nat → (c' < C')%nat → ¬ ((r' < R)%nat ∧ (c' < C)%nat) →
  (((C < C')%nat ∧ (0 < R0)%nat) → N1 = (N + R0 * (C' - C))%nat) →
  (N ≤ N1)%nat →
  made_id N C C' R0 N1 r c = made_id N C C' R0 N1 r' c' → r = r' ∧ c = c'.
Proof.
  intros R0 Hr Hc Hnew Hr' Hc' Hnew' HN1 HN Heq.
  pose proof (made_id_range N C C' R R' N1 r c Hr Hc Hnew HN1 HN) as (_ & Hlow & Hhigh).
  pose proof (made_id_range N C C' R R' N1 r' c' Hr' Hc' Hnew' HN1 HN) as (_ & Hlow' & Hhigh').
  fold R0 in Hlow, Hhigh, Hlow', Hhigh'. rewrite <- Heq in Hlow', Hhigh'.
  unfold made_id in *.
  destruct (Nat.ltb_spec r R0) as [Hr0|Hr0], (Nat.ltb_spec r' R0) as [Hr0'|Hr0'];
    try (specialize (Hlow ltac:(done)));
    try (specialize (Hhigh ltac:(done)));
    try (specialize (Hlow' ltac:(done)));
    try (specialize (Hhigh' ltac:(done))); try lia.
  - assert (C ≤ c)%nat by (unfold R0 in *; lia).
    assert (C ≤ c')%nat by (unfold R0 in *; lia).
    destruct (Nat.div_mod_unique (C' - C) r r' (c - C) (c' - C)) as [? ?]; lia.
  - destruct (Nat.div_mod_unique C' (r - R0) (r' - R0) c c') as [? ?]; lia.
Qed.

Lemma setSize_router {Router : Type}
    (hook : Router → World * Board → Router * (World * Board)) rt C' R' st :
  setSize hook (Some rt) C' R' st
  = let '(rt', st') := hook rt (setSize hook None C' R' st).2 in (Some rt', st').
Proof.
  unfold setSize. destruct st as [w b].
  repeat (match goal with
          | |- context [let '(x, y) := ?e in _] =>
              lazymatch e with
              | hook _ _ => fail
              | _ => destruct e
              end
          end; simpl).
  done.
Qed.

(** The grid after [setSize], and what became of the parts. *)
Lemma setSize_sized {Router : Type}
    (hook : Router → World * Board → Router * (World * Board)) w b C' R' :
  wf_grid b → grid_allocated b w →
  ∃ w' b',
    setSize hook None C' R' (w, b) = (None, (w', b')) ∧
    (∀ rt, setSize hook (Some rt) C' R' (w, b)
           = let '(rt', st') := hook rt (w', b') in (Some rt', st')) ∧
    wf_grid b' ∧ grid_allocated b' w' ∧
    _columnCount b' = Z.of_nat C' ∧ _rowCount b' = Z.of_nat R' ∧
    balls b' = balls b ∧ _changeCounter b' = _changeCounter b ∧
    only_made w w' ∧
    ∀ r c, (r < R')%nat → (c < C')%nat →
      if decide ((r < Z.to_nat (_rowCount b))%nat ∧ (c < Z.to_nat (_columnCount b))%nat)
      then cell (_grid b') r c = cell (_grid b) r c
      else ∃ id, cell (_grid b') r c = Some id ∧ (nextPart w ≤ id < nextPart w')%nat ∧
                 background_at w' (Z.of_nat c) (Z.of_nat r) id.
Proof.
  intros Hwf Halloc.
  destruct (setSize_cells hook w b C' R' Hwf)
    as (w' & grid' & N1 & Heq & Hlen & Hcols & Hmade & HN & HN1 & Hnext & Hcells).
  set (R := Z.to_nat (_rowCount b)) in *. set (C := Z.to_nat (_columnCount b)) in *.
  set (R0 := (R `min` R')%nat) in *. set (N := nextPart w) in *.
  assert (∀ r c, (r < R')%nat → (c < C')%nat → ¬ ((r < R)%nat ∧ (c < C)%nat) →
            (N ≤ made_id N C C' R0 N1 r c < nextPart w')%nat) as Hrange.
  { intros r c Hr Hc Hnew.
    destruct (made_id_range N C C' R R' N1 r c Hr Hc Hnew HN1 (proj1 HN)) as (Hb & Hlow & _).
    fold R0 in Hb, Hlow.
    destruct (Nat.ltb_spec r R0); [specialize (Hlow ltac:(done)); lia|].
    rewrite Hnext by lia. done. }
  assert (∀ r c i, cell grid' r c = Some i →
            (r < R')%nat ∧ (c < C')%nat ∧
            if decide ((r < R)%nat ∧ (c < C)%nat) then cell (_grid b) r c = Some i
            else i = made_id N C C' R0 N1 r c) as Hread.
  { intros r c i Hcell.
    destruct (cell_Some_bounds grid' R' C' r c i Hlen Hcols Hcell) as [Hr Hc].
    split_and!; [done|done|]. specialize (Hcells r c Hr Hc).
    destruct (decide _); [congruence|]. destruct Hcells as [Hc' _]. congruence. }
  exists w', (mkBoard grid' (Z.of_nat C') (Z.of_nat R') (balls b) (_changeCounter b)
               (_partSize b)).
  split_and!; try done.
  - intros rt. rewrite setSize_router, Heq. done.
  - unfold wf_grid. simpl. split_and!; [lia|lia|lia| |].
    + eapply Forall_impl; [exact Hcols|]. intros row Hrow. simpl in *. lia.
    + apply NoDup_cells. intros r c r' c' i H H'.
      destruct (Hread r c i H) as (Hr & Hc & Hi), (Hread r' c' i H') as (Hr' & Hc' & Hi').
      destruct (decide ((r < R)%nat ∧ _)) as [Hold|Hnew],
               (decide ((r' < R)%nat ∧ _)) as [Hold'|Hnew'].
      * destruct Hwf as (_ & _ & _ & _ & Hnd). by eapply cell_inj.
      * apply cell_elem_of, Halloc in Hi. pose proof (Hrange r' c' Hr' Hc' Hnew').
        unfold N in *. lia.
      * apply cell_elem_of, Halloc in Hi'. pose proof (Hrange r c Hr Hc Hnew).
        unfold N in *. lia.
      * apply (made_id_inj N C C' R R' N1 r c r' c'); try done; [lia|].
        fold R0. by rewrite <- Hi, <- Hi'.
  - intros i (r & c & Hcell)%elem_of_cell. simpl in Hcell.
    destruct (Hread r c i Hcell) as (Hr & Hc & Hi).
    destruct (decide _) as [Hold|Hnew].
    + apply cell_elem_of, Halloc in Hi. destruct Hmade as [? _]. lia.
    + pose proof (Hrange r c Hr Hc Hnew). lia.
  - intros r c Hr Hc. specialize (Hcells r c Hr Hc). simpl.
    destruct (decide _) as [Hold|Hnew]; [done|].
    destruct Hcells as [Hcell Hback]. pose proof (Hrange r c Hr Hc Hnew).
    eexists. split; [exact Hcell|]. split; [unfold N in *; lia|done].
Qed.

(** X15: [setSize] makes the grid the requested size without throwing: the
    cells of the overlap keep their parts, every other cell holds a
    background part made by the call, of the type of its position and laid
    out there; no part made before is written to, the balls and the change
    counter are kept, and the router, if any, is notified last. *)
Theorem setSize_resizes {Router : Type}
    (hook : Router → World * Board → Router * (World * Board)) w b C' R' :
  wf_grid b → grid_allocated b w →
  ∃ w' b',
    setSize hook None C' R' (w, b) = (None, (w', b')) ∧
    (∀ rt, setSize hook (Some rt) C' R' (w, b)
           = let '(rt', st') := hook rt (w', b') in (Some rt', st')) ∧
    wf_grid b' ∧ grid_allocated b' w' ∧
    _columnCount b' = Z.of_nat C' ∧ _rowCount b' = Z.of_nat R' ∧
    balls b' = balls b ∧ _changeCounter b' = _changeCounter b ∧
    only_made w w' ∧
    ∀ r c, (r < R')%nat → (c < C')%nat →
      if decide ((r < Z.to_nat (_rowCount b))%nat ∧ (c < Z.to_nat (_columnCount b))%nat)
      then cell (_grid b') r c = cell (_grid b) r c
      else ∃ id, cell (_grid b') r c = Some id ∧ (nextPart w ≤ id < nextPart w')%nat ∧
                 background_at w' (Z.of_nat c) (Z.of_nat r) id.
Proof. apply setSize_sized. Qed.

Lemma setSize_resizes_witness :
  ∃ w' b',
    setSize (λ (rt : unit) st, (rt, st)) None 4 1 (gear_world, gear_board) = (None, (w', b')) ∧
    (∀ rt, setSize (λ (rt : unit) st, (rt, st)) (Some rt) 4 1 (gear_world, gear_board)
           = let '(rt', st') := (rt, (w', b')) in (Some rt', st')) ∧
    wf_grid b' ∧ grid_allocated b' w' ∧
    _columnCount b' = Z.of_nat 4 ∧ _rowCount b' = Z.of_nat 1 ∧
    balls b' = balls gear_board ∧ _changeCounter b' = _changeCounter gear_board ∧
    only_made gear_world w' ∧
    ∀ r c, (r < 1)%nat → (c < 4)%nat →
      if decide ((r < Z.to_nat (_rowCount gear_board))%nat ∧
                 (c < Z.to_nat (_columnCount gear_board))%nat)
      then cell (_grid b') r c = cell (_grid gear_board) r c
      else ∃ id, cell (_grid b') r c = Some id ∧
                 (nextPart gear_world ≤ id < nextPart w')%nat ∧
                 background_at w' (Z.of_nat c) (Z.of_nat r) id.
Proof.
  apply (setSize_resizes (λ (rt : unit) st, (rt, st)) gear_world gear_board 4 1).
  - apply (bool_decide_unpack _). vm_compute. reflexivity.
  - intros i Hi. assert (i ∈ [0; 1; 2; 3; 4; 5]%nat) as Hi' by exact Hi.
    change (nextPart gear_world) with 6%nat.
    repeat (apply elem_of_cons in Hi' as [->|Hi']; [lia|]). by apply elem_of_nil in Hi'.
Defined.

(** *** Flipping a part, and a run of fences *)

Lemma getPart_in_bounds b column row j :
  getPart b column row = Some j → in_bounds b column row.
Proof.
  unfold getPart. destruct (out_of_bounds b column row) eqn:Hout; [done|].
  intros _. by apply out_of_bounds_false.
Qed.

Lemma getPart_inj b c r c' r' j :
  wf_grid b → getPart b c r = Some j → getPart b c' r' = Some j → c = c' ∧ r = r'.
Proof.
  intros Hwf H H'.
  pose proof (getPart_in_bounds _ _ _ _ H) as [? ?].
  pose proof (getPart_in_bounds _ _ _ _ H') as [? ?].
  rewrite getPart_cell in H, H' by (done || lia).
  destruct Hwf as (_ & _ & _ & _ & Hnd).
  destruct (cell_inj _ _ _ _ _ _ Hnd H H'). lia.
Qed.

(** The test of [shouldContinue] in [_flipFence]. *)
Definition continues (w : World) (wasFlipped : bool) (variant : FenceVariant)
    (part : option PartId) : bool :=
  match part with
  | Some id =>
      isFence w part && bool_decide (isFlipped w id = wasFlipped)
      && bool_decide (field _variant PREVIEW w part = variant)
  | None => false
  end.

(** Everything but the side and the change counter of a part is kept. *)
Definition keeps_but_side (p p' : Part) : Prop :=
  with_isFlipped false (with_changeCounter 0 p')
  = with_isFlipped false (with_changeCounter 0 p).

Definition side_kept (w w' : World) : Prop :=
  parts_related keeps_but_side w w' ∧
  sets w' = sets w ∧ animations w' = animations w ∧
  _settingConnectedRotation w' = _settingConnectedRotation w ∧
  nextPart w' = nextPart w ∧ nextSet w' = nextSet w.

Lemma side_kept_refl w : side_kept w w.
Proof. split_and!; [|done..]. by apply parts_related_refl. Qed.

Lemma side_kept_trans w1 w2 w3 : side_kept w1 w2 → side_kept w2 w3 → side_kept w1 w3.
Proof.
  intros (H1 & ? & ? & ? & ? & ?) (H1' & ? & ? & ? & ? & ?).
  split_and!; [|congruence..].
  eapply parts_related_trans; [|done..]. unfold keeps_but_side. congruence.
Qed.

Lemma continues_ext w w' wasFlipped variant part :
  (∀ j, part = Some j → parts w' !! j = parts w !! j) →
  continues w' wasFlipped variant part = continues w wasFlipped variant part.
Proof.
  intros H. destruct part as [j|]; [|done]. specialize (H j eq_refl).
  unfold continues, isFence, typeIs, isFlipped, field. simpl. by rewrite H.
Qed.

(** A fence flipped by [flip] changes sides, and nothing else is written. *)
Lemma flip_fence w j :
  isFence w (Some j) = true →
  isFlipped (flip j 0 w) j = negb (isFlipped w j) ∧
  (∀ i, i ≠ j → parts (flip j 0 w) !! i = parts w !! i) ∧
  side_kept w (flip j 0 w).
Proof.
  intros (p & Hp & Hty)%isFence_lookup. unfold flip. rewrite Hp, Hty. simpl.
  split_and!.
  - unfold isFlipped, field. simpl. rewrite update_part_lookup, decide_True, Hp by done.
    simpl. unfold Part_isFlipped_set. rewrite Hty. simpl.
    rewrite bool_decide_false by by destruct (_isFlipped p). done.
  - intros i Hi. by rewrite update_part_lookup, decide_False.
  - split_and!.
    + apply update_part_related; [done|]. intros q. unfold Part_isFlipped_set.
      by repeat case_match.
    + apply update_part_sets.
    + apply update_part_animations.
    + apply update_part_setting.
    + apply update_part_nextPart.
    + apply update_part_nextSet.
Qed.

(** One direction of [_flipFence]: the cells are walked while the test
    holds, and the fences walked over change sides. *)
Lemma flip_along_spec get wasFlipped variant step n : ∀ i w,
  (∀ m m' j, (m < n)%nat → (m' < n)%nat →
     get (i + Z.of_nat m * step) = Some j → get (i + Z.of_nat m' * step) = Some j → m = m') →
  ∃ k, (k ≤ n)%nat ∧
    (∀ m, (m < k)%nat → continues w wasFlipped variant (get (i + Z.of_nat m * step)) = true) ∧
    ((k < n)%nat → continues w wasFlipped variant (get (i + Z.of_nat k * step)) = false) ∧
    let w' := flip_along get wasFlipped variant step n i w in
    (∀ m j, (m < k)%nat → get (i + Z.of_nat m * step) = Some j →
            isFlipped w' j = negb wasFlipped) ∧
    (∀ j, (∀ m, (m < k)%nat → get (i + Z.of_nat m * step) ≠ Some j) →
          parts w' !! j = parts w !! j) ∧
    side_kept w w'.
Proof.
  induction n as [|n IH]; intros i w Hinj.
  { exists 0%nat. cbn zeta. simpl. split_and!; try done; try lia. apply side_kept_refl. }
  assert (continues w wasFlipped variant (get i)
          = match get i with
            | Some id => isFence w (get i) && bool_decide (isFlipped w id = wasFlipped)
                         && bool_decide (field _variant PREVIEW w (get i) = variant)
            | None => false
            end) as Hc by (unfold continues; by destruct (get i)).
  destruct (continues w wasFlipped variant (get i)) eqn:Hcont; cycle 1.
  { exists 0%nat. replace (i + Z.of_nat 0 * step) with i by lia.
    assert (flip_along get wasFlipped variant step (S n) i w = w) as ->.
    { cbn [flip_along]. destruct (get i); [|done]. by rewrite <- Hc. }
    cbn zeta. split_and!; try done; try lia. apply side_kept_refl. }
  destruct (get i) as [id|] eqn:Hget; [|done]. cbn [flip_along]. rewrite Hget, <- Hc.
  assert (isFence w (Some id) = true ∧ isFlipped w id = wasFlipped) as [Hfence Hside].
  { symmetry in Hc. apply andb_true_iff in Hc as [Hc _].
    apply andb_true_iff in Hc as [? ?%bool_decide_eq_true]. done. }
  destruct (flip_fence w id Hfence) as (Hflip & Hother & Hkept).
  set (w1 := flip id 0 w) in *.
  assert (∀ m, Z.of_nat (S m) * step = step + Z.of_nat m * step) as Hstep by (intros; lia).
  assert (∀ m, i + step + Z.of_nat m * step = i + Z.of_nat (S m) * step) as Hstep'
    by (intros; lia).
  assert (∀ m, (m < n)%nat → get (i + Z.of_nat (S m) * step) ≠ Some id) as Hne.
  { intros m Hm Heq. assert (S m = 0%nat); [|done].
    apply (Hinj (S m) 0%nat id); [lia|lia|done|].
    by replace (i + Z.of_nat 0 * step) with i by lia. }
  destruct (IH (i + step) w1) as (k & Hk & Htrue & Hfalse & Hflipped & Hrest & Hkept').
  { intros m m' j Hm Hm'. rewrite !Hstep'. intros H H'.
    assert (S m = S m'); [|lia]. apply (Hinj (S m) (S m') j); [lia|lia|done|done]. }
  cbn zeta in Hflipped, Hrest, Hkept'.
  exists (S k). cbn zeta. split_and!.
  - lia.
  - intros [|m] Hm.
    + replace (i + Z.of_nat 0 * step) with i by lia. by rewrite Hget.
    + rewrite <- Hstep', <- (Htrue m) by lia. symmetry. apply continues_ext.
      intros j Hj. apply Hother. intros ->. rewrite Hstep' in Hj. by apply (Hne m); [lia|].
  - intros Hlt. rewrite <- Hstep', <- Hfalse by lia. symmetry. apply continues_ext.
    intros j Hj. apply Hother. intros ->. rewrite Hstep' in Hj. by apply (Hne k); [lia|].
  - intros [|m] j Hm.
    + replace (i + Z.of_nat 0 * step) with i by lia. rewrite Hget. intros [= <-].
      cbn zeta in Hrest. unfold isFlipped, field in *. simpl in *.
      rewrite Hrest; [by rewrite Hflip, Hside|].
      intros m' Hm'. rewrite Hstep'. apply Hne. lia.
    + rewrite <- Hstep'. apply Hflipped. lia.
  - intros j Hj. cbn zeta in Hrest. rewrite Hrest.
    + apply Hother. intros ->. apply (Hj 0%nat); [lia|].
      by replace (i + Z.of_nat 0 * step) with i by lia.
    + intros m Hm. rewrite Hstep'. apply Hj. lia.
  - by eapply side_kept_trans.
Qed.

Lemma flip_along_shift (f : Z → option PartId) wasFlipped variant step o n : ∀ i w,
  flip_along f wasFlipped variant step n (o + i) w
  = flip_along (λ t, f (o + t)) wasFlipped variant step n i w.
Proof.
  induction n as [|n IH]; intros i w; [done|]. cbn [flip_along].
  destruct (f (o + i)) as [id|]; [|done].
  destruct (_ && _); [|done]. rewrite <- IH. f_equal. lia.
Qed.

(** The two directions of [_flipFence] after the flip of the fence itself,
    on the line [g] through its cell: [g 0] is the cell, [n1] cells are
    ahead of it and [n2] behind. *)
Lemma flip_both (g : Z → option PartId) wasFlipped variant n1 n2 id w :
  (∀ t t' j, g t = Some j → g t' = Some j → t = t') →
  g 0 = Some id → isFence w (Some id) = true → isFlipped w id = wasFlipped →
  (∀ t, Z.of_nat n1 < t → g t = None) → (∀ t, t < - Z.of_nat n2 → g t = None) →
  let w' := flip_along g wasFlipped variant (-1) n2 (-1)
              (flip_along g wasFlipped variant 1 n1 1 (flip id 0 w)) in
  let run t := ∀ m, (0 < m ≤ t ∨ t ≤ m < 0) → continues w wasFlipped variant (g m) = true in
  (∀ t j, run t → g t = Some j → isFlipped w' j = negb wasFlipped) ∧
  (∀ j, (∀ t, run t → g t ≠ Some j) → parts w' !! j = parts w !! j) ∧
  side_kept w w'.
Proof.
  intros Hinj Hid Hfence Hside Hahead Hbehind w' run.
  destruct (flip_fence w id Hfence) as (Hflip & Hother & Hkept).
  set (w1 := flip id 0 w) in *.
  destruct (flip_along_spec g wasFlipped variant 1 n1 1 w1)
    as (k1 & Hk1 & Htrue1 & Hfalse1 & Hflipped1 & Hrest1 & Hkept1).
  { intros m m' j _ _ H H'. pose proof (Hinj _ _ _ H H'). lia. }
  cbn zeta in Hflipped1, Hrest1, Hkept1.
  set (w2 := flip_along g wasFlipped variant 1 n1 1 w1) in *.
  destruct (flip_along_spec g wasFlipped variant (-1) n2 (-1) w2)
    as (k2 & Hk2 & Htrue2 & Hfalse2 & Hflipped2 & Hrest2 & Hkept2).
  { intros m m' j _ _ H H'. pose proof (Hinj _ _ _ H H'). lia. }
  cbn zeta in Hflipped2, Hrest2, Hkept2. fold w' in Hflipped2, Hrest2, Hkept2.
  (* the tests read the parts as they were at the start *)
  assert (∀ t, 0 < t → continues w1 wasFlipped variant (g t) = continues w wasFlipped variant (g t))
    as Hsame1.
  { intros t Ht. apply continues_ext. intros j Hj. apply Hother. intros ->.
    pose proof (Hinj _ _ _ Hj Hid). lia. }
  assert (∀ t, t < 0 → continues w2 wasFlipped variant (g t) = continues w wasFlipped variant (g t))
    as Hsame2.
  { intros t Ht. apply continues_ext. intros j Hj. rewrite Hrest1.
    - apply Hother. intros ->. pose proof (Hinj _ _ _ Hj Hid). lia.
    - intros m Hm Hg. pose proof (Hinj _ _ _ Hj Hg). lia. }
  (* where the walks stop *)
  assert (continues w wasFlipped variant (g (1 + Z.of_nat k1)) = false) as Hstop1.
  { destruct (decide (k1 < n1)%nat) as [Hlt|Hge].
    - rewrite <- Hsame1 by lia. replace (1 + Z.of_nat k1) with (1 + Z.of_nat k1 * 1) by lia.
      by apply Hfalse1.
    - rewrite Hahead by lia. done. }
  assert (continues w wasFlipped variant (g (-1 - Z.of_nat k2)) = false) as Hstop2.
  { destruct (decide (k2 < n2)%nat) as [Hlt|Hge].
    - rewrite <- Hsame2 by lia.
      replace (-1 - Z.of_nat k2) with (-1 + Z.of_nat k2 * -1) by lia. by apply Hfalse2.
    - rewrite Hbehind by lia. done. }
  assert (∀ t, run t → - Z.of_nat k2 ≤ t ≤ Z.of_nat k1) as Hrun.
  { intros t Ht. split.
    - destruct (decide (- Z.of_nat k2 ≤ t)) as [|Hlt]; [done|].
      rewrite Ht in Hstop2 by lia. done.
    - destruct (decide (t ≤ Z.of_nat k1)) as [|Hlt]; [done|].
      rewrite Ht in Hstop1 by lia. done. }
  assert (∀ t, - Z.of_nat k2 ≤ t ≤ Z.of_nat k1 → run t) as Hrun'.
  { intros t Ht m [Hm|Hm].
    - rewrite <- Hsame1 by lia.
      replace m with (1 + Z.of_nat (Z.to_nat (m - 1)) * 1) by lia. apply Htrue1. lia.
    - rewrite <- Hsame2 by lia.
      replace m with (-1 + Z.of_nat (Z.to_nat (- m - 1)) * -1) by lia. apply Htrue2. lia. }
  split_and!.
  - intros t j Ht%Hrun Hj.
    destruct (Z.lt_trichotomy t 0) as [Hneg|[->|Hpos]].
    + apply (Hflipped2 (Z.to_nat (- t - 1))); [lia|].
      by replace (-1 + Z.of_nat (Z.to_nat (- t - 1)) * -1) with t by lia.
    + assert (j = id) as -> by congruence.
      unfold isFlipped, field in *. simpl in *. rewrite Hrest2, Hrest1.
      * by rewrite Hflip, Hside.
      * intros m Hm Hg. pose proof (Hinj _ _ _ Hg Hid). lia.
      * intros m Hm Hg. pose proof (Hinj _ _ _ Hg Hid). lia.
    + unfold isFlipped, field. simpl. rewrite Hrest2.
      * apply (Hflipped1 (Z.to_nat (t - 1))); [lia|].
        by replace (1 + Z.of_nat (Z.to_nat (t - 1)) * 1) with t by lia.
      * intros m Hm Hg. pose proof (Hinj _ _ _ Hg Hj). lia.
  - intros j Hj. rewrite Hrest2, Hrest1.
    + apply Hother. intros ->. apply (Hj 0); [|done]. apply Hrun'. lia.
    + intros m Hm. apply Hj, Hrun'. lia.
    + intros m Hm. apply Hj, Hrun'. lia.
  - eapply side_kept_trans; [exact Hkept|]. by eapply side_kept_trans.
Qed.

(** The cell at distance [t] of (column, row) on the line that
    [_flipFence] walks for the variant. *)
Definition along (b : Board) (variant : FenceVariant) (column row t : Z) : option PartId :=
  match variant with
  | SLOPE => getPart b (column + t) row
  | SIDE => getPart b column (row + t)
  | PREVIEW => if decide (t = 0) then getPart b column row else None
  end.

(** Every cell from the next one up to distance [t] passes the test of
    [shouldContinue], read before any flip. *)
Definition in_run (b : Board) (w : World) (wasFlipped : bool) (variant : FenceVariant)
    (column row t : Z) : Prop :=
  ∀ m, 0 < m ≤ t ∨ t ≤ m < 0 →
       continues w wasFlipped variant (along b variant column row m) = true.

Lemma getPart_outside b column row :
  ¬ in_bounds b column row → getPart b column row = None.
Proof.
  intros Hout. destruct (getPart b column row) as [j|] eqn:H; [|done].
  by apply getPart_in_bounds in H.
Qed.

Lemma side_layout_spin w w1 w2 :
  side_kept w w1 → layout_kept w1 w2 → parts_related keeps_spin w w2.
Proof.
  intros [H1 _] [H2 _] i. specialize (H1 i). specialize (H2 i).
  destruct (parts w !! i) as [p|], (parts w1 !! i) as [p1|], (parts w2 !! i) as [p2|];
    try done.
  destruct (keeps_but_layout_fields _ _ H2) as (Hty & _ & Hrot & _).
  unfold keeps_but_side in H1. split.
  - rewrite Hty. by apply (f_equal type) in H1.
  - rewrite Hrot. by apply (f_equal _rotation) in H1.
Qed.

(** A fence is flipped together with its run. *)
Lemma flipFence_run w b column row id :
  getPart b column row = Some id → isFence w (Some id) = true → wf_grid b →
  let wasFlipped := isFlipped w id in
  let variant := field _variant PREVIEW w (Some id) in
  ∃ w',
    flipPart column row (w, b) = (w', b) ∧
    (∀ t j, in_run b w wasFlipped variant column row t →
            along b variant column row t = Some j → isFlipped w' j = negb wasFlipped) ∧
    (∀ j, (∀ t, in_run b w wasFlipped variant column row t →
                along b variant column row t ≠ Some j) →
          isFlipped w' j = isFlipped w j) ∧
    parts_related keeps_spin w w' ∧ nextPart w' = nextPart w ∧
    animations w' = animations w.
Proof.
  intros Hid Hfence Hwf wasFlipped variant.
  pose proof (getPart_in_bounds _ _ _ _ Hid) as [Hc Hr].
  unfold flipPart, _flipFence. cbn [fst snd]. rewrite Hid, Hfence.
  fold wasFlipped variant.
  set (g := along b variant column row).
  set (n1 := match variant with
             | SLOPE => Z.to_nat (_columnCount b - (column + 1))
             | SIDE => Z.to_nat (_rowCount b - (row + 1))
             | PREVIEW => 0%nat
             end).
  set (n2 := match variant with
             | SLOPE => Z.to_nat column
             | SIDE => Z.to_nat row
             | PREVIEW => 0%nat
             end).
  set (w2 := match variant with SLOPE => _ | SIDE => _ | PREVIEW => _ end).
  assert (w2 = flip_along g wasFlipped variant (-1) n2 (-1)
                 (flip_along g wasFlipped variant 1 n1 1 (flip id 0 w))) as Hw2.
  { unfold w2, g, n1, n2, along. destruct variant; [done| |].
    - rewrite <- (flip_along_shift (λ r, getPart b column r) _ _ _ row).
      rewrite <- (flip_along_shift (λ r, getPart b column r) _ _ _ row).
      done.
    - rewrite <- (flip_along_shift (λ c, getPart b c row) _ _ _ column).
      rewrite <- (flip_along_shift (λ c, getPart b c row) _ _ _ column).
      done. }
  destruct (flip_both g wasFlipped variant n1 n2 id w) as (Hflipped & Hrest & Hkept);
    try done.
  { intros t t' j. unfold g, along. destruct variant.
    - repeat case_decide; try done. congruence.
    - intros H H'. destruct (getPart_inj _ _ _ _ _ _ Hwf H H'). lia.
    - intros H H'. destruct (getPart_inj _ _ _ _ _ _ Hwf H H'). lia. }
  { unfold g, along. destruct variant; [by rewrite decide_True| |]; by rewrite Z.add_0_r. }
  { intros t Ht. unfold g, along, n1 in *. destruct variant.
    - rewrite decide_False; [done|lia].
    - apply getPart_outside. unfold in_bounds. lia.
    - apply getPart_outside. unfold in_bounds. lia. }
  { intros t Ht. unfold g, along, n2 in *. destruct variant.
    - rewrite decide_False; [done|lia].
    - apply getPart_outside. unfold in_bounds. lia.
    - apply getPart_outside. unfold in_bounds. lia. }
  cbn zeta in Hflipped, Hrest, Hkept. rewrite <- Hw2 in Hflipped, Hrest, Hkept.
  pose proof (updateFences_kept b w2) as Hlayout.
  exists (_updateFences b w2). split_and!.
  + done.
  + intros t j Hrun Hj. rewrite (isFlipped_kept w2) by done. by apply (Hflipped t).
  + intros j Hj. rewrite (isFlipped_kept w2) by done.
    unfold isFlipped, field. simpl. by rewrite Hrest.
  + by eapply side_layout_spin.
  + destruct Hkept as (_ & _ & _ & _ & ? & _), Hlayout as (_ & _ & _ & _ & ? & _).
    congruence.
  + destruct Hkept as (_ & _ & ? & _), Hlayout as (_ & _ & ? & _). congruence.
Qed.

(** X16: [flipPart] on a cell without a part changes nothing; a part that is
    not a fence is flipped over a quarter of a second. A fence is flipped
    together with the fences next to it, one after the other along its row
    for a slope and along its column for a side, as long as they are on
    the side it was on and of its variant; no other part changes sides,
    and no part changes its type or rotation. *)
Theorem flipPart_flips_run w b column row :
  (getPart b column row = None → flipPart column row (w, b) = (w, b)) ∧
  (∀ id, getPart b column row = Some id → isFence w (Some id) = false →
         flipPart column row (w, b) = (flip id (1 # 4) w, b)) ∧
  ∀ id, getPart b column row = Some id → isFence w (Some id) = true → wf_grid b →
    let wasFlipped := isFlipped w id in
    let variant := field _variant PREVIEW w (Some id) in
    ∃ w',
      flipPart column row (w, b) = (w', b) ∧
      (∀ t j, in_run b w wasFlipped variant column row t →
              along b variant column row t = Some j → isFlipped w' j = negb wasFlipped) ∧
      (∀ j, (∀ t, in_run b w wasFlipped variant column row t →
                  along b variant column row t ≠ Some j) →
            isFlipped w' j = isFlipped w j) ∧
      parts_related keeps_spin w w' ∧ nextPart w' = nextPart w ∧
      animations w' = animations w.
Proof.
  split_and!.
  - intros Hnone. unfold flipPart. cbn [fst snd]. rewrite Hnone. done.
  - intros id Hid Hfence. unfold flipPart. cbn [fst snd]. by rewrite Hid, Hfence.
  - intros id Hid Hfence Hwf. by apply flipFence_run.
Qed.

Lemma flipPart_flips_run_witness :
  let w := _updateFences slope_board slope_world in
  let w' := (flipPart 2 1 (w, slope_board)).1 in
  (variant w <$> [4; 5; 6; 7]%nat) = [SIDE; SLOPE; SLOPE; SLOPE] ∧
  (isFlipped w <$> [4; 5; 6; 7]%nat) = [false; true; true; true] ∧
  (isFlipped w' <$> [4; 5; 6; 7]%nat) = [false; false; false; false].
Proof.
  intros w w'.
  assert ((variant w <$> [4; 5; 6; 7]%nat) = [SIDE; SLOPE; SLOPE; SLOPE]) as Hv
    by (vm_compute; reflexivity).
  assert ((isFlipped w <$> [4; 5; 6; 7]%nat) = [false; true; true; true]) as Hf
    by (vm_compute; reflexivity).
  split; [exact Hv|]. split; [exact Hf|].
  destruct (flipPart_flips_run w slope_board 2 1) as (_ & _ & H).
  destruct (H 6%nat) as (w1 & Heq & Hrun & Hrest & _).
  - reflexivity.
  - vm_compute. reflexivity.
  - apply (bool_decide_unpack _). vm_compute. reflexivity.
  - unfold w'. rewrite Heq. cbn [fst fmap list_fmap].
    assert (field _variant PREVIEW w (@Some PartId 6%nat) = SLOPE) as Hvar by (vm_compute; reflexivity).
    assert (isFlipped w 6%nat = true) as Hside by (vm_compute; reflexivity).
    rewrite Hvar, Hside in Hrun, Hrest.
    rewrite (Hrun (-1) 5%nat), (Hrun 0 6%nat), (Hrun 1 7%nat), (Hrest 4%nat).
    + vm_compute. reflexivity.
    + intros t Ht Ht'.
      assert (t = -2) as ->.
      { unfold along in Ht'. destruct (decide (t = -2)) as [|Hne]; [done|].
        destruct (decide (-2 < t < 2)) as [Hin|Hout].
        - assert (t = -1 ∨ t = 0 ∨ t = 1) as [->|[->| ->]] by lia; by vm_compute in Ht'.
        - rewrite getPart_outside in Ht'; [done|]. unfold in_bounds. simpl. lia. }
      assert (continues w true SLOPE (along slope_board SLOPE 2 1 (-2)) = true) as Hcon
        by (apply Ht; lia).
      vm_compute in Hcon. discriminate Hcon.
    + intros m Hm. assert (m = 1) as -> by lia. vm_compute. reflexivity.
    + reflexivity.
    + intros m Hm. lia.
    + reflexivity.
    + intros m Hm. assert (m = -1) as -> by lia. vm_compute. reflexivity.
    + reflexivity.
Defined.

(** *** Balls *)

Lemma js_delete_add (ball : PartId) (s : list PartId) :
  ball ∉ s → JsSet.delete ball (JsSet.add ball s) = s.
Proof.
  intros Hni. unfold JsSet.add, JsSet.has. rewrite bool_decide_false by done.
  induction s as [|k s IH]; simpl.
  - by rewrite decide_True.
  - apply not_elem_of_cons in Hni as [Hne Hni].
    rewrite decide_False by done. by rewrite IH.
Qed.

Lemma layoutPart_position w id p column row :
  parts w !! id = Some p →
  ∃ p', parts (layoutPart (Some id) column row w) !! id = Some p' ∧
        (_column p' == column)%Q ∧ (_row p' == row)%Q ∧
        type p' = type p ∧ _rotation p' = _rotation p ∧ _isFlipped p' = _isFlipped p.
Proof.
  intros Hp. unfold layoutPart. rewrite !update_part_lookup, !decide_True, Hp by done.
  simpl. eexists. split; [done|]. unfold Part_row_set, Part_column_set.
  destruct (Qeq_bool column (_column p)) eqn:Hc; simpl;
    destruct (Qeq_bool row _) eqn:Hr; simpl;
    try apply Qeq_bool_iff in Hc; try apply Qeq_bool_iff in Hr; simpl in *;
    split_and!; done || by symmetry.
Qed.

(** X17: [addBall] with a ball that is on the board, and [removeBall] with one
    that is not, change nothing: the ball is not laid out again and the
    change counter stays. A ball that is not on the board is added after
    the others and laid out at the column and row of the point, in units
    of the spacing; the grid is not written to. Adding it again changes
    nothing, and removing it gives back the balls there were, with the
    change counter two higher. *)
Theorem addBall_then_removeBall w b ball x y :
  (ball ∈ balls b → addBall ball x y (w, b) = (w, b)) ∧
  (ball ∉ balls b → removeBall ball (w, b) = (w, b)) ∧
  (ball ∉ balls b →
   ∃ w1 b1,
     addBall ball x y (w, b) = (w1, b1) ∧
     balls b1 = balls b ++ [ball] ∧ _grid b1 = _grid b ∧
     _changeCounter b1 = _changeCounter b + 1 ∧
     (∀ p, parts w !! ball = Some p →
           ∃ p', parts w1 !! ball = Some p' ∧
                 (_column p' == columnForX b x)%Q ∧ (_row p' == rowForY b y)%Q ∧
                 type p' = type p) ∧
     (∀ i, i ≠ ball → parts w1 !! i = parts w !! i) ∧
     (∀ x' y', addBall ball x' y' (w1, b1) = (w1, b1)) ∧
     ∃ b2, removeBall ball (w1, b1) = (w1, b2) ∧
           balls b2 = balls b ∧ _grid b2 = _grid b ∧
           _changeCounter b2 = _changeCounter b + 2).
Proof.
  split_and!.
  - intros Hin. unfold addBall, JsSet.has. by rewrite bool_decide_true.
  - intros Hni. unfold removeBall, JsSet.has. by rewrite bool_decide_false.
  - intros Hni. unfold addBall. unfold JsSet.has at 1. rewrite bool_decide_false by done.
    eexists _, _. split; [reflexivity|].
    assert (JsSet.add ball (balls b) = balls b ++ [ball]) as Hadd.
    { unfold JsSet.add, JsSet.has. by rewrite bool_decide_false. }
    split_and!.
    + simpl. exact Hadd.
    + done.
    + done.
    + intros p Hp.
      destruct (layoutPart_position w ball p (columnForX b x) (rowForY b y) Hp)
        as (p' & Hp' & Hc & Hr & Hty & _).
      exists p'. split_and!; done.
    + intros i Hi. unfold layoutPart. by rewrite !update_part_lookup, !decide_False.
    + intros x' y'. unfold addBall, JsSet.has. simpl. rewrite bool_decide_true; [done|].
      rewrite Hadd. apply elem_of_app. right. by apply list_elem_of_singleton.
    + eexists. unfold removeBall, JsSet.has. simpl. rewrite bool_decide_true.
      * split; [reflexivity|]. simpl. split_and!; [by apply js_delete_add|done|lia].
      * rewrite Hadd. apply elem_of_app. right. by apply list_elem_of_singleton.
Qed.

(** The board of gears with a ball made beside it. *)
Definition ball_world : World := (alloc_part BALL gear_world).2.

Lemma addBall_then_removeBall_witness :
  ∃ w1 b1,
    addBall 6%nat (68 # 1) (34 # 1) (ball_world, gear_board) = (w1, b1) ∧
    balls b1 = [6%nat] ∧
    (∃ p', parts w1 !! 6%nat = Some p' ∧ (_column p' == 1)%Q ∧ (_row p' == 1 # 2)%Q) ∧
    ∃ b2, removeBall 6%nat (w1, b1) = (w1, b2) ∧ balls b2 = [] ∧
          _changeCounter b2 = 2.
Proof.
  destruct (addBall_then_removeBall ball_world gear_board 6%nat (68 # 1) (34 # 1))
    as (_ & _ & H).
  destruct H as (w1 & b1 & Hadd & Hballs & _ & _ & Hpos & _ & _ & b2 & Hrem & Hb2 & _ & Hcc).
  { apply not_elem_of_nil. }
  exists w1, b1. split_and!; [done|done| |].
  - destruct (Hpos (newPart BALL)) as (p' & Hp' & Hc & Hr & _); [reflexivity|].
    exists p'. split_and!; [done| |].
    + rewrite Hc. reflexivity.
    + rewrite Hr. reflexivity.
  - exists b2. split_and!; done.
Defined.

(** *** Sequences of edits of a board *)

(** The objects there were are still there. *)
Definition grows (w w' : World) : Prop :=
  (nextPart w ≤ nextPart w')%nat ∧
  ∀ i, is_Some (parts w !! i) → is_Some (parts w' !! i).

Lemma grows_refl w : grows w w.
Proof. by split. Qed.

Lemma grows_trans w1 w2 w3 : grows w1 w2 → grows w2 w3 → grows w1 w3.
Proof. intros [? H1] [? H2]. split; [lia|]. intros i Hi. by apply H2, H1. Qed.

Lemma grows_related (R : Part → Part → Prop) w w' :
  parts_related R w w' → nextPart w' = nextPart w → grows w w'.
Proof.
  intros HR Hnext. split; [lia|]. intros i [p Hp]. specialize (HR i). rewrite Hp in HR.
  destruct (parts w' !! i); [eauto|done].
Qed.

Lemma grows_update_part id f w : grows w (update_part id f w).
Proof.
  split; [by rewrite update_part_nextPart|]. intros i [p Hp].
  rewrite update_part_lookup. destruct (decide (i = id)) as [->|]; [|eauto].
  rewrite Hp. simpl. eauto.
Qed.

Lemma grows_layoutPart part column row w : grows w (layoutPart part column row w).
Proof.
  destruct part as [id|]; [|apply grows_refl]. simpl.
  eapply grows_trans; apply grows_update_part.
Qed.

Lemma grows_alloc_part ty w :
  let '(id, w') := alloc_part ty w in
  id = nextPart w ∧ nextPart w' = S (nextPart w) ∧ grows w w' ∧ is_Some (parts w' !! id).
Proof.
  unfold alloc_part. simpl. split_and!; [done|done| |].
  - split; [simpl; lia|]. intros i [p Hp]. simpl.
    destruct (decide (i = nextPart w)) as [->|Hne].
    + rewrite lookup_insert_eq. eauto.
    + rewrite lookup_insert_ne by done. eauto.
  - rewrite lookup_insert_eq. eauto.
Qed.

Lemma grows_flip id time w : grows w (flip id time w).
Proof.
  unfold flip. destruct (parts w !! id) as [p|] eqn:Hp; [|apply grows_refl].
  destruct (canFlip (type p)); [apply grows_update_part|].
  destruct (canRotate (type p)); [|apply grows_refl].
  destruct (Qlt_le_dec 0 time) as [Ht|Ht%Qle_not_lt].
  - destruct (PartsFacts.animate_later id
                (if bitValue id w then 1 else 0)%Q (if bitValue id w then 0 else 1)%Q
                time w Ht) as [Hparts _].
    split.
    + unfold animate. simpl.
      destruct (AnimatorFacts.animate_positive setProperty id "rotation"
                  (if bitValue id w then 1 else 0)%Q (if bitValue id w then 0 else 1)%Q
                  time (animations w, w) Ht) as (Hw & _).
      cbn zeta in Hw. simpl in Hw. rewrite Hw. done.
    + intros i Hi. by rewrite Hparts.
  - rewrite PartsFacts.animate_now by done.
    set (w0 := with_animations _ w).
    apply (grows_trans _ w0); [by split|].
    eapply grows_related; [apply rotation_set_result_core|].
    apply rotation_set_result_frame.
Qed.

Lemma elem_of_getPart b i :
  wf_grid b → i ∈ ids_of (mjoin (_grid b)) → ∃ column row, getPart b column row = Some i.
Proof.
  intros Hwf (r & c & Hcell)%elem_of_cell.
  pose proof Hwf as (Hr & Hc & Hlen & Hcols & _).
  destruct (cell_Some_bounds _ _ _ _ _ _ Hlen Hcols Hcell) as [Hr' Hc'].
  exists (Z.of_nat c), (Z.of_nat r). rewrite getPart_cell by (done || lia).
  by rewrite !Nat2Z.id.
Qed.

Lemma getPart_elem_of b column row i :
  wf_grid b → getPart b column row = Some i → i ∈ ids_of (mjoin (_grid b)).
Proof.
  intros Hwf H. pose proof (getPart_in_bounds _ _ _ _ H) as [? ?].
  rewrite getPart_cell in H by (done || lia). by eapply cell_elem_of.
Qed.

(** What a sequence of edits keeps: the grid has the size the board
    records and holds no part twice, every cell of it holds a part that
    exists and was made before now, and the balls of the board were made
    before now and are in no cell. *)
Record sound (st : World * Board) : Prop := mkSound {
  sound_grid : wf_grid st.2;
  sound_cells : ∀ column row id, getPart st.2 column row = Some id →
                  (id < nextPart st.1)%nat ∧ is_Some (parts st.1 !! id);
  sound_filled : ∀ column row, in_bounds st.2 column row →
                   is_Some (getPart st.2 column row);
  sound_balls : ∀ ball, ball ∈ balls st.2 →
                  (ball < nextPart st.1)%nat ∧
                  ∀ column row, getPart st.2 column row ≠ Some ball
}.

Lemma sound_allocated w b : sound (w, b) → grid_allocated b w.
Proof.
  intros H i Hi. destruct (elem_of_getPart b i (sound_grid _ H) Hi) as (c & r & Hget).
  by destruct (sound_cells _ H c r i Hget).
Qed.

(** The world moves on and the board stays. *)
Lemma sound_grows w w' b : sound (w, b) → grows w w' → sound (w', b).
Proof.
  intros [Hwf Hcells Hfilled Hballs] [Hnext Hparts]. split; simpl in *.
  - done.
  - intros c r id Hid. destruct (Hcells c r id Hid) as [? ?]. split; [lia|auto].
  - done.
  - intros ball Hb. destruct (Hballs ball Hb) as [? ?]. split; [lia|done].
Qed.

Lemma sound_new : sound (emptyWorld, newBoard).
Proof.
  split; simpl.
  - unfold wf_grid. simpl. split_and!; try done. constructor.
  - intros c r id H. apply getPart_in_bounds in H. unfold in_bounds in H. simpl in H. lia.
  - intros c r H. unfold in_bounds in H. simpl in H. lia.
  - intros ball H. by apply elem_of_nil in H.
Qed.

Lemma sound_setPart w b new column row :
  sound (w, b) → (nextPart w ≤ new)%nat →
  ∀ w0, grows w w0 → (new < nextPart w0)%nat → is_Some (parts w0 !! new) →
  ∃ st', setPart (Some new) column row (w0, b) = Ok st' ∧ sound st' ∧
         _columnCount st'.2 = _columnCount b ∧ _rowCount st'.2 = _rowCount b.
Proof.
  intros Hs Hnew w0 Hgrows Hlt Hsome.
  pose proof (sound_grows _ _ _ Hs Hgrows) as Hs0.
  destruct (decide (in_bounds b column row)) as [Hin|Hout].
  - assert (new ∉ ids_of (mjoin (_grid b))) as Hfresh.
    { intros Hi%(sound_allocated w b Hs). lia. }
    destruct (setPart_fresh w0 b new column row (sound_grid _ Hs) Hin Hfresh)
      as (w' & b' & Hset & Hwf' & Hget & Hothers & Hcc & Hcol & Hrow & Hballs & Hcore
          & Hnext & _ & Hids).
    exists (w', b'). split; [done|]. split; [|done].
    pose proof (grows_related _ _ _ Hcore Hnext) as [_ Hparts].
    assert (∀ c r id, getPart b' c r = Some id →
              id = new ∨ ∃ c' r', getPart b c' r' = Some id) as Hfrom.
    { intros c r id Hid. apply (getPart_elem_of _ _ _ _ Hwf'), Hids in Hid as [->|[Hid _]];
        [by left|right]. by apply elem_of_getPart; [apply (sound_grid _ Hs)|]. }
    split; simpl.
    + done.
    + intros c r id Hid. rewrite Hnext. destruct (Hfrom c r id Hid) as [->|(c' & r' & H)].
      * split; [done|by apply Hparts].
      * destruct (sound_cells _ Hs0 c' r' id H) as [? ?]. split; [done|by apply Hparts].
    + intros c r Hin'. destruct (decide ((c, r) = (column, row))) as [[= -> ->]|Hne].
      * rewrite Hget. eauto.
      * rewrite Hothers by done. apply (sound_filled _ Hs). unfold in_bounds in *.
        simpl. rewrite <- Hcol, <- Hrow. done.
    + intros ball Hb. rewrite Hballs in Hb.
      destruct (sound_balls _ Hs ball Hb) as [Hlt' Hno]. simpl in *. split.
      * rewrite Hnext. lia.
      * intros c r Hid. destruct (Hfrom c r ball Hid) as [->|(c' & r' & H)]; [lia|].
        by apply (Hno c' r').
  - exists (w0, b). split; [|done].
    unfold setPart. by rewrite (proj2 (out_of_bounds_true b column row)).
Qed.

Lemma sound_setSize {Router : Type}
    (hook : Router → World * Board → Router * (World * Board)) w b C' R' :
  sound (w, b) → sound (setSize hook None C' R' (w, b)).2.
Proof.
  intros Hs.
  destruct (setSize_sized hook w b C' R' (sound_grid _ Hs) (sound_allocated _ _ Hs))
    as (w' & b' & -> & _ & Hwf' & Halloc' & Hcol & Hrow & Hballs & _ & Hmade & Hcells).
  cbn [snd].
  pose proof (sound_grid _ Hs) as Hwf. simpl in Hwf.
  destruct Hmade as (Hnext & Hparts & _).
  (* a cell of the new grid holds a part of the old one or a part made now *)
  assert (∀ c r, in_bounds b' c r →
            (in_bounds b c r ∧ getPart b' c r = getPart b c r) ∨
            ∃ id, getPart b' c r = Some id ∧ (nextPart w ≤ id < nextPart w')%nat ∧
                  is_Some (parts w' !! id)) as Hcell.
  { intros c r [Hc Hr]. rewrite Hcol in Hc. rewrite Hrow in Hr.
    specialize (Hcells (Z.to_nat r) (Z.to_nat c) ltac:(lia) ltac:(lia)).
    rewrite (getPart_cell b') by (done || lia).
    destruct (decide _) as [[Hr0 Hc0]|Hnew].
    - left. split; [unfold in_bounds; lia|].
      rewrite (getPart_cell b) by (done || lia). done.
    - right. destruct Hcells as (id & Hid & Hrange & p & Hp & _). exists id.
      split_and!; [done|lia|lia|eauto]. }
  split; simpl.
  - done.
  - intros c r id Hid. pose proof (getPart_in_bounds _ _ _ _ Hid) as Hin.
    destruct (Hcell c r Hin) as [[Hin0 Heq]|(id' & Hid' & Hrange & Hsome)].
    + rewrite Heq in Hid. destruct (sound_cells _ Hs c r id Hid) as [Hlt Hsome].
      simpl in *. split; [lia|]. by rewrite Hparts.
    + assert (id' = id) as -> by congruence. split; [lia|done].
  - intros c r Hin.
    destruct (Hcell c r Hin) as [[Hin0 Heq]|(id' & Hid' & _)].
    + rewrite Heq. by apply (sound_filled _ Hs).
    + rewrite Hid'. eauto.
  - intros ball Hb. rewrite Hballs in Hb.
    destruct (sound_balls _ Hs ball Hb) as [Hlt Hno]. simpl in *. split; [lia|].
    intros c r Hid. pose proof (getPart_in_bounds _ _ _ _ Hid) as Hin.
    destruct (Hcell c r Hin) as [[Hin0 Heq]|(id' & Hid' & Hrange & _)].
    + rewrite Heq in Hid. by apply (Hno c r).
    + assert (id' = ball) as -> by congruence. lia.
Qed.

Lemma sound_flipPart column row st : sound st → sound (flipPart column row st).
Proof.
  destruct st as [w b]. intros Hs.
  destruct (getPart b column row) as [id|] eqn:Hid; cycle 1.
  { unfold flipPart. cbn [fst snd]. by rewrite Hid. }
  destruct (isFence w (Some id)) eqn:Hfence.
  - destruct (flipFence_run w b column row id Hid Hfence (sound_grid _ Hs))
      as (w' & -> & _ & _ & Hspin & Hnext & _).
    apply (sound_grows w); [done|]. by eapply grows_related.
  - unfold flipPart. cbn [fst snd]. rewrite Hid, Hfence.
    apply (sound_grows w); [done|]. apply grows_flip.
Qed.

Lemma sound_addBall ball x y w w0 b :
  sound (w, b) → (nextPart w ≤ ball)%nat → grows w w0 → (ball < nextPart w0)%nat →
  sound (addBall ball x y (w0, b)).
Proof.
  intros Hs Hnew Hgrows Hlt. pose proof (sound_grows _ _ _ Hs Hgrows) as Hs0.
  unfold addBall. destruct (JsSet.has _ _); [exact Hs0|].
  set (w1 := layoutPart _ _ _ w0).
  assert (grows w0 w1) as [Hnext Hparts] by apply grows_layoutPart.
  destruct Hs0 as [Hwf Hcells Hfilled Hballs]. simpl in *. split; simpl.
  - done.
  - intros c r id Hid.
    change (getPart b c r = Some id) in Hid. destruct (Hcells c r id Hid) as [? ?].
    split; [lia|auto].
  - intros c r Hin. by apply (Hfilled c r).
  - intros ball' [->|Hb]%JsSet.js_elem_of_add.
    + split; [lia|]. intros c r Hid. change (getPart b c r = Some ball) in Hid.
      destruct (sound_cells _ Hs c r ball Hid). simpl in *. lia.
    + destruct (Hballs ball' Hb) as [? Hno]. split; [lia|]. intros c r. apply (Hno c r).
Qed.

Lemma sound_removeBall ball st : sound st → sound (removeBall ball st).
Proof.
  destruct st as [w b]. intros Hs. unfold removeBall.
  destruct (JsSet.has _ _); [|exact Hs].
  destruct Hs as [Hwf Hcells Hfilled Hballs]. simpl in *. split; simpl.
  - done.
  - intros c r id Hid. by apply (Hcells c r).
  - intros c r Hin. by apply (Hfilled c r).
  - intros ball' [_ Hb]%JsSet.js_elem_of_delete. by apply Hballs.
Qed.

(** The edits of a board: the calls its users make. A part that is placed
    is made for the call. *)
Inductive Edit : Type :=
  | SetSize (columnCount rowCount : nat)
  | Place (ty : PartType) (column row : Z)
  | Clear (column row : Z)
  | Flip (column row : Z)
  | DropBall (x y : Q)
  | TakeBall (ball : PartId).

Section edits.
Context {Router : Type}.
Variable onBoardSizeChanged : Router → World * Board → Router * (World * Board).

Definition edit (e : Edit) (st : World * Board)
    : outcome (World * Board) (World * Board) :=
  match e with
  | SetSize columnCount rowCount =>
      Ok (setSize onBoardSizeChanged None columnCount rowCount st).2
  | Place ty column row =>
      let '(part, w) := PartsFacts.make ty st.1 in
      setPart (Some part) column row (w, st.2)
  | Clear column row => clearPart column row st
  | Flip column row => Ok (flipPart column row st)
  | DropBall x y =>
      let '(ball, w) := PartsFacts.make BALL st.1 in
      Ok (addBall ball x y (w, st.2))
  | TakeBall ball => Ok (removeBall ball st)
  end.

Fixpoint edits (es : list Edit) (st : World * Board)
    : outcome (World * Board) (World * Board) :=
  match es with
  | [] => Ok st
  | e :: es =>
      match edit e st with
      | Ok st => edits es st
      | Throw msg st => Throw msg st
      | Diverge => Diverge
      end
  end.

Lemma sound_edit e st : sound st → ∃ st', edit e st = Ok st' ∧ sound st'.
Proof.
  destruct st as [w b]. intros Hs.
  destruct e as [C R|ty c r|c r|c r|x y|ball]; cbn [edit fst snd].
  - eexists. split; [done|]. exact (sound_setSize onBoardSizeChanged w b C R Hs).
  - pose proof (grows_alloc_part ty w) as Hmake. unfold PartsFacts.make.
    destruct (alloc_part ty w) as [part w1]. destruct Hmake as (-> & Hnext & Hgrows & Hsome).
    destruct (sound_setPart w b (nextPart w) c r Hs ltac:(lia) w1 Hgrows ltac:(lia) Hsome)
      as (st' & Hset & Hs' & _).
    eauto.
  - unfold clearPart, makeBackgroundPart. cbn [fst snd].
    pose proof (grows_alloc_part (backgroundType c r) w) as Hmake.
    destruct (alloc_part (backgroundType c r) w) as [part w1].
    destruct Hmake as (-> & Hnext & Hgrows & Hsome).
    destruct (sound_setPart w b (nextPart w) c r Hs ltac:(lia) w1 Hgrows ltac:(lia) Hsome)
      as (st' & Hset & Hs' & _).
    eauto.
  - eexists. split; [done|]. by apply sound_flipPart.
  - pose proof (grows_alloc_part BALL w) as Hmake. unfold PartsFacts.make.
    destruct (alloc_part BALL w) as [ball w1]. destruct Hmake as (-> & Hnext & Hgrows & _).
    eexists. split; [done|]. apply (sound_addBall _ _ _ w); [done|lia|done|lia].
  - eexists. split; [done|]. by apply sound_removeBall.
Qed.

Lemma sound_edits es : ∀ st, sound st → ∃ st', edits es st = Ok st' ∧ sound st'.
Proof.
  induction es as [|e es IH]; intros st Hs; simpl; [eauto|].
  destruct (sound_edit e st Hs) as (st1 & -> & Hs1). by apply IH.
Qed.

(** X18: any sequence of [setSize], [setPart] with a part made for it,
    [clearPart], [flipPart], [addBall] with a ball made for it and
    [removeBall], on a new board without a router, comes back without
    throwing. Afterwards the grid has the size the board records, every
    cell of it holds a part, which exists and is in no other cell, and no
    ball of the board is in a cell. *)
Theorem edits_keep_grid es :
  ∃ w b,
    edits es (emptyWorld, newBoard) = Ok (w, b) ∧
    wf_grid b ∧
    (∀ column row, in_bounds b column row →
       ∃ id p, getPart b column row = Some id ∧ parts w !! id = Some p) ∧
    (∀ column row column' row' id,
       getPart b column row = Some id → getPart b column' row' = Some id →
       column = column' ∧ row = row') ∧
    (∀ ball column row, ball ∈ balls b → getPart b column row ≠ Some ball).
Proof.
  destruct (sound_edits es _ sound_new) as ([w b] & Hrun & [Hwf Hcells Hfilled Hballs]).
  simpl in *. exists w, b. split_and!; [done|done| | |].
  - intros c r Hin. destruct (Hfilled c r Hin) as [id Hid].
    destruct (Hcells c r id Hid) as [_ [p Hp]]. eauto.
  - intros c r c' r' id H H'. by eapply getPart_inj.
  - intros ball c r Hb. by apply Hballs.
Qed.
End edits.

(** *** The fence layout pass writes to fences only *)

Lemma fence_part_fences b r c part st ids w0 :
  layout_kept w0 (f_world st) → slopeParts st ⊆ ids →
  (∀ id, part = Some id → isFence w0 part = true → id ∈ ids) →
  untouched ids (f_world st) (f_world (fence_part b r c part st)) ∧
  slopeParts (fence_part b r c part st) ⊆ ids.
Proof.
  intros Hkept Hsub Hpart.
  assert (slopeParts (close_if_open st) ⊆ ids) as Hnil.
  { rewrite close_if_open_slopeParts. set_solver. }
  unfold fence_part. destruct part as [id|]; [|split; [by apply close_if_open_untouched|done]].
  destruct (isFence (f_world st) (Some id)) eqn:Hfence;
    [|split; [by apply close_if_open_untouched|done]].
  rewrite (isFence_kept w0) in Hfence by done.
  simpl. unfold close_if_turned. rewrite track_north_slopeParts, track_north_world.
  assert (id ∈ ids) as Hid by by apply Hpart.
  destruct (slopeParts st) as [|first rest] eqn:Hs.
  { rewrite track_north_world, track_north_slopeParts, Hs. split; [done|set_solver]. }
  case_bool_decide.
  - simpl. rewrite track_north_world, track_north_slopeParts, Hs.
    split; [by apply makeSlope_untouched|set_solver].
  - rewrite track_north_world, track_north_slopeParts, Hs. split; [done|set_solver].
Qed.

Lemma fence_row_fences b r cells ids w0 : ∀ c st,
  layout_kept w0 (f_world st) → slopeParts st ⊆ ids →
  (∀ id, Some id ∈ cells → isFence w0 (Some id) = true → id ∈ ids) →
  untouched ids (f_world st) (f_world (fence_row b r c cells st)).
Proof.
  induction cells as [|part cells IH]; intros c st Hkept Hsub Hcells; simpl.
  - by apply close_if_open_untouched.
  - destruct (fence_part_fences b r c part st ids w0) as [H1 H2]; [done|done| |].
    { intros id -> Hf. apply Hcells; [by left|done]. }
    eapply untouched_trans; [exact H1|]. apply IH; [|done|].
    + eapply layout_kept_trans; [done|apply fence_part_kept].
    + intros id Hin. apply Hcells. by right.
Qed.

Lemma fence_rows_fences b rows ids w0 : ∀ r st,
  layout_kept w0 (f_world st) → idle st → slopeParts st = [] →
  (∀ id, id ∈ ids_of (mjoin rows) → isFence w0 (Some id) = true → id ∈ ids) →
  untouched ids (f_world st) (f_world (fence_rows b r rows st)).
Proof.
  induction rows as [|row rows IH]; intros r st Hkept Hidle Hnil Hrows; [done|].
  simpl. simpl in Hrows. setoid_rewrite ids_of_app in Hrows.
  destruct (fence_row_idle b r row 0 st Hidle) as [Hidle' Hnil'].
  apply (untouched_trans _ _ (f_world (fence_row b r 0 row st))).
  - apply (fence_row_fences _ _ _ _ w0); [done|rewrite Hnil; set_solver|].
    intros id Hin. apply Hrows, elem_of_app. left. by apply elem_of_ids_of.
  - apply IH; [|done|done|].
    + eapply layout_kept_trans; [done|apply fence_row_kept].
    + intros id Hin. apply Hrows, elem_of_app. by right.
Qed.

(** X19: the fence layout pass [_updateFences] writes to nothing but the
    variant, the modulus and the sequence of the fences in the grid: a
    part that is not a fence of the grid is left as it was, a fence keeps
    all its other fields, and no set, animation or counter of the world
    changes. *)
Theorem updateFences_writes_fences_only b w :
  let w' := _updateFences b w in
  (∀ i, ¬ (i ∈ ids_of (mjoin (_grid b)) ∧ isFence w (Some i) = true) →
        parts w' !! i = parts w !! i) ∧
  parts_related keeps_but_layout w w' ∧
  sets w' = sets w ∧ animations w' = animations w ∧
  _settingConnectedRotation w' = _settingConnectedRotation w ∧
  nextPart w' = nextPart w ∧ nextSet w' = nextSet w.
Proof.
  intros w'. split; [|apply updateFences_kept].
  intros i Hi.
  set (ids := filter (λ i, isFence w (Some i) = true) (ids_of (mjoin (_grid b)))).
  assert (untouched ids w w') as Hrest.
  { apply (fence_rows_fences b (_grid b) ids w 0 (mkFenceScan w [] None None)).
    - apply layout_kept_refl.
    - done.
    - done.
    - intros id Hin Hf. unfold ids. by apply list_elem_of_filter. }
  apply Hrest. unfold ids. rewrite list_elem_of_filter. tauto.
Qed.

(** *** Rebuilding the connections writes to links only *)

(** X20: on a grid that is well formed, [_connectGears] comes back and has
    written to nothing but the [connected] set and the connection label
    of parts, and to [Set] objects: every part is still there with its
    type, position, rotation, side, lock and fence layout, no part is
    made, and no animation is started or stopped. *)
Theorem connectGears_writes_links_only b w :
  wf_grid b →
  ∃ w',
    _connectGears b w = Ok w' ∧
    (∀ i, match parts w !! i, parts w' !! i with
          | Some p, Some p' =>
              with_connected None (with_connectionLabel 0 p')
              = with_connected None (with_connectionLabel 0 p)
          | None, None => True
          | _, _ => False
          end) ∧
    (∀ i, rotation i w' = rotation i w) ∧
    animations w' = animations w ∧
    _settingConnectedRotation w' = _settingConnectedRotation w ∧
    nextPart w' = nextPart w.
Proof.
  intros Hwf. destruct (connectGears_spec b w Hwf) as (w' & Hrun & Hkept & _).
  exists w'. destruct Hkept as (Hparts & Hanim & Hset & Hnext).
  split_and!; try done.
  intros i. specialize (Hparts i). unfold rotation.
  destruct (parts w !! i) as [p|], (parts w' !! i) as [p'|]; try done.
  unfold keeps_but_links in Hparts. by apply (f_equal _rotation) in Hparts.
Qed.

Lemma connectGears_writes_links_only_witness :
  ∃ w',
    _connectGears gear_board gear_world = Ok w' ∧
    (∀ i, rotation i w' = rotation i gear_world) ∧
    animations w' = animations gear_world ∧ nextPart w' = nextPart gear_world.
Proof.
  destruct (connectGears_writes_links_only gear_board gear_world)
    as (w' & Hrun & _ & Hrot & Hanim & _ & Hnext).
  - apply (bool_decide_unpack _). vm_compute. reflexivity.
  - exists w'. split_and!; done.
Defined.

End BoardFacts.

